(** * localsafe.eth: the multisig coordination engine

    A shallow embedding of the parts of the application that decide how
    Safe messages are hashed, how owner-management calls are encoded, how
    the pending transaction queue is kept, how the next nonce is proposed
    and how a counterfactual Safe is deployed step by step.

    JavaScript strings that the code handles here (addresses, version
    numbers, hex payloads, error messages) are sequences of code units;
    they are embedded as [string], one character per code unit.  The
    nonce of a transaction goes through JSON texts, conversions and
    floating-point arithmetic, and is embedded as a JavaScript value, a
    Number being a double ([JS.Number]); the numbers that the code only
    counts and compares (thresholds, owner counts, chain ids) are
    embedded as [Z]. *)

From Stdlib Require Import ZArith Lia Ascii String List Sorted Permutation.
From stdpp Require Import gmap strings list sorting pretty.

Local Open Scope Z_scope.

(** ** Values thrown and caught *)

(** What a [catch (err)] clause receives: an [Error] object with its
    [message], or any other value together with what [String(err)] prints. *)
Inductive Thrown : Type :=
  | ErrorObject (message : string)
  | NonError (repr : string).

(** [err instanceof Error ? err.message : String(err)] *)
Definition errorMessage (err : Thrown) : string :=
  match err with
  | ErrorObject message => message
  | NonError repr => repr
  end.

(** The completion of a call that may throw. *)
Inductive Completion (A : Type) : Type :=
  | Normal (a : A)
  | Throw (err : Thrown).
Arguments Normal {A} a.
Arguments Throw {A} err.

#[global] Instance completion_ret : MRet Completion := fun A a => Normal a.

#[global] Instance completion_bind : MBind Completion := fun A B k c =>
  match c with
  | Normal a => k a
  | Throw err => Throw err
  end.

(** ** The JavaScript built-ins the code relies on *)

Module JS.

(** Truthiness of a string: only the empty string is falsy. *)
Definition truthy (s : string) : bool :=
  match s with
  | EmptyString => false
  | String _ _ => true
  end.

(** [s.startsWith(p)] *)
Fixpoint startsWith (s p : string) {struct p} : bool :=
  match p with
  | EmptyString => true
  | String c p' =>
      match s with
      | EmptyString => false
      | String d s' => if Ascii.eqb d c then startsWith s' p' else false
      end
  end.

(** The first index at which two strings hold different code units, as
    the pair of code units found there; [None] when one string is a
    prefix of the other. *)
Fixpoint firstDifference (px py : string) : option (ascii * ascii) :=
  match px, py with
  | String m px', String n py' =>
      if Ascii.eqb m n then firstDifference px' py' else Some (m, n)
  | _, _ => None
  end.

(** ECMAScript's IsLessThan on two strings: [py] a prefix of [px] gives
    false, [px] a prefix of [py] gives true, otherwise the code units at
    the first difference are compared as numbers. *)
Definition lessThan (px py : string) : bool :=
  if startsWith px py then false
  else if startsWith py px then true
  else match firstDifference px py with
       | Some (m, n) => (N_of_ascii m <? N_of_ascii n)%N
       | None => false
       end.

(** [a >= b] on strings: true unless [a < b]. *)
Definition ge (a b : string) : bool := negb (lessThan a b).

(** Lower-casing of one code unit below 256: the letters [A]..[Z] and the
    Latin-1 capitals (U+00C0..U+00DE without the multiplication sign
    U+00D7) move up by 32, everything else stays. *)
Definition lowerUnit (c : ascii) : ascii :=
  let n := N_of_ascii c in
  if ((65 <=? n) && (n <=? 90))%N then ascii_of_N (n + 32)
  else if ((192 <=? n) && (n <=? 222) && negb (n =? 215))%N
       then ascii_of_N (n + 32)
  else c.

(** [s.toLowerCase()] *)
Fixpoint toLowerCase (s : string) : string :=
  match s with
  | EmptyString => EmptyString
  | String c s' => String (lowerUnit c) (toLowerCase s')
  end.

(** [arr.findIndex(p)], with [None] for the result [-1]. *)
Fixpoint findIndex {A} (p : A -> bool) (arr : list A) : option nat :=
  match arr with
  | [] => None
  | x :: arr' => if p x then Some 0%nat else S <$> findIndex p arr'
  end.

(** [arr.filter((_, i) => i !== k)] drops the element at index [k] and
    nothing else. *)
Definition filterIndexNe {A} (k : nat) (arr : list A) : list A := delete k arr.

(** A [for (const x of items)] loop whose body updates the loop state and
    may throw. *)
Fixpoint forOf {S A} (body : S -> A -> Completion S) (items : list A) (st : S)
    : Completion S :=
  match items with
  | [] => Normal st
  | x :: items' => st' ← body st x; forOf body items' st'
  end.

(** [arr.sort((a, b) => key(a) - key(b))] on integer keys.  The sort is
    stable, which leaves one possible result: ascending keys, entries of
    equal key in the order they had. *)
Fixpoint insertSorted {A} (key : A -> Z) (x : A) (sorted : list A) : list A :=
  match sorted with
  | [] => [x]
  | y :: rest =>
      if key x <=? key y then x :: y :: rest
      else y :: insertSorted key x rest
  end.

Definition sortBy {A} (key : A -> Z) (arr : list A) : list A :=
  foldr (insertSorted key) [] arr.

(** *** Numbers

    A Number is a double.  The finite doubles are whole multiples of
    [2^-1074], the smallest positive double, so a finite Number is kept
    as its count of these units; one is [2^1074] units.  Negative zero is
    kept as zero: no operation used here tells the two apart ([-0 === 0],
    [String(-0)] is ["0"], JSON prints [0]). *)
Inductive Number : Type :=
  | NaN
  | Infinity (negative : bool)
  | Finite (units : Z).

#[global] Instance Number_eq_dec : EqDecision Number.
Proof. solve_decision. Defined.

(** The units in 1, and in [2^1024], the least magnitude that is out of
    range. *)
Definition one : Z := 2 ^ 1074.
Definition overflow : Z := 2 ^ 2098.

(** The Number value for the rational [n / d] units, [d] positive: round
    to nearest, ties to even, on the 53 significant bits a double keeps
    (below [2^53] units every unit counts), and to infinity from
    [overflow] on. *)
Definition nearest (n d : Z) : Number :=
  let a := Z.abs n in
  let drop := Z.max 0 (Z.log2 (a / d) - 52) in
  let ulp := d * 2 ^ drop in
  let q := a / ulp in
  let r := a mod ulp in
  let significand :=
    if 2 * r <? ulp then q
    else if ulp <? 2 * r then q + 1
    else if Z.even q then q else q + 1 in
  let kept := significand * 2 ^ drop in
  if overflow <=? kept then Infinity (n <? 0) else Finite (Z.sgn n * kept).

(** The finite Numbers that are doubles. *)
Definition isDouble (units : Z) : bool :=
  (Z.abs units <? overflow) &&
  (units mod 2 ^ Z.max 0 (Z.log2 (Z.abs units) - 52) =? 0).

(** The Number with the value of the integer [z], exact, and the Number
    value for [z], rounded; they are one up to [2^53] in magnitude. *)
Definition integer (z : Z) : Number := Finite (z * one).
Definition ofZ (z : Z) : Number := nearest (z * one) 1.

(** [Number.MAX_SAFE_INTEGER], and the safe integers. *)
Definition MAX_SAFE_INTEGER : Z := 2 ^ 53 - 1.

Definition safe (z : Z) : Prop := - MAX_SAFE_INTEGER <= z <= MAX_SAFE_INTEGER.

(** [-x] *)
Definition opp (x : Number) : Number :=
  match x with
  | NaN => NaN
  | Infinity negative => Infinity (negb negative)
  | Finite a => Finite (- a)
  end.

(** [x + y] *)
Definition add (x y : Number) : Number :=
  match x, y with
  | NaN, _ | _, NaN => NaN
  | Infinity s, Infinity s' => if Bool.eqb s s' then x else NaN
  | Infinity _, Finite _ => x
  | Finite _, Infinity _ => y
  | Finite a, Finite b => nearest (a + b) 1
  end.

(** [x - y] *)
Definition sub (x y : Number) : Number := add x (opp y).

(** The order of two Numbers, [None] when one of them is [NaN]. *)
Definition compareNumbers (x y : Number) : option comparison :=
  match x, y with
  | NaN, _ | _, NaN => None
  | Infinity s, Infinity s' =>
      Some (if Bool.eqb s s' then Eq else if s then Lt else Gt)
  | Infinity s, Finite _ => Some (if s then Lt else Gt)
  | Finite _, Infinity s => Some (if s then Gt else Lt)
  | Finite a, Finite b => Some (a ?= b)
  end.

(** [x < y], [x === y] and [x !== y] on Numbers, [isNaN(x)], [x > 0]. *)
Definition lt (x y : Number) : bool :=
  match compareNumbers x y with Some Lt => true | _ => false end.

Definition numberEquals (x y : Number) : bool :=
  match compareNumbers x y with Some Eq => true | _ => false end.

Definition isNaN (x : Number) : bool :=
  match x with NaN => true | _ => false end.

Definition positive (x : Number) : bool := lt (Finite 0) x.

(** [Math.max(x, y)] and [Math.max(...values)]. *)
Definition max (x y : Number) : Number :=
  match compareNumbers x y with
  | None => NaN
  | Some Lt => y
  | Some _ => x
  end.

Definition Math_max (values : list Number) : Number :=
  foldl max (Infinity true) values.

(** [x <= y] as a proposition; it fails when one of the two is [NaN]. *)
Definition le (x y : Number) : Prop :=
  match compareNumbers x y with
  | Some Lt | Some Eq => True
  | _ => False
  end.

(** *** Strings and Numbers *)

(** The white space that [parseInt], [Number] and [trim] skip, among the
    code units below 256: TAB, LF, VT, FF, CR, SP and NBSP. *)
Definition isWhiteSpace (c : ascii) : bool :=
  let n := N_of_ascii c in
  ((9 <=? n) && (n <=? 13) || (n =? 32) || (n =? 160))%N.

Fixpoint trimStart (s : string) : string :=
  match s with
  | String c s' => if isWhiteSpace c then trimStart s' else s
  | EmptyString => s
  end.

Fixpoint trimEnd (s : string) : string :=
  match s with
  | EmptyString => EmptyString
  | String c s' =>
      match trimEnd s' with
      | EmptyString => if isWhiteSpace c then EmptyString else String c EmptyString
      | rest => String c rest
      end
  end.

(** [s.trim()] *)
Definition trim (s : string) : string := trimEnd (trimStart s).

(** The value of a digit in a radix up to 16. *)
Definition radixDigit (radix : N) (c : ascii) : option N :=
  let n := N_of_ascii c in
  let v :=
    if ((48 <=? n) && (n <=? 57))%N then Some (n - 48)%N
    else if ((97 <=? n) && (n <=? 102))%N then Some (n - 87)%N
    else if ((65 <=? n) && (n <=? 70))%N then Some (n - 55)%N
    else None in
  match v with
  | Some d => if (d <? radix)%N then Some d else None
  | None => None
  end.

Definition digitValue (c : ascii) : option N :=
  let n := N_of_ascii c in
  if ((48 <=? n) && (n <=? 57))%N then Some (n - 48)%N else None.

(** The value of the longest prefix of decimal digits, continuing from
    [acc]. *)
Fixpoint readDigits (acc : N) (s : string) : N :=
  match s with
  | String c s' =>
      match digitValue c with
      | Some d => readDigits (acc * 10 + d) s'
      | None => acc
      end
  | EmptyString => acc
  end.

(** The longest prefix of decimal digits, and what follows it. *)
Fixpoint spanDigits (s : string) : string * string :=
  match s with
  | String c s' =>
      match digitValue c with
      | Some _ => let '(digits, rest) := spanDigits s' in (String c digits, rest)
      | None => (EmptyString, s)
      end
  | EmptyString => (EmptyString, EmptyString)
  end.

(** The value of a string of digits of a radix, [None] when the string is
    empty or holds anything else. *)
Fixpoint readRadix (radix : N) (acc : N) (s : string) : option N :=
  match s with
  | String c s' =>
      match radixDigit radix c with
      | Some d =>
          match s' with
          | EmptyString => Some (acc * radix + d)%N
          | _ => readRadix radix (acc * radix + d) s'
          end
      | None => None
      end
  | EmptyString => None
  end.

(** The exponent part of a decimal literal: nothing, or [e] or [E], a
    sign if any, and digits. *)
Definition exponentPart (s : string) : option Z :=
  match s with
  | EmptyString => Some 0
  | String c rest =>
      if Ascii.eqb c "e" || Ascii.eqb c "E" then
        let '(sign, digits) :=
          match rest with
          | String "-"%char r => (-1, r)
          | String "+"%char r => (1, r)
          | _ => (1, rest)
          end in
        match spanDigits digits with
        | (String _ _, EmptyString) => Some (sign * Z.of_N (readDigits 0 digits))
        | _ => None
        end
      else None
  end.

(** An unsigned decimal literal: digits, a point and digits, with a digit
    on one side of the point at least, and an exponent part. *)
Definition decimalLiteral (s : string) : option (Z * Z) :=
  let '(whole, rest) := spanDigits s in
  let '(fraction, rest) :=
    match rest with
    | String "."%char r => spanDigits r
    | _ => (EmptyString, rest)
    end in
  match whole +:+ fraction with
  | EmptyString => None
  | digits =>
      match exponentPart rest with
      | Some e => Some (Z.of_N (readDigits 0 digits), e - Z.of_nat (String.length fraction))
      | None => None
      end
  end.

(** The Number value for [m * 10^e]. *)
Definition scientific (m e : Z) : Number :=
  if 0 <=? e then nearest (m * 10 ^ e * one) 1
  else nearest (m * one) (10 ^ (- e)).

(** [Number(s)] on a string: white space is trimmed; the empty string is
    0; then [Infinity] or a decimal literal after a sign if any, or a
    hexadecimal, octal or binary integer without a sign; anything else is
    [NaN]. *)
Definition stringToNumber (s : string) : Number :=
  let trimmed := trim s in
  let unsigned (body : string) : Number :=
    if String.eqb body "Infinity" then Infinity false
    else match decimalLiteral body with
         | Some (m, e) => scientific m e
         | None => NaN
         end in
  let radixLiteral (radix : N) (digits : string) : Number :=
    match readRadix radix 0 digits with
    | Some v => ofZ (Z.of_N v)
    | None => NaN
    end in
  match trimmed with
  | EmptyString => Finite 0
  | String "-"%char body => opp (unsigned body)
  | String "+"%char body => unsigned body
  | String "0"%char (String c digits) =>
      if Ascii.eqb c "x" || Ascii.eqb c "X" then radixLiteral 16%N digits
      else if Ascii.eqb c "o" || Ascii.eqb c "O" then radixLiteral 8%N digits
      else if Ascii.eqb c "b" || Ascii.eqb c "B" then radixLiteral 2%N digits
      else unsigned trimmed
  | _ => unsigned trimmed
  end.

(** The integer that [parseInt(s, 10)] reads, [None] where it gives
    [NaN]: white space, a sign, then the longest prefix of digits, which
    must not be empty. *)
Definition parsedInteger (s : string) : option Z :=
  let trimmed := trimStart s in
  let '(sign, body) :=
    match trimmed with
    | String "-"%char rest => (-1, rest)
    | String "+"%char rest => (1, rest)
    | _ => (1, trimmed)
    end in
  match body with
  | String c _ =>
      match digitValue c with
      | Some _ => Some (sign * Z.of_N (readDigits 0 body))
      | None => None
      end
  | EmptyString => None
  end.

(** [parseInt(s, 10)] *)
Definition parseInt (s : string) : Number :=
  match parsedInteger s with
  | Some z => ofZ z
  | None => NaN
  end.

(** The decimal point of a positive Number: the [n] with
    [10^(n-1) <= x < 10^n], found from 309 down. *)
Definition atLeastPow10 (units e : Z) : bool :=
  if 0 <=? e then 10 ^ e * one <=? units else one <=? units * 10 ^ (- e).

Fixpoint pointFrom (fuel : nat) (e units : Z) : Z :=
  match fuel with
  | O => e
  | S fuel' =>
      if atLeastPow10 units e then e + 1 else pointFrom fuel' (e - 1) units
  end.

Definition decimalPoint (units : Z) : Z := pointFrom 700 308 units.

(** The digits [Number::toString] prints for a positive Number: the
    integer [s] of the fewest digits [k] for which [s * 10^(n-k)] is read
    back as the Number, the nearest to it when there are several, with
    its decimal point [n]. *)
Definition readsBack (units s e : Z) : bool :=
  bool_decide (scientific s e = Finite units).

Definition digitsOfLength (units n k : Z) : option (Z * Z) :=
  let e := n - k in
  let num := if 0 <=? e then units else units * 10 ^ (- e) in
  let den := if 0 <=? e then one * 10 ^ e else one in
  let low := num / den in
  let high := low + 1 in
  let belowGap := num - low * den in
  let aboveGap := high * den - num in
  let normal (s : Z) := if s =? 10 ^ k then (10 ^ (k - 1), n + 1) else (s, n) in
  match readsBack units low e, readsBack units high e with
  | true, true =>
      if belowGap <? aboveGap then Some (normal low)
      else if aboveGap <? belowGap then Some (normal high)
      else if Z.even low then Some (normal low) else Some (normal high)
  | true, false => Some (normal low)
  | false, true => Some (normal high)
  | false, false => None
  end.

Fixpoint shortestFrom (fuel : nat) (units n k : Z) : Z * Z * Z :=
  match digitsOfLength units n k with
  | Some (s, n') => (s, n', k)
  | None =>
      match fuel with
      | O => (units * 10 ^ (k - n) / one, n, k)
      | S fuel' => shortestFrom fuel' units n (k + 1)
      end
  end.

Definition shortestDigits (units : Z) : Z * Z * Z :=
  shortestFrom 16 units (decimalPoint units) 1.

Fixpoint zeros (count : nat) : string :=
  match count with
  | O => EmptyString
  | S count' => String "0" (zeros count')
  end.

(** [s.substring(0, count)] and [s.substring(count)] *)
Fixpoint takeUnits (count : nat) (s : string) : string :=
  match count, s with
  | S count', String c s' => String c (takeUnits count' s')
  | _, _ => EmptyString
  end.

Fixpoint dropUnits (count : nat) (s : string) : string :=
  match count, s with
  | S count', String _ s' => dropUnits count' s'
  | _, _ => s
  end.

(** The text of a positive Number from its digits. *)
Definition layOut (s n k : Z) : string :=
  let digits : string := pretty s in
  if (k <=? n) && (n <=? 21) then digits +:+ zeros (Z.to_nat (n - k))
  else if (0 <? n) && (n <=? 21) then
    takeUnits (Z.to_nat n) digits +:+ "." +:+ dropUnits (Z.to_nat n) digits
  else if (-6 <? n) && (n <=? 0) then "0." +:+ zeros (Z.to_nat (- n)) +:+ digits
  else
    let exponent : string :=
      (if n - 1 <? 0 then "-" else "+") +:+ pretty (Z.abs (n - 1)) in
    if k =? 1 then digits +:+ "e" +:+ exponent
    else takeUnits 1 digits +:+ "." +:+ dropUnits 1 digits +:+ "e" +:+ exponent.

(** [String(x)] on a Number.  An integer up to [2^53] in magnitude prints
    as its decimal digits, which is what the shortest digits come to
    there. *)
Definition numberToString (x : Number) : string :=
  match x with
  | NaN => "NaN"
  | Infinity negative => if negative then "-Infinity" else "Infinity"
  | Finite units =>
      if (units mod one =? 0) && (Z.abs units <=? 2 ^ 53 * one)
      then pretty (units / one)
      else
        let '(s, n, k) := shortestDigits (Z.abs units) in
        (if units <? 0 then "-" else "") +:+ layOut s n k
  end.

(** [String(n)] for a Number that holds the integer [n]. *)
Definition integerToString (z : Z) : string := numberToString (ofZ z).

(** *** Values

    The values a JSON text can give a property, and [undefined] for a
    property that is absent.  Objects and arrays are left out: what is
    modelled with this type is a nonce, and the code converts an object
    there to a Number through its [toString], which the embedding does
    not follow. *)
Inductive Value : Type :=
  | Undefined
  | Null
  | Boolean (b : bool)
  | Numeric (x : Number)
  | Text (s : string).

#[global] Instance Value_eq_dec : EqDecision Value.
Proof. solve_decision. Defined.

(** [Number(v)] *)
Definition toNumber (v : Value) : Number :=
  match v with
  | Undefined => NaN
  | Null => Finite 0
  | Boolean b => if b then integer 1 else Finite 0
  | Numeric x => x
  | Text s => stringToNumber s
  end.

(** [v === w] *)
Definition strictEquals (v w : Value) : bool :=
  match v, w with
  | Undefined, Undefined | Null, Null => true
  | Boolean a, Boolean b => Bool.eqb a b
  | Numeric x, Numeric y => numberEquals x y
  | Text s, Text t => String.eqb s t
  | _, _ => false
  end.

(** What [JSON.parse(JSON.stringify(o))] gives a property that held [v]:
    [NaN] and the infinities are printed as [null], and a property that
    is [undefined] is left out. *)
Definition throughJSON (v : Value) : Value :=
  match v with
  | Numeric NaN | Numeric (Infinity _) => Null
  | _ => v
  end.

(** [arr.sort(compareFn)].  The language leaves the algorithm to the
    engine, and asks that the sort be stable; for a comparator that
    orders the entries consistently that leaves one result.  The sort is
    an insertion sort here: an entry moves behind the entries the
    comparator puts before it, where a comparison that gives [NaN]
    counts as 0. *)
Fixpoint insertBy {A} (compareFn : A -> A -> Number) (x : A) (sorted : list A)
    : list A :=
  match sorted with
  | [] => [x]
  | y :: rest =>
      if positive (compareFn x y) then y :: insertBy compareFn x rest
      else x :: y :: rest
  end.

Definition sort {A} (compareFn : A -> A -> Number) (arr : list A) : list A :=
  foldr (insertBy compareFn) [] arr.

(** *** Facts about the built-ins *)

Lemma startsWith_cons (m n : ascii) (s p : string) :
  startsWith (String m s) (String n p) =
  if Ascii.eqb m n then startsWith s p else false.
Proof. reflexivity. Qed.

Lemma startsWith_iff (s p : string) :
  startsWith s p = true <-> exists rest, s = String.append p rest.
Proof.
  revert s; induction p as [|c p IH]; intros s; simpl.
  - split; [intros _; exists s; reflexivity | reflexivity].
  - destruct s as [|d s].
    + split; [discriminate | intros [rest Hr]; discriminate].
    + destruct (Ascii.eqb_spec d c) as [->|Hne].
      * rewrite IH. split; intros [rest Hr]; exists rest.
        -- now rewrite Hr.
        -- now inversion Hr.
      * split; [discriminate | intros [rest Hr]; inversion Hr; congruence].
Qed.

(** The comparison agrees with lexicographic order on code units. *)
Lemma lessThan_compare (px py : string) :
  lessThan px py = true <-> String.compare px py = Lt.
Proof.
  revert py; induction px as [|m px IH]; intros [|n py]; simpl.
  - unfold lessThan; simpl. split; discriminate.
  - unfold lessThan; simpl. split; reflexivity.
  - unfold lessThan; simpl. split; discriminate.
  - unfold lessThan. rewrite !startsWith_cons. simpl.
    rewrite (Ascii.eqb_sym n m).
    destruct (Ascii.eqb_spec m n) as [->|Hne].
    + assert (Ascii.compare n n = Eq) as -> by (unfold Ascii.compare; apply N.compare_refl).
      apply IH.
    + unfold Ascii.compare. rewrite N.ltb_compare.
      destruct (N_of_ascii m ?= N_of_ascii n)%N eqn:Hc.
      * apply N.compare_eq_iff in Hc.
        exfalso; apply Hne.
        now rewrite <- (ascii_N_embedding m), <- (ascii_N_embedding n), Hc.
      * split; reflexivity.
      * split; discriminate.
Qed.

Lemma findIndex_Some {A} (p : A -> bool) (arr : list A) (i : nat) :
  findIndex p arr = Some i ->
  exists x, arr !! i = Some x /\ p x = true /\
    forall j y, (j < i)%nat -> arr !! j = Some y -> p y = false.
Proof.
  revert i; induction arr as [|a arr IH]; intros i; simpl; [discriminate|].
  destruct (p a) eqn:Hp.
  - intros [= <-]. exists a. repeat split; auto. intros j y Hj; lia.
  - destruct (findIndex p arr) as [k|]; [|discriminate].
    intros [= <-]. destruct (IH k eq_refl) as (x & Hx & Hpx & Hmin).
    exists x. repeat split; auto.
    intros [|j] y Hj; simpl; [congruence|]. apply Hmin; lia.
Qed.

Lemma findIndex_None {A} (p : A -> bool) (arr : list A) :
  findIndex p arr = None <-> Forall (fun x => p x = false) arr.
Proof.
  induction arr as [|a arr IH]; simpl.
  - split; [constructor | reflexivity].
  - destruct (p a) eqn:Hp.
    + split; [discriminate | intros H; inversion H; congruence].
    + destruct (findIndex p arr) as [k|]; simpl.
      * split; [discriminate|]. intros H; inversion H; subst.
        apply IH in H3. discriminate.
      * split; [|reflexivity]. intros _. constructor; [exact Hp | now apply IH].
Qed.

Lemma forOf_app {S A} (body : S -> A -> Completion S) (xs ys : list A) (st : S) :
  forOf body (xs ++ ys) st = (st' ← forOf body xs st; forOf body ys st').
Proof.
  revert st; induction xs as [|x xs IH]; intros st; simpl; [reflexivity|].
  destruct (body st x) as [st'|err]; simpl; [apply IH | reflexivity].
Qed.

Section SortBy.
Context {A : Type} (key : A -> Z).

Lemma insertSorted_perm (x : A) (l : list A) : insertSorted key x l ≡ₚ x :: l.
Proof.
  induction l as [|y l IH]; simpl; [reflexivity|].
  destruct (key x <=? key y); [reflexivity|].
  rewrite IH. apply perm_swap.
Qed.

Lemma sortBy_perm (l : list A) : sortBy key l ≡ₚ l.
Proof.
  induction l as [|x l IH]; simpl; [reflexivity|].
  unfold sortBy in IH. now rewrite insertSorted_perm, IH.
Qed.

Lemma insertSorted_sorted (x : A) (l : list A) :
  StronglySorted (fun a b => key a <= key b) l ->
  StronglySorted (fun a b => key a <= key b) (insertSorted key x l).
Proof.
  induction 1 as [|y l Hs IH Hy]; simpl.
  - repeat constructor.
  - destruct (Z.leb_spec (key x) (key y)) as [Hle|Hgt].
    + constructor; [now constructor|].
      constructor; [exact Hle|].
      eapply Forall_impl; [exact Hy|]. simpl. intros z Hz. lia.
    + constructor; [exact IH|].
      rewrite insertSorted_perm. constructor; [lia | exact Hy].
Qed.

Lemma sortBy_sorted (l : list A) :
  StronglySorted (fun a b => key a <= key b) (sortBy key l).
Proof.
  induction l as [|x l IH]; simpl; [constructor|].
  now apply insertSorted_sorted.
Qed.

(** Stability: entries of one key keep their order. *)
Lemma insertSorted_stable (k : Z) (x : A) (l : list A) :
  filter (fun y => key y = k) (insertSorted key x l) =
  filter (fun y => key y = k) (x :: l).
Proof.
  induction l as [|y l IH]; simpl; [reflexivity|].
  destruct (Z.leb_spec (key x) (key y)) as [Hle|Hgt]; [reflexivity|].
  rewrite filter_cons, IH, !filter_cons.
  destruct (decide (key y = k)), (decide (key x = k)); try reflexivity. lia.
Qed.

Lemma sortBy_stable (k : Z) (l : list A) :
  filter (fun y => key y = k) (sortBy key l) = filter (fun y => key y = k) l.
Proof.
  induction l as [|x l IH]; [reflexivity|].
  unfold sortBy in *. simpl. rewrite insertSorted_stable, !filter_cons, IH.
  reflexivity.
Qed.

(** Sorting a list that is in order already changes nothing. *)
Lemma sortBy_sorted_id (l : list A) :
  StronglySorted (fun a b => key a <= key b) l -> sortBy key l = l.
Proof.
  induction 1 as [|x l Hs IH Hx]; [reflexivity|].
  unfold sortBy in *. simpl. rewrite IH.
  destruct l as [|y l]; simpl; [reflexivity|].
  inversion Hx as [|? ? Hxy _]; subst.
  destruct (Z.leb_spec (key x) (key y)); [reflexivity | lia].
Qed.

Lemma sorted_NoDup_strict (l : list A) :
  StronglySorted (fun a b => key a <= key b) l -> NoDup (key <$> l) ->
  StronglySorted (fun a b => key a < key b) l.
Proof.
  induction 1 as [|x l Hs IH Hx]; simpl; [constructor|].
  intros Hnd. apply NoDup_cons in Hnd as [Hnotin Hnd].
  constructor; [now apply IH|].
  apply Forall_forall. intros y Hy.
  rewrite Forall_forall in Hx. specialize (Hx y Hy).
  assert (key y <> key x).
  { intros Heq. apply Hnotin. rewrite <- Heq. now apply list_elem_of_fmap_2. }
  lia.
Qed.

Lemma strict_NoDup (l : list A) :
  StronglySorted (fun a b => key a < key b) l -> NoDup (key <$> l).
Proof.
  induction 1 as [|x l Hs IH Hx]; simpl; constructor; [|exact IH].
  intros Hin. apply list_elem_of_fmap in Hin as (y & Hy & Hin).
  rewrite Forall_forall in Hx. specialize (Hx y Hin). lia.
Qed.

Lemma strict_sorted (l : list A) :
  StronglySorted (fun a b => key a < key b) l ->
  StronglySorted (fun a b => key a <= key b) l.
Proof.
  induction 1 as [|x l Hs IH Hx]; constructor; [exact IH|].
  eapply Forall_impl; [exact Hx|]. simpl. intros; lia.
Qed.

Lemma sortBy_strict (l : list A) :
  NoDup (key <$> l) -> StronglySorted (fun a b => key a < key b) (sortBy key l).
Proof.
  intros Hnd. apply sorted_NoDup_strict; [apply sortBy_sorted|].
  now rewrite sortBy_perm.
Qed.

End SortBy.

(** *** Facts about Numbers *)

Lemma one_pos : 0 < one.
Proof. unfold one. apply Z.pow_pos_nonneg; lia. Qed.

Lemma sgn_mul_abs (u : Z) : Z.sgn u * Z.abs u = u.
Proof. destruct u; simpl; lia. Qed.

(** A double is the Number value for itself. *)
Lemma nearest_exact (u : Z) : isDouble u = true -> nearest u 1 = Finite u.
Proof.
  unfold isDouble, nearest. intros H.
  apply andb_true_iff in H as [Hrange Hmod].
  apply Z.ltb_lt in Hrange. apply Z.eqb_eq in Hmod.
  rewrite Z.div_1_r, Z.mul_1_l.
  set (drop := Z.max 0 (Z.log2 (Z.abs u) - 52)) in *.
  assert (Hpow : 0 < 2 ^ drop) by (apply Z.pow_pos_nonneg; lia).
  assert (Habs : Z.abs u mod 2 ^ drop = 0).
  { destruct (Z.abs_spec u) as [[_ ->]|[_ ->]]; [exact Hmod|].
    apply Z_mod_zero_opp_full. exact Hmod. }
  rewrite Habs.
  assert ((2 * 0 <? 2 ^ drop) = true) as -> by (apply Z.ltb_lt; lia).
  assert (Hkept : Z.abs u / 2 ^ drop * 2 ^ drop = Z.abs u).
  { pose proof (Z.div_mod (Z.abs u) (2 ^ drop) ltac:(lia)). lia. }
  rewrite Hkept.
  assert ((overflow <=? Z.abs u) = false) as -> by (apply Z.leb_gt; exact Hrange).
  now rewrite sgn_mul_abs.
Qed.

Lemma isDouble_integer (z : Z) : Z.abs z <= 2 ^ 53 -> isDouble (z * one) = true.
Proof.
  intros Hz. unfold isDouble. apply andb_true_iff. split.
  - apply Z.ltb_lt. rewrite Z.abs_mul, (Z.abs_eq one) by (pose proof one_pos; lia).
    assert (Z.abs z * one <= 2 ^ 53 * one)
      by (apply Z.mul_le_mono_nonneg_r; [pose proof one_pos; lia | exact Hz]).
    assert (2 ^ 53 * one < overflow) by (unfold one, overflow; rewrite <- Z.pow_add_r by lia; apply Z.pow_lt_mono_r; lia).
    lia.
  - apply Z.eqb_eq.
    destruct (decide (z = 0)) as [->|Hnz]; [reflexivity|].
    rewrite Z.abs_mul, (Z.abs_eq one) by (pose proof one_pos; lia).
    unfold one. rewrite Z.log2_mul_pow2 by lia.
    assert (Hlog : 0 <= Z.log2 (Z.abs z) <= 53).
    { split; [apply Z.log2_nonneg|].
      replace 53 with (Z.log2 (2 ^ 53)) by (rewrite Z.log2_pow2; lia).
      now apply Z.log2_le_mono. }
    rewrite Z.max_r by lia.
    destruct (decide (Z.log2 (Z.abs z) = 53)) as [H53|Hlt].
    + assert (Habs : Z.abs z = 2 ^ 53).
      { destruct (Z.log2_spec (Z.abs z)) as [Hlow _]; [lia|].
        rewrite H53 in Hlow. lia. }
      rewrite H53.
      assert (Hz' : z = 2 ^ 53 \/ z = - 2 ^ 53) by lia.
      replace (1074 + 53 - 52) with (1074 + 1) by lia.
      rewrite (Z.pow_add_r 2 1074 1) by lia.
      destruct Hz' as [->| ->].
      * replace (2 ^ 53 * 2 ^ 1074) with (2 ^ 52 * (2 ^ 1074 * 2 ^ 1))
          by (change (2 ^ 53) with (2 ^ 52 * 2); change (2 ^ 1) with 2; lia).
        apply Z.mod_mul.
        apply Z.neq_mul_0; split; apply Z.pow_nonzero; lia.
      * replace ((- 2 ^ 53) * 2 ^ 1074) with ((- 2 ^ 52) * (2 ^ 1074 * 2 ^ 1))
          by (change (2 ^ 53) with (2 ^ 52 * 2); change (2 ^ 1) with 2; lia).
        apply Z.mod_mul.
        apply Z.neq_mul_0; split; apply Z.pow_nonzero; lia.
    + set (l := Z.log2 (Z.abs z)) in *.
      replace (2 ^ 1074) with (2 ^ (52 - l) * 2 ^ (1074 + l - 52))
        by (rewrite <- Z.pow_add_r by lia; f_equal; lia).
      rewrite Z.mul_assoc. apply Z.mod_mul. apply Z.pow_nonzero; lia.
Qed.

(** Up to [2^53] in magnitude the integers are Numbers. *)
Lemma ofZ_integer (z : Z) : Z.abs z <= 2 ^ 53 -> ofZ z = integer z.
Proof. intros Hz. apply nearest_exact, isDouble_integer, Hz. Qed.

Lemma opp_integer (z : Z) : opp (integer z) = integer (- z).
Proof. unfold opp, integer. f_equal. lia. Qed.

Lemma add_integer (a b : Z) :
  Z.abs (a + b) <= 2 ^ 53 -> add (integer a) (integer b) = integer (a + b).
Proof.
  intros H. unfold add, integer. rewrite <- Z.mul_add_distr_r.
  apply nearest_exact, isDouble_integer, H.
Qed.

Lemma compare_integer (a b : Z) : (a * one ?= b * one) = (a ?= b).
Proof.
  pose proof one_pos.
  destruct (Z.compare_spec a b) as [->|Hlt|Hgt].
  - apply Z.compare_refl.
  - apply Z.compare_lt_iff. nia.
  - apply Z.compare_gt_iff. nia.
Qed.


Lemma lt_integer (a b : Z) : lt (integer a) (integer b) = (a <? b).
Proof.
  unfold lt, integer, compareNumbers. rewrite compare_integer.
  unfold Z.ltb. now destruct (a ?= b).
Qed.

Lemma numberEquals_integer (a b : Z) : numberEquals (integer a) (integer b) = (a =? b).
Proof.
  unfold numberEquals, integer, compareNumbers.
  rewrite compare_integer, Z.eqb_compare. now destruct (a ?= b).
Qed.

Lemma lt_Finite (a b : Z) : lt (Finite a) (Finite b) = (a <? b).
Proof. unfold lt, compareNumbers, Z.ltb. now destruct (a ?= b). Qed.

Lemma lt_irrefl (x : Number) : lt x x = false.
Proof.
  destruct x as [|s|a]; [reflexivity| |].
  - unfold lt, compareNumbers. now rewrite Bool.eqb_reflx.
  - rewrite lt_Finite. apply Z.ltb_irrefl.
Qed.

Lemma numberEquals_Finite (a b : Z) : numberEquals (Finite a) (Finite b) = (a =? b).
Proof.
  unfold numberEquals, compareNumbers. rewrite Z.eqb_compare. now destruct (a ?= b).
Qed.

Lemma max_integer (a b : Z) : max (integer a) (integer b) = integer (Z.max a b).
Proof.
  unfold max, integer, compareNumbers. rewrite compare_integer.
  unfold Z.max. now destruct (a ?= b).
Qed.

Lemma Math_max_integer (x : Z) (rest : list Z) :
  Math_max (integer x :: (integer <$> rest)) = integer (foldl Z.max x rest).
Proof.
  unfold Math_max. cbn [foldl]. change (max (Infinity true) (integer x)) with (integer x).
  revert x. induction rest as [|z l IH]; intros y; [reflexivity|].
  cbn [fmap list_fmap foldl]. rewrite max_integer. apply IH.
Qed.

Lemma Math_max_pair (a b : Z) :
  Math_max [integer a; integer b] = integer (Z.max a b).
Proof. exact (Math_max_integer a [b]). Qed.

(** Rounding keeps the sign. *)
Lemma positive_nearest (n : Z) : positive (nearest n 1) = (0 <? n).
Proof.
  destruct (decide (n = 0)) as [->|Hnz]; [vm_compute; reflexivity|].
  unfold nearest. rewrite Z.div_1_r, Z.mul_1_l.
  set (drop := Z.max 0 (Z.log2 (Z.abs n) - 52)).
  assert (Hpow : 0 < 2 ^ drop) by (apply Z.pow_pos_nonneg; lia).
  set (q := Z.abs n / 2 ^ drop).
  set (r := Z.abs n mod 2 ^ drop).
  set (significand := if 2 * r <? 2 ^ drop then q
                      else if 2 ^ drop <? 2 * r then q + 1
                      else if Z.even q then q else q + 1).
  assert (Hq1 : 1 <= q).
  { unfold q. apply Z.div_le_lower_bound; [lia|]. rewrite Z.mul_1_r.
    unfold drop. destruct (Z.max_spec 0 (Z.log2 (Z.abs n) - 52)) as [[_ ->]|[_ ->]].
    - destruct (Z.log2_spec (Z.abs n)) as [Hlow _]; [lia|].
      etransitivity; [|exact Hlow]. apply Z.pow_le_mono_r; lia.
    - simpl. lia. }
  assert (Hsig : q <= significand)
    by (unfold significand; repeat case_match; lia).
  assert (Hkept : 0 < significand * 2 ^ drop) by nia.
  unfold positive, lt, compareNumbers.
  destruct (Z.ltb_spec 0 n) as [Hpos|Hneg].
  - destruct (overflow <=? significand * 2 ^ drop).
    + assert ((n <? 0) = false) as -> by (apply Z.ltb_ge; lia). reflexivity.
    + rewrite Z.sgn_pos by lia.
      destruct (Z.compare_spec 0 (1 * (significand * 2 ^ drop)));
        try reflexivity; lia.
  - destruct (overflow <=? significand * 2 ^ drop).
    + assert ((n <? 0) = true) as -> by (apply Z.ltb_lt; lia). reflexivity.
    + rewrite Z.sgn_neg by lia.
      destruct (Z.compare_spec 0 (-1 * (significand * 2 ^ drop)));
        try reflexivity; lia.
Qed.

Lemma positive_sub (a b : Z) : positive (sub (Finite a) (Finite b)) = (b <? a).
Proof.
  unfold sub, opp, add. rewrite positive_nearest.
  destruct (Z.ltb_spec 0 (a + - b)), (Z.ltb_spec b a); try reflexivity; lia.
Qed.

(** *** Facts about the text of a Number *)

(** The first character written for a positive number is a digit. *)
Lemma pretty_N_go_head (x : N) : forall s : string,
  (0 < x)%N ->
  exists d rest, (d < 10)%N /\ pretty_N_go x s = String (pretty_N_char d) rest.
Proof.
  induction (N.lt_wf_0 x) as [x _ IH]. intros s Hx.
  rewrite pretty_N_go_step by exact Hx.
  destruct (decide (x `div` 10 = 0)%N) as [Hz|Hnz].
  - rewrite Hz, pretty_N_go_0. exists (x `mod` 10)%N, s.
    split; [apply N.mod_lt; lia | reflexivity].
  - apply IH; [apply N.div_lt; lia | now apply N.neq_0_lt_0].
Qed.

Lemma truthy_pretty (n : Z) : truthy (pretty n) = true.
Proof.
  assert (Hgo : forall x, (0 < x)%N -> truthy (pretty_N_go x "") = true).
  { intros x Hx. destruct (pretty_N_go_head x "" Hx) as (d & rest & _ & ->).
    reflexivity. }
  unfold pretty, pretty_Z. destruct n as [|p|p]; try reflexivity.
  unfold pretty, pretty_positive, pretty, pretty_N.
  destruct (decide (N.pos p = 0%N)) as [H|_]; [discriminate H|].
  apply Hgo. lia.
Qed.

Lemma truthy_append_l (a b : string) : truthy a = true -> truthy (a +:+ b) = true.
Proof. destruct a; [discriminate | reflexivity]. Qed.

Lemma truthy_append_r (a b : string) : truthy b = true -> truthy (a +:+ b) = true.
Proof. destruct a; [now simpl | reflexivity]. Qed.

(** The text of a Number is never empty. *)
Lemma truthy_numberToString (x : Number) : truthy (numberToString x) = true.
Proof.
  destruct x as [|[]|u]; try reflexivity.
  unfold numberToString.
  destruct ((u mod one =? 0) && (Z.abs u <=? 2 ^ 53 * one)); [apply truthy_pretty|].
  destruct (shortestDigits (Z.abs u)) as [[s n] k].
  apply truthy_append_r. unfold layOut.
  repeat case_match;
    first [ apply truthy_append_l, truthy_pretty
          | apply truthy_append_r; reflexivity
          | reflexivity ].
Qed.

Lemma truthy_integerToString (z : Z) : truthy (integerToString z) = true.
Proof. apply truthy_numberToString. Qed.

(** *** Facts about the sort *)

Section Sort.
Context {A : Type} (compareFn : A -> A -> Number).

Lemma insertBy_perm (x : A) (l : list A) : insertBy compareFn x l ≡ₚ x :: l.
Proof.
  induction l as [|y l IH]; simpl; [reflexivity|].
  destruct (positive (compareFn x y)); [|reflexivity].
  rewrite IH. apply perm_swap.
Qed.

Lemma sort_perm (l : list A) : sort compareFn l ≡ₚ l.
Proof.
  induction l as [|x l IH]; simpl; [reflexivity|].
  unfold sort in IH. now rewrite insertBy_perm, IH.
Qed.

(** A comparator that is the difference of two integer keys sorts by the
    key. *)
Lemma insertBy_key (key : A -> Z) (x : A) (l : list A) :
  Forall (fun y => positive (compareFn x y) = (key y <? key x)) l ->
  insertBy compareFn x l = insertSorted key x l.
Proof.
  induction 1 as [|y l Hy _ IH]; simpl; [reflexivity|].
  rewrite Hy, IH.
  destruct (Z.ltb_spec (key y) (key x)), (Z.leb_spec (key x) (key y));
    try reflexivity; lia.
Qed.

Lemma sort_key (key : A -> Z) (l : list A) :
  (forall x y, x ∈ l -> y ∈ l -> positive (compareFn x y) = (key y <? key x)) ->
  sort compareFn l = sortBy key l.
Proof.
  induction l as [|x l IH]; intros Hc; [reflexivity|].
  unfold sort, sortBy in *. simpl.
  rewrite IH by (intros; apply Hc; now right).
  apply insertBy_key. apply Forall_forall. intros y Hy.
  apply Hc; [now left | right].
  now rewrite <- (sortBy_perm key l).
Qed.

End Sort.

End JS.

(** Lexicographic order on strings as the Standard Library defines it,
    used as the reference the JavaScript comparison is checked against. *)
Definition lex_ge (a b : string) : bool :=
  match String.compare a b with
  | Lt => false
  | _ => true
  end.

Lemma ge_lex_ge (a b : string) : JS.ge a b = lex_ge a b.
Proof.
  unfold JS.ge, lex_ge.
  destruct (JS.lessThan a b) eqn:Hlt.
  - apply JS.lessThan_compare in Hlt. now rewrite Hlt.
  - destruct (String.compare a b) eqn:Hc; try reflexivity.
    apply JS.lessThan_compare in Hc. congruence.
Qed.

(** ** app/utils/messageHashing.ts *)

Module MessageHashing.

(** An EIP-712 domain object; a member that the object literal leaves
    out is [None]. *)
Record Domain : Type := mkDomain {
  chainId : option Z;
  verifyingContract : string;
}.

(** [{ name, type }] entries of a struct type, and the [types] object. *)
Definition TypeFields : Type := list (string * string).
Definition Types : Type := list (string * TypeFields).

(** The value object of the [SafeMessage] struct. *)
Record SafeMessageValue : Type := mkSafeMessageValue {
  message : string;
}.

Record EIP712HashResult : Type := mkResult {
  domainHash : string;
  messageHash : string;
  eip712Hash : string;
  safeMessage : option string;
}.

(** The domain object literal of [calculateSafeMessageHashes]. *)
Definition safeMessageDomain (safeAddress : string) (chain : Z)
    (safeVersion : string) : Domain :=
  let includeChainId := JS.ge safeVersion "1.3.0" in
  if includeChainId
  then {| chainId := Some chain; verifyingContract := safeAddress |}
  else {| chainId := None; verifyingContract := safeAddress |}.

Definition safeMessageTypes : Types :=
  [("SafeMessage", [("message", "bytes")])].

(** A decoder for hex payloads that spell ASCII text, standing in for
    [ethers.toUtf8String] when the definitions are run on examples: it
    throws on malformed hex and on bytes outside ASCII. *)
Definition hexDigit (c : ascii) : option N :=
  let n := N_of_ascii c in
  if ((48 <=? n) && (n <=? 57))%N then Some (n - 48)%N
  else if ((97 <=? n) && (n <=? 102))%N then Some (n - 87)%N
  else if ((65 <=? n) && (n <=? 70))%N then Some (n - 55)%N
  else None.

Fixpoint hexBytes (s : string) : option string :=
  match s with
  | EmptyString => Some EmptyString
  | String h (String l s') =>
      hi ← hexDigit h; lo ← hexDigit l; rest ← hexBytes s';
      if (16 * hi + lo <? 128)%N
      then Some (String (ascii_of_N (16 * hi + lo)) rest)
      else None
  | String _ EmptyString => None
  end.

Definition asciiToUtf8String (msg : string) : Completion string :=
  match msg with
  | String "0" (String "x" digits) =>
      match hexBytes digits with
      | Some text => Normal text
      | None => Throw (ErrorObject "invalid payload")
      end
  | _ => Throw (ErrorObject "invalid BytesLike value")
  end.

Section WithEthers.

(** [ethers.TypedDataEncoder.hashDomain], [.hashStruct] and [.hash];
    each may throw on a value it cannot encode. *)
Variable hashDomain : Domain -> Completion string.
Variable hashStruct : string -> Types -> SafeMessageValue -> Completion string.
Variable hash : Domain -> Types -> SafeMessageValue -> Completion string.

(** [ethers.toUtf8String], which throws on bytes that are not UTF-8, and
    [ethers.hashMessage] on a string. *)
Variable toUtf8String : string -> Completion string.
Variable hashMessage : string -> string.

Definition calculateDomainHash (domain : Domain) : Completion string :=
  hashDomain domain.

Definition calculateStructHash (primaryType : string) (types : Types)
    (msg : SafeMessageValue) : Completion string :=
  hashStruct primaryType types msg.

Definition calculateEIP712Hash (domain : Domain) (types : Types)
    (msg : SafeMessageValue) : Completion string :=
  hash domain types msg.

(** [safeVersion] is [None] when the caller leaves the argument out, and
    the default ["1.4.1"] applies. *)
Definition calculateSafeMessageHashes (safeAddress : string) (chain : Z)
    (messageContent : string) (safeVersion : option string)
    : Completion EIP712HashResult :=
  let safeVersion := default "1.4.1" safeVersion in
  let domain := safeMessageDomain safeAddress chain safeVersion in
  let types := safeMessageTypes in
  let msg := {| message := messageContent |} in
  dh ← calculateDomainHash domain;
  mh ← calculateStructHash "SafeMessage" types msg;
  eh ← calculateEIP712Hash domain types msg;
  mret {| domainHash := dh; messageHash := mh; eip712Hash := eh;
            safeMessage := Some messageContent |}.

Definition calculatePersonalSignHash (msg : string) : string :=
  let decodedMessage :=
    if JS.startsWith msg "0x" then
      match toUtf8String msg with
      | Normal decoded => decoded
      | Throw _ => msg
      end
    else msg in
  hashMessage decodedMessage.

(** The domain literal of the message details page (MessageDetailsClient):
    [safeInfo.version || "1.4.1"], then the same test. *)
Definition messageDetailsDomain (safeAddress : string) (chain : Z)
    (version : string) : Domain :=
  let safeVersion := if JS.truthy version then version else "1.4.1" in
  let includeChainId := JS.ge safeVersion "1.3.0" in
  if includeChainId
  then {| chainId := Some chain; verifyingContract := safeAddress |}
  else {| chainId := None; verifyingContract := safeAddress |}.

(** *** Properties *)

Lemma safeMessageDomain_lex (safeAddress : string) (chain : Z) (safeVersion : string) :
  safeMessageDomain safeAddress chain safeVersion =
  {| chainId := if lex_ge safeVersion "1.3.0" then Some chain else None;
     verifyingContract := safeAddress |}.
Proof.
  unfold safeMessageDomain. rewrite ge_lex_ge.
  now destruct (lex_ge safeVersion "1.3.0").
Qed.

(** C1. For every safe address, chain id, message content and version
    string, [calculateSafeMessageHashes] hashes the domain
    [{chainId, verifyingContract}] when the version is lexicographically
    greater than or equal to ["1.3.0"] and the domain [{verifyingContract}]
    alone otherwise; the message details page builds the same domain.
    Version ["1.4.1"] (also the default) includes the chain id, version
    ["1.10.0"], which is lexicographically below ["1.3.0"], does not. *)
Theorem calculateSafeMessageHashes_domain_by_version
    (safeAddress : string) (chain : Z) (messageContent : string)
    (safeVersion : option string) :
  let version := default "1.4.1" safeVersion in
  let domain :=
    {| chainId := if lex_ge version "1.3.0" then Some chain else None;
       verifyingContract := safeAddress |} in
  let msg := {| message := messageContent |} in
  safeMessageDomain safeAddress chain version = domain
  /\ calculateSafeMessageHashes safeAddress chain messageContent safeVersion =
     (dh ← hashDomain domain;
      mh ← hashStruct "SafeMessage" safeMessageTypes msg;
      eh ← hash domain safeMessageTypes msg;
      mret {| domainHash := dh; messageHash := mh; eip712Hash := eh;
              safeMessage := Some messageContent |})
  /\ (forall v : string,
        messageDetailsDomain safeAddress chain v =
        {| chainId := if lex_ge (if JS.truthy v then v else "1.4.1") "1.3.0"
                      then Some chain else None;
           verifyingContract := safeAddress |})
  /\ safeMessageDomain safeAddress chain "1.4.1" =
     {| chainId := Some chain; verifyingContract := safeAddress |}
  /\ lex_ge "1.10.0" "1.3.0" = false
  /\ safeMessageDomain safeAddress chain "1.10.0" =
     {| chainId := None; verifyingContract := safeAddress |}.
Proof.
  intros version domain msg.
  assert (Hd : safeMessageDomain safeAddress chain version = domain)
    by apply safeMessageDomain_lex.
  split; [exact Hd|]. split.
  - unfold calculateSafeMessageHashes, calculateDomainHash,
      calculateStructHash, calculateEIP712Hash.
    fold version. cbv zeta. rewrite Hd. reflexivity.
  - split; [|repeat split; reflexivity].
    intros v. apply (safeMessageDomain_lex safeAddress chain).
Qed.

(** C8. [calculatePersonalSignHash] returns the EIP-191 hash of the decoded
    text when the input begins with ["0x"] and decoding succeeds, and the
    EIP-191 hash of the input itself when decoding throws or when the input
    does not begin with ["0x"]; equal inputs give equal results. *)
Theorem calculatePersonalSignHash_cases (msg : string) :
  (forall decoded, JS.startsWith msg "0x" = true ->
     toUtf8String msg = Normal decoded ->
     calculatePersonalSignHash msg = hashMessage decoded)
  /\ (forall err, JS.startsWith msg "0x" = true ->
     toUtf8String msg = Throw err ->
     calculatePersonalSignHash msg = hashMessage msg)
  /\ (JS.startsWith msg "0x" = false ->
     calculatePersonalSignHash msg = hashMessage msg)
  /\ (JS.startsWith msg "0x" = true <-> exists rest, msg = String.append "0x" rest)
  /\ (forall msg', msg' = msg ->
     calculatePersonalSignHash msg' = calculatePersonalSignHash msg).
Proof.
  unfold calculatePersonalSignHash. repeat split.
  - intros decoded -> ->. reflexivity.
  - intros err -> ->. reflexivity.
  - intros ->. reflexivity.
  - apply JS.startsWith_iff.
  - apply JS.startsWith_iff.
  - intros msg' ->. reflexivity.
Qed.

End WithEthers.

Lemma calculatePersonalSignHash_cases_witness :
  calculatePersonalSignHash asciiToUtf8String id "0x6869" = "hi"
  /\ calculatePersonalSignHash asciiToUtf8String id "0xzz" = "0xzz"
  /\ calculatePersonalSignHash asciiToUtf8String id "hello" = "hello".
Proof.
  split; [|split].
  - apply (proj1 (calculatePersonalSignHash_cases asciiToUtf8String id "0x6869"));
      reflexivity.
  - apply (proj1 (proj2 (calculatePersonalSignHash_cases asciiToUtf8String id "0xzz"))
             (ErrorObject "invalid payload")); reflexivity.
  - apply (proj1 (proj2 (proj2
             (calculatePersonalSignHash_cases asciiToUtf8String id "hello"))));
      reflexivity.
Defined.

End MessageHashing.

(** ** The [useSafe] hook: owner management *)

Module UseSafe.

Definition SENTINEL : string := "0x0000000000000000000000000000000000000001".

Inductive ChangeType : Type := add | remove.

#[global] Instance ChangeType_eq_dec : EqDecision ChangeType.
Proof. solve_decision. Defined.

Record OwnerChange : Type := mkChange {
  type : ChangeType;
  address : string;
}.

(** The Safe contract calls of [SAFE_ABI], each with its arguments: what
    [encodeFunctionData] is asked to encode.  Where it does encode, the
    call stands for the bytes it makes of it.  Thresholds are integers;
    [BigInt] of an integer does not throw. *)
Inductive SafeCall : Type :=
  | addOwnerWithThreshold (owner : string) (_threshold : Z)
  | removeOwner (prevOwner owner : string) (_threshold : Z)
  | swapOwner (prevOwner oldOwner newOwner : string)
  | changeThreshold (_threshold : Z).

Record MetaTransaction : Type := mkTx {
  to : string;
  value : string;
  data : SafeCall;
  operation : Z;
}.

Record SafeInfo : Type := mkSafeInfo {
  owners : list string;
  balance : Z;
  threshold : Z;
  version : string;
  chainId : string;
  deployed : bool;
  nonce : Z;
}.

(** viem, as far as [isAddress] and [encodeFunctionData] depend on it:
    [checksumAddress], the EIP-55 form of an address (computed with
    keccak256), and the messages of the two errors the encoder throws,
    [InvalidAddressError] and [IntegerOutOfRangeError], which vary with
    the version of the library. *)
Record Viem : Type := mkViem {
  checksumAddress : string -> string;
  invalidAddressMessage : string -> string;
  integerOutOfRangeMessage : Z -> string;
}.

(** [[a-fA-F0-9]] *)
Definition isHexDigit (c : ascii) : bool :=
  let n := N_of_ascii c in
  ((48 <=? n) && (n <=? 57) || (65 <=? n) && (n <=? 70)
   || (97 <=? n) && (n <=? 102))%N.

Fixpoint allHexDigits (s : string) : bool :=
  match s with
  | EmptyString => true
  | String c s' => isHexDigit c && allHexDigits s'
  end.

(** [/^0x[a-fA-F0-9]{40}$/.test(address)] *)
Definition addressRegex (address : string) : bool :=
  match address with
  | String "0" (String "x" hex) =>
      (String.length hex =? 40)%nat && allHexDigits hex
  | _ => false
  end.

(** [o.toLowerCase() === addr.toLowerCase()] *)
Definition sameAddress (addr o : string) : bool :=
  String.eqb (JS.toLowerCase o) (JS.toLowerCase addr).

(** [ownerIndex === 0 ? SENTINEL : currentOwners[ownerIndex - 1]]; the
    index comes from [findIndex], so the lookup is always in range. *)
Definition prevOwnerAt (currentOwners : list string) (ownerIndex : nat) : string :=
  match ownerIndex with
  | O => SENTINEL
  | S i => default "" (currentOwners !! i)
  end.

(** The object pushed on [transactions] for one call. *)
Definition callTx (safeAddress : string) (call : SafeCall) : MetaTransaction :=
  {| to := safeAddress; value := "0"; data := call; operation := 0 |}.

Definition ownerNotFound (addr : string) : Thrown :=
  ErrorObject ("Owner " +:+ addr +:+ " not found").

(** The state the loops of [createBatchedOwnerManagementTransaction] work
    on: the [transactions] pushed so far and the local [currentOwners]. *)
Definition BatchState : Type := (list MetaTransaction * list string)%type.

Section WithViem.

Variable viem : Viem.

(** viem's [isAddress], in its default strict mode: the shape of an
    address, written in lower case or else in its EIP-55 form. *)
Definition isAddress (address : string) : bool :=
  if negb (addressRegex address) then false
  else if String.eqb (JS.toLowerCase address) address then true
  else String.eqb (checksumAddress viem address) address.

(** The encoder on an argument of type [address]. *)
Definition encodeAddress (value : string) : Completion unit :=
  if negb (isAddress value)
  then Throw (ErrorObject (invalidAddressMessage viem value))
  else Normal tt.

(** The encoder on an argument of type [uint256]. *)
Definition encodeNumber (value : Z) : Completion unit :=
  if (2 ^ 256 - 1 <? value) || (value <? 0)
  then Throw (ErrorObject (integerOutOfRangeMessage viem value))
  else Normal tt.

(** [encodeFunctionData({ abi: SAFE_ABI, functionName, args })]: the
    arguments are encoded in the order of the function's inputs, and the
    first one the encoder refuses makes it throw. *)
Definition encodeFunctionData (call : SafeCall) : Completion SafeCall :=
  match call with
  | addOwnerWithThreshold owner _threshold =>
      encodeAddress owner;; encodeNumber _threshold;; mret call
  | removeOwner prevOwner owner _threshold =>
      encodeAddress prevOwner;; encodeAddress owner;;
      encodeNumber _threshold;; mret call
  | swapOwner prevOwner oldOwner newOwner =>
      encodeAddress prevOwner;; encodeAddress oldOwner;;
      encodeAddress newOwner;; mret call
  | changeThreshold _threshold =>
      encodeNumber _threshold;; mret call
  end.

(** The swap branch: one removal and one addition. *)
Definition swapStep (safeAddress : string) (removal addition : OwnerChange)
    (st : BatchState) : Completion BatchState :=
  let '(transactions, currentOwners) := st in
  match JS.findIndex (sameAddress (address removal)) currentOwners with
  | None => Throw (ownerNotFound (address removal))
  | Some ownerIndex =>
      let prevOwner := prevOwnerAt currentOwners ownerIndex in
      data ← encodeFunctionData
               (swapOwner prevOwner (address removal) (address addition));
      Normal (transactions ++ [callTx safeAddress data],
              JS.filterIndexNe ownerIndex currentOwners ++ [address addition])
  end.

(** Body of the loop over [removals]. *)
Definition removalStep (safeAddress : string) (currentThreshold : Z)
    (st : BatchState) (removal : OwnerChange) : Completion BatchState :=
  let '(transactions, currentOwners) := st in
  match JS.findIndex (sameAddress (address removal)) currentOwners with
  | None => Throw (ownerNotFound (address removal))
  | Some ownerIndex =>
      let prevOwner := prevOwnerAt currentOwners ownerIndex in
      data ← encodeFunctionData
               (removeOwner prevOwner (address removal) currentThreshold);
      Normal (transactions ++ [callTx safeAddress data],
              JS.filterIndexNe ownerIndex currentOwners)
  end.

(** Body of the loop over [additions]. *)
Definition additionStep (safeAddress : string) (currentThreshold : Z)
    (st : BatchState) (addition : OwnerChange) : Completion BatchState :=
  let '(transactions, currentOwners) := st in
  data ← encodeFunctionData
           (addOwnerWithThreshold (address addition) currentThreshold);
  Normal (transactions ++ [callTx safeAddress data],
          currentOwners ++ [address addition]).

(** [createBatchedOwnerManagementTransaction], the branch on
    [removals.length === 1 && additions.length === 1]: the swap, or the two
    loops. *)
Definition batchBody (safeAddress : string) (safeInfo : SafeInfo)
    (changes : list OwnerChange) : Completion BatchState :=
  let removals := filter (fun c => type c = remove) changes in
  let additions := filter (fun c => type c = add) changes in
  let currentOwners := owners safeInfo in
  match removals, additions with
  | [removal], [addition] =>
      swapStep safeAddress removal addition ([], currentOwners)
  | _, _ =>
      st ← JS.forOf (removalStep safeAddress (threshold safeInfo))
             removals ([], currentOwners);
      JS.forOf (additionStep safeAddress (threshold safeInfo)) additions st
  end.

(** [createBatchedOwnerManagementTransaction] up to the point where the
    [transactions] array is complete. *)
Definition batchedTransactions (safeAddress : string) (safeInfo : SafeInfo)
    (changes : list OwnerChange) (newThreshold : Z)
    : Completion (list MetaTransaction) :=
  st ← batchBody safeAddress safeInfo changes;
  let '(transactions, _) := st in
  if decide (newThreshold <> threshold safeInfo)
  then data ← encodeFunctionData (changeThreshold newThreshold);
       mret (transactions ++ [callTx safeAddress data])
  else mret transactions.

(** [createRemoveOwnerTransaction] up to the transaction list it builds. *)
Definition removeOwnerTransactions (safeAddress : string) (safeInfo : SafeInfo)
    (ownerToRemove : string) (newThreshold : Z)
    : Completion (list MetaTransaction) :=
  let owners := owners safeInfo in
  match JS.findIndex (sameAddress ownerToRemove) owners with
  | None => Throw (ErrorObject "Owner not found")
  | Some ownerIndex =>
      let prevOwner := prevOwnerAt owners ownerIndex in
      data ← encodeFunctionData (removeOwner prevOwner ownerToRemove newThreshold);
      mret [callTx safeAddress data]
  end.

(** The encoder takes these arguments. *)
Definition uint256 (value : Z) : Prop := 0 <= value < 2 ^ 256.
Definition validAddress (address : string) : Prop := isAddress address = true.

End WithViem.

Arguments encodeFunctionData : simpl never.


(** *** Reference notions for the Safe's linked list of owners *)

(** [addr] sits at index [i] of [l]: entry [i] equals it up to letter case
    and no earlier entry does. *)
Definition sitsAt (l : list string) (addr : string) (i : nat) : Prop :=
  (exists o, l !! i = Some o /\ JS.toLowerCase o = JS.toLowerCase addr) /\
  forall j o, (j < i)%nat -> l !! j = Some o ->
    JS.toLowerCase o <> JS.toLowerCase addr.

(** [prev] is what precedes index [i] of [l] in the linked list: the
    sentinel before index 0, the entry at [i - 1] otherwise. *)
Definition predecessorAt (l : list string) (i : nat) (prev : string) : Prop :=
  match i with
  | O => prev = SENTINEL
  | S j => l !! j = Some prev
  end.

(** [addr] is one of the owners in [l], up to letter case. *)
Definition isOwnerIn (l : list string) (addr : string) : Prop :=
  exists o, o ∈ l /\ JS.toLowerCase o = JS.toLowerCase addr.

(** [l] without its first entry equal to [addr] up to letter case. *)
Fixpoint deleteFirst (addr : string) (l : list string) : list string :=
  match l with
  | [] => []
  | o :: l' =>
      if String.eqb (JS.toLowerCase o) (JS.toLowerCase addr) then l'
      else o :: deleteFirst addr l'
  end.

(** The owners array after the addresses in [removed] have been deleted
    from it one after the other. *)
Definition simulatedOwners (l : list string) (removed : list string) : list string :=
  foldl (fun l addr => deleteFirst addr l) l removed.

(** What every call before the trailing [changeThreshold] looks like: no
    [changeThreshold], and [removeOwner] / [addOwnerWithThreshold] carry
    the threshold [t]. *)
Definition carriesThreshold (t : Z) (call : SafeCall) : Prop :=
  match call with
  | addOwnerWithThreshold _ t' => t' = t
  | removeOwner _ _ t' => t' = t
  | swapOwner _ _ _ => True
  | changeThreshold _ => False
  end.

(** The calls of a completed batch, [None] for one that threw. *)
Definition callsOf (c : Completion (list MetaTransaction)) : option (list SafeCall) :=
  match c with
  | Normal txs => Some (data <$> txs)
  | Throw _ => None
  end.

Definition isSwapOwner (call : SafeCall) : bool :=
  match call with swapOwner _ _ _ => true | _ => false end.

Definition isRemoveOrAdd (call : SafeCall) : bool :=
  match call with
  | removeOwner _ _ _ | addOwnerWithThreshold _ _ => true
  | _ => false
  end.

(** Addresses for the worked examples, in the mixed-case checksum form
    in which the chain reports owners; they are the examples of EIP-55. *)
Definition ownerA : string := "0x5aAeb6053F3E94C9b9A09f33669435E7Ef1BeAed".
Definition ownerB : string := "0xfB6916095ca1df60bB79Ce92cE3Ea74c37c5d359".
Definition ownerC : string := "0xdbF03B407c01E7cD3CBea99509d93f8DDDC8C6FB".
Definition ownerD : string := "0xD1220A0cf47c7B9Be7A2E6BA89F429762e7b9aDb".
Definition aSafe : string := "0x5afe5afe5afe5afe5afe5afe5afe5afe5afe5afe".

(** [ownerB] with every letter in upper case, which is not its EIP-55
    form. *)
Definition upperCaseB : string := "0xFB6916095CA1DF60BB79CE92CE3EA74C37C5D359".

Definition abcInfo : SafeInfo :=
  {| owners := [ownerA; ownerB; ownerC]; balance := 0; threshold := 2;
     version := "1.4.1"; chainId := "1"; deployed := true; nonce := 0 |}.

(** viem for the worked examples.  The EIP-55 form of an address that is
    one of the four example owners up to letter case is that owner as
    written above; the examples ask for the checksum of no other address.
    The messages are the first line of viem's. *)
Definition eip55 : Viem :=
  {| checksumAddress address :=
       default address
         (find (fun o => String.eqb (JS.toLowerCase o) (JS.toLowerCase address))
               [ownerA; ownerB; ownerC; ownerD]);
     invalidAddressMessage address := "Address " +:+ address +:+ " is invalid.";
     integerOutOfRangeMessage value :=
       "Number " +:+ pretty value
       +:+ " is not in safe 256-bit unsigned integer range" |}.

Section WithKit.

Variable viem : Viem.

(** The protocol kit's transaction object, [buildSafeTransaction] of the
    hook ([None] for its [null]) and [getSafeTransactionHash]. *)
Variable EthSafeTransaction : Type.
Variable buildSafeTransaction : list MetaTransaction -> option EthSafeTransaction.
Variable getSafeTransactionHash : EthSafeTransaction -> string.

(** What a call of one of the hook's functions leaves behind: the argument
    of every [buildSafeTransaction] call it made, and how it completed
    ([Normal None] is the [null] result). *)
Record Run : Type := mkRun {
  built : list (list MetaTransaction);
  completion : Completion (option string);
}.

(** The common tail: build the Safe transaction and return its hash. *)
Definition buildAndHash (transactions : Completion (list MetaTransaction)) : Run :=
  match transactions with
  | Throw err => {| built := []; completion := Throw err |}
  | Normal txs =>
      {| built := [txs];
         completion :=
           match buildSafeTransaction txs with
           | None => Throw (ErrorObject "Failed to build transaction")
           | Some safeTx => Normal (Some (getSafeTransactionHash safeTx))
           end |}
  end.

Definition createBatchedOwnerManagementTransaction (safeAddress : string)
    (safeInfo : option SafeInfo) (changes : list OwnerChange) (newThreshold : Z)
    : Run :=
  match safeInfo with
  | None => {| built := []; completion := Normal None |}
  | Some info =>
      buildAndHash (batchedTransactions viem safeAddress info changes newThreshold)
  end.

Definition createRemoveOwnerTransaction (safeAddress : string)
    (safeInfo : option SafeInfo) (ownerToRemove : string) (newThreshold : Z)
    : Run :=
  match safeInfo with
  | None => {| built := []; completion := Normal None |}
  | Some info =>
      buildAndHash
        (removeOwnerTransactions viem safeAddress info ownerToRemove newThreshold)
  end.

End WithKit.

(** *** Properties of the lookups *)

Lemma sameAddress_true (addr o : string) :
  sameAddress addr o = true <-> JS.toLowerCase o = JS.toLowerCase addr.
Proof. unfold sameAddress. apply String.eqb_eq. Qed.

Lemma sameAddress_false (addr o : string) :
  sameAddress addr o = false <-> JS.toLowerCase o <> JS.toLowerCase addr.
Proof. unfold sameAddress. apply String.eqb_neq. Qed.

Lemma findIndex_sitsAt (l : list string) (addr : string) (i : nat) :
  JS.findIndex (sameAddress addr) l = Some i -> sitsAt l addr i.
Proof.
  intros H. apply JS.findIndex_Some in H as (o & Ho & Hp & Hmin).
  split.
  - exists o. split; [exact Ho | now apply sameAddress_true].
  - intros j o' Hj Ho'. apply sameAddress_false. eauto.
Qed.

Lemma findIndex_absent (l : list string) (addr : string) :
  JS.findIndex (sameAddress addr) l = None <-> ~ isOwnerIn l addr.
Proof.
  rewrite JS.findIndex_None, Forall_forall. unfold isOwnerIn. split.
  - intros H (o & Ho & Heq). apply H in Ho.
    apply sameAddress_false in Ho. contradiction.
  - intros H o Ho. apply sameAddress_false. intros Heq. apply H. eauto.
Qed.

Lemma findIndex_present (l : list string) (addr : string) :
  isOwnerIn l addr -> exists i, JS.findIndex (sameAddress addr) l = Some i.
Proof.
  intros H. destruct (JS.findIndex (sameAddress addr) l) as [i|] eqn:E;
    [eauto|]. apply findIndex_absent in E. contradiction.
Qed.

Lemma prevOwnerAt_predecessor (l : list string) (addr : string) (i : nat) :
  JS.findIndex (sameAddress addr) l = Some i ->
  predecessorAt l i (prevOwnerAt l i).
Proof.
  intros H. destruct i as [|j]; simpl; [reflexivity|].
  apply JS.findIndex_Some in H as (o & Ho & _).
  destruct (l !! j) as [p|] eqn:Hj; [reflexivity|].
  apply lookup_ge_None in Hj. apply lookup_lt_Some in Ho. lia.
Qed.

(** The predecessor the code computes is the sentinel or one of the
    owners. *)
Lemma prevOwnerAt_cases (l : list string) (addr : string) (i : nat) :
  JS.findIndex (sameAddress addr) l = Some i ->
  prevOwnerAt l i = SENTINEL \/ prevOwnerAt l i ∈ l.
Proof.
  intros H. pose proof (prevOwnerAt_predecessor _ _ _ H) as Hp.
  destruct i as [|j]; simpl in *; [now left|]. right.
  rewrite Hp. simpl. eapply list_elem_of_lookup_2, Hp.
Qed.

(** A sitting place and a predecessor are found by the code's lookup. *)
Lemma sitsAt_findIndex (l : list string) (addr : string) (i : nat) :
  sitsAt l addr i -> JS.findIndex (sameAddress addr) l = Some i.
Proof.
  intros [(o & Ho & Heq) Hmin].
  destruct (JS.findIndex (sameAddress addr) l) as [k|] eqn:E.
  - apply JS.findIndex_Some in E as (x & Hx & Hpx & Hk).
    f_equal. destruct (Nat.lt_trichotomy k i) as [Hlt|[->|Hgt]]; [|reflexivity|].
    + apply sameAddress_true in Hpx. exfalso. exact (Hmin k x Hlt Hx Hpx).
    + specialize (Hk i o Hgt Ho). apply sameAddress_false in Hk. contradiction.
  - apply JS.findIndex_None in E. rewrite Forall_forall in E.
    assert (Hin : o ∈ l) by (eapply list_elem_of_lookup_2, Ho).
    apply E in Hin. apply sameAddress_false in Hin. contradiction.
Qed.

Lemma predecessorAt_prevOwnerAt (l : list string) (i : nat) (prev : string) :
  predecessorAt l i prev -> prevOwnerAt l i = prev.
Proof. destruct i as [|j]; simpl; [congruence|]. now intros ->. Qed.

Lemma filterIndexNe_deleteFirst (l : list string) (addr : string) (i : nat) :
  JS.findIndex (sameAddress addr) l = Some i ->
  JS.filterIndexNe i l = deleteFirst addr l.
Proof.
  unfold JS.filterIndexNe.
  revert i; induction l as [|o l IH]; intros i; simpl; [discriminate|].
  unfold sameAddress at 1.
  destruct (String.eqb (JS.toLowerCase o) (JS.toLowerCase addr)).
  - intros [= <-]. reflexivity.
  - destruct (JS.findIndex (sameAddress addr) l) as [k|] eqn:E; [|discriminate].
    intros [= <-]. simpl. f_equal. now apply IH.
Qed.

Lemma deleteFirst_keeps_absent (l : list string) (addr a : string) :
  ~ isOwnerIn l a -> ~ isOwnerIn (deleteFirst addr l) a.
Proof.
  intros H (o & Ho & Heq). apply H. exists o. split; [|exact Heq].
  clear -Ho. induction l as [|x l IH]; simpl in Ho; [exact Ho|].
  destruct (String.eqb (JS.toLowerCase x) (JS.toLowerCase addr)).
  - now right.
  - apply elem_of_cons in Ho as [->|Ho]; [left | right; auto].
Qed.

Lemma deleteFirst_sublist (addr : string) (l : list string) :
  deleteFirst addr l `sublist_of` l.
Proof.
  induction l as [|o l IH]; simpl; [reflexivity|].
  destruct (String.eqb (JS.toLowerCase o) (JS.toLowerCase addr)).
  - now apply sublist_cons.
  - now apply sublist_skip.
Qed.

(** *** Properties of the encoder *)

Lemma encodeFunctionData_Normal (viem : Viem) (call data : SafeCall) :
  encodeFunctionData viem call = Normal data -> data = call.
Proof.
  destruct call; unfold encodeFunctionData;
    repeat match goal with
           | |- context [encodeAddress viem ?a] =>
               destruct (encodeAddress viem a) as [[]|?]; simpl
           | |- context [encodeNumber viem ?t] =>
               destruct (encodeNumber viem t) as [[]|?]; simpl
           end; try discriminate; now intros [= <-].
Qed.

(** In a goal that runs the encoder: the case in which it encodes. *)
Ltac case_encode :=
  match goal with
  | |- context [encodeFunctionData ?v ?c] =>
      let He := fresh "He" in
      destruct (encodeFunctionData v c) as [?|?] eqn:He; simpl; [|discriminate];
      apply encodeFunctionData_Normal in He as ->
  end.

Section Encoding.

Variable viem : Viem.

(** An error the encoder throws for some call. *)
Definition encoderError (e : Thrown) : Prop :=
  exists call, encodeFunctionData viem call = Throw e.

Lemma encodeFunctionData_cases (call : SafeCall) :
  encodeFunctionData viem call = Normal call \/
  exists e, encodeFunctionData viem call = Throw e /\ encoderError e.
Proof.
  destruct (encodeFunctionData viem call) as [data|e] eqn:E.
  - left. now rewrite (encodeFunctionData_Normal _ _ _ E).
  - right. exists e. split; [reflexivity|]. now exists call.
Qed.

Lemma encodeAddress_valid (a : string) :
  validAddress viem a -> encodeAddress viem a = Normal tt.
Proof. unfold validAddress, encodeAddress. now intros ->. Qed.

Lemma encodeNumber_uint256 (t : Z) : uint256 t -> encodeNumber viem t = Normal tt.
Proof.
  unfold uint256, encodeNumber. intros H.
  destruct (Z.ltb_spec (2 ^ 256 - 1) t); [lia|].
  destruct (Z.ltb_spec t 0); [lia|]. reflexivity.
Qed.

Lemma encode_swapOwner (prev old new : string) :
  validAddress viem prev -> validAddress viem old -> validAddress viem new ->
  encodeFunctionData viem (swapOwner prev old new) = Normal (swapOwner prev old new).
Proof.
  intros H1 H2 H3. unfold encodeFunctionData.
  now rewrite !encodeAddress_valid by assumption.
Qed.

Lemma encode_removeOwner (prev owner : string) (t : Z) :
  validAddress viem prev -> validAddress viem owner -> uint256 t ->
  encodeFunctionData viem (removeOwner prev owner t) = Normal (removeOwner prev owner t).
Proof.
  intros H1 H2 H3. unfold encodeFunctionData.
  now rewrite !encodeAddress_valid, encodeNumber_uint256 by assumption.
Qed.

Lemma encode_addOwnerWithThreshold (owner : string) (t : Z) :
  validAddress viem owner -> uint256 t ->
  encodeFunctionData viem (addOwnerWithThreshold owner t) =
  Normal (addOwnerWithThreshold owner t).
Proof.
  intros H1 H2. unfold encodeFunctionData.
  now rewrite encodeAddress_valid, encodeNumber_uint256 by assumption.
Qed.

Lemma encode_changeThreshold (t : Z) :
  uint256 t ->
  encodeFunctionData viem (changeThreshold t) = Normal (changeThreshold t).
Proof. intros H. unfold encodeFunctionData. now rewrite encodeNumber_uint256. Qed.

(** The sentinel is an address in lower case. *)
Lemma SENTINEL_valid : validAddress viem SENTINEL.
Proof. reflexivity. Qed.

Lemma prevOwnerAt_valid (l : list string) (addr : string) (i : nat) :
  Forall (validAddress viem) l ->
  JS.findIndex (sameAddress addr) l = Some i ->
  validAddress viem (prevOwnerAt l i).
Proof.
  intros Hl Hi. destruct (prevOwnerAt_cases _ _ _ Hi) as [->|Hin].
  - apply SENTINEL_valid.
  - rewrite Forall_forall in Hl. now apply Hl.
Qed.

(** *** Properties of the loops *)

Lemma removal_loop_ok (sa : string) (thr : Z) (rs : list OwnerChange) :
  forall txs0 l0 txs l,
  JS.forOf (removalStep viem sa thr) rs (txs0, l0) = Normal (txs, l) ->
  l = simulatedOwners l0 (address <$> rs) /\
  exists calls,
    txs = txs0 ++ (callTx sa <$> calls) /\
    Forall (carriesThreshold thr) calls /\
    forall k r, rs !! k = Some r ->
      exists i prev,
        sitsAt (simulatedOwners l0 (address <$> take k rs)) (address r) i /\
        predecessorAt (simulatedOwners l0 (address <$> take k rs)) i prev /\
        calls !! k = Some (removeOwner prev (address r) thr).
Proof.
  induction rs as [|r rs IH]; intros txs0 l0 txs l; simpl.
  - intros [= <- <-]. split; [reflexivity|]. exists []. simpl.
    rewrite app_nil_r. repeat split; [constructor|]. intros k r Hk.
    rewrite lookup_nil in Hk. discriminate.
  - destruct (JS.findIndex (sameAddress (address r)) l0) as [i|] eqn:Hi;
      simpl; [|discriminate].
    case_encode.
    intros Hloop. apply IH in Hloop as (Hl & calls & Htxs & Hthr & Hk).
    rewrite (filterIndexNe_deleteFirst _ _ _ Hi) in Hl, Hk.
    split; [exact Hl|].
    exists (removeOwner (prevOwnerAt l0 i) (address r) thr :: calls).
    split; [|split].
    + rewrite Htxs, <- app_assoc. reflexivity.
    + constructor; [reflexivity | exact Hthr].
    + intros [|k] r' Hr'; simpl in Hr'.
      * injection Hr' as <-. exists i, (prevOwnerAt l0 i). simpl.
        split; [now apply findIndex_sitsAt|].
        split; [now apply (prevOwnerAt_predecessor _ (address r)) | reflexivity].
      * apply Hk in Hr'. exact Hr'.
Qed.

(** A removal of an address that is no owner stops the loop: at the
    lookup of a removal, or before it at the encoder. *)
Lemma removal_loop_throws (sa : string) (thr : Z) (rs : list OwnerChange) :
  forall txs0 l0,
  (exists r, r ∈ rs /\ ~ isOwnerIn l0 (address r)) ->
  exists e, JS.forOf (removalStep viem sa thr) rs (txs0, l0) = Throw e /\
    ((exists r', r' ∈ rs /\ e = ownerNotFound (address r')) \/ encoderError e).
Proof.
  induction rs as [|a rs IH]; intros txs0 l0 (r & Hr & Habs).
  - apply elem_of_nil in Hr. contradiction.
  - simpl.
    destruct (JS.findIndex (sameAddress (address a)) l0) as [i|] eqn:Hi; simpl.
    + destruct (encodeFunctionData_cases
                  (removeOwner (prevOwnerAt l0 i) (address a) thr))
        as [->|(e & -> & He)]; simpl; [|eauto].
      apply elem_of_cons in Hr as [->|Hr].
      * apply findIndex_absent in Habs. congruence.
      * destruct (IH (txs0 ++ [callTx sa (removeOwner (prevOwnerAt l0 i) (address a) thr)])
                    (JS.filterIndexNe i l0)) as (e & Hthrow & Hwhich).
        { exists r. split; [exact Hr|].
          rewrite (filterIndexNe_deleteFirst _ _ _ Hi).
          now apply deleteFirst_keeps_absent. }
        exists e. split; [exact Hthrow|].
        destruct Hwhich as [(r' & Hr' & ->)|He]; [left | now right].
        exists r'. split; [now right | reflexivity].
    + exists (ownerNotFound (address a)). split; [reflexivity|].
      left. exists a. split; [now left | reflexivity].
Qed.

(** When the encoder takes every removal, the loop stops at a lookup. *)
Lemma removal_loop_not_found (sa : string) (thr : Z) (rs : list OwnerChange) :
  forall txs0 l0,
  Forall (validAddress viem) l0 ->
  Forall (fun r => validAddress viem (address r)) rs ->
  uint256 thr ->
  (exists r, r ∈ rs /\ ~ isOwnerIn l0 (address r)) ->
  exists r', r' ∈ rs /\
    JS.forOf (removalStep viem sa thr) rs (txs0, l0) = Throw (ownerNotFound (address r')).
Proof.
  induction rs as [|a rs IH]; intros txs0 l0 Hl0 Hrs Hthr (r & Hr & Habs).
  - apply elem_of_nil in Hr. contradiction.
  - simpl. apply Forall_cons in Hrs as [Ha Hrs].
    destruct (JS.findIndex (sameAddress (address a)) l0) as [i|] eqn:Hi; simpl.
    + rewrite encode_removeOwner
        by (assumption || now apply (prevOwnerAt_valid _ (address a))).
      simpl. apply elem_of_cons in Hr as [->|Hr].
      * apply findIndex_absent in Habs. congruence.
      * destruct (IH (txs0 ++ [callTx sa (removeOwner (prevOwnerAt l0 i) (address a) thr)])
                    (JS.filterIndexNe i l0)) as (r' & Hr' & Hthrow);
          try assumption.
        { unfold JS.filterIndexNe. now apply Forall_delete. }
        { exists r. split; [exact Hr|].
          rewrite (filterIndexNe_deleteFirst _ _ _ Hi).
          now apply deleteFirst_keeps_absent. }
        exists r'. split; [now right | exact Hthrow].
    + exists a. split; [now left | reflexivity].
Qed.

Lemma addition_loop_ok (sa : string) (thr : Z) (additions : list OwnerChange) :
  forall txs0 l0 txs l,
  JS.forOf (additionStep viem sa thr) additions (txs0, l0) = Normal (txs, l) ->
  txs = txs0 ++ ((fun a => callTx sa (addOwnerWithThreshold (address a) thr))
                   <$> additions)
  /\ l = l0 ++ (address <$> additions).
Proof.
  induction additions as [|a additions IH]; intros txs0 l0 txs l; simpl.
  - intros [= <- <-]. now rewrite !app_nil_r.
  - case_encode.
    intros Hloop. apply IH in Hloop as [-> ->].
    rewrite <- !app_assoc. split; reflexivity.
Qed.

Lemma addition_loop_cases (sa : string) (thr : Z) (additions : list OwnerChange) :
  forall txs0 l0,
  (exists st, JS.forOf (additionStep viem sa thr) additions (txs0, l0) = Normal st)
  \/ exists e, JS.forOf (additionStep viem sa thr) additions (txs0, l0) = Throw e /\
       encoderError e.
Proof.
  induction additions as [|a additions IH]; intros txs0 l0; simpl; [eauto|].
  destruct (encodeFunctionData_cases (addOwnerWithThreshold (address a) thr))
    as [->|(e & -> & He)]; simpl; [apply IH | eauto].
Qed.

Lemma addition_loop_succeeds (sa : string) (thr : Z) (additions : list OwnerChange) :
  forall txs0 l0,
  Forall (fun a => validAddress viem (address a)) additions -> uint256 thr ->
  exists st, JS.forOf (additionStep viem sa thr) additions (txs0, l0) = Normal st.
Proof.
  induction additions as [|a additions IH]; intros txs0 l0 Has Hthr; simpl; [eauto|].
  apply Forall_cons in Has as [Ha Has].
  rewrite encode_addOwnerWithThreshold by assumption. simpl. now apply IH.
Qed.

Lemma batchBody_calls (sa : string) (info : SafeInfo) (changes : list OwnerChange)
    (txs : list MetaTransaction) (l : list string) :
  batchBody viem sa info changes = Normal (txs, l) ->
  exists calls, txs = callTx sa <$> calls /\
    Forall (carriesThreshold (threshold info)) calls.
Proof.
  unfold batchBody. intros H.
  assert (Hloops : forall removals additions,
    (st ← JS.forOf (removalStep viem sa (threshold info)) removals ([], owners info);
     JS.forOf (additionStep viem sa (threshold info)) additions st) = Normal (txs, l) ->
    exists calls, txs = callTx sa <$> calls /\
      Forall (carriesThreshold (threshold info)) calls).
  { intros removals additions Hl.
    destruct (JS.forOf (removalStep viem sa (threshold info)) removals ([], owners info))
      as [[txs1 l1]|err] eqn:Hr; simpl in Hl; [|discriminate].
    apply removal_loop_ok in Hr as (_ & calls & -> & Hthr & _).
    apply addition_loop_ok in Hl as [-> _].
    exists (calls ++ ((fun a => addOwnerWithThreshold (address a) (threshold info))
                        <$> additions)).
    split.
    - simpl. rewrite fmap_app, <- list_fmap_compose. reflexivity.
    - apply Forall_app. split; [exact Hthr|].
      apply Forall_fmap, Forall_forall. intros a _. reflexivity. }
  destruct (filter (fun c => type c = remove) changes) as [|r [|r' rs]];
    destruct (filter (fun c => type c = add) changes) as [|a [|a' ads]];
    try (now apply Hloops in H).
  unfold swapStep in H.
  destruct (JS.findIndex (sameAddress (address r)) (owners info)) as [i|];
    [|discriminate].
  revert H. case_encode. intros H.
  injection H as <- <-.
  exists [swapOwner (prevOwnerAt (owners info) i) (address r) (address a)].
  split; [reflexivity|]. repeat constructor.
Qed.

Lemma deleteFirst_keeps_others (l : list string) (addr a : string) :
  JS.toLowerCase a <> JS.toLowerCase addr ->
  isOwnerIn l a -> isOwnerIn (deleteFirst addr l) a.
Proof.
  intros Hne (o & Ho & Heq). exists o. split; [|exact Heq].
  induction l as [|x l IH]; simpl; [exact Ho|].
  destruct (String.eqb_spec (JS.toLowerCase x) (JS.toLowerCase addr)) as [Hx|Hx].
  - apply elem_of_cons in Ho as [->|Ho]; [congruence | exact Ho].
  - apply elem_of_cons in Ho as [->|Ho]; [left | right; auto].
Qed.

(** When the removals name current owners, each once, every lookup of the
    removal loop succeeds: the loop runs to its end or stops at the
    encoder. *)
Lemma removal_loop_cases (sa : string) (thr : Z) (rs : list OwnerChange) :
  forall txs0 l0,
  NoDup (JS.toLowerCase <$> (address <$> rs)) ->
  Forall (fun r => isOwnerIn l0 (address r)) rs ->
  (exists st, JS.forOf (removalStep viem sa thr) rs (txs0, l0) = Normal st)
  \/ exists e, JS.forOf (removalStep viem sa thr) rs (txs0, l0) = Throw e /\
       encoderError e.
Proof.
  induction rs as [|r rs IH]; intros txs0 l0 Hnd Hin; simpl; [eauto|].
  rewrite !fmap_cons in Hnd. apply NoDup_cons in Hnd as [Hr Hnd].
  apply Forall_cons in Hin as [Hr0 Hin].
  destruct (findIndex_present _ _ Hr0) as [i Hi]. rewrite Hi. simpl.
  destruct (encodeFunctionData_cases (removeOwner (prevOwnerAt l0 i) (address r) thr))
    as [->|(e & -> & He)]; simpl; [|eauto].
  apply IH; [exact Hnd|].
  rewrite (filterIndexNe_deleteFirst _ _ _ Hi).
  apply Forall_forall. intros r' Hr'.
  apply deleteFirst_keeps_others.
  - intros Heq. apply Hr. rewrite <- Heq.
    now apply list_elem_of_fmap_2, list_elem_of_fmap_2.
  - rewrite Forall_forall in Hin. now apply Hin.
Qed.

(** It runs to its end when, besides, the encoder takes the owners, the
    removed addresses and the threshold. *)
Lemma removal_loop_succeeds (sa : string) (thr : Z) (rs : list OwnerChange) :
  forall txs0 l0,
  NoDup (JS.toLowerCase <$> (address <$> rs)) ->
  Forall (fun r => isOwnerIn l0 (address r)) rs ->
  Forall (validAddress viem) l0 ->
  Forall (fun r => validAddress viem (address r)) rs ->
  uint256 thr ->
  exists st, JS.forOf (removalStep viem sa thr) rs (txs0, l0) = Normal st.
Proof.
  induction rs as [|r rs IH]; intros txs0 l0 Hnd Hin Hl0 Hrs Hthr; simpl; [eauto|].
  rewrite !fmap_cons in Hnd. apply NoDup_cons in Hnd as [Hr Hnd].
  apply Forall_cons in Hin as [Hr0 Hin]. apply Forall_cons in Hrs as [Hv Hrs].
  destruct (findIndex_present _ _ Hr0) as [i Hi]. rewrite Hi. simpl.
  rewrite encode_removeOwner
    by (assumption || now apply (prevOwnerAt_valid _ (address r))).
  simpl. apply IH; try assumption.
  - rewrite (filterIndexNe_deleteFirst _ _ _ Hi).
    apply Forall_forall. intros r' Hr'.
    apply deleteFirst_keeps_others.
    + intros Heq. apply Hr. rewrite <- Heq.
      now apply list_elem_of_fmap_2, list_elem_of_fmap_2.
    + rewrite Forall_forall in Hin. now apply Hin.
  - unfold JS.filterIndexNe. now apply Forall_delete.
Qed.

(** What the encoder has to take for a change set to be encoded. *)
Definition encodable (info : SafeInfo) (changes : list OwnerChange)
    (newThreshold : Z) : Prop :=
  Forall (validAddress viem) (owners info)
  /\ Forall (fun c => validAddress viem (address c)) changes
  /\ uint256 (threshold info)
  /\ uint256 newThreshold.

(** With removals that name current owners, each once, the batched
    function produces a call list or stops at the encoder. *)
Lemma batchedTransactions_cases (sa : string) (info : SafeInfo)
    (changes : list OwnerChange) (newThreshold : Z) :
  let removals := filter (fun c => type c = remove) changes in
  NoDup (JS.toLowerCase <$> (address <$> removals)) ->
  Forall (fun r => isOwnerIn (owners info) (address r)) removals ->
  (exists txs, batchedTransactions viem sa info changes newThreshold = Normal txs)
  \/ exists e, batchedTransactions viem sa info changes newThreshold = Throw e /\
       encoderError e.
Proof.
  intros removals Hnd Hin. unfold batchedTransactions.
  assert (Hbody : (exists st, batchBody viem sa info changes = Normal st)
                  \/ exists e, batchBody viem sa info changes = Throw e /\
                       encoderError e).
  { unfold batchBody. fold removals.
    assert (Hloops :
      (exists st',
        (st ← JS.forOf (removalStep viem sa (threshold info)) removals ([], owners info);
         JS.forOf (additionStep viem sa (threshold info))
           (filter (fun c => type c = add) changes) st) = Normal st')
      \/ exists e,
        (st ← JS.forOf (removalStep viem sa (threshold info)) removals ([], owners info);
         JS.forOf (additionStep viem sa (threshold info))
           (filter (fun c => type c = add) changes) st) = Throw e /\ encoderError e).
    { destruct (removal_loop_cases sa (threshold info) removals [] (owners info)
                  Hnd Hin) as [[[txs1 l1] ->]|(e & -> & He)]; simpl; [|eauto].
      apply addition_loop_cases. }
    destruct removals as [|r [|r' rs]]; try exact Hloops.
    destruct (filter (fun c => type c = add) changes) as [|a [|a' ads]];
      try exact Hloops.
    unfold swapStep. apply Forall_cons in Hin as [Hr _].
    destruct (findIndex_present _ _ Hr) as [i ->].
    destruct (encodeFunctionData_cases
                (swapOwner (prevOwnerAt (owners info) i) (address r) (address a)))
      as [->|(e & -> & He)]; simpl; eauto. }
  destruct Hbody as [[[txs1 l1] ->]|(e & -> & He)]; simpl; [|eauto].
  destruct (decide (newThreshold <> threshold info)); [|eauto].
  destruct (encodeFunctionData_cases (changeThreshold newThreshold))
    as [->|(e & -> & He)]; simpl; eauto.
Qed.

Lemma filter_valid (P : OwnerChange -> Prop) `{!forall c, Decision (P c)}
    (changes : list OwnerChange) :
  Forall (fun c => validAddress viem (address c)) changes ->
  Forall (fun c => validAddress viem (address c)) (filter P changes).
Proof.
  intros Hall. apply Forall_forall. intros c Hc.
  apply list_elem_of_filter in Hc as [_ Hc].
  rewrite Forall_forall in Hall. now apply Hall.
Qed.

(** The batched function produces a call list whenever the removals name
    current owners, each once, and the encoder takes the owners, the
    addresses of the changes and the two thresholds. *)
Lemma batchedTransactions_succeeds (sa : string) (info : SafeInfo)
    (changes : list OwnerChange) (newThreshold : Z) :
  let removals := filter (fun c => type c = remove) changes in
  NoDup (JS.toLowerCase <$> (address <$> removals)) ->
  Forall (fun r => isOwnerIn (owners info) (address r)) removals ->
  encodable info changes newThreshold ->
  exists txs, batchedTransactions viem sa info changes newThreshold = Normal txs.
Proof.
  intros removals Hnd Hin (Hown & Hch & Hthr & Hnew). unfold batchedTransactions.
  pose proof (filter_valid (fun c => type c = remove) changes Hch) as Hrs.
  pose proof (filter_valid (fun c => type c = add) changes Hch) as Has.
  fold removals in Hrs.
  assert (Hbody : exists st, batchBody viem sa info changes = Normal st).
  { unfold batchBody. fold removals.
    destruct (removal_loop_succeeds sa (threshold info) removals [] (owners info)
                Hnd Hin Hown Hrs Hthr) as [st Hst].
    assert (Hloops : exists st',
      (st ← JS.forOf (removalStep viem sa (threshold info)) removals ([], owners info);
       JS.forOf (additionStep viem sa (threshold info))
         (filter (fun c => type c = add) changes) st) = Normal st').
    { rewrite Hst. destruct st as [txs1 l1]. simpl.
      now apply addition_loop_succeeds. }
    destruct removals as [|r [|r' rs]]; try exact Hloops.
    destruct (filter (fun c => type c = add) changes) as [|a [|a' ads]];
      try exact Hloops.
    unfold swapStep. apply Forall_cons in Hin as [Hr _].
    destruct (findIndex_present _ _ Hr) as [i Hi]. rewrite Hi.
    apply Forall_cons in Hrs as [Hvr _]. apply Forall_cons in Has as [Hva _].
    rewrite encode_swapOwner
      by (assumption || now apply (prevOwnerAt_valid _ (address r))).
    simpl. eauto. }
  destruct Hbody as [[txs1 l1] ->]. simpl.
  destruct (decide (newThreshold <> threshold info)); [|eauto].
  rewrite encode_changeThreshold by assumption. simpl. eauto.
Qed.

(** A removal of an address that is no owner stops the batch before any
    call list is complete. *)
Lemma batchBody_throws (sa : string) (info : SafeInfo) (changes : list OwnerChange) :
  let removals := filter (fun c => type c = remove) changes in
  (exists r, r ∈ removals /\ ~ isOwnerIn (owners info) (address r)) ->
  exists e, batchBody viem sa info changes = Throw e /\
    ((exists r', r' ∈ removals /\ e = ownerNotFound (address r')) \/ encoderError e).
Proof.
  intros removals Hex. unfold batchBody. fold removals.
  destruct (removal_loop_throws sa (threshold info) removals [] (owners info) Hex)
    as (e & Hthrow & Hwhich).
  destruct Hex as (r & Hr & Habs).
  destruct removals as [|r1 [|r2 rs]] eqn:Hf.
  - apply elem_of_nil in Hr. contradiction.
  - apply list_elem_of_singleton in Hr as ->.
    apply findIndex_absent in Habs.
    destruct (filter (fun c => type c = add) changes) as [|a [|a' ads]].
    + exists e. rewrite Hthrow. auto.
    + exists (ownerNotFound (address r1)). unfold swapStep. rewrite Habs.
      split; [reflexivity|]. left. exists r1. split; [now left | reflexivity].
    + exists e. rewrite Hthrow. auto.
  - exists e. rewrite Hthrow. auto.
Qed.

(** It stops at the lookup of a removal when the encoder takes the
    owners, the removed addresses and the threshold. *)
Lemma batchBody_not_found (sa : string) (info : SafeInfo) (changes : list OwnerChange) :
  let removals := filter (fun c => type c = remove) changes in
  Forall (validAddress viem) (owners info) ->
  Forall (fun c => validAddress viem (address c)) changes ->
  uint256 (threshold info) ->
  (exists r, r ∈ removals /\ ~ isOwnerIn (owners info) (address r)) ->
  exists r', r' ∈ removals /\
    batchBody viem sa info changes = Throw (ownerNotFound (address r')).
Proof.
  intros removals Hown Hch Hthr Hex. unfold batchBody. fold removals.
  pose proof (filter_valid (fun c => type c = remove) changes Hch) as Hrs.
  fold removals in Hrs.
  destruct (removal_loop_not_found sa (threshold info) removals [] (owners info)
              Hown Hrs Hthr Hex) as (r' & Hr' & Hthrow).
  destruct Hex as (r & Hr & Habs).
  destruct removals as [|r1 [|r2 rs]] eqn:Hf.
  - apply elem_of_nil in Hr. contradiction.
  - apply list_elem_of_singleton in Hr as ->.
    apply findIndex_absent in Habs.
    destruct (filter (fun c => type c = add) changes) as [|a [|a' ads]].
    + exists r'. rewrite Hthrow. auto.
    + exists r1. unfold swapStep. rewrite Habs. split; [now left | reflexivity].
    + exists r'. rewrite Hthrow. auto.
  - exists r'. rewrite Hthrow. auto.
Qed.

(** It stops at the first lookup when the first removal is no owner. *)
Lemma batchBody_first_not_found (sa : string) (info : SafeInfo)
    (changes : list OwnerChange) (r : OwnerChange) (rest : list OwnerChange) :
  filter (fun c => type c = remove) changes = r :: rest ->
  ~ isOwnerIn (owners info) (address r) ->
  batchBody viem sa info changes = Throw (ownerNotFound (address r)).
Proof.
  intros Hf Habs. unfold batchBody. rewrite Hf.
  apply findIndex_absent in Habs.
  assert (Hloop : forall additions,
    (st ← JS.forOf (removalStep viem sa (threshold info)) (r :: rest) ([], owners info);
     JS.forOf (additionStep viem sa (threshold info)) additions st) =
    Throw (ownerNotFound (address r))).
  { intros additions. simpl. rewrite Habs. reflexivity. }
  destruct rest as [|r2 rs]; [|apply Hloop].
  destruct (filter (fun c => type c = add) changes) as [|a [|a' ads]];
    try apply Hloop.
  unfold swapStep. rewrite Habs. reflexivity.
Qed.

End Encoding.

(** Each removal is looked up in the owners left by the removals before
    it: once [A] is gone, [B] is first and its predecessor is the sentinel. *)
Example removals_follow_the_simulated_owners :
  callsOf (batchedTransactions eip55 aSafe abcInfo
    [mkChange remove (JS.toLowerCase ownerA);
     mkChange remove (JS.toLowerCase ownerB)] 1) =
  Some [removeOwner SENTINEL (JS.toLowerCase ownerA) 2;
        removeOwner SENTINEL (JS.toLowerCase ownerB) 2;
        changeThreshold 1].
Proof. reflexivity. Qed.

Example removal_of_a_stranger_throws :
  batchedTransactions eip55 aSafe abcInfo
    [mkChange remove ownerC; mkChange remove ownerD; mkChange add ownerD] 2 =
  Throw (ownerNotFound ownerD).
Proof. reflexivity. Qed.

(** An owner written in upper case is found by the lookup and refused by
    the encoder. *)
Example upper_case_owner_is_refused :
  isOwnerIn (owners abcInfo) upperCaseB
  /\ isAddress eip55 upperCaseB = false
  /\ removeOwnerTransactions eip55 aSafe abcInfo upperCaseB 2 =
     Throw (ErrorObject (invalidAddressMessage eip55 upperCaseB)).
Proof.
  split; [|split; reflexivity].
  exists ownerB. split; [|reflexivity]. right; left.
Qed.

(** *** Main results on the encoder *)

(** C2. A change set with exactly one removal and exactly one addition,
    the removed address being a current owner, is encoded as exactly one
    [swapOwner(prevOwner, oldOwner, newOwner)] call, with [prevOwner] the
    linked-list predecessor of the removed owner, and with no [removeOwner]
    and no [addOwnerWithThreshold] call; a [changeThreshold] call follows
    only when the threshold changes.  Nothing else is ever encoded for
    such a change set: the function returns this list or stops with an
    error of the encoder, and it returns the list whenever the encoder
    takes the three addresses and, if it changes, the new threshold.  For
    owners [[A; B; C]], removing [B] and adding [D] gives the single call
    [swapOwner(A, B, D)], whichever of the two changes comes first and
    whether [B] is given in the owners' letter case or in lower case. *)
Theorem one_removal_one_addition_is_one_swapOwner :
  (forall (viem : Viem) (sa : string) (info : SafeInfo) (changes : list OwnerChange)
          (newThreshold : Z) (r a : OwnerChange),
     filter (fun c => type c = remove) changes = [r] ->
     filter (fun c => type c = add) changes = [a] ->
     isOwnerIn (owners info) (address r) ->
     exists i prev,
       sitsAt (owners info) (address r) i /\
       predecessorAt (owners info) i prev /\
       (forall txs,
          batchedTransactions viem sa info changes newThreshold = Normal txs ->
          data <$> txs =
            swapOwner prev (address r) (address a) ::
            (if decide (newThreshold <> threshold info)
             then [changeThreshold newThreshold] else []) /\
          length (List.filter isSwapOwner (data <$> txs)) = 1%nat /\
          List.filter isRemoveOrAdd (data <$> txs) = []) /\
       (forall e,
          batchedTransactions viem sa info changes newThreshold = Throw e ->
          encoderError viem e) /\
       (validAddress viem prev -> validAddress viem (address r) ->
        validAddress viem (address a) ->
        newThreshold = threshold info \/ uint256 newThreshold ->
        exists txs,
          batchedTransactions viem sa info changes newThreshold = Normal txs))
  /\ batchedTransactions eip55 aSafe abcInfo
       [mkChange remove ownerB; mkChange add ownerD] 2 =
     Normal [callTx aSafe (swapOwner ownerA ownerB ownerD)]
  /\ batchedTransactions eip55 aSafe abcInfo
       [mkChange add ownerD; mkChange remove ownerB] 2 =
     Normal [callTx aSafe (swapOwner ownerA ownerB ownerD)]
  /\ batchedTransactions eip55 aSafe abcInfo
       [mkChange remove (JS.toLowerCase ownerB); mkChange add ownerD] 2 =
     Normal [callTx aSafe (swapOwner ownerA (JS.toLowerCase ownerB) ownerD)].
Proof.
  split; [|repeat split; reflexivity].
  intros viem sa info changes newThreshold r a Hr Ha Hin.
  destruct (findIndex_present _ _ Hin) as [i Hi].
  exists i, (prevOwnerAt (owners info) i).
  split; [now apply findIndex_sitsAt|].
  split; [now apply (prevOwnerAt_predecessor _ (address r))|].
  unfold batchedTransactions, batchBody. rewrite Hr, Ha.
  unfold swapStep. rewrite Hi. cbv zeta.
  split; [|split].
  - intros txs.
    case_encode.
    destruct (decide (newThreshold <> threshold info)).
    + case_encode. intros [= <-]. repeat split.
    + intros [= <-]. repeat split.
  - intros e.
    destruct (encodeFunctionData_cases viem
                (swapOwner (prevOwnerAt (owners info) i) (address r) (address a)))
      as [->|(e' & -> & He')]; simpl; [|now intros [= <-]].
    destruct (decide (newThreshold <> threshold info)); [|discriminate].
    destruct (encodeFunctionData_cases viem (changeThreshold newThreshold))
      as [->|(e' & -> & He')]; simpl; [discriminate | now intros [= <-]].
  - intros Hp Hv Hva Hthr.
    rewrite encode_swapOwner by assumption. simpl.
    destruct (decide (newThreshold <> threshold info)) as [Hne|]; [|eauto].
    destruct Hthr as [?|Hthr]; [contradiction|].
    rewrite encode_changeThreshold by assumption. simpl. eauto.
Qed.

Lemma one_removal_one_addition_is_one_swapOwner_witness :
  exists i prev,
    sitsAt (owners abcInfo) ownerC i /\
    predecessorAt (owners abcInfo) i prev /\
    (forall txs,
       batchedTransactions eip55 aSafe abcInfo
         [mkChange remove ownerC; mkChange add ownerD] 3 = Normal txs ->
       data <$> txs = [swapOwner prev ownerC ownerD; changeThreshold 3] /\
       length (List.filter isSwapOwner (data <$> txs)) = 1%nat /\
       List.filter isRemoveOrAdd (data <$> txs) = []) /\
    (forall e,
       batchedTransactions eip55 aSafe abcInfo
         [mkChange remove ownerC; mkChange add ownerD] 3 = Throw e ->
       encoderError eip55 e) /\
    (validAddress eip55 prev -> validAddress eip55 ownerC ->
     validAddress eip55 ownerD ->
     3 = threshold abcInfo \/ uint256 3 ->
     exists txs,
       batchedTransactions eip55 aSafe abcInfo
         [mkChange remove ownerC; mkChange add ownerD] 3 = Normal txs).
Proof.
  apply (proj1 one_removal_one_addition_is_one_swapOwner eip55 aSafe abcInfo
           [mkChange remove ownerC; mkChange add ownerD] 3
           (mkChange remove ownerC) (mkChange add ownerD)).
  - reflexivity.
  - reflexivity.
  - exists ownerC. split; [|reflexivity]. now do 2 right; left.
Defined.

(** C3. Every encoded removal names the linked-list predecessor of the
    removed owner in the locally simulated owners array: the sentinel
    [0x...01] when the owner sits at index 0, the entry at index [i - 1]
    when it sits at index [i > 0].  [createRemoveOwnerTransaction] looks
    the owner up in the current owners, and for an owner that sits at
    index [i] it does encode the removal with that predecessor whenever
    the encoder takes the two addresses and the threshold; the removal
    loop of the batched function looks the [k]-th removal up in the owners
    from which the [k] removals encoded before it have been deleted, and
    it does encode the removals of current owners, each named once, that
    the encoder takes. *)
Theorem removal_prevOwner_from_simulated_owners (viem : Viem) (sa : string)
    (info : SafeInfo) :
  (forall (ownerToRemove : string) (newThreshold : Z),
     (forall txs : list MetaTransaction,
        removeOwnerTransactions viem sa info ownerToRemove newThreshold = Normal txs ->
        exists i prev,
          sitsAt (owners info) ownerToRemove i /\
          predecessorAt (owners info) i prev /\
          txs = [callTx sa (removeOwner prev ownerToRemove newThreshold)])
     /\
     (forall (i : nat) (prev : string),
        sitsAt (owners info) ownerToRemove i ->
        predecessorAt (owners info) i prev ->
        validAddress viem prev -> validAddress viem ownerToRemove ->
        uint256 newThreshold ->
        removeOwnerTransactions viem sa info ownerToRemove newThreshold =
        Normal [callTx sa (removeOwner prev ownerToRemove newThreshold)]))
  /\
  (forall (changes : list OwnerChange) (newThreshold : Z),
     let removals := filter (fun c => type c = remove) changes in
     let additions := filter (fun c => type c = add) changes in
     ~ (length removals = 1%nat /\ length additions = 1%nat) ->
     (forall txs : list MetaTransaction,
        batchedTransactions viem sa info changes newThreshold = Normal txs ->
        forall (k : nat) (r : OwnerChange), removals !! k = Some r ->
          let simulated :=
            simulatedOwners (owners info) (address <$> take k removals) in
          exists i prev,
            sitsAt simulated (address r) i /\
            predecessorAt simulated i prev /\
            txs !! k =
              Some (callTx sa (removeOwner prev (address r) (threshold info))))
     /\
     (NoDup (JS.toLowerCase <$> (address <$> removals)) ->
      Forall (fun r => isOwnerIn (owners info) (address r)) removals ->
      encodable viem info changes newThreshold ->
      exists txs : list MetaTransaction,
        batchedTransactions viem sa info changes newThreshold = Normal txs /\
        length removals <= length txs)%nat).
Proof.
  split.
  - intros ownerToRemove newThreshold. split.
    + intros txs. unfold removeOwnerTransactions.
      destruct (JS.findIndex (sameAddress ownerToRemove) (owners info)) as [i|] eqn:Hi;
        [|discriminate].
      cbv zeta. case_encode.
      intros [= <-]. exists i, (prevOwnerAt (owners info) i).
      split; [now apply findIndex_sitsAt|].
      split; [now apply (prevOwnerAt_predecessor _ ownerToRemove) | reflexivity].
    + intros i prev Hsits Hprev Hvp Hvo Hthr. unfold removeOwnerTransactions.
      rewrite (sitsAt_findIndex _ _ _ Hsits). cbv zeta.
      rewrite (predecessorAt_prevOwnerAt _ _ _ Hprev).
      rewrite encode_removeOwner by assumption. reflexivity.
  - intros changes newThreshold removals additions Hnoswap.
    assert (Hbody : batchBody viem sa info changes =
      (st ← JS.forOf (removalStep viem sa (threshold info)) removals ([], owners info);
       JS.forOf (additionStep viem sa (threshold info)) additions st)).
    { unfold batchBody. fold removals additions.
      destruct removals as [|r [|r' rs]]; try reflexivity.
      destruct additions as [|a [|a' ads]]; try reflexivity.
      exfalso. apply Hnoswap. split; reflexivity. }
    assert (Hshape : forall txs : list MetaTransaction,
      batchedTransactions viem sa info changes newThreshold = Normal txs ->
      exists calls rest,
        txs = (callTx sa <$> calls) ++ rest /\
        forall k r, removals !! k = Some r ->
          exists i prev,
            sitsAt (simulatedOwners (owners info) (address <$> take k removals))
                   (address r) i /\
            predecessorAt
              (simulatedOwners (owners info) (address <$> take k removals)) i prev /\
            calls !! k = Some (removeOwner prev (address r) (threshold info))).
    { intros txs. unfold batchedTransactions. rewrite Hbody.
      destruct (JS.forOf (removalStep viem sa (threshold info)) removals
                  ([], owners info)) as [[txs1 l1]|err] eqn:Hloop; simpl;
        [|discriminate].
      destruct (JS.forOf (additionStep viem sa (threshold info)) additions
                  (txs1, l1)) as [[txs2 l2]|err] eqn:Hadd; simpl; [|discriminate].
      apply removal_loop_ok in Hloop as (_ & calls & -> & _ & Hk).
      apply addition_loop_ok in Hadd as [-> _].
      destruct (decide (newThreshold <> threshold info)).
      - case_encode. intros [= <-]. exists calls. eexists.
        split; [|exact Hk]. simpl. rewrite <- app_assoc. reflexivity.
      - intros [= <-]. exists calls. eexists. split; [|exact Hk].
        simpl. reflexivity. }
    split.
    + intros txs Htxs k r Hr. cbv zeta.
      destruct (Hshape txs Htxs) as (calls & rest & -> & Hk).
      destruct (Hk k r Hr) as (i & prev & Hsits & Hprev & Hcall).
      exists i, prev. split; [exact Hsits|]. split; [exact Hprev|].
      apply lookup_app_l_Some. rewrite list_lookup_fmap, Hcall. reflexivity.
    + intros Hnd Hin Henc.
      destruct (batchedTransactions_succeeds viem sa info changes newThreshold
                  Hnd Hin Henc) as [txs Htxs].
      exists txs. split; [exact Htxs|].
      destruct (Hshape txs Htxs) as (calls & rest & -> & Hk).
      rewrite length_app, length_fmap.
      assert (length removals <= length calls)%nat; [|lia].
      destruct (Nat.le_gt_cases (length removals) (length calls)) as [|Hlt];
        [assumption|].
      destruct (lookup_lt_is_Some_2 removals (length calls) Hlt) as [r Hr].
      destruct (Hk _ r Hr) as (i & prev & _ & _ & Hcall).
      apply lookup_lt_Some in Hcall. lia.
Qed.

Lemma removal_prevOwner_from_simulated_owners_witness :
  removeOwnerTransactions eip55 aSafe abcInfo ownerB 2 =
    Normal [callTx aSafe (removeOwner ownerA ownerB 2)]
  /\ exists i prev,
    sitsAt (simulatedOwners [ownerA; ownerB; ownerC] [ownerA]) ownerC i /\
    predecessorAt (simulatedOwners [ownerA; ownerB; ownerC] [ownerA]) i prev /\
    [callTx aSafe (removeOwner SENTINEL ownerA 2);
     callTx aSafe (removeOwner ownerB ownerC 2);
     callTx aSafe (changeThreshold 1)] !! 1%nat =
    Some (callTx aSafe (removeOwner prev ownerC 2)).
Proof.
  split.
  - apply (proj2 (proj1 (removal_prevOwner_from_simulated_owners eip55 aSafe abcInfo)
                    ownerB 2) 1%nat ownerA).
    + apply findIndex_sitsAt. reflexivity.
    + reflexivity.
    + reflexivity.
    + reflexivity.
    + unfold uint256. lia.
  - apply (proj1 (proj2 (removal_prevOwner_from_simulated_owners eip55 aSafe abcInfo)
             [mkChange remove ownerA; mkChange remove ownerC] 1
             ltac:(simpl; intros [H _]; discriminate H))
             [callTx aSafe (removeOwner SENTINEL ownerA 2);
              callTx aSafe (removeOwner ownerB ownerC 2);
              callTx aSafe (changeThreshold 1)]
             eq_refl 1%nat (mkChange remove ownerC) eq_refl).
Defined.

(** C4. Whenever the batched function encodes a call list, the list ends
    with [changeThreshold(newThreshold)] exactly when [newThreshold]
    differs from the current threshold; that call is the last one, whatever
    the order of the changes, and every call before it is a [swapOwner], or
    a [removeOwner] or [addOwnerWithThreshold] carrying the current
    threshold.  When the threshold is unchanged no [changeThreshold] call
    is present at all. *)
Theorem changeThreshold_is_last (viem : Viem) (sa : string) (info : SafeInfo)
    (changes : list OwnerChange) (newThreshold : Z) (txs : list MetaTransaction) :
  batchedTransactions viem sa info changes newThreshold = Normal txs ->
  (newThreshold <> threshold info ->
     exists calls,
       data <$> txs = calls ++ [changeThreshold newThreshold] /\
       Forall (carriesThreshold (threshold info)) calls)
  /\ (newThreshold = threshold info ->
     Forall (carriesThreshold (threshold info)) (data <$> txs)).
Proof.
  unfold batchedTransactions.
  destruct (batchBody viem sa info changes) as [[txs1 l1]|err] eqn:Hbody; simpl;
    [|discriminate].
  apply batchBody_calls in Hbody as (calls & -> & Hthr).
  assert (Hdata : data <$> (callTx sa <$> calls) = calls).
  { rewrite <- list_fmap_compose. clear.
    induction calls as [|c calls IH]; [reflexivity|].
    rewrite fmap_cons, IH. reflexivity. }
  destruct (decide (newThreshold <> threshold info)) as [Hne|Heq].
  - case_encode. intros [= <-]. split; intros H; [|contradiction].
    exists calls. rewrite fmap_app, Hdata. split; [reflexivity | exact Hthr].
  - intros [= <-]. split; intros H; [contradiction|].
    rewrite Hdata. exact Hthr.
Qed.

Lemma changeThreshold_is_last_witness :
  exists calls,
    [removeOwner SENTINEL ownerA 2; addOwnerWithThreshold ownerD 2;
     addOwnerWithThreshold ownerB 2; changeThreshold 3] =
    calls ++ [changeThreshold 3] /\
    Forall (carriesThreshold 2) calls.
Proof.
  apply (proj1 (changeThreshold_is_last eip55 aSafe abcInfo
           [mkChange add ownerD; mkChange remove ownerA; mkChange add ownerB] 3
           _ eq_refl)).
  discriminate.
Defined.

End UseSafe.

(** ** app/components/ManageOwnersModal.tsx *)

Module ManageOwnersModal.

Import UseSafe.

(** A JavaScript [Set] of strings, kept in insertion order. *)
Definition StringSet : Type := list string.

Definition setHas (x : string) (s : StringSet) : bool := bool_decide (x ∈ s).
Definition setAdd (x : string) (s : StringSet) : StringSet :=
  if setHas x s then s else s ++ [x].
Definition setDelete (x : string) (s : StringSet) : StringSet :=
  filter (fun y => y <> x) s.
Definition setSize (s : StringSet) : Z := Z.of_nat (length s).

(** The props and the state of the modal. *)
Record Modal : Type := mkModal {
  owners : list string;
  threshold : Z;
  ownersToRemove : StringSet;
  ownersToAdd : list string;
  newThreshold : Z;
}.

Definition finalOwnerCount (m : Modal) : Z :=
  Z.of_nat (length (owners m)) - setSize (ownersToRemove m)
  + Z.of_nat (length (ownersToAdd m)).

Definition hasChanges (m : Modal) : bool :=
  (0 <? setSize (ownersToRemove m))
  || (0 <? Z.of_nat (length (ownersToAdd m)))
  || negb (newThreshold m =? threshold m).

Definition handleToggleRemoveOwner (owner : string) (m : Modal) : Modal :=
  let normalizedOwner := JS.toLowerCase owner in
  let newSet :=
    if setHas normalizedOwner (ownersToRemove m)
    then setDelete normalizedOwner (ownersToRemove m)
    else setAdd normalizedOwner (ownersToRemove m) in
  {| owners := owners m; threshold := threshold m; ownersToRemove := newSet;
     ownersToAdd := ownersToAdd m; newThreshold := newThreshold m |}.

(** What [handleCreateTransaction] does: it alerts and returns, or it
    awaits [onBatchUpdate(changes, newThreshold)]. *)
Inductive Outcome : Type :=
  | Alerted (text : string)
  | BatchUpdate (changes : list OwnerChange) (newThreshold : Z).

Definition thresholdAlert (m : Modal) : string :=
  "Threshold must be between 1 and " +:+ pretty (finalOwnerCount m)
  +:+ " (final owner count)".

Definition handleCreateTransaction (m : Modal) : Outcome :=
  if (newThreshold m <? 1) || (finalOwnerCount m <? newThreshold m)
  then Alerted (thresholdAlert m)
  else if negb (hasChanges m) then Alerted "No changes to apply"
  else
    let changes :=
      ((fun addr => {| type := remove; address := addr |}) <$> ownersToRemove m)
      ++ ((fun addr => {| type := add; address := addr |}) <$> ownersToAdd m) in
    BatchUpdate changes (newThreshold m).

(** *** Properties *)

(** A non-owner removal that does not end in an owner-not-found error:
    the batch first removes [B], written in upper case, which the lookup
    finds and the encoder refuses, so that the lookup of [D], which is no
    owner, is never reached. *)
Lemma absent_removal_after_a_refused_one :
  mkChange remove ownerD ∈ [mkChange remove upperCaseB; mkChange remove ownerD]
  /\ ~ isOwnerIn (UseSafe.owners abcInfo) ownerD
  /\ createBatchedOwnerManagementTransaction eip55 unit (fun _ => Some tt)
       (fun _ => "0x01") aSafe (Some abcInfo)
       [mkChange remove upperCaseB; mkChange remove ownerD] 2 =
     {| built := [];
        completion := Throw (ErrorObject (invalidAddressMessage eip55 upperCaseB)) |}
  /\ ~ exists r',
       createBatchedOwnerManagementTransaction eip55 unit (fun _ => Some tt)
         (fun _ => "0x01") aSafe (Some abcInfo)
         [mkChange remove upperCaseB; mkChange remove ownerD] 2 =
       {| built := []; completion := Throw (ownerNotFound (address r')) |}.
Proof.
  split; [now right; left|]. split; [|split; [reflexivity|]].
  - intros (o & Ho & Heq).
    repeat (apply elem_of_cons in Ho as [->|Ho]; [discriminate Heq|]).
    apply elem_of_nil in Ho. exact Ho.
  - intros (r' & Hr'). discriminate Hr'.
Qed.

(** C9. Asking for the removal of an address that is not among the current
    owners makes the encoding throw without [buildSafeTransaction] ever
    being called.  [createRemoveOwnerTransaction] throws its
    owner-not-found error.  The batched function throws the
    owner-not-found error of one of its removals, or else the error with
    which the encoder refused a removal that comes before; it is the
    owner-not-found error when the absent address is the first removal of
    the batch, and whenever the encoder takes the owners, the addresses
    of the changes and the current threshold.  A new threshold below 1 or
    above the final owner count (owners minus removals plus additions)
    makes [handleCreateTransaction] alert and return, without handing any
    change over for encoding. *)
Theorem invalid_owner_changes_are_rejected :
  (forall (viem : Viem) (T : Type) (build : list MetaTransaction -> option T)
          (hash : T -> string) (sa : string) (info : SafeInfo)
          (changes : list OwnerChange) (nt : Z) (r : OwnerChange),
     r ∈ changes -> type r = remove ->
     ~ isOwnerIn (UseSafe.owners info) (address r) ->
     exists e,
       createBatchedOwnerManagementTransaction viem T build hash sa (Some info)
         changes nt = {| built := []; completion := Throw e |}
       /\ ((exists r', r' ∈ changes /\ type r' = remove /\
              e = ownerNotFound (address r'))
           \/ encoderError viem e)
       /\ (Forall (validAddress viem) (UseSafe.owners info) ->
           Forall (fun c => validAddress viem (address c)) changes ->
           uint256 (UseSafe.threshold info) ->
           exists r', r' ∈ changes /\ type r' = remove /\
             e = ownerNotFound (address r'))
       /\ (forall rest, filter (fun c => type c = remove) changes = r :: rest ->
           e = ownerNotFound (address r)))
  /\ (forall (viem : Viem) (T : Type) (build : list MetaTransaction -> option T)
          (hash : T -> string) (sa : string) (info : SafeInfo)
          (ownerToRemove : string) (nt : Z),
     ~ isOwnerIn (UseSafe.owners info) ownerToRemove ->
     createRemoveOwnerTransaction viem T build hash sa (Some info) ownerToRemove nt =
     {| built := []; completion := Throw (ErrorObject "Owner not found") |})
  /\ (forall m : Modal,
     newThreshold m < 1 \/ newThreshold m > finalOwnerCount m ->
     finalOwnerCount m =
       Z.of_nat (length (owners m)) - Z.of_nat (length (ownersToRemove m))
       + Z.of_nat (length (ownersToAdd m)) /\
     handleCreateTransaction m = Alerted (thresholdAlert m)).
Proof.
  split; [|split].
  - intros viem T build hash sa info changes nt r Hr Hty Habs.
    assert (Hrem : r ∈ filter (fun c => type c = remove) changes)
      by (apply list_elem_of_filter; auto).
    assert (Hex : exists r, r ∈ filter (fun c => type c = remove) changes /\
                    ~ isOwnerIn (UseSafe.owners info) (address r)) by eauto.
    destruct (batchBody_throws viem sa info changes Hex) as (e & Hthrow & Hwhich).
    exists e. unfold createBatchedOwnerManagementTransaction, batchedTransactions.
    rewrite Hthrow. split; [reflexivity|]. split; [|split].
    + destruct Hwhich as [(r' & Hr' & ->)|He]; [left | now right].
      apply list_elem_of_filter in Hr' as [Hty' Hin']. eauto.
    + intros Hown Hch Hthr.
      destruct (batchBody_not_found viem sa info changes Hown Hch Hthr Hex)
        as (r' & Hr' & Hthrow').
      rewrite Hthrow in Hthrow'. injection Hthrow' as ->.
      apply list_elem_of_filter in Hr' as [Hty' Hin']. eauto.
    + intros rest Hf.
      rewrite (batchBody_first_not_found viem sa info changes r rest Hf Habs)
        in Hthrow.
      now injection Hthrow as <-.
  - intros viem T build hash sa info ownerToRemove nt Habs.
    unfold createRemoveOwnerTransaction, removeOwnerTransactions.
    apply findIndex_absent in Habs. rewrite Habs. reflexivity.
  - intros m Hbad. split; [reflexivity|].
    unfold handleCreateTransaction.
    assert ((newThreshold m <? 1) || (finalOwnerCount m <? newThreshold m) = true)
      as ->; [|reflexivity].
    apply orb_true_iff. destruct Hbad; [left | right]; apply Z.ltb_lt; lia.
Qed.

Lemma invalid_owner_changes_are_rejected_witness :
  (exists e,
     createBatchedOwnerManagementTransaction eip55 unit (fun _ => Some tt)
       (fun _ => "0x01") aSafe (Some abcInfo)
       [mkChange remove ownerA; mkChange add ownerB; mkChange remove ownerD] 2 =
     {| built := []; completion := Throw e |}
     /\ ((exists r',
            r' ∈ [mkChange remove ownerA; mkChange add ownerB; mkChange remove ownerD]
            /\ type r' = remove /\ e = ownerNotFound (address r'))
         \/ encoderError eip55 e)
     /\ (Forall (validAddress eip55) (UseSafe.owners abcInfo) ->
         Forall (fun c => validAddress eip55 (address c))
           [mkChange remove ownerA; mkChange add ownerB; mkChange remove ownerD] ->
         uint256 (UseSafe.threshold abcInfo) ->
         exists r',
           r' ∈ [mkChange remove ownerA; mkChange add ownerB; mkChange remove ownerD]
           /\ type r' = remove /\ e = ownerNotFound (address r'))
     /\ (forall rest,
           filter (fun c => type c = remove)
             [mkChange remove ownerA; mkChange add ownerB; mkChange remove ownerD] =
           mkChange remove ownerD :: rest ->
           e = ownerNotFound (address (mkChange remove ownerD))))
  /\ createRemoveOwnerTransaction eip55 unit (fun _ => Some tt) (fun _ => "0x01")
       aSafe (Some abcInfo) ownerD 2 =
     {| built := []; completion := Throw (ErrorObject "Owner not found") |}
  /\ handleCreateTransaction
       {| owners := [ownerA; ownerB; ownerC]; threshold := 2;
          ownersToRemove := [JS.toLowerCase ownerA]; ownersToAdd := [];
          newThreshold := 3 |} =
     Alerted "Threshold must be between 1 and 2 (final owner count)".
Proof.
  assert (Habs : ~ isOwnerIn (UseSafe.owners abcInfo) ownerD).
  { intros (o & Ho & Heq).
    repeat (apply elem_of_cons in Ho as [->|Ho]; [discriminate Heq|]).
    apply elem_of_nil in Ho. exact Ho. }
  split; [|split].
  - apply (proj1 invalid_owner_changes_are_rejected eip55 unit (fun _ => Some tt)
             (fun _ => "0x01") aSafe abcInfo
             [mkChange remove ownerA; mkChange add ownerB; mkChange remove ownerD] 2
             (mkChange remove ownerD)).
    + now do 2 right; left.
    + reflexivity.
    + exact Habs.
  - apply (proj1 (proj2 invalid_owner_changes_are_rejected)). exact Habs.
  - apply (proj2 (proj2 invalid_owner_changes_are_rejected)
             {| owners := [ownerA; ownerB; ownerC]; threshold := 2;
                ownersToRemove := [JS.toLowerCase ownerA]; ownersToAdd := [];
                newThreshold := 3 |}).
    right. reflexivity.
Defined.

End ManageOwnersModal.

(** ** The protocol kit's transaction objects *)

Module ProtocolKit.

(** The data of a Safe transaction.  The type declares the nonce a
    number; a transaction that is rebuilt from a JSON text holds there
    whatever the text had, unchecked, so the field is a value. *)
Record SafeTransactionData : Type := mkData {
  to : string;
  value : string;
  data : string;
  operation : Z;
  safeTxGas : string;
  baseGas : string;
  gasPrice : string;
  gasToken : string;
  refundReceiver : string;
  nonce : JS.Value;
}.

Record SafeSignature : Type := mkSignature {
  signer : string;
  sigData : string;
  isContractSignature : bool;
}.

(** [EthSafeTransaction]: the transaction data and the signatures, a [Map]
    keyed by the lower-cased signer. *)
Record EthSafeTransaction : Type := mkSafeTx {
  txData : SafeTransactionData;
  signatures : gmap string SafeSignature;
}.

(** [tx.data.nonce] and [Number(tx.data.nonce)] *)
Definition nonceOf (tx : EthSafeTransaction) : JS.Value := nonce (txData tx).

Definition nonceNumber (tx : EthSafeTransaction) : JS.Number :=
  JS.toNumber (nonceOf tx).

(** [tx.addSignature(sig)] *)
Definition addSignature (sig : SafeSignature) (tx : EthSafeTransaction)
    : EthSafeTransaction :=
  {| txData := txData tx;
     signatures := <[JS.toLowerCase (signer sig) := sig]> (signatures tx) |}.

(** A transfer of nothing to the zero address with a given nonce, for the
    worked examples; [emptyTx] takes the nonce as an integer. *)
Definition emptyTxWith (n : JS.Value) : EthSafeTransaction :=
  {| txData := {| to := "0x0000000000000000000000000000000000000000";
                  value := "0"; data := "0x"; operation := 0;
                  safeTxGas := "0"; baseGas := "0"; gasPrice := "0";
                  gasToken := "0x0000000000000000000000000000000000000000";
                  refundReceiver := "0x0000000000000000000000000000000000000000";
                  nonce := n |};
     signatures := ∅ |}.

Definition emptyTx (n : Z) : EthSafeTransaction :=
  emptyTxWith (JS.Numeric (JS.integer n)).

Definition aSafeAddress : string := "0x5afe5afe5afe5afe5afe5afe5afe5afe5afe5afe".

Definition aSignature : SafeSignature :=
  {| signer := "0x5aAeb6053F3E94C9b9A09f33669435E7Ef1BeAed";
     sigData := "0x1b"; isContractSignature := false |}.

End ProtocolKit.

(** ** app/components/TokenTransferModal.tsx: the proposed nonce *)

Module TokenTransferModal.

Import ProtocolKit.

(** The [useMemo] body computing [nextAvailableNonce]; [safeInfoNonce] is
    [None] while [safeInfo] is [null], else [safeInfo.nonce]. *)
Definition nextAvailableNonce (safeInfoNonce : option JS.Number)
    (queuedTransactions : list EthSafeTransaction) : JS.Number :=
  match safeInfoNonce with
  | None => JS.integer 0
  | Some onChain =>
      let queuedNonces := nonceNumber <$> queuedTransactions in
      let highestQueued :=
        if (0 <? length queuedNonces)%nat then JS.Math_max queuedNonces
        else JS.sub onChain (JS.integer 1) in
      JS.Math_max [JS.add highestQueued (JS.integer 1); onChain]
  end.

(** [m] is the greatest of the numbers in [l]. *)
Definition greatestOf (l : list Z) (m : Z) : Prop :=
  m ∈ l /\ forall x, x ∈ l -> x <= m.

(** *** Properties *)

Lemma foldl_max_greatest (x : Z) (rest : list Z) :
  greatestOf (x :: rest) (foldl Z.max x rest).
Proof.
  revert x. induction rest as [|y rest IH]; intros x; simpl.
  - split; [now left|]. intros z Hz.
    apply list_elem_of_singleton in Hz as ->. lia.
  - destruct (IH (Z.max x y)) as [Hin Hub]. split.
    + apply elem_of_cons in Hin as [Heq|Hin].
      * rewrite Heq. destruct (Z.max_spec x y) as [[_ ->]|[_ ->]];
          [right; left | left]; reflexivity.
      * right; right; exact Hin.
    + intros z Hz.
      assert (Hxy : Z.max x y <= foldl Z.max (Z.max x y) rest)
        by (apply Hub; now left).
      apply elem_of_cons in Hz as [->|Hz]; [lia|].
      apply elem_of_cons in Hz as [->|Hz]; [lia|].
      apply Hub. now right.
Qed.

(** On integers that are safe, the proposed nonce is computed without
    rounding. *)
Lemma nextAvailableNonce_integers (n : Z) (queue : list EthSafeTransaction)
    (nonces : list Z) :
  JS.safe n -> Forall JS.safe nonces ->
  nonceNumber <$> queue = JS.integer <$> nonces ->
  nextAvailableNonce (Some (JS.integer n)) queue =
  JS.integer match nonces with
             | [] => n
             | x :: rest => Z.max (foldl Z.max x rest + 1) n
             end.
Proof.
  intros Hn Hsafe Hq. unfold nextAvailableNonce. cbv zeta. rewrite Hq.
  unfold JS.safe, JS.MAX_SAFE_INTEGER in *.
  destruct nonces as [|x rest].
  - cbn [fmap list_fmap length Nat.ltb Nat.leb].
    unfold JS.sub. rewrite JS.opp_integer, !JS.add_integer by lia.
    rewrite JS.Math_max_pair. f_equal. lia.
  - cbn [length Nat.ltb Nat.leb fmap list_fmap].
    rewrite JS.Math_max_integer.
    destruct (foldl_max_greatest x rest) as [Hin _].
    rewrite Forall_forall in Hsafe. specialize (Hsafe _ Hin).
    rewrite JS.add_integer by lia.
    apply JS.Math_max_pair.
Qed.





End TokenTransferModal.

(** ** app/provider/SafeTxProvider.tsx: the pending queue *)

Module SafeTxProvider.

Import ProtocolKit.

(** The provider's state: [currentTxMapRef.current], and the map kept under
    [SAFE_TX_STORAGE_KEY] in the browser's local storage, as [JSON.parse]
    and the constructors rebuild it.  Serialising a transaction keeps its
    data and its signatures, the nonce as JSON prints it. *)
Record Provider : Type := mkProvider {
  current : gmap string (list EthSafeTransaction);
  stored : gmap string (list EthSafeTransaction);
}.

(** A fresh browser profile. *)
Definition initial : Provider := {| current := ∅; stored := ∅ |}.

(** [chainId ? `${safeAddress}-${chainId}` : safeAddress] *)
Definition keyOf (safeAddress : string) (chainId : option string) : string :=
  match chainId with
  | Some c => if JS.truthy c then safeAddress +:+ "-" +:+ c else safeAddress
  | None => safeAddress
  end.

(** [currentTxMapRef.current[key] || []] *)
Definition queueAt (key : string) (p : Provider) : list EthSafeTransaction :=
  default [] (current p !! key).

(** A transaction as it comes back from the JSON text it was written to. *)
Definition asStored (tx : EthSafeTransaction) : EthSafeTransaction :=
  {| txData := {| to := to (txData tx); value := value (txData tx);
                  data := data (txData tx); operation := operation (txData tx);
                  safeTxGas := safeTxGas (txData tx);
                  baseGas := baseGas (txData tx);
                  gasPrice := gasPrice (txData tx);
                  gasToken := gasToken (txData tx);
                  refundReceiver := refundReceiver (txData tx);
                  nonce := JS.throughJSON (nonce (txData tx)) |};
     signatures := signatures tx |}.

(** Replace the first entry that is the same as [txObj] for [same], or
    push [txObj]. *)
Definition upsertBy (same : EthSafeTransaction -> EthSafeTransaction -> bool)
    (txObj : EthSafeTransaction) (txs : list EthSafeTransaction)
    : list EthSafeTransaction :=
  match JS.findIndex (fun tx => same tx txObj) txs with
  | Some existingIndex => <[existingIndex := txObj]> txs
  | None => txs ++ [txObj]
  end.

(** [tx.data.nonce === txObj.data.nonce], the test of [saveTransaction]. *)
Definition sameNonce (tx txObj : EthSafeTransaction) : bool :=
  JS.strictEquals (nonceOf tx) (nonceOf txObj).

(** [Number(tx.data.nonce) === Number(importedTx.data.nonce)], the test of
    [importTx]. *)
Definition sameNonceNumber (tx importedTx : EthSafeTransaction) : bool :=
  JS.numberEquals (nonceNumber tx) (nonceNumber importedTx).

(** [(a, b) => Number(a.data.nonce) - Number(b.data.nonce)] *)
Definition compareNonces (a b : EthSafeTransaction) : JS.Number :=
  JS.sub (nonceNumber a) (nonceNumber b).

Definition saveTransaction (safeAddress : string) (txObj : EthSafeTransaction)
    (chainId : option string) (p : Provider) : Provider :=
  let key := keyOf safeAddress chainId in
  let existingTxs := queueAt key p in
  let existingTxs := upsertBy sameNonce txObj existingTxs in
  let existingTxs := JS.sort compareNonces existingTxs in
  {| current := <[key := existingTxs]> (current p);
     stored := <[key := asStored <$> existingTxs]> (stored p) |}.

(** Reads return their result together with the provider they leave. *)
Definition getTransaction (safeAddress : string) (chainId : option string)
    (p : Provider) : option EthSafeTransaction * Provider :=
  let key := keyOf safeAddress chainId in
  match current p !! key with
  | Some (tx :: _) => (Some tx, p)
  | _ => (None, p)
  end.

Definition getAllTransactions (safeAddress : string) (chainId : option string)
    (p : Provider) : list EthSafeTransaction * Provider :=
  let key := keyOf safeAddress chainId in
  (queueAt key p, p).

Definition removeTransaction (safeAddress : string) (txHash : option string)
    (nonce : option JS.Number) (chainId : option string) (p : Provider)
    : Provider :=
  let key := keyOf safeAddress chainId in
  if negb (from_option JS.truthy false txHash) && bool_decide (nonce = None) then
    {| current := <[key := []]> (current p); stored := delete key (stored p) |}
  else
    let existingTxs := queueAt key p in
    let filtered :=
      match nonce with
      | Some n =>
          filter (fun tx => JS.numberEquals (nonceNumber tx) n = false) existingTxs
      | None => existingTxs
      end in
    {| current := <[key := filtered]> (current p);
       stored := if (0 <? length filtered)%nat
                 then <[key := asStored <$> filtered]> (stored p)
                 else delete key (stored p) |}.

(** What [JSON.parse(json)] can hand to [importTx]: nothing (it throws), an
    object whose [transactions] is an array (an entry is [None] when it has
    no [data]), an object with a [tx] that has [data], or anything else.
    The transactions are rebuilt from the data as the text has it. *)
Inductive ImportJson : Type :=
  | Malformed
  | Bundle (transactions : list (option EthSafeTransaction))
  | SingleTx (tx : EthSafeTransaction)
  | Unrecognised.

(** The [transactions] array [importTx] collects from the parsed object. *)
Definition importedTransactions (json : ImportJson) : list EthSafeTransaction :=
  match json with
  | Bundle entries => omap id entries
  | SingleTx tx => [tx]
  | Malformed | Unrecognised => []
  end.

Definition importTx (safeAddress : string) (json : ImportJson)
    (chainId : option string) (p : Provider) : Provider :=
  let key := keyOf safeAddress chainId in
  match json with
  | Malformed => p
  | _ =>
      let transactions := importedTransactions json in
      if (0 <? length transactions)%nat then
        let existingTxs := queueAt key p in
        let mergedTxs :=
          foldl (fun merged importedTx => upsertBy sameNonceNumber importedTx merged)
                existingTxs transactions in
        let mergedTxs := JS.sort compareNonces mergedTxs in
        {| current := <[key := mergedTxs]> (current p);
           stored := <[key := asStored <$> mergedTxs]> (stored p) |}
      else p
  end.

(** The effect run when the provider mounts on a page load: the in-memory
    map starts empty and takes every entry of the stored map, in the
    order the entry has. *)
Definition hydrate (p : Provider) : Provider :=
  {| current := stored p; stored := stored p |}.

(** What can happen to the provider, and the states it reaches. *)
Inductive Action : Type :=
  | Save (safeAddress : string) (txObj : EthSafeTransaction) (chainId : option string)
  | Import (safeAddress : string) (json : ImportJson) (chainId : option string)
  | Remove (safeAddress : string) (txHash : option string) (nonce : option JS.Number)
           (chainId : option string)
  | PageLoad.

Definition act (p : Provider) (a : Action) : Provider :=
  match a with
  | Save safeAddress txObj chainId => saveTransaction safeAddress txObj chainId p
  | Import safeAddress json chainId => importTx safeAddress json chainId p
  | Remove safeAddress txHash nonce chainId =>
      removeTransaction safeAddress txHash nonce chainId p
  | PageLoad => hydrate p
  end.

Definition run (actions : list Action) : Provider := foldl act initial actions.

(** *** Reference notions *)

(** The nonce is a number, and a finite one: what the declared type and
    the contract's [uint256] leave once the nonce is a JavaScript
    Number. *)
Definition numbered (tx : EthSafeTransaction) : Prop :=
  exists units, nonceOf tx = JS.Numeric (JS.Finite units).

#[global] Instance numbered_dec (tx : EthSafeTransaction) : Decision (numbered tx).
Proof.
  unfold numbered. destruct (nonceOf tx) as [| | |[| |units]|].
  1-5, 7: right; intros [u Hu]; discriminate Hu.
  left. now exists units.
Defined.

(** The nonce of a numbered transaction, in units. *)
Definition rank (tx : EthSafeTransaction) : Z :=
  match nonceOf tx with
  | JS.Numeric (JS.Finite units) => units
  | _ => 0
  end.

(** The upsert by nonce on numbered transactions. *)
Definition upsertByNonce (txObj : EthSafeTransaction)
    (txs : list EthSafeTransaction) : list EthSafeTransaction :=
  upsertBy (fun tx txObj => rank tx =? rank txObj) txObj txs.

Definition sortedByNonce (txs : list EthSafeTransaction) : Prop :=
  StronglySorted (fun a b => rank a <= rank b) txs.

Definition strictlyByNonce (txs : list EthSafeTransaction) : Prop :=
  StronglySorted (fun a b => rank a < rank b) txs.

(** No entry has a lower nonce than an entry that comes before it. *)
Definition ascending (txs : list EthSafeTransaction) : Prop :=
  StronglySorted (fun a b => JS.lt (nonceNumber b) (nonceNumber a) = false) txs.

(** A queue in which every nonce is a finite number and no nonce comes
    twice, in ascending order: what the provider keeps as long as it is
    given numbered transactions. *)
Definition orderly (txs : list EthSafeTransaction) : Prop :=
  Forall numbered txs /\ strictlyByNonce txs.

(** The queue read as a map from nonce to transaction. *)
Definition byNonce (txs : list EthSafeTransaction) : gmap Z EthSafeTransaction :=
  list_to_map ((fun tx => (rank tx, tx)) <$> txs).

(** Every transaction an action brings is numbered. *)
Definition numberedAction (a : Action) : Prop :=
  match a with
  | Save _ txObj _ => numbered txObj
  | Import _ json _ => Forall numbered (importedTransactions json)
  | Remove _ _ _ _ | PageLoad => True
  end.

#[global] Instance numberedAction_dec (a : Action) : Decision (numberedAction a).
Proof. destruct a; simpl; apply _. Defined.

(** The invariant of a provider that is given numbered transactions:
    every queue, in memory and in storage, is orderly. *)
Definition wellKept (p : Provider) : Prop :=
  map_Forall (fun _ txs => orderly txs) (current p) /\
  map_Forall (fun _ txs => orderly txs) (stored p).

(** *** Numbered transactions *)

Lemma numbered_nonce (tx : EthSafeTransaction) :
  numbered tx -> nonceOf tx = JS.Numeric (JS.Finite (rank tx)).
Proof. intros [u Hu]. unfold rank. now rewrite Hu. Qed.

Lemma numbered_nonceNumber (tx : EthSafeTransaction) :
  numbered tx -> nonceNumber tx = JS.Finite (rank tx).
Proof. intros H. unfold nonceNumber. now rewrite (numbered_nonce tx H). Qed.

Lemma numbered_emptyTx (n : Z) : numbered (emptyTx n).
Proof. now exists (n * JS.one). Qed.

Lemma rank_emptyTx (n : Z) : rank (emptyTx n) = n * JS.one.
Proof. reflexivity. Qed.

Lemma numbered_addSignature (sig : SafeSignature) (tx : EthSafeTransaction) :
  numbered tx -> numbered (addSignature sig tx).
Proof. intros H. exact H. Qed.

(** Two numbered transactions have the same nonce when they have the
    same rank. *)
Lemma numbered_same_nonce (a b : EthSafeTransaction) :
  numbered a -> numbered b -> (nonceOf a = nonceOf b <-> rank a = rank b).
Proof.
  intros Ha Hb. rewrite (numbered_nonce a Ha), (numbered_nonce b Hb).
  split; [now intros [= ->] | now intros ->].
Qed.

Lemma sameNonce_numbered (tx txObj : EthSafeTransaction) :
  numbered tx -> numbered txObj -> sameNonce tx txObj = (rank tx =? rank txObj).
Proof.
  intros Ha Hb. unfold sameNonce.
  rewrite (numbered_nonce _ Ha), (numbered_nonce _ Hb). simpl.
  apply JS.numberEquals_Finite.
Qed.

Lemma sameNonceNumber_numbered (tx txObj : EthSafeTransaction) :
  numbered tx -> numbered txObj ->
  sameNonceNumber tx txObj = (rank tx =? rank txObj).
Proof.
  intros Ha Hb. unfold sameNonceNumber.
  rewrite (numbered_nonceNumber _ Ha), (numbered_nonceNumber _ Hb).
  apply JS.numberEquals_Finite.
Qed.

Lemma compareNonces_numbered (a b : EthSafeTransaction) :
  numbered a -> numbered b ->
  JS.positive (compareNonces a b) = (rank b <? rank a).
Proof.
  intros Ha Hb. unfold compareNonces.
  rewrite (numbered_nonceNumber _ Ha), (numbered_nonceNumber _ Hb).
  apply JS.positive_sub.
Qed.

(** JSON keeps the nonce of a numbered transaction. *)
Lemma asStored_numbered (tx : EthSafeTransaction) : numbered tx -> asStored tx = tx.
Proof.
  intros [u Hu]. destruct tx as [[] sigs]. unfold nonceOf in Hu. simpl in Hu.
  subst. reflexivity.
Qed.

Lemma asStored_all_numbered (txs : list EthSafeTransaction) :
  Forall numbered txs -> asStored <$> txs = txs.
Proof.
  induction 1 as [|x l Hx _ IH]; [reflexivity|].
  now rewrite fmap_cons, IH, asStored_numbered.
Qed.

Lemma asStored_idemp (tx : EthSafeTransaction) : asStored (asStored tx) = asStored tx.
Proof.
  destruct tx as [[? ? ? ? ? ? ? ? ? n] sigs]. unfold asStored. simpl.
  now destruct n as [| | |[]|].
Qed.

(** *** Properties of the upsert *)

Lemma upsertBy_cons (same : EthSafeTransaction -> EthSafeTransaction -> bool)
    (t x : EthSafeTransaction) (l : list EthSafeTransaction) :
  upsertBy same t (x :: l) = if same x t then t :: l else x :: upsertBy same t l.
Proof.
  unfold upsertBy. simpl.
  destruct (same x t); [reflexivity|].
  destruct (JS.findIndex _ l); reflexivity.
Qed.

Lemma upsertBy_ext (same same' : EthSafeTransaction -> EthSafeTransaction -> bool)
    (t : EthSafeTransaction) (l : list EthSafeTransaction) :
  Forall (fun x => same x t = same' x t) l -> upsertBy same t l = upsertBy same' t l.
Proof.
  induction 1 as [|x l Hx _ IH]; [reflexivity|].
  now rewrite !upsertBy_cons, Hx, IH.
Qed.

Lemma elem_of_upsertBy (same : EthSafeTransaction -> EthSafeTransaction -> bool)
    (t x : EthSafeTransaction) (l : list EthSafeTransaction) :
  x ∈ upsertBy same t l -> x = t \/ x ∈ l.
Proof.
  induction l as [|y l IH].
  - intros H. apply list_elem_of_singleton in H. now left.
  - rewrite upsertBy_cons. destruct (same y t).
    + intros H. apply elem_of_cons in H as [->|H]; [now left | right; now right].
    + intros H. apply elem_of_cons in H as [->|H]; [right; now left|].
      destruct (IH H) as [->|Hin]; [now left | right; now right].
Qed.

Lemma upsertBy_not_empty (same : EthSafeTransaction -> EthSafeTransaction -> bool)
    (t : EthSafeTransaction) (l : list EthSafeTransaction) :
  (length l <= length (upsertBy same t l))%nat /\ (0 < length (upsertBy same t l))%nat.
Proof.
  unfold upsertBy. destruct (JS.findIndex _ l) as [i|] eqn:Hi.
  - apply JS.findIndex_Some in Hi as (x & Hx & _).
    rewrite length_insert. apply lookup_lt_Some in Hx. lia.
  - rewrite length_app. simpl. lia.
Qed.

Lemma numbered_upsertBy (same : EthSafeTransaction -> EthSafeTransaction -> bool)
    (t : EthSafeTransaction) (l : list EthSafeTransaction) :
  numbered t -> Forall numbered l -> Forall numbered (upsertBy same t l).
Proof.
  intros Ht Hl. apply Forall_forall. intros x Hx.
  apply elem_of_upsertBy in Hx as [->|Hx]; [exact Ht|].
  rewrite Forall_forall in Hl. auto.
Qed.

Lemma upsertByNonce_cons (t x : EthSafeTransaction) (l : list EthSafeTransaction) :
  upsertByNonce t (x :: l) =
  if rank x =? rank t then t :: l else x :: upsertByNonce t l.
Proof. apply upsertBy_cons. Qed.

(** On numbered transactions the two tests of the code find the same
    entry: the one with the rank of the new transaction. *)
Lemma upsertBy_sameNonce (t : EthSafeTransaction) (l : list EthSafeTransaction) :
  numbered t -> Forall numbered l -> upsertBy sameNonce t l = upsertByNonce t l.
Proof.
  intros Ht Hl. apply upsertBy_ext.
  eapply Forall_impl; [exact Hl|]. intros x Hx. now apply sameNonce_numbered.
Qed.

Lemma upsertBy_sameNonceNumber (t : EthSafeTransaction) (l : list EthSafeTransaction) :
  numbered t -> Forall numbered l -> upsertBy sameNonceNumber t l = upsertByNonce t l.
Proof.
  intros Ht Hl. apply upsertBy_ext.
  eapply Forall_impl; [exact Hl|]. intros x Hx. now apply sameNonceNumber_numbered.
Qed.

Lemma sort_numbered (l : list EthSafeTransaction) :
  Forall numbered l -> JS.sort compareNonces l = JS.sortBy rank l.
Proof.
  intros Hl. apply JS.sort_key. intros x y Hx Hy.
  rewrite Forall_forall in Hl. apply compareNonces_numbered; auto.
Qed.

Lemma numbered_sortBy (l : list EthSafeTransaction) :
  Forall numbered l -> Forall numbered (JS.sortBy rank l).
Proof. intros Hl. now rewrite JS.sortBy_perm. Qed.

Lemma foldl_upsert_numbered (txs l : list EthSafeTransaction) :
  Forall numbered txs -> Forall numbered l ->
  Forall numbered
    (foldl (fun merged importedTx => upsertByNonce importedTx merged) l txs)
  /\ foldl (fun merged importedTx => upsertBy sameNonceNumber importedTx merged) l txs =
     foldl (fun merged importedTx => upsertByNonce importedTx merged) l txs.
Proof.
  intros Htxs. revert l. induction Htxs as [|t txs Ht _ IH]; intros l Hl; simpl.
  - auto.
  - rewrite upsertBy_sameNonceNumber by assumption.
    apply IH. now apply numbered_upsertBy.
Qed.

Lemma upsertByNonce_append (t : EthSafeTransaction) (l : list EthSafeTransaction) :
  Forall (fun e => rank e <> rank t) l -> upsertByNonce t l = l ++ [t].
Proof.
  induction 1 as [|x l Hx _ IH]; [reflexivity|].
  rewrite upsertByNonce_cons.
  destruct (Z.eqb_spec (rank x) (rank t)); [contradiction|].
  now rewrite IH.
Qed.

Lemma upsertByNonce_replace (t e : EthSafeTransaction)
    (l1 l2 : list EthSafeTransaction) :
  Forall (fun x => rank x <> rank t) l1 -> rank e = rank t ->
  upsertByNonce t (l1 ++ e :: l2) = l1 ++ t :: l2.
Proof.
  intros Hl1 He. induction Hl1 as [|x l1 Hx _ IH]; simpl.
  - rewrite upsertByNonce_cons, He, Z.eqb_refl. reflexivity.
  - rewrite upsertByNonce_cons.
    destruct (Z.eqb_spec (rank x) (rank t)); [contradiction|].
    now rewrite IH.
Qed.

Lemma byNonce_cons (x : EthSafeTransaction) (l : list EthSafeTransaction) :
  byNonce (x :: l) = <[rank x := x]> (byNonce l).
Proof. reflexivity. Qed.

Lemma byNonce_upsert (t : EthSafeTransaction) (l : list EthSafeTransaction) :
  byNonce (upsertByNonce t l) = <[rank t := t]> (byNonce l).
Proof.
  induction l as [|x l IH]; [reflexivity|].
  rewrite upsertByNonce_cons.
  destruct (Z.eqb_spec (rank x) (rank t)) as [Heq|Hne].
  - rewrite !byNonce_cons, Heq, insert_insert_eq. reflexivity.
  - rewrite !byNonce_cons, IH. now apply insert_insert_ne.
Qed.

Lemma nonces_upsert (t : EthSafeTransaction) (l : list EthSafeTransaction) (n : Z) :
  n ∈ rank <$> upsertByNonce t l <-> n = rank t \/ n ∈ rank <$> l.
Proof.
  induction l as [|x l IH].
  - simpl. rewrite list_elem_of_singleton, elem_of_nil. tauto.
  - rewrite upsertByNonce_cons.
    destruct (Z.eqb_spec (rank x) (rank t)) as [Heq|Hne].
    + rewrite !fmap_cons, !elem_of_cons, Heq. tauto.
    + rewrite !fmap_cons, !elem_of_cons, IH. tauto.
Qed.

Lemma NoDup_upsert (t : EthSafeTransaction) (l : list EthSafeTransaction) :
  NoDup (rank <$> l) -> NoDup (rank <$> upsertByNonce t l).
Proof.
  induction l as [|x l IH]; intros Hnd.
  - simpl. apply NoDup_singleton.
  - rewrite upsertByNonce_cons. rewrite fmap_cons in Hnd.
    apply NoDup_cons in Hnd as [Hx Hnd].
    destruct (Z.eqb_spec (rank x) (rank t)) as [Heq|Hne].
    + rewrite fmap_cons, <- Heq. now apply NoDup_cons.
    + rewrite fmap_cons. apply NoDup_cons. split; [|now apply IH].
      rewrite nonces_upsert. intros [?|?]; [congruence | contradiction].
Qed.

Lemma byNonce_perm (l l' : list EthSafeTransaction) :
  NoDup (rank <$> l) -> l ≡ₚ l' -> byNonce l = byNonce l'.
Proof.
  intros Hnd Hp. unfold byNonce. apply list_to_map_proper.
  - rewrite <- list_fmap_compose. exact Hnd.
  - now rewrite Hp.
Qed.

Lemma byNonce_lookup (l : list EthSafeTransaction) (t : EthSafeTransaction) :
  NoDup (rank <$> l) ->
  byNonce l !! rank t = Some t <-> t ∈ l.
Proof.
  intros Hnd. unfold byNonce.
  rewrite <- elem_of_list_to_map
    by (rewrite <- list_fmap_compose; exact Hnd).
  rewrite list_elem_of_fmap. split.
  - intros (y & [= Hn ->] & Hy). exact Hy.
  - intros Hin. exists t. split; [reflexivity | exact Hin].
Qed.

Lemma byNonce_lookup_nonce (l : list EthSafeTransaction) (n : Z)
    (t : EthSafeTransaction) :
  byNonce l !! n = Some t -> rank t = n /\ t ∈ l.
Proof.
  unfold byNonce. intros H. apply elem_of_list_to_map_2 in H.
  apply list_elem_of_fmap in H as (y & [= -> ->] & Hy). split; auto.
Qed.

(** Two queues in strict nonce order that hold the same transactions under
    the same nonces are the same list. *)
Lemma strictlyByNonce_byNonce_inj (l1 l2 : list EthSafeTransaction) :
  strictlyByNonce l1 -> strictlyByNonce l2 -> byNonce l1 = byNonce l2 -> l1 = l2.
Proof.
  intros H1 H2 Hmap.
  pose proof (JS.strict_NoDup rank l1 H1) as Hnd1.
  pose proof (JS.strict_NoDup rank l2 H2) as Hnd2.
  apply (StronglySorted_unique_strong (fun a b => rank a < rank b));
    [intros; lia | exact H1 | exact H2 |].
  apply NoDup_Permutation.
  - eapply NoDup_fmap_1; exact Hnd1.
  - eapply NoDup_fmap_1; exact Hnd2.
  - intros t. rewrite <- (byNonce_lookup l1 t Hnd1), <- (byNonce_lookup l2 t Hnd2).
    now rewrite Hmap.
Qed.

Lemma strictlyByNonce_filter (P : EthSafeTransaction -> Prop)
    `{!forall t, Decision (P t)} (l : list EthSafeTransaction) :
  strictlyByNonce l -> strictlyByNonce (filter P l).
Proof.
  induction 1 as [|x l Hs IH Hx]; [constructor|].
  rewrite filter_cons. destruct (decide (P x)); [|exact IH].
  constructor; [exact IH|].
  apply Forall_forall. intros y Hy. apply list_elem_of_filter in Hy as [_ Hy].
  rewrite Forall_forall in Hx. auto.
Qed.

Lemma NoDup_foldl_upsert (txs l : list EthSafeTransaction) :
  NoDup (rank <$> l) ->
  NoDup (rank <$>
    foldl (fun merged importedTx => upsertByNonce importedTx merged) l txs).
Proof.
  revert l; induction txs as [|t txs IH]; intros l Hnd; simpl; [exact Hnd|].
  apply IH. now apply NoDup_upsert.
Qed.

Lemma byNonce_foldl_upsert (txs l : list EthSafeTransaction) :
  byNonce (foldl (fun merged importedTx => upsertByNonce importedTx merged) l txs) =
  foldl (fun m t => <[rank t := t]> m) (byNonce l) txs.
Proof.
  revert l; induction txs as [|t txs IH]; intros l; simpl; [reflexivity|].
  now rewrite IH, byNonce_upsert.
Qed.

(** *** Properties of the provider *)

Lemma strictlyByNonce_same_nonces (l l' : list EthSafeTransaction) :
  rank <$> l = rank <$> l' -> strictlyByNonce l -> strictlyByNonce l'.
Proof.
  intros Heq Hs. revert l' Heq.
  induction Hs as [|x l Hs IH Hx]; intros [|x' l'] Heq; try discriminate;
    [constructor|].
  rewrite !fmap_cons in Heq. injection Heq as Hx' Hl.
  constructor; [now apply IH|].
  apply (Forall_fmap rank (fun n => rank x' < n)).
  rewrite <- Hl, <- Hx'. now apply Forall_fmap.
Qed.

Lemma queueAt_wellKept (key : string) (p : Provider) :
  wellKept p -> orderly (queueAt key p).
Proof.
  intros [Hc _]. unfold queueAt.
  destruct (current p !! key) as [l|] eqn:E; simpl; [|split; constructor].
  exact (Hc key l E).
Qed.

Lemma queueAt_save (sa : string) (tx : EthSafeTransaction) (c : option string)
    (p : Provider) :
  queueAt (keyOf sa c) (saveTransaction sa tx c p) =
  JS.sort compareNonces (upsertBy sameNonce tx (queueAt (keyOf sa c) p)).
Proof. unfold queueAt at 1. simpl. now rewrite lookup_insert_eq. Qed.

Lemma queueAt_import (sa : string) (json : ImportJson) (c : option string)
    (p : Provider) :
  queueAt (keyOf sa c) (importTx sa json c p) =
  match importedTransactions json with
  | [] => queueAt (keyOf sa c) p
  | txs =>
      JS.sort compareNonces
        (foldl (fun merged importedTx => upsertBy sameNonceNumber importedTx merged)
               (queueAt (keyOf sa c) p) txs)
  end.
Proof.
  unfold importTx.
  destruct json as [|entries|tx|]; try reflexivity.
  - destruct (importedTransactions (Bundle entries)) as [|t txs]; [reflexivity|].
    unfold queueAt at 1. simpl length. cbn [Nat.ltb Nat.leb]. simpl.
    now rewrite lookup_insert_eq.
  - unfold queueAt at 1. simpl. now rewrite lookup_insert_eq.
Qed.

(** On numbered transactions a save is the upsert by rank followed by the
    sort by rank, and an import is the upserts followed by the sort. *)
Lemma saved_numbered (t : EthSafeTransaction) (l : list EthSafeTransaction) :
  numbered t -> Forall numbered l ->
  JS.sort compareNonces (upsertBy sameNonce t l) = JS.sortBy rank (upsertByNonce t l).
Proof.
  intros Ht Hl. rewrite upsertBy_sameNonce by assumption.
  apply sort_numbered. now apply numbered_upsertBy.
Qed.

Lemma merged_numbered (txs l : list EthSafeTransaction) :
  Forall numbered txs -> Forall numbered l ->
  JS.sort compareNonces
    (foldl (fun merged importedTx => upsertBy sameNonceNumber importedTx merged) l txs) =
  JS.sortBy rank
    (foldl (fun merged importedTx => upsertByNonce importedTx merged) l txs).
Proof.
  intros Htxs Hl. destruct (foldl_upsert_numbered txs l Htxs Hl) as [Hn ->].
  now apply sort_numbered.
Qed.

Lemma saved_strict (t : EthSafeTransaction) (l : list EthSafeTransaction) :
  strictlyByNonce l -> strictlyByNonce (JS.sortBy rank (upsertByNonce t l)).
Proof.
  intros Hs. apply JS.sortBy_strict, NoDup_upsert. now apply JS.strict_NoDup.
Qed.

Lemma merged_strict (txs l : list EthSafeTransaction) :
  strictlyByNonce l ->
  strictlyByNonce (JS.sortBy rank
    (foldl (fun merged importedTx => upsertByNonce importedTx merged) l txs)).
Proof.
  intros Hs. apply JS.sortBy_strict, NoDup_foldl_upsert. now apply JS.strict_NoDup.
Qed.

Lemma saved_orderly (t : EthSafeTransaction) (l : list EthSafeTransaction) :
  numbered t -> orderly l -> orderly (JS.sort compareNonces (upsertBy sameNonce t l)).
Proof.
  intros Ht [Hn Hs]. rewrite saved_numbered by assumption. split.
  - now apply numbered_sortBy, numbered_upsertBy.
  - now apply saved_strict.
Qed.

Lemma merged_orderly (txs l : list EthSafeTransaction) :
  Forall numbered txs -> orderly l ->
  orderly (JS.sort compareNonces
    (foldl (fun merged importedTx => upsertBy sameNonceNumber importedTx merged) l txs)).
Proof.
  intros Htxs [Hn Hs]. rewrite merged_numbered by assumption. split.
  - now apply numbered_sortBy, foldl_upsert_numbered.
  - now apply merged_strict.
Qed.

Lemma byNonce_saved (t : EthSafeTransaction) (l : list EthSafeTransaction) :
  strictlyByNonce l ->
  byNonce (JS.sortBy rank (upsertByNonce t l)) = <[rank t := t]> (byNonce l).
Proof.
  intros Hs. rewrite <- byNonce_upsert. symmetry. apply byNonce_perm.
  - now apply NoDup_upsert, JS.strict_NoDup.
  - symmetry. apply JS.sortBy_perm.
Qed.

(** One sort after all the upserts gives what a sort after each gives. *)
Lemma merge_as_saves (txs l : list EthSafeTransaction) :
  strictlyByNonce l ->
  JS.sortBy rank
    (foldl (fun merged importedTx => upsertByNonce importedTx merged) l txs) =
  foldl (fun q t => JS.sortBy rank (upsertByNonce t q)) l txs.
Proof.
  intros Hs.
  assert (Hrhs : forall q, strictlyByNonce q ->
    strictlyByNonce (foldl (fun q t => JS.sortBy rank (upsertByNonce t q)) q txs) /\
    byNonce (foldl (fun q t => JS.sortBy rank (upsertByNonce t q)) q txs) =
    foldl (fun m t => <[rank t := t]> m) (byNonce q) txs).
  { clear. induction txs as [|t txs IH]; intros q Hq; simpl; [auto|].
    destruct (IH _ (saved_strict t q Hq)) as [H1 H2].
    split; [exact H1|]. now rewrite H2, byNonce_saved. }
  destruct (Hrhs l Hs) as [Hstrict Hmap].
  apply strictlyByNonce_byNonce_inj; [now apply merged_strict | exact Hstrict |].
  rewrite Hmap, <- byNonce_foldl_upsert. symmetry. apply byNonce_perm.
  - now apply NoDup_foldl_upsert, JS.strict_NoDup.
  - symmetry. apply JS.sortBy_perm.
Qed.

(** Saving numbered transactions one by one. *)
Lemma queueAt_saves (sa : string) (c : option string)
    (txs : list EthSafeTransaction) (p : Provider) :
  Forall numbered txs -> orderly (queueAt (keyOf sa c) p) ->
  queueAt (keyOf sa c) (foldl (fun q tx => saveTransaction sa tx c q) p txs) =
  foldl (fun q t => JS.sortBy rank (upsertByNonce t q)) (queueAt (keyOf sa c) p) txs.
Proof.
  intros Htxs. revert p. induction Htxs as [|t txs Ht _ IH]; intros p Hp; simpl;
    [reflexivity|].
  pose proof (saved_orderly t _ Ht Hp) as Hsaved.
  rewrite IH by (now rewrite queueAt_save).
  rewrite queueAt_save, saved_numbered by (assumption || apply Hp). reflexivity.
Qed.

Lemma wellKept_set (key : string) (l : list EthSafeTransaction) (p : Provider) :
  wellKept p -> orderly l ->
  wellKept {| current := <[key := l]> (current p);
              stored := if (0 <? length l)%nat then <[key := asStored <$> l]> (stored p)
                        else delete key (stored p) |}.
Proof.
  intros [Hc Hs] Hl. split; simpl.
  - now apply map_Forall_insert_2.
  - destruct (0 <? length l)%nat.
    + apply map_Forall_insert_2; [|exact Hs].
      now rewrite asStored_all_numbered by apply Hl.
    + now apply map_Forall_delete.
Qed.

Lemma wellKept_act (p : Provider) (a : Action) :
  numberedAction a -> wellKept p -> wellKept (act p a).
Proof.
  intros Ha Hp. pose proof Hp as [Hc Hs].
  destruct a as [sa tx c|sa json c|sa txHash n c|]; simpl in *.
  - pose proof (saved_orderly tx _ Ha (queueAt_wellKept (keyOf sa c) p Hp)) as Ho.
    pose proof (wellKept_set (keyOf sa c) _ p Hp Ho) as H.
    destruct (upsertBy_not_empty sameNonce tx (queueAt (keyOf sa c) p)) as [_ Hlen].
    rewrite <- (Permutation_length (JS.sort_perm compareNonces _)) in Hlen.
    apply Nat.ltb_lt in Hlen. rewrite Hlen in H. exact H.
  - unfold importTx.
    assert (Hmerged : forall txs, Forall numbered txs -> (0 < length txs)%nat ->
      wellKept
      {| current := <[keyOf sa c :=
           JS.sort compareNonces
             (foldl (fun merged importedTx => upsertBy sameNonceNumber importedTx merged)
                    (queueAt (keyOf sa c) p) txs)]> (current p);
         stored := <[keyOf sa c :=
           asStored <$> JS.sort compareNonces
             (foldl (fun merged importedTx => upsertBy sameNonceNumber importedTx merged)
                    (queueAt (keyOf sa c) p) txs)]> (stored p) |}).
    { intros txs Htxs Hlen.
      pose proof (merged_orderly txs _ Htxs (queueAt_wellKept (keyOf sa c) p Hp)) as Ho.
      split; simpl.
      - now apply map_Forall_insert_2.
      - apply map_Forall_insert_2; [|exact Hs].
        now rewrite asStored_all_numbered by apply Ho. }
    destruct json as [|entries|tx|]; try exact Hp.
    + destruct (0 <? length (importedTransactions (Bundle entries)))%nat eqn:Hl;
        [|exact Hp].
      apply Hmerged; [exact Ha | now apply Nat.ltb_lt].
    + apply Hmerged; [exact Ha | simpl; lia].
  - unfold removeTransaction.
    destruct (negb _ && _).
    + exact (wellKept_set (keyOf sa c) [] p Hp ltac:(split; constructor)).
    + apply (wellKept_set (keyOf sa c) _ p Hp).
      destruct (queueAt_wellKept (keyOf sa c) p Hp) as [Hn Hstrict].
      destruct n as [n|]; [|now split]. split.
      * apply Forall_forall. intros x Hx.
        apply list_elem_of_filter in Hx as [_ Hx].
        rewrite Forall_forall in Hn. auto.
      * now apply strictlyByNonce_filter.
  - split; exact Hs.
Qed.

Lemma wellKept_run (actions : list Action) :
  Forall numberedAction actions -> wellKept (run actions).
Proof.
  unfold run. intros Ha.
  assert (H : forall p, wellKept p -> wellKept (foldl act p actions)).
  { induction Ha as [|a actions Hnum _ IH]; intros p Hp; simpl; [exact Hp|].
    apply IH. now apply wellKept_act. }
  apply H. split; apply map_Forall_empty.
Qed.

Example import_overwrites_by_nonce :
  queueAt (keyOf aSafeAddress (Some "1"))
    (run [Save aSafeAddress (emptyTx 7) (Some "1");
          Save aSafeAddress (emptyTx 5) (Some "1");
          Import aSafeAddress
            (Bundle [Some (emptyTx 9); Some (addSignature aSignature (emptyTx 5))])
            (Some "1");
          PageLoad]) =
  [addSignature aSignature (emptyTx 5); emptyTx 7; emptyTx 9].
Proof. vm_compute. reflexivity. Qed.

Lemma sorted_ascending (l : list EthSafeTransaction) :
  Forall numbered l -> sortedByNonce l -> ascending l.
Proof.
  intros Hn Hs. induction Hs as [|x l Hs IH Hx]; [constructor|].
  apply Forall_cons in Hn as [Hnx Hn].
  constructor; [now apply IH|].
  apply Forall_forall. intros y Hy.
  rewrite Forall_forall in Hx, Hn.
  rewrite (numbered_nonceNumber x Hnx), (numbered_nonceNumber y (Hn y Hy)).
  rewrite JS.lt_Finite. apply Z.ltb_ge. now apply Hx.
Qed.

Lemma getTransaction_head (sa : string) (c : option string) (p : Provider) :
  getTransaction sa c p = (head (queueAt (keyOf sa c) p), p).
Proof.
  unfold getTransaction, queueAt.
  destruct (current p !! keyOf sa c) as [[|tx l]|]; reflexivity.
Qed.

(** *** Main results on the queue *)

(** C6. Where a queued nonce is not a number the upsert of
    [saveTransaction] misses it.  A transaction imported from a JSON text
    that gives its nonce as the string ["5"] is queued with this nonce,
    which [Number] reads as 5; [saveTransaction] of a transaction with the
    nonce 5 does not replace it, since ["5" === 5] is false, and leaves
    two entries with the nonce 5, while [importTx] of the same
    transaction, which compares [Number(...)] of the nonces, replaces
    it. *)
Theorem saveTransaction_misses_an_imported_nonce :
  let key := keyOf aSafeAddress (Some "1") in
  let imported := emptyTxWith (JS.Text "5") in
  let p := importTx aSafeAddress (Bundle [Some imported]) (Some "1") initial in
  queueAt key p = [imported]
  /\ nonceNumber imported = nonceNumber (emptyTx 5)
  /\ queueAt key (saveTransaction aSafeAddress (emptyTx 5) (Some "1") p) =
     [imported; emptyTx 5]
  /\ queueAt key (importTx aSafeAddress (Bundle [Some (emptyTx 5)]) (Some "1") p) =
     [emptyTx 5].
Proof. vm_compute. repeat split; reflexivity. Qed.

(** C10. After a page load the queue of a key is the array that local
    storage holds, in the order it has there: the hydration does not
    sort.  With the nonces 7 and 2 stored in this order, [getTransaction]
    returns the transaction with the nonce 7, although the one with the
    nonce 2 is queued. *)
Theorem getTransaction_after_a_page_load :
  let key := keyOf aSafeAddress None in
  let p := hydrate {| current := ∅; stored := {[ key := [emptyTx 7; emptyTx 2] ]} |} in
  (getTransaction aSafeAddress None p).1 = Some (emptyTx 7)
  /\ emptyTx 2 ∈ queueAt key p
  /\ JS.lt (nonceNumber (emptyTx 2)) (nonceNumber (emptyTx 7)) = true.
Proof.
  vm_compute. split; [reflexivity|]. split; [|reflexivity].
  right. left.
Qed.

(** X26. On a queue whose nonces are finite numbers, [saveTransaction] of
    a transaction whose nonce is one too replaces the first queued entry
    that has this nonce, or appends the transaction when no entry has it,
    and then sorts; after it, and after every [importTx] that brings such
    transactions, the queue of the key is sorted by ascending nonce.  On
    an orderly queue (no nonce twice, ascending) [saveTransaction] acts
    as an insertion into a map keyed by nonce and replaces in place, and
    [importTx] leaves what saving the imported transactions one by one
    leaves; every state that the provider reaches from numbered
    transactions has orderly queues only. *)
Theorem queue_upsert_by_nonce_and_sorted :
  (forall (p : Provider) (sa : string) (c : option string) (tx : EthSafeTransaction),
     let old := queueAt (keyOf sa c) p in
     let new := queueAt (keyOf sa c) (saveTransaction sa tx c p) in
     numbered tx -> Forall numbered old ->
     Forall numbered new
     /\ sortedByNonce new
     /\ (forall l1 e l2, old = l1 ++ e :: l2 -> nonceOf e = nonceOf tx ->
           Forall (fun x => nonceOf x <> nonceOf tx) l1 ->
           new = JS.sortBy rank (l1 ++ tx :: l2))
     /\ (Forall (fun e => nonceOf e <> nonceOf tx) old ->
           new = JS.sortBy rank (old ++ [tx])))
  /\ (forall (p : Provider) (sa : string) (c : option string) (json : ImportJson),
     Forall numbered (importedTransactions json) ->
     Forall numbered (queueAt (keyOf sa c) p) ->
     importedTransactions json <> [] ->
     sortedByNonce (queueAt (keyOf sa c) (importTx sa json c p)))
  /\ (forall (p : Provider) (sa : string) (c : option string),
     let old := queueAt (keyOf sa c) p in
     orderly old ->
     (forall tx : EthSafeTransaction,
        let new := queueAt (keyOf sa c) (saveTransaction sa tx c p) in
        numbered tx ->
        orderly new
        /\ byNonce new = <[rank tx := tx]> (byNonce old)
        /\ (forall l1 e l2, old = l1 ++ e :: l2 -> nonceOf e = nonceOf tx ->
              new = l1 ++ tx :: l2))
     /\ (forall json : ImportJson,
        let new := queueAt (keyOf sa c) (importTx sa json c p) in
        Forall numbered (importedTransactions json) ->
        orderly new
        /\ new = queueAt (keyOf sa c)
                   (foldl (fun q tx => saveTransaction sa tx c q) p
                          (importedTransactions json))
        /\ byNonce new =
           foldl (fun m t => <[rank t := t]> m) (byNonce old)
                 (importedTransactions json)))
  /\ (forall (actions : list Action) (key : string),
     Forall numberedAction actions -> orderly (queueAt key (run actions))).
Proof.
  assert (Hranks : forall (tx : EthSafeTransaction) l, numbered tx -> Forall numbered l ->
    Forall (fun x => nonceOf x <> nonceOf tx) l -> Forall (fun x => rank x <> rank tx) l).
  { intros tx l Htx Hl Hne. apply Forall_forall. intros x Hx.
    rewrite Forall_forall in Hl, Hne.
    rewrite <- (numbered_same_nonce x tx) by auto. auto. }
  split; [|split; [|split]].
  - intros p sa c tx old new Htx Hold. subst new. rewrite queueAt_save. fold old.
    rewrite saved_numbered by assumption.
    split; [now apply numbered_sortBy, numbered_upsertBy|].
    split; [apply JS.sortBy_sorted|]. split.
    + intros l1 e l2 Heq He Hl1. rewrite Heq in *.
      apply Forall_app in Hold as [Hn1 Hn2]. apply Forall_cons in Hn2 as [Hne Hn2].
      rewrite upsertByNonce_replace; [reflexivity | now apply Hranks |].
      now apply numbered_same_nonce.
    + intros Hne. rewrite upsertByNonce_append; [reflexivity | now apply Hranks].
  - intros p sa c json Htxs Hold Hne. rewrite queueAt_import.
    destruct (importedTransactions json) as [|t txs] eqn:E; [contradiction|].
    rewrite merged_numbered by assumption. apply JS.sortBy_sorted.
  - intros p sa c old Hold. pose proof Hold as [Hn Hs]. split.
    + intros tx new Htx. subst new. rewrite queueAt_save. fold old.
      split; [now apply saved_orderly|].
      rewrite saved_numbered by assumption.
      split; [now apply byNonce_saved|].
      intros l1 e l2 Heq He.
      assert (Hrank : rank e = rank tx).
      { apply numbered_same_nonce; [|exact Htx|exact He].
        rewrite Heq in Hn. apply Forall_app in Hn as [_ Hn].
        now apply Forall_cons in Hn as [Hn _]. }
      assert (Hl1 : Forall (fun x => rank x <> rank tx) l1).
      { rewrite Heq in Hs. apply Forall_forall. intros x Hx.
        pose proof (StronglySorted_app_1_elem_of _ _ _ x e Hs Hx
                      ltac:(now left)) as Hlt.
        simpl in Hlt. lia. }
      rewrite Heq, upsertByNonce_replace by assumption.
      apply JS.sortBy_sorted_id, JS.strict_sorted.
      apply (strictlyByNonce_same_nonces (l1 ++ e :: l2)); [|now rewrite <- Heq].
      rewrite !fmap_app, !fmap_cons, Hrank. reflexivity.
    + intros json new Htxs. subst new.
      rewrite queueAt_import, queueAt_saves by assumption. fold old.
      destruct (importedTransactions json) as [|t txs] eqn:E.
      * simpl. auto.
      * rewrite <- merge_as_saves by exact Hs.
        split; [now apply merged_orderly|].
        rewrite merged_numbered by assumption.
        split; [reflexivity|].
        rewrite <- byNonce_foldl_upsert. symmetry. apply byNonce_perm.
        -- now apply NoDup_foldl_upsert, JS.strict_NoDup.
        -- symmetry. apply JS.sortBy_perm.
  - intros actions key Ha. apply queueAt_wellKept, wellKept_run, Ha.
Qed.

Lemma queue_upsert_by_nonce_and_sorted_witness :
  sortedByNonce
    (queueAt (keyOf aSafeAddress (Some "1"))
       (importTx aSafeAddress (Bundle [Some (emptyTx 9); None; Some (emptyTx 4)])
          (Some "1")
          {| current := {[ keyOf aSafeAddress (Some "1") := [emptyTx 7; emptyTx 2] ]};
             stored := ∅ |}))
  /\ queueAt (keyOf aSafeAddress (Some "1"))
       (saveTransaction aSafeAddress (addSignature aSignature (emptyTx 7)) (Some "1")
          (run [Save aSafeAddress (emptyTx 7) (Some "1");
                Save aSafeAddress (emptyTx 5) (Some "1")])) =
     [emptyTx 5] ++ addSignature aSignature (emptyTx 7) :: [].
Proof.
  split.
  - apply (proj1 (proj2 queue_upsert_by_nonce_and_sorted)).
    + apply (bool_decide_unpack _). vm_compute. exact I.
    + apply (bool_decide_unpack _). vm_compute. exact I.
    + discriminate.
  - pose proof (proj2 (proj2 (proj2 queue_upsert_by_nonce_and_sorted))
             [Save aSafeAddress (emptyTx 7) (Some "1");
              Save aSafeAddress (emptyTx 5) (Some "1")]
             (keyOf aSafeAddress (Some "1"))
             ltac:(apply (bool_decide_unpack _); vm_compute; exact I)) as Ho.
    pose proof (proj1 (proj2 (proj2 queue_upsert_by_nonce_and_sorted))
             (run [Save aSafeAddress (emptyTx 7) (Some "1");
                   Save aSafeAddress (emptyTx 5) (Some "1")])
             aSafeAddress (Some "1")) as H.
    cbv zeta in H. destruct (H Ho) as (Hsave & _).
    destruct (Hsave (addSignature aSignature (emptyTx 7))
                (numbered_emptyTx 7)) as (_ & _ & Hreplace).
    apply (Hreplace [emptyTx 5] (emptyTx 7) []); vm_compute; reflexivity.
Defined.

(** X27. [getTransaction] returns the first entry of the queue of the
    key, and [null] exactly when nothing is queued for the key; it leaves
    the provider as it found it.  On a queue in ascending nonce order no
    queued transaction has a lower nonce than the one it returns, and the
    queue is in ascending order after every [saveTransaction] and after
    every [importTx] that brings a transaction, when the nonces are
    finite numbers. *)
Theorem getTransaction_lowest_nonce (p : Provider) (sa : string)
    (c : option string) :
  let queue := queueAt (keyOf sa c) p in
  let first := (getTransaction sa c p).1 in
  (getTransaction sa c p).2 = p
  /\ first = head queue
  /\ (first = None <-> queue = [])
  /\ (ascending queue -> forall tx, first = Some tx ->
        tx ∈ queue /\
        forall t, t ∈ queue -> JS.lt (nonceNumber t) (nonceNumber tx) = false)
  /\ (forall tx, numbered tx -> Forall numbered queue ->
        ascending (queueAt (keyOf sa c) (saveTransaction sa tx c p)))
  /\ (forall json, Forall numbered (importedTransactions json) ->
        Forall numbered queue -> importedTransactions json <> [] ->
        ascending (queueAt (keyOf sa c) (importTx sa json c p))).
Proof.
  intros queue first. subst first. rewrite getTransaction_head. fold queue.
  cbn [fst snd].
  split; [reflexivity|]. split; [reflexivity|].
  split; [destruct queue; simpl; split; congruence|].
  split; [|split].
  - intros Hq tx Htx. destruct queue as [|x l]; [discriminate|].
    injection Htx as ->. split; [now left|]. intros t Ht.
    apply elem_of_cons in Ht as [->|Ht]; [apply JS.lt_irrefl|].
    inversion Hq as [|? ? _ Hall]; subst.
    rewrite Forall_forall in Hall. now apply Hall.
  - intros tx Htx Hq. rewrite queueAt_save. fold queue.
    rewrite saved_numbered by assumption.
    apply sorted_ascending; [|apply JS.sortBy_sorted].
    now apply numbered_sortBy, numbered_upsertBy.
  - intros json Htxs Hq Hne. rewrite queueAt_import. fold queue.
    destruct (importedTransactions json) as [|t txs] eqn:E; [contradiction|].
    rewrite merged_numbered by assumption.
    apply sorted_ascending; [|apply JS.sortBy_sorted].
    now apply numbered_sortBy, foldl_upsert_numbered.
Qed.

Lemma getTransaction_lowest_nonce_witness :
  emptyTx 5 ∈ [emptyTx 5; emptyTxWith (JS.Text "7")]
  /\ forall t, t ∈ [emptyTx 5; emptyTxWith (JS.Text "7")] ->
       JS.lt (nonceNumber t) (nonceNumber (emptyTx 5)) = false.
Proof.
  assert (Hasc : ascending [emptyTx 5; emptyTxWith (JS.Text "7")])
    by (repeat constructor; vm_compute; reflexivity).
  exact (proj1 (proj2 (proj2 (proj2
    (getTransaction_lowest_nonce
       {| current := {[ keyOf aSafeAddress None :=
                          [emptyTx 5; emptyTxWith (JS.Text "7")] ]};
          stored := ∅ |}
       aSafeAddress None)))) Hasc (emptyTx 5) eq_refl).
Defined.

End SafeTxProvider.
(** ** The [useSafe] hook: deploying an undeployed Safe *)

Module Deploy.

(** What the wallet client's [sendTransaction] resolves to, and what a
    step's [txHash] holds.  The client is typed to resolve to a hash,
    [`0x${string}`]; the code guards against a falsy value all the same,
    so the wallet may resolve to any string, the empty one included, or
    to [undefined], which is [None]. *)
Definition TxHash : Type := option string.

(** Truthiness of such a value. *)
Definition truthyHash (h : TxHash) : bool := from_option JS.truthy false h.

(** Modelled from the spec: the status of a deployment step, one of
    [pending], [running], [success], [error]; the type [SafeDeployStep] of
    [utils/types] is not among the sources. *)
Inductive Status : Type := Pending | Running | Success | Error.

Record SafeDeployStep : Type := mkStep {
  step : string;
  status : Status;
  error : option string;
  txHash : TxHash;
}.

(** Modelled from the spec: the template [DEFAULT_DEPLOY_STEPS] of
    [utils/constants], which is not among the sources: four named steps
    (building the deployment transaction, broadcasting, confirming,
    verifying), each pending, with no error and no hash. *)
Definition DEFAULT_DEPLOY_STEPS : list SafeDeployStep :=
  [ {| step := "BuildingDeploymentTx"; status := Pending; error := None; txHash := None |};
    {| step := "Broadcasting"; status := Pending; error := None; txHash := None |};
    {| step := "Confirming"; status := Pending; error := None; txHash := None |};
    {| step := "VerifyingDeployed"; status := Pending; error := None; txHash := None |} ].

(** Step objects live in a heap and are named by their index in it; an
    array of steps is a list of such references.  [rendered] collects the
    arrays handed to [setDeploySteps]; they share the step objects. *)
Record World : Type := mkWorld {
  heap : list SafeDeployStep;
  rendered : list (list nat);
}.

(** When the module is loaded the template's four objects are the heap. *)
Definition boot : World := {| heap := DEFAULT_DEPLOY_STEPS; rendered := [] |}.
Definition templateRefs : list nat := [0; 1; 2; 3]%nat.

Definition M (A : Type) : Type := World -> A * World.

#[global] Instance M_ret : MRet M := fun A a w => (a, w).
#[global] Instance M_bind : MBind M := fun A B k m w =>
  let '(a, w') := m w in k a w'.

(** [{ ...obj }] as a new object. *)
Definition alloc (s : SafeDeployStep) : M nat := fun w =>
  (length (heap w), {| heap := heap w ++ [s]; rendered := rendered w |}).

Definition update (f : SafeDeployStep -> SafeDeployStep) (ref : nat) : M unit :=
  fun w => (tt, {| heap := alter f ref (heap w); rendered := rendered w |}).

(** [obj.status = v], [obj.error = v], [obj.txHash = v] *)
Definition setStatus (v : Status) : nat -> M unit :=
  update (fun s => {| step := step s; status := v; error := error s; txHash := txHash s |}).
Definition setError (v : string) : nat -> M unit :=
  update (fun s => {| step := step s; status := status s; error := Some v; txHash := txHash s |}).
Definition setTxHash (v : TxHash) : nat -> M unit :=
  update (fun s => {| step := step s; status := status s; error := error s; txHash := v |}).

(** [setDeploySteps([...steps])]: a new array of the same objects. *)
Definition setDeploySteps (steps : list nat) : M unit := fun w =>
  (tt, {| heap := heap w; rendered := rendered w ++ [steps] |}).

(** [template.map((step) => ({ ...step }))]; a reference of the template
    always holds an object. *)
Fixpoint copySteps (template : list nat) : M (list nat) :=
  match template with
  | [] => mret []
  | ref :: template' => fun w =>
      match heap w !! ref with
      | Some s => (ref' ← alloc s; refs ← copySteps template'; mret (ref' :: refs)) w
      | None => copySteps template' w
      end
  end.

(** [steps[i]]; the copy of the template has four entries. *)
Definition at_ (steps : list nat) (i : nat) : nat := default 0%nat (steps !! i).

(** What the outside world answers during one attempt.  Each answer is
    looked at only if the attempt gets that far. *)
Record Env : Type := mkEnv {
  (** [undeployedSafe && connector && signer && chainId] *)
  configured : bool;
  (** [getMinimalEIP1193Provider(connector)]: whether a provider came back *)
  getMinimalEIP1193Provider : Completion bool;
  (** [getAddress(signer)], [createPredictionConfig(...)], [Safe.init(config)] *)
  initKit : Completion unit;
  (** [kit.createSafeDeploymentTransaction()], [getExternalSigner()] *)
  createSafeDeploymentTransaction : Completion unit;
  (** [kitClient.sendTransaction(...)] *)
  sendTransaction : Completion TxHash;
  (** [waitForTransactionReceipt(kitClient, { hash })] *)
  waitForTransactionReceipt : Completion unit;
  (** [kit.getAddress()], [kit.connect(...)], [newKit.isSafeDeployed()] *)
  isSafeDeployed : Completion bool;
  (** [addSafe(...)], [removeSafe(...)] *)
  migrate : Completion unit;
}.

(** A [catch] block of the function: mark step [i], publish, return. *)
Definition catchAt (steps : list nat) (i : nat) (err : Thrown) : M (list nat) :=
  setStatus Error (at_ steps i);;
  setError (errorMessage err) (at_ steps i);;
  setDeploySteps steps;;
  mret steps.

(** The last [catch] block also records the hash. *)
Definition catchVerify (steps : list nat) (txHash : TxHash) (err : Thrown)
    : M (list nat) :=
  setStatus Error (at_ steps 3);;
  setError (errorMessage err) (at_ steps 3);;
  setTxHash txHash (at_ steps 3);;
  setDeploySteps steps;;
  mret steps.

(** The fourth [try] block. *)
Definition verifyDeployed (env : Env) (steps : list nat) (txHash : TxHash)
    : M (list nat) :=
  match isSafeDeployed env with
  | Throw err => catchVerify steps txHash err
  | Normal false =>
      catchVerify steps txHash (ErrorObject "Safe deployment not detected")
  | Normal true =>
      setStatus Success (at_ steps 3);;
      setTxHash txHash (at_ steps 3);;
      setDeploySteps steps;;
      match migrate env with
      | Throw err => catchVerify steps txHash err
      | Normal _ => mret steps
      end
  end.

(** The third [try] block and what follows it. *)
Definition confirm (env : Env) (steps : list nat) (txHash : TxHash) : M (list nat) :=
  if truthyHash txHash then
    match waitForTransactionReceipt env with
    | Throw err => catchAt steps 2 err
    | Normal _ =>
        setStatus Success (at_ steps 2);;
        setTxHash txHash (at_ steps 2);;
        setStatus Running (at_ steps 3);;
        setDeploySteps steps;;
        verifyDeployed env steps txHash
    end
  else verifyDeployed env steps txHash.

(** The second [try] block and what follows it. *)
Definition broadcast (env : Env) (steps : list nat) : M (list nat) :=
  match sendTransaction env with
  | Throw err => catchAt steps 1 err
  | Normal txHash =>
      setStatus Success (at_ steps 1);;
      setTxHash txHash (at_ steps 1);;
      setStatus Running (at_ steps 2);;
      setDeploySteps steps;;
      confirm env steps txHash
  end.

Definition deployUndeployedSafe (env : Env) : M (list nat) :=
  if negb (configured env) then
    ref ← alloc {| step := "txCreated"; status := Error;
                   error := Some "Missing Safe config, wallet connector, signer, or chainId.";
                   txHash := None |};
    mret [ref]
  else
    steps ← copySteps templateRefs;
    setStatus Running (at_ steps 0);;
    setDeploySteps steps;;
    match getMinimalEIP1193Provider env with
    | Throw err => catchAt steps 0 err
    | Normal false =>
        setStatus Error (at_ steps 0);;
        setError "No provider found" (at_ steps 0);;
        setDeploySteps steps;;
        mret steps
    | Normal true =>
        match initKit env with
        | Throw err => catchAt steps 0 err
        | Normal _ =>
            match createSafeDeploymentTransaction env with
            | Throw err => catchAt steps 0 err
            | Normal _ =>
                setStatus Success (at_ steps 0);;
                setStatus Running (at_ steps 1);;
                setDeploySteps steps;;
                broadcast env steps
            end
        end
    end.

(** The world after a series of attempts, each with its own answers. *)
Definition attempts (envs : list Env) : World :=
  foldl (fun w env => (deployUndeployedSafe env w).2) boot envs.

(** The step objects an array refers to, as they are in a world. *)
Definition contents (steps : list nat) (w : World) : list SafeDeployStep :=
  omap (fun ref => heap w !! ref) steps.

(** *** Reference notions *)

(** The first step went through: the provider, the kit and the deployment
    transaction are there. *)
Definition built (env : Env) : Prop :=
  getMinimalEIP1193Provider env = Normal true /\
  initKit env = Normal tt /\
  createSafeDeploymentTransaction env = Normal tt.

(** The third [try] block went through with the value [h] of the
    broadcast: the receipt was waited for and came, or [h] is falsy and
    the block did nothing. *)
Definition confirmed (env : Env) (h : TxHash) : Prop :=
  truthyHash h = true -> waitForTransactionReceipt env = Normal tt.

(** The wallet answered the broadcast with a hash. *)
Definition hashReturned (env : Env) : Prop :=
  exists h, sendTransaction env = Normal h /\ truthyHash h = true.

(** An exception occurs at step [k] (counted from 0) and [err] is what is
    caught: everything before went well and one call of step [k] throws. *)
Inductive FailsAt (env : Env) : nat -> Thrown -> Prop :=
  | fails_provider err :
      getMinimalEIP1193Provider env = Throw err -> FailsAt env 0 err
  | fails_init err :
      getMinimalEIP1193Provider env = Normal true ->
      initKit env = Throw err -> FailsAt env 0 err
  | fails_create err :
      getMinimalEIP1193Provider env = Normal true ->
      initKit env = Normal tt ->
      createSafeDeploymentTransaction env = Throw err -> FailsAt env 0 err
  | fails_send err :
      built env -> sendTransaction env = Throw err -> FailsAt env 1 err
  | fails_wait h err :
      built env -> sendTransaction env = Normal h -> truthyHash h = true ->
      waitForTransactionReceipt env = Throw err -> FailsAt env 2 err
  | fails_verify h err :
      built env -> sendTransaction env = Normal h -> confirmed env h ->
      isSafeDeployed env = Throw err -> FailsAt env 3 err
  | fails_undetected h :
      built env -> sendTransaction env = Normal h -> confirmed env h ->
      isSafeDeployed env = Normal false ->
      FailsAt env 3 (ErrorObject "Safe deployment not detected")
  | fails_migrate h err :
      built env -> sendTransaction env = Normal h -> confirmed env h ->
      isSafeDeployed env = Normal true ->
      migrate env = Throw err -> FailsAt env 3 err.

(** The template's objects are as they were when the module was loaded. *)
Definition templateIntact (w : World) : Prop :=
  contents templateRefs w = DEFAULT_DEPLOY_STEPS.

(** Step [i] of the template with status [v], error [e] and hash [h]. *)
Definition templateStep (i : nat) (v : Status) (e : option string)
    (h : TxHash) : list SafeDeployStep :=
  match DEFAULT_DEPLOY_STEPS !! i with
  | Some s => [{| step := step s; status := v; error := e; txHash := h |}]
  | None => []
  end.

Definition failed (i : nat) (err : Thrown) (h : TxHash) : list SafeDeployStep :=
  templateStep i Error (Some (errorMessage err)) h.
Definition succeeded (i : nat) (h : TxHash) : list SafeDeployStep :=
  templateStep i Success None h.
Definition untouched (i : nat) : list SafeDeployStep :=
  templateStep i Pending None None.
Definition leftRunning (i : nat) : list SafeDeployStep :=
  templateStep i Running None None.

(** What the last [try] block leaves in the fourth step object. *)
Definition verifiedStep (env : Env) (h : TxHash) : list SafeDeployStep :=
  match isSafeDeployed env with
  | Throw err => failed 3 err h
  | Normal false =>
      failed 3 (ErrorObject "Safe deployment not detected") h
  | Normal true =>
      match migrate env with
      | Throw err => failed 3 err h
      | Normal _ => succeeded 3 h
      end
  end.

(** What an attempt leaves in its four step objects, read off the answers
    of the outside world.  The function is shown to compute exactly this. *)
Definition finalSteps (env : Env) : list SafeDeployStep :=
  match getMinimalEIP1193Provider env with
  | Throw err => failed 0 err None ++ untouched 1 ++ untouched 2 ++ untouched 3
  | Normal false =>
      failed 0 (ErrorObject "No provider found") None
      ++ untouched 1 ++ untouched 2 ++ untouched 3
  | Normal true =>
      match initKit env, createSafeDeploymentTransaction env with
      | Throw err, _ | Normal _, Throw err =>
          failed 0 err None ++ untouched 1 ++ untouched 2 ++ untouched 3
      | Normal _, Normal _ =>
          match sendTransaction env with
          | Throw err =>
              succeeded 0 None ++ failed 1 err None ++ untouched 2 ++ untouched 3
          | Normal h =>
              if truthyHash h then
                match waitForTransactionReceipt env with
                | Throw err =>
                    succeeded 0 None ++ succeeded 1 h
                    ++ failed 2 err None ++ untouched 3
                | Normal _ =>
                    succeeded 0 None ++ succeeded 1 h
                    ++ succeeded 2 h ++ verifiedStep env h
                end
              else
                succeeded 0 None ++ succeeded 1 h
                ++ leftRunning 2 ++ verifiedStep env h
          end
      end
  end.

(** What the four step objects hold after an exception at step [k]:
    the error on step [k]; the steps after it as in the template; the
    steps before it successful, the confirming step (index 2) provided
    the wallet answered the broadcast with a hash; the value of the
    broadcast on the broadcasting step (index 1) and, when it is a hash,
    on the confirming step. *)
Definition haltedAt (env : Env) (k : nat) (err : Thrown)
    (result : list SafeDeployStep) : Prop :=
  (exists s, result !! k = Some s /\ status s = Error /\
     error s = Some (errorMessage err))
  /\ (forall j, (k < j)%nat -> result !! j = DEFAULT_DEPLOY_STEPS !! j)
  /\ (forall j s, (j < k)%nat -> result !! j = Some s ->
        (j = 2%nat -> hashReturned env) -> status s = Success)
  /\ (forall j s h, (1 <= j < k)%nat -> sendTransaction env = Normal h ->
        result !! j = Some s ->
        (j = 2%nat -> truthyHash h = true) -> txHash s = h)
  /\ (k = 1%nat ->
        status <$> result = [Success; Error; Pending; Pending] /\
        Forall (fun s => txHash s = None) result).

(** A world reached by attempts only, with example answers. *)
Definition aHash : string := "0xd3adb33f".

Definition allGood : Env :=
  {| configured := true;
     getMinimalEIP1193Provider := Normal true;
     initKit := Normal tt;
     createSafeDeploymentTransaction := Normal tt;
     sendTransaction := Normal (Some aHash);
     waitForTransactionReceipt := Normal tt;
     isSafeDeployed := Normal true;
     migrate := Normal tt |}.

Definition rejectedByWallet : Env :=
  {| configured := true;
     getMinimalEIP1193Provider := Normal true;
     initKit := Normal tt;
     createSafeDeploymentTransaction := Normal tt;
     sendTransaction := Throw (ErrorObject "User rejected the request.");
     waitForTransactionReceipt := Normal tt;
     isSafeDeployed := Normal true;
     migrate := Normal tt |}.

Definition receiptTimeout : Env :=
  {| configured := true;
     getMinimalEIP1193Provider := Normal true;
     initKit := Normal tt;
     createSafeDeploymentTransaction := Normal tt;
     sendTransaction := Normal (Some aHash);
     waitForTransactionReceipt := Throw (NonError "timeout");
     isSafeDeployed := Normal true;
     migrate := Normal tt |}.

(** *** Properties of the heap operations *)

Lemma update_offset (f : SafeDeployStep -> SafeDeployStep)
    (H L : list SafeDeployStep) (i : nat) (rd : list (list nat)) :
  update f (length H + i) {| heap := H ++ L; rendered := rd |} =
  (tt, {| heap := H ++ alter f i L; rendered := rd |}).
Proof. unfold update. simpl. now rewrite alter_app_r. Qed.

Lemma templateIntact_lookup (w : World) :
  templateIntact w ->
  forall i s, DEFAULT_DEPLOY_STEPS !! i = Some s -> heap w !! i = Some s.
Proof.
  unfold templateIntact, contents, templateRefs. simpl.
  destruct (heap w !! 0%nat) as [s0|] eqn:E0;
    destruct (heap w !! 1%nat) as [s1|] eqn:E1;
    destruct (heap w !! 2%nat) as [s2|] eqn:E2;
    destruct (heap w !! 3%nat) as [s3|] eqn:E3; simpl; try discriminate.
  intros [= -> -> -> ->] [|[|[|[|i]]]] s; simpl; try discriminate;
    intros [= <-]; assumption.
Qed.

Lemma copySteps_template (H : list SafeDeployStep) (rd : list (list nat)) :
  templateIntact {| heap := H; rendered := rd |} ->
  copySteps templateRefs {| heap := H; rendered := rd |} =
  ([length H + 0; length H + 1; length H + 2; length H + 3]%nat,
   {| heap := H ++ DEFAULT_DEPLOY_STEPS; rendered := rd |}).
Proof.
  intros Hint. pose proof (templateIntact_lookup _ Hint) as Hl. simpl in Hl.
  unfold templateRefs, copySteps, alloc, mbind, M_bind, mret, M_ret. simpl.
  rewrite (Hl 0%nat _ eq_refl). simpl.
  rewrite (lookup_app_l_Some _ _ _ _ (Hl 1%nat _ eq_refl)). simpl.
  rewrite (lookup_app_l_Some _ _ _ _
             (lookup_app_l_Some _ _ _ _ (Hl 2%nat _ eq_refl))). simpl.
  rewrite (lookup_app_l_Some _ _ _ _
             (lookup_app_l_Some _ _ _ _
                (lookup_app_l_Some _ _ _ _ (Hl 3%nat _ eq_refl)))). simpl.
  rewrite !length_app. simpl. rewrite <- !app_assoc. simpl.
  f_equal. repeat (f_equal; try lia).
Qed.

Lemma bind_run {A B} (m : M A) (k : A -> M B) (w : World) :
  (x ← m; k x) w = let '(a, w') := m w in k a w'.
Proof. reflexivity. Qed.

Lemma bind_update {B} (f : SafeDeployStep -> SafeDeployStep) (k : unit -> M B)
    (H L : list SafeDeployStep) (i : nat) (rd : list (list nat)) :
  (update f (length H + i) ≫= k) {| heap := H ++ L; rendered := rd |} =
  k tt {| heap := H ++ alter f i L; rendered := rd |}.
Proof. rewrite bind_run, update_offset. reflexivity. Qed.

Lemma bind_setDeploySteps {B} (steps : list nat) (k : unit -> M B)
    (h : list SafeDeployStep) (rd : list (list nat)) :
  (setDeploySteps steps ≫= k) {| heap := h; rendered := rd |} =
  k tt {| heap := h; rendered := rd ++ [steps] |}.
Proof. reflexivity. Qed.

Ltac heap_steps :=
  cbn [at_ lookup list_lookup default from_option id];
  repeat first [ rewrite bind_update | rewrite bind_setDeploySteps ];
  unfold failed, succeeded, untouched, leftRunning, templateStep,
    DEFAULT_DEPLOY_STEPS;
  simpl; eexists; reflexivity.

Lemma deploy_exec (env : Env) (H : list SafeDeployStep) (rd : list (list nat)) :
  templateIntact {| heap := H; rendered := rd |} ->
  configured env = true ->
  exists rd',
    deployUndeployedSafe env {| heap := H; rendered := rd |} =
    ([length H + 0; length H + 1; length H + 2; length H + 3]%nat,
     {| heap := H ++ finalSteps env; rendered := rd' |}).
Proof.
  intros Hint Hcfg. unfold deployUndeployedSafe.
  rewrite Hcfg. change (negb true) with false. cbv iota.
  rewrite bind_run, (copySteps_template _ _ Hint).
  unfold finalSteps, broadcast, confirm, verifyDeployed, catchAt, catchVerify,
    verifiedStep, setStatus, setError, setTxHash.
  destruct (getMinimalEIP1193Provider env) as [[|]|e0]; [|heap_steps..].
  destruct (initKit env) as [[]|e1]; [|heap_steps].
  destruct (createSafeDeploymentTransaction env) as [[]|e2]; [|heap_steps].
  destruct (sendTransaction env) as [h|e3]; [|heap_steps].
  destruct (truthyHash h).
  - destruct (waitForTransactionReceipt env) as [[]|e4]; [|heap_steps].
    destruct (isSafeDeployed env) as [[|]|e5]; [|heap_steps..].
    destruct (migrate env) as [[]|e6]; heap_steps.
  - destruct (isSafeDeployed env) as [[|]|e5]; [|heap_steps..].
    destruct (migrate env) as [[]|e6]; heap_steps.
Qed.

Lemma deploy_unconfigured (env : Env) (w : World) :
  configured env = false ->
  deployUndeployedSafe env w =
  ([length (heap w)],
   {| heap := heap w ++
        [{| step := "txCreated"; status := Error;
            error := Some "Missing Safe config, wallet connector, signer, or chainId.";
            txHash := None |}];
      rendered := rendered w |}).
Proof. intros Hcfg. unfold deployUndeployedSafe. rewrite Hcfg. reflexivity. Qed.

Lemma finalSteps_length (env : Env) : length (finalSteps env) = 4%nat.
Proof.
  unfold finalSteps, verifiedStep.
  destruct (getMinimalEIP1193Provider env) as [[|]|?]; try reflexivity.
  destruct (initKit env) as [[]|?]; try reflexivity;
    destruct (createSafeDeploymentTransaction env) as [[]|?]; try reflexivity.
  destruct (sendTransaction env) as [h|?]; try reflexivity.
  destruct (truthyHash h);
    [destruct (waitForTransactionReceipt env) as [[]|?]; try reflexivity|];
    (destruct (isSafeDeployed env) as [[|]|?]; try reflexivity;
     destruct (migrate env) as [[]|?]; reflexivity).
Qed.

Lemma contents_fresh (H L : list SafeDeployStep) (rd : list (list nat)) :
  length L = 4%nat ->
  contents [length H + 0; length H + 1; length H + 2; length H + 3]%nat
    {| heap := H ++ L; rendered := rd |} = L.
Proof.
  intros HL. destruct L as [|a [|b [|c [|d [|e L]]]]]; try discriminate.
  unfold contents. simpl.
  rewrite !lookup_app_r by lia.
  replace (length H + 0 - length H)%nat with 0%nat by lia.
  replace (length H + 1 - length H)%nat with 1%nat by lia.
  replace (length H + 2 - length H)%nat with 2%nat by lia.
  replace (length H + 3 - length H)%nat with 3%nat by lia.
  reflexivity.
Qed.

Lemma templateIntact_grow (H X : list SafeDeployStep) (rd rd' : list (list nat)) :
  templateIntact {| heap := H; rendered := rd |} ->
  templateIntact {| heap := H ++ X; rendered := rd' |}.
Proof.
  intros Hint. pose proof (templateIntact_lookup _ Hint) as Hl. simpl in Hl.
  unfold templateIntact, contents, templateRefs. simpl.
  rewrite (lookup_app_l_Some _ _ _ _ (Hl 0%nat _ eq_refl)).
  rewrite (lookup_app_l_Some _ _ _ _ (Hl 1%nat _ eq_refl)).
  rewrite (lookup_app_l_Some _ _ _ _ (Hl 2%nat _ eq_refl)).
  rewrite (lookup_app_l_Some _ _ _ _ (Hl 3%nat _ eq_refl)).
  reflexivity.
Qed.

Lemma templateIntact_deploy (env : Env) (w : World) :
  templateIntact w -> templateIntact (deployUndeployedSafe env w).2.
Proof.
  destruct w as [H rd]. intros Hint.
  destruct (configured env) eqn:Hcfg.
  - destruct (deploy_exec env H rd Hint Hcfg) as [rd' ->]. simpl.
    now apply (templateIntact_grow H _ rd).
  - rewrite (deploy_unconfigured env _ Hcfg). simpl.
    now apply (templateIntact_grow H _ rd).
Qed.

Lemma templateIntact_attempts (envs : list Env) : templateIntact (attempts envs).
Proof.
  unfold attempts.
  assert (Hgen : forall w, templateIntact w ->
    templateIntact (foldl (fun w env => (deployUndeployedSafe env w).2) w envs)).
  { induction envs as [|env envs IH]; intros w Hw; simpl; [exact Hw|].
    apply IH. now apply templateIntact_deploy. }
  apply Hgen. reflexivity.
Qed.

(** The clauses of [haltedAt] on a list of steps that is written out;
    [Hsend] says what the broadcast returned, where it returned. *)
Ltac halted_clauses :=
  unfold haltedAt, failed, succeeded, untouched, leftRunning, templateStep;
  simpl;
  refine (conj _ (conj _ (conj _ (conj _ _))));
  [ eexists; split; [reflexivity|]; split; reflexivity
  | intros [|[|[|[|j]]]] ?; try lia; reflexivity
  | intros [|[|[|[|j]]]] s ?; try lia; simpl; intros [= <-] Hh; try reflexivity;
    destruct (Hh eq_refl) as (h' & Hs' & Ht'); congruence
  | intros [|[|[|[|j]]]] s h' ? Hs'; try lia; simpl; intros [= <-] Hh; simpl;
    try congruence;
    specialize (Hh eq_refl); congruence
  | intros Hk; first [ discriminate Hk | split; [reflexivity | repeat constructor] ] ].

Lemma finalSteps_haltedAt (env : Env) (k : nat) (err : Thrown) :
  FailsAt env k err -> haltedAt env k err (finalSteps env).
Proof.
  unfold finalSteps, verifiedStep, built, confirmed.
  destruct 1 as [err H0|err H0 H1|err H0 H1 H2|err (H0 & H1 & H2) H3
                |h err (H0 & H1 & H2) H3 Ht H4|h err (H0 & H1 & H2) H3 Hc H5
                |h (H0 & H1 & H2) H3 Hc H5|h err (H0 & H1 & H2) H3 Hc H5 H6].
  - rewrite H0. halted_clauses.
  - rewrite H0, H1.
    destruct (createSafeDeploymentTransaction env) as [[]|?]; halted_clauses.
  - rewrite H0, H1, H2. halted_clauses.
  - rewrite H0, H1, H2, H3. halted_clauses.
  - rewrite H0, H1, H2, H3, Ht, H4. halted_clauses.
  - rewrite H0, H1, H2, H3, H5.
    destruct (truthyHash h) eqn:Ht; [rewrite (Hc Ht)|]; halted_clauses.
  - rewrite H0, H1, H2, H3, H5.
    destruct (truthyHash h) eqn:Ht; [rewrite (Hc Ht)|]; halted_clauses.
  - rewrite H0, H1, H2, H3, H5, H6.
    destruct (truthyHash h) eqn:Ht; [rewrite (Hc Ht)|]; halted_clauses.
Qed.

(** The wallet that resolves to nothing, and a Safe that is not detected
    afterwards. *)
Definition noHashReturned : Env :=
  {| configured := true;
     getMinimalEIP1193Provider := Normal true;
     initKit := Normal tt;
     createSafeDeploymentTransaction := Normal tt;
     sendTransaction := Normal None;
     waitForTransactionReceipt := Normal tt;
     isSafeDeployed := Normal false;
     migrate := Normal tt |}.

(** An attempt for which the Safe config is missing. *)
Definition notConfigured : Env :=
  {| configured := false;
     getMinimalEIP1193Provider := Normal true;
     initKit := Normal tt;
     createSafeDeploymentTransaction := Normal tt;
     sendTransaction := Normal (Some aHash);
     waitForTransactionReceipt := Normal tt;
     isSafeDeployed := Normal true;
     migrate := Normal tt |}.

Example wallet_rejection_halts_at_broadcasting :
  status <$> contents (deployUndeployedSafe rejectedByWallet boot).1
               (deployUndeployedSafe rejectedByWallet boot).2 =
  [Success; Error; Pending; Pending]
  /\ rendered (deployUndeployedSafe rejectedByWallet boot).2 =
     [[4; 5; 6; 7]; [4; 5; 6; 7]; [4; 5; 6; 7]]%nat.
Proof. split; reflexivity. Qed.

Example second_attempt_starts_afresh :
  status <$> contents (deployUndeployedSafe allGood (attempts [receiptTimeout])).1
               (deployUndeployedSafe allGood (attempts [receiptTimeout])).2 =
  [Success; Success; Success; Success]
  /\ (deployUndeployedSafe allGood (attempts [receiptTimeout])).1 =
     [8; 9; 10; 11]%nat.
Proof. split; reflexivity. Qed.

(** *** Main result on the deployment steps *)

(** Two attempts that do not end as an exception is said to end: with no
    hash from the wallet the confirming step is skipped, and when the
    Safe is then not detected the attempt stops at the fourth step with
    the third still [running]; and with the Safe config missing the
    attempt returns one step of its own, which is no copy of a step of
    the template. *)
Lemma attempts_that_end_otherwise :
  (FailsAt noHashReturned 3 (ErrorObject "Safe deployment not detected")
   /\ status <$> contents (deployUndeployedSafe noHashReturned boot).1
                   (deployUndeployedSafe noHashReturned boot).2 =
      [Success; Success; Running; Error]
   /\ ~ forall j s, (j < 3)%nat ->
          contents (deployUndeployedSafe noHashReturned boot).1
            (deployUndeployedSafe noHashReturned boot).2 !! j = Some s ->
          status s = Success)
  /\ (step <$> contents (deployUndeployedSafe notConfigured boot).1
                 (deployUndeployedSafe notConfigured boot).2 = ["txCreated"]
      /\ step <$> DEFAULT_DEPLOY_STEPS =
         ["BuildingDeploymentTx"; "Broadcasting"; "Confirming"; "VerifyingDeployed"]).
Proof.
  split; [|split; reflexivity].
  split; [|split; [reflexivity|]].
  - apply (fails_undetected _ None);
      [repeat split; reflexivity | reflexivity | intros H; discriminate H
      | reflexivity].
  - intros H. specialize (H 2%nat _ ltac:(lia) eq_refl). discriminate H.
Qed.

(** C7. Whatever attempts came before, an attempt never touches the
    template's objects.  When the Safe config, the connector, the signer
    and the chain id are there, it works on four new objects copied from
    the template; when an exception occurs at step [k], that step ends
    with status [error] and the message of the exception, every later step
    is as in the template (status [pending]), every earlier step has
    status [success], the confirming step provided the wallet answered the
    broadcast with a hash, and what the broadcasting step captured as the
    hash is still on it, and on the confirming step as well when it is a
    hash.  An exception at the broadcasting step leaves the statuses
    [success, error, pending, pending] and no hash on any step.  When
    something is missing, the attempt returns one new step with status
    [error] instead. *)
Theorem deploy_exception_halts_at_its_step (envs : list Env) (env : Env) :
  let w := attempts envs in
  let steps := (deployUndeployedSafe env w).1 in
  let w' := (deployUndeployedSafe env w).2 in
  let result := contents steps w' in
  templateIntact w /\ templateIntact w'
  /\ (forall ref, ref ∈ steps -> (length (heap w) <= ref)%nat)
  /\ NoDup steps
  /\ (configured env = false ->
        exists s, result = [s] /\ status s = Error)
  /\ (configured env = true ->
        step <$> result = step <$> DEFAULT_DEPLOY_STEPS /\
        forall k err, FailsAt env k err -> haltedAt env k err result).
Proof.
  intros w steps w' result.
  pose proof (templateIntact_attempts envs) as Hw. fold w in Hw.
  split; [exact Hw|].
  split; [apply templateIntact_deploy; exact Hw|].
  subst steps w' result. destruct w as [H rd].
  destruct (configured env) eqn:Hcfg.
  - destruct (deploy_exec env H rd Hw Hcfg) as [rd' ->]. cbn [fst snd heap].
    rewrite (contents_fresh H _ rd' (finalSteps_length env)).
    split; [|split; [|split; [discriminate|]]].
    + intros ref Href.
      repeat (apply elem_of_cons in Href as [->|Href]; [lia|]).
      apply elem_of_nil in Href. contradiction.
    + repeat (apply NoDup_cons; split;
              [rewrite ?elem_of_cons, ?elem_of_nil; lia|]).
      apply NoDup_nil_2.
    + intros _. split; [|intros k err; apply finalSteps_haltedAt].
      clear. unfold finalSteps, verifiedStep.
      destruct (getMinimalEIP1193Provider env) as [[|]|?]; try reflexivity.
      destruct (initKit env) as [[]|?]; try reflexivity;
        destruct (createSafeDeploymentTransaction env) as [[]|?]; try reflexivity.
      destruct (sendTransaction env) as [h|?]; try reflexivity.
      destruct (truthyHash h);
        [destruct (waitForTransactionReceipt env) as [[]|?]; try reflexivity|];
        (destruct (isSafeDeployed env) as [[|]|?]; try reflexivity;
         destruct (migrate env) as [[]|?]; reflexivity).
  - rewrite (deploy_unconfigured env _ Hcfg). simpl.
    split; [|split; [|split; [|discriminate]]].
    + intros ref Href. apply list_elem_of_singleton in Href as ->. lia.
    + apply NoDup_singleton.
    + intros _. unfold contents. simpl.
      rewrite lookup_app_r by lia. rewrite Nat.sub_diag. simpl.
      eexists. split; reflexivity.
Qed.

Lemma deploy_exception_halts_at_its_step_witness :
  haltedAt rejectedByWallet 1 (ErrorObject "User rejected the request.")
    (contents (deployUndeployedSafe rejectedByWallet
                 (attempts [allGood; receiptTimeout])).1
              (deployUndeployedSafe rejectedByWallet
                 (attempts [allGood; receiptTimeout])).2)
  /\ haltedAt receiptTimeout 2 (NonError "timeout")
    (contents (deployUndeployedSafe receiptTimeout
                 (attempts [noHashReturned])).1
              (deployUndeployedSafe receiptTimeout
                 (attempts [noHashReturned])).2).
Proof.
  split.
  - pose proof (deploy_exception_halts_at_its_step
                  [allGood; receiptTimeout] rejectedByWallet) as H.
    cbv zeta in H. destruct H as (_ & _ & _ & _ & _ & Hconfigured).
    apply (Hconfigured eq_refl).
    apply fails_send; [repeat split|]; reflexivity.
  - pose proof (deploy_exception_halts_at_its_step
                  [noHashReturned] receiptTimeout) as H.
    cbv zeta in H. destruct H as (_ & _ & _ & _ & _ & Hconfigured).
    apply (Hconfigured eq_refl).
    apply (fails_wait _ (Some aHash)); [repeat split|..]; reflexivity.
Defined.

End Deploy.

(** ** app/provider/SafeTxProvider.tsx: removal, persistence, export *)

Module TxQueue.

Import ProtocolKit SafeTxProvider.

(** The shape in which a transaction is written to local storage and to an
    export: its data and the list of its signatures. *)
Record StoredTx : Type := mkStoredTx {
  storedData : SafeTransactionData;
  storedSignatures : list SafeSignature;
}.

(** [{ data: tx.data, signatures: Array.from(tx.signatures.values()) }].
    The order in which a [Map] yields its values is not part of the model;
    the results below hold for every order. *)
Definition toStored (tx : EthSafeTransaction) : StoredTx :=
  {| storedData := txData tx;
     storedSignatures := (map_to_list (signatures tx)).*2 |}.

(** [new EthSafeTransaction(stored.data)] followed by
    [stored.signatures.forEach((sig) => txObj.addSignature(...))]. *)
Definition rebuild (stored : StoredTx) : EthSafeTransaction :=
  foldl (fun txObj sig => addSignature sig txObj)
        {| txData := storedData stored; signatures := ∅ |}
        (storedSignatures stored).

(** What [exportTx] returns: the empty string, or the JSON text of
    [{ transactions: [...] }]. *)
Inductive Exported : Type :=
  | EmptyText
  | TransactionsJson (txsData : list StoredTx).

Definition exportTx (safeAddress : string) (chainId : option string)
    (p : Provider) : Exported :=
  let key := keyOf safeAddress chainId in
  match current p !! key with
  | None | Some [] => EmptyText
  | Some txs => TransactionsJson (toStored <$> txs)
  end.

(** What [JSON.parse] makes of an export when it is handed to [importTx]:
    the empty string does not parse; every entry of [transactions] has
    [data] and is rebuilt with its signatures, the nonce as the text has
    it. *)
Definition parseExported (e : Exported) : ImportJson :=
  match e with
  | EmptyText => Malformed
  | TransactionsJson txsData =>
      Bundle ((fun s => Some (asStored (rebuild s))) <$> txsData)
  end.

(** The signatures of a transaction are filed under the lower-cased signer,
    as [addSignature] files them. *)
Definition keyedBySigner (tx : EthSafeTransaction) : Prop :=
  forall k sig, signatures tx !! k = Some sig -> k = JS.toLowerCase (signer sig).

(** [default [] (stored p !! key)]: the queue local storage holds. *)
Definition storedAt (key : string) (p : Provider) : list EthSafeTransaction :=
  default [] (stored p !! key).

(** The nonce is one that a JSON text gives back as it is: anything but
    [NaN] and the infinities. *)
Definition keptByJSON (tx : EthSafeTransaction) : Prop :=
  JS.throughJSON (nonceOf tx) = nonceOf tx.

(** The queues in storage are the queues in memory as JSON gives them
    back, and storage holds no empty queue. *)
Definition mirrored (p : Provider) : Prop :=
  (forall key, storedAt key p = asStored <$> queueAt key p) /\
  map_Forall (fun _ txs => txs <> []) (stored p).

(** *** Properties *)

Lemma append_inj_r (a b c : string) : a +:+ b = a +:+ c -> b = c.
Proof.
  induction a as [|x a IH]; simpl; [auto|]. intros [= H]. auto.
Qed.

Lemma append_length (a b : string) :
  String.length (a +:+ b) = (String.length a + String.length b)%nat.
Proof. induction a as [|x a IH]; simpl; [reflexivity | now rewrite IH]. Qed.

Lemma keyOf_chain (sa c : string) :
  JS.truthy c = true -> keyOf sa (Some c) = sa +:+ "-" +:+ c.
Proof. intros H. unfold keyOf. now rewrite H. Qed.

Lemma queueAt_other_key (key key' : string) (l : list EthSafeTransaction)
    (cur sto : gmap string (list EthSafeTransaction)) :
  key <> key' ->
  queueAt key' {| current := <[key := l]> cur; stored := sto |} =
  default [] (cur !! key').
Proof. intros Hne. unfold queueAt. simpl. now rewrite lookup_insert_ne. Qed.

(** A save, an import or a removal under one key leaves the queue of every
    other key alone. *)
Lemma act_other_key (p : Provider) (a : Action) (key' : string) :
  match a with
  | Save sa _ c | Import sa _ c | Remove sa _ _ c => keyOf sa c <> key'
  | PageLoad => False
  end ->
  queueAt key' (act p a) = queueAt key' p.
Proof.
  destruct a as [sa tx c|sa json c|sa h n c|]; simpl; try contradiction; intros Hne.
  - unfold saveTransaction. now rewrite queueAt_other_key.
  - unfold importTx.
    destruct json; try reflexivity;
      destruct (0 <? _)%nat; try reflexivity; now rewrite queueAt_other_key.
  - unfold removeTransaction. destruct (negb _ && _); now rewrite queueAt_other_key.
Qed.

(** On numbered transactions the removal filters by rank. *)
Lemma filter_numbered (u : Z) (l : list EthSafeTransaction) :
  Forall numbered l ->
  filter (fun tx => JS.numberEquals (nonceNumber tx) (JS.Finite u) = false) l =
  filter (fun tx => rank tx <> u) l.
Proof.
  induction 1 as [|x l Hx _ IH]; [reflexivity|].
  rewrite !filter_cons, IH, (numbered_nonceNumber x Hx), JS.numberEquals_Finite.
  destruct (Z.eqb_spec (rank x) u) as [Heq|Hne].
  - rewrite decide_False by discriminate. now rewrite decide_False by tauto.
  - rewrite decide_True by reflexivity. now rewrite decide_True by exact Hne.
Qed.

Lemma byNonce_filter (n : Z) (l : list EthSafeTransaction) :
  byNonce (filter (fun tx => rank tx <> n) l) = delete n (byNonce l).
Proof.
  induction l as [|x l IH]; [symmetry; apply delete_empty|].
  rewrite filter_cons, byNonce_cons.
  destruct (decide (rank x <> n)) as [Hne|Heq].
  - rewrite byNonce_cons, IH. symmetry. now apply delete_insert_ne.
  - apply dec_stable in Heq. rewrite IH, Heq. symmetry. apply delete_insert_eq.
Qed.

Lemma filter_nonce_length (n : Z) (l : list EthSafeTransaction) :
  NoDup (rank <$> l) ->
  (length l <= length (filter (fun tx => rank tx <> n) l) + 1)%nat /\
  ((forall tx, tx ∈ l -> rank tx <> n) ->
   filter (fun tx => rank tx <> n) l = l).
Proof.
  induction l as [|x l IH]; intros Hnd; [split; [simpl; lia | reflexivity]|].
  rewrite fmap_cons in Hnd. apply NoDup_cons in Hnd as [Hx Hnd].
  destruct (IH Hnd) as [Hlen Hid]. rewrite filter_cons.
  destruct (decide (rank x <> n)) as [Hne|Heq].
  - split; [simpl; lia|]. intros Hall. f_equal. apply Hid.
    intros tx Htx. apply Hall. now right.
  - apply dec_stable in Heq. split.
    + rewrite Hid; [simpl; lia|]. intros tx Htx Hn. apply Hx.
      rewrite Heq, <- Hn. now apply list_elem_of_fmap_2.
    + intros Hall. exfalso. apply (Hall x); [now left | exact Heq].
Qed.

(** X1. [removeTransaction] with a nonce takes away the queued entries
    whose nonce is, as a Number, the given one, and keeps the others in
    their order, in memory and in storage alike, whether or not a hash is
    given; the queues of other keys stay as they are.  On an orderly
    queue and for a finite nonce this is the deletion of the nonce from
    the nonce-keyed map: at most one entry goes, and none when no entry
    has the nonce. *)
Theorem removeTransaction_by_nonce :
  (forall (p : Provider) (sa : string) (h : option string) (n : JS.Number)
          (c : option string),
     let key := keyOf sa c in
     let q := removeTransaction sa h (Some n) c p in
     queueAt key q =
       filter (fun tx => JS.numberEquals (nonceNumber tx) n = false) (queueAt key p)
     /\ storedAt key q = asStored <$> queueAt key q
     /\ (forall key', key <> key' -> queueAt key' q = queueAt key' p))
  /\ (forall (p : Provider) (sa : string) (h : option string) (n : Z)
          (c : option string),
     let key := keyOf sa c in
     let old := queueAt key p in
     let new := queueAt key (removeTransaction sa h (Some (JS.Finite n)) c p) in
     orderly old ->
     orderly new
     /\ byNonce new = delete n (byNonce old)
     /\ (length old <= length new + 1)%nat
     /\ ((forall tx, tx ∈ old -> nonceNumber tx <> JS.Finite n) -> new = old)).
Proof.
  assert (Hq : forall p sa h n c,
    queueAt (keyOf sa c) (removeTransaction sa h (Some n) c p) =
    filter (fun tx => JS.numberEquals (nonceNumber tx) n = false)
           (queueAt (keyOf sa c) p)).
  { intros p sa h n c. unfold removeTransaction.
    rewrite andb_false_r. unfold queueAt at 1. simpl.
    now rewrite lookup_insert_eq. }
  split.
  - intros p sa h n c key q. subst q key. split; [apply Hq|]. split.
    + rewrite Hq. unfold removeTransaction, storedAt.
      rewrite andb_false_r. simpl.
      destruct (filter _ (queueAt (keyOf sa c) p)) as [|x l] eqn:Hf; simpl.
      * now rewrite lookup_delete_eq.
      * now rewrite lookup_insert_eq.
    + intros key' Hne.
      apply (act_other_key p (Remove sa h (Some n) c) key'). exact Hne.
  - intros p sa h n c key old new [Hn Hs]. subst new key. rewrite Hq. fold old.
    rewrite filter_numbered by exact Hn.
    split; [split|].
    + apply Forall_forall. intros x Hx. apply list_elem_of_filter in Hx as [_ Hx].
      rewrite Forall_forall in Hn. auto.
    + now apply strictlyByNonce_filter.
    + apply JS.strict_NoDup in Hs.
      split; [apply byNonce_filter|].
      destruct (filter_nonce_length n old Hs) as [Hlen Hid].
      split; [exact Hlen|]. intros Hall. apply Hid. intros tx Htx Hr.
      apply (Hall tx Htx). rewrite Forall_forall in Hn.
      now rewrite (numbered_nonceNumber tx (Hn tx Htx)), Hr.
Qed.

Lemma removeTransaction_by_nonce_witness :
  queueAt (keyOf aSafeAddress None)
    (removeTransaction aSafeAddress None (Some (JS.Finite (3 * JS.one))) None
       (run [Save aSafeAddress (emptyTx 7) None; Save aSafeAddress (emptyTx 5) None])) =
  queueAt (keyOf aSafeAddress None)
    (run [Save aSafeAddress (emptyTx 7) None; Save aSafeAddress (emptyTx 5) None]).
Proof.
  pose proof (proj2 removeTransaction_by_nonce
    (run [Save aSafeAddress (emptyTx 7) None; Save aSafeAddress (emptyTx 5) None])
    aSafeAddress None (3 * JS.one) None) as H.
  cbv zeta in H.
  destruct H as (_ & _ & _ & Hsame).
  { apply queueAt_wellKept, wellKept_run.
    apply (bool_decide_unpack _). vm_compute. exact I. }
  apply Hsame. intros tx Htx.
  assert (Hq : queueAt (keyOf aSafeAddress None)
            (run [Save aSafeAddress (emptyTx 7) None; Save aSafeAddress (emptyTx 5) None])
          = [emptyTx 5; emptyTx 7]) by (vm_compute; reflexivity).
  rewrite Hq in Htx.
  repeat (apply elem_of_cons in Htx as [->|Htx]; [vm_compute; discriminate|]).
  apply elem_of_nil in Htx. contradiction.
Defined.

(** X2. Without a nonce [removeTransaction] goes one of two ways: given no
    hash either, it empties the queue of the key and deletes the key from
    storage; given a hash only, it removes nothing at all. *)
Theorem removeTransaction_without_nonce (p : Provider) (sa : string)
    (c : option string) :
  let key := keyOf sa c in
  (forall h, from_option JS.truthy false h = false ->
     queueAt key (removeTransaction sa h None c p) = [] /\
     stored (removeTransaction sa h None c p) !! key = None)
  /\ (forall h, JS.truthy h = true ->
     queueAt key (removeTransaction sa (Some h) None c p) = queueAt key p).
Proof.
  intros key. split.
  - intros h Hh. unfold removeTransaction. rewrite Hh. simpl.
    unfold queueAt. simpl. rewrite lookup_insert_eq, lookup_delete_eq. auto.
  - intros h Hh. unfold removeTransaction. simpl. rewrite Hh. simpl.
    unfold queueAt at 1. simpl. now rewrite lookup_insert_eq.
Qed.

Lemma removeTransaction_without_nonce_witness :
  queueAt (keyOf aSafeAddress None)
    (removeTransaction aSafeAddress (Some "0xabc") None None
       (run [Save aSafeAddress (emptyTx 7) None])) = [emptyTx 7]
  /\ queueAt (keyOf aSafeAddress None)
       (removeTransaction aSafeAddress (Some "") None None
          (run [Save aSafeAddress (emptyTx 7) None])) = [].
Proof.
  split.
  - apply (proj2 (removeTransaction_without_nonce
                    (run [Save aSafeAddress (emptyTx 7) None]) aSafeAddress None)).
    reflexivity.
  - apply (proj1 (removeTransaction_without_nonce
                    (run [Save aSafeAddress (emptyTx 7) None]) aSafeAddress None)
             (Some "")).
    reflexivity.
Defined.

Lemma mirrored_set (key : string) (l : list EthSafeTransaction) (p : Provider) :
  mirrored p ->
  mirrored {| current := <[key := l]> (current p);
              stored := if (0 <? length l)%nat then <[key := asStored <$> l]> (stored p)
                        else delete key (stored p) |}.
Proof.
  intros [Hm Hne]. split.
  - intros key'. unfold storedAt, queueAt. simpl.
    destruct (decide (key = key')) as [<-|Hk].
    + rewrite lookup_insert_eq.
      destruct l as [|x l]; simpl;
        [now rewrite lookup_delete_eq | now rewrite lookup_insert_eq].
    + rewrite lookup_insert_ne by exact Hk.
      destruct (0 <? length l)%nat;
        [rewrite lookup_insert_ne by exact Hk | rewrite lookup_delete_ne by exact Hk];
        apply Hm.
  - simpl. destruct l as [|x l]; simpl.
    + now apply map_Forall_delete.
    + apply map_Forall_insert_2; [discriminate | exact Hne].
Qed.

Lemma mirrored_act (p : Provider) (a : Action) : mirrored p -> mirrored (act p a).
Proof.
  intros Hp. destruct a as [sa tx c|sa json c|sa h n c|]; simpl.
  - unfold saveTransaction.
    pose proof (mirrored_set (keyOf sa c)
      (JS.sort compareNonces (upsertBy sameNonce tx (queueAt (keyOf sa c) p))) p Hp) as H.
    destruct (upsertBy_not_empty sameNonce tx (queueAt (keyOf sa c) p)) as [_ Hlen].
    rewrite <- (Permutation_length (JS.sort_perm compareNonces _)) in Hlen.
    apply Nat.ltb_lt in Hlen. rewrite Hlen in H. exact H.
  - unfold importTx.
    assert (Hgrow : forall txs l, (length l <= length
      (foldl (fun merged importedTx => upsertBy sameNonceNumber importedTx merged) l txs))%nat).
    { clear. induction txs as [|t txs IH]; intros l; simpl; [lia|].
      etransitivity; [|apply IH]. apply upsertBy_not_empty. }
    assert (Hmerged : forall t txs, mirrored
      {| current := <[keyOf sa c :=
           JS.sort compareNonces
             (foldl (fun merged importedTx => upsertBy sameNonceNumber importedTx merged)
                    (queueAt (keyOf sa c) p) (t :: txs))]> (current p);
         stored := <[keyOf sa c :=
           asStored <$> JS.sort compareNonces
             (foldl (fun merged importedTx => upsertBy sameNonceNumber importedTx merged)
                    (queueAt (keyOf sa c) p) (t :: txs))]> (stored p) |}).
    { intros t txs. set (merged := JS.sort compareNonces _).
      pose proof (mirrored_set (keyOf sa c) merged p Hp) as H.
      assert (Hlen : (0 <? length merged)%nat = true).
      { subst merged. rewrite (Permutation_length (JS.sort_perm compareNonces _)).
        simpl. apply Nat.ltb_lt.
        eapply Nat.lt_le_trans; [|apply Hgrow]. apply upsertBy_not_empty. }
      rewrite Hlen in H. exact H. }
    destruct json as [|entries|tx|]; try exact Hp.
    + destruct (importedTransactions (Bundle entries)) as [|t txs] eqn:E;
        [exact Hp|].
      apply Hmerged.
    + apply Hmerged.
  - unfold removeTransaction. destruct (negb _ && _).
    + exact (mirrored_set (keyOf sa c) [] p Hp).
    + apply (mirrored_set (keyOf sa c) _ p Hp).
  - destruct Hp as [Hm Hne]. split; [|exact Hne].
    intros key. unfold storedAt, queueAt, hydrate. simpl.
    specialize (Hm key). unfold storedAt, queueAt in Hm.
    rewrite Hm, <- list_fmap_compose. apply list_fmap_ext.
    intros i x _. simpl. now rewrite asStored_idemp.
Qed.

Lemma mirrored_run (actions : list Action) : mirrored (run actions).
Proof.
  unfold run.
  assert (H : forall p, mirrored p -> mirrored (foldl act p actions)).
  { induction actions as [|a actions IH]; intros p Hp; simpl; [exact Hp|].
    apply IH. now apply mirrored_act. }
  apply H. split; [reflexivity | apply map_Forall_empty].
Qed.

Lemma asStored_kept (txs : list EthSafeTransaction) :
  Forall keptByJSON txs -> asStored <$> txs = txs.
Proof.
  induction 1 as [|x l Hx _ IH]; [reflexivity|].
  rewrite fmap_cons, IH. f_equal.
  destruct x as [[? ? ? ? ? ? ? ? ? n] sigs]. unfold keptByJSON, nonceOf in Hx.
  simpl in Hx. unfold asStored. simpl. now rewrite Hx.
Qed.

(** X3. On every state the provider reaches, local storage holds for every
    key the queue that is in memory, as JSON gives it back, and holds no
    empty queue; so the hydration on a page load brings every queue back,
    and brings it back as it was when its nonces are such that a JSON
    text keeps (not [NaN], not infinite). *)
Theorem page_load_restores_every_queue (actions : list Action) (key : string) :
  storedAt key (run actions) = asStored <$> queueAt key (run actions)
  /\ queueAt key (hydrate (run actions)) = asStored <$> queueAt key (run actions)
  /\ (Forall keptByJSON (queueAt key (run actions)) ->
      storedAt key (run actions) = queueAt key (run actions)
      /\ queueAt key (hydrate (run actions)) = queueAt key (run actions))
  /\ (forall txs, stored (run actions) !! key = Some txs -> txs <> []).
Proof.
  destruct (mirrored_run actions) as [Hm Hne].
  split; [apply Hm|]. split; [apply Hm|]. split.
  - intros Hk. pose proof (asStored_kept _ Hk) as Hsame.
    split; (etransitivity; [apply Hm | exact Hsame]).
  - intros txs. apply Hne.
Qed.

Lemma page_load_restores_every_queue_witness :
  queueAt (keyOf aSafeAddress None)
    (hydrate (run [Save aSafeAddress (emptyTx 7) None;
                   Save aSafeAddress (emptyTxWith (JS.Text "5")) None])) =
  [emptyTxWith (JS.Text "5"); emptyTx 7].
Proof.
  destruct (page_load_restores_every_queue
              [Save aSafeAddress (emptyTx 7) None;
               Save aSafeAddress (emptyTxWith (JS.Text "5")) None]
              (keyOf aSafeAddress None)) as (_ & _ & H & _).
  destruct H as [_ ->]; [|vm_compute; reflexivity].
  apply (bool_decide_unpack _). vm_compute. exact I.
Defined.

(** X4. One address on two different chains has two different keys, and
    neither is the key used without a chain id; so saving, importing or
    removing for one chain never changes the queue of the other.  An
    empty chain id counts as none. *)
Theorem chains_do_not_share_a_queue (sa c1 c2 : string) :
  JS.truthy c1 = true -> JS.truthy c2 = true -> c1 <> c2 ->
  keyOf sa (Some c1) <> keyOf sa (Some c2)
  /\ keyOf sa (Some c1) <> keyOf sa None
  /\ keyOf sa (Some "") = keyOf sa None
  /\ forall (p : Provider) (tx : EthSafeTransaction) (json : ImportJson)
            (h : option string) (n : option JS.Number),
       queueAt (keyOf sa (Some c2)) (saveTransaction sa tx (Some c1) p) =
         queueAt (keyOf sa (Some c2)) p
       /\ queueAt (keyOf sa (Some c2)) (importTx sa json (Some c1) p) =
         queueAt (keyOf sa (Some c2)) p
       /\ queueAt (keyOf sa (Some c2)) (removeTransaction sa h n (Some c1) p) =
         queueAt (keyOf sa (Some c2)) p.
Proof.
  intros H1 H2 Hne.
  assert (Hk : keyOf sa (Some c1) <> keyOf sa (Some c2)).
  { rewrite !keyOf_chain by assumption. intros Heq.
    apply append_inj_r, append_inj_r in Heq. contradiction. }
  split; [exact Hk|]. split; [|split; [reflexivity|]].
  - rewrite keyOf_chain by assumption. simpl. intros Heq.
    apply (f_equal String.length) in Heq.
    rewrite append_length in Heq. simpl in Heq. lia.
  - intros p tx json h n. repeat split.
    + exact (act_other_key p (Save sa tx (Some c1)) _ Hk).
    + exact (act_other_key p (Import sa json (Some c1)) _ Hk).
    + exact (act_other_key p (Remove sa h n (Some c1)) _ Hk).
Qed.

Lemma chains_do_not_share_a_queue_witness :
  queueAt (keyOf aSafeAddress (Some "10"))
    (saveTransaction aSafeAddress (emptyTx 0) (Some "1") initial) = [].
Proof.
  destruct (chains_do_not_share_a_queue aSafeAddress "1" "10"
              eq_refl eq_refl ltac:(discriminate)) as (_ & _ & _ & H).
  destruct (H initial (emptyTx 0) Malformed None None) as (Hsave & _).
  rewrite Hsave. reflexivity.
Defined.

Lemma signatures_foldl (sigs : list SafeSignature) (tx : EthSafeTransaction) :
  txData (foldl (fun txObj sig => addSignature sig txObj) tx sigs) = txData tx /\
  signatures (foldl (fun txObj sig => addSignature sig txObj) tx sigs) =
  foldl (fun m sig => <[JS.toLowerCase (signer sig) := sig]> m) (signatures tx) sigs.
Proof.
  revert tx; induction sigs as [|sig sigs IH]; intros tx; simpl; [auto|].
  destruct (IH (addSignature sig tx)) as [-> ->]. auto.
Qed.

Lemma foldl_insert_lookup (sigs : list SafeSignature) :
  forall m : gmap string SafeSignature,
  NoDup ((fun sig => JS.toLowerCase (signer sig)) <$> sigs) ->
  (forall sig, sig ∈ sigs ->
     foldl (fun m sig => <[JS.toLowerCase (signer sig) := sig]> m) m sigs
       !! JS.toLowerCase (signer sig) = Some sig) /\
  (forall k, k ∉ (fun sig => JS.toLowerCase (signer sig)) <$> sigs ->
     foldl (fun m sig => <[JS.toLowerCase (signer sig) := sig]> m) m sigs !! k =
     m !! k).
Proof.
  induction sigs as [|s sigs IH]; intros m Hnd; simpl.
  - split; [intros sig Hin; apply elem_of_nil in Hin; contradiction | auto].
  - rewrite fmap_cons in Hnd. apply NoDup_cons in Hnd as [Hs Hnd].
    destruct (IH (<[JS.toLowerCase (signer s) := s]> m) Hnd) as [Hin Hout].
    split.
    + intros sig Hsig. apply elem_of_cons in Hsig as [->|Hsig]; [|now apply Hin].
      rewrite Hout by exact Hs. apply lookup_insert_eq.
    + intros k Hk. rewrite not_elem_of_cons in Hk. destruct Hk as [Hk1 Hk2].
      rewrite Hout by exact Hk2. now apply lookup_insert_ne.
Qed.

(** Filing the values of a signature map again, in any order, gives the
    map back when every value sits under its lower-cased signer. *)
Lemma signature_map_rebuilt (m0 : gmap string SafeSignature)
    (sigs : list SafeSignature) :
  (forall k sig, m0 !! k = Some sig -> k = JS.toLowerCase (signer sig)) ->
  sigs ≡ₚ (map_to_list m0).*2 ->
  foldl (fun m sig => <[JS.toLowerCase (signer sig) := sig]> m) ∅ sigs = m0.
Proof.
  intros Hkeyed Hperm.
  assert (Hkeys : (fun sig => JS.toLowerCase (signer sig)) <$> (map_to_list m0).*2
                  = (map_to_list m0).*1).
  { rewrite <- list_fmap_compose. apply list_eq. intros i.
    rewrite !list_lookup_fmap.
    destruct (map_to_list m0 !! i) as [[k sig]|] eqn:Hi; simpl; [|reflexivity].
    f_equal. symmetry. apply Hkeyed.
    apply elem_of_map_to_list. eapply list_elem_of_lookup_2; eauto. }
  assert (Hnd : NoDup ((fun sig => JS.toLowerCase (signer sig)) <$> sigs)).
  { rewrite Hperm, Hkeys. apply NoDup_fst_map_to_list. }
  destruct (foldl_insert_lookup sigs ∅ Hnd) as [Hin Hout].
  apply map_eq. intros k.
  destruct (m0 !! k) as [sig|] eqn:Hk.
  - rewrite (Hkeyed k sig Hk). apply Hin. rewrite Hperm.
    apply list_elem_of_fmap. exists (k, sig). split; [reflexivity|].
    now apply elem_of_map_to_list.
  - rewrite Hout; [apply lookup_empty|].
    rewrite Hperm, Hkeys. intros Hin'.
    apply list_elem_of_fmap in Hin' as ([k' sig] & -> & Hin').
    apply elem_of_map_to_list in Hin'. simpl in Hk. congruence.
Qed.

(** Rebuilding a transaction from its stored shape gives the transaction
    back, in whatever order the signatures were listed. *)
Lemma rebuild_stored (tx : EthSafeTransaction) (sigs : list SafeSignature) :
  keyedBySigner tx ->
  sigs ≡ₚ (map_to_list (signatures tx)).*2 ->
  rebuild {| storedData := txData tx; storedSignatures := sigs |} = tx.
Proof.
  intros Hkeyed Hperm. unfold rebuild. simpl.
  pose proof (signatures_foldl sigs {| txData := txData tx; signatures := ∅ |})
    as [Hdata Hsigs].
  destruct (foldl _ _ sigs) as [d m]. simpl in *. subst d.
  destruct tx as [d0 m0]. simpl in *. f_equal. rewrite Hsigs.
  now apply signature_map_rebuilt.
Qed.

Lemma foldl_upsert_distinct (txs acc : list EthSafeTransaction) :
  NoDup (rank <$> (acc ++ txs)) ->
  foldl (fun merged importedTx => upsertByNonce importedTx merged) acc txs =
  acc ++ txs.
Proof.
  revert acc; induction txs as [|t txs IH]; intros acc Hnd; simpl.
  - now rewrite app_nil_r.
  - rewrite upsertByNonce_append.
    + rewrite IH; rewrite <- app_assoc; [reflexivity | exact Hnd].
    + apply Forall_forall. intros e He Heq.
      rewrite fmap_app, fmap_cons in Hnd. apply NoDup_app in Hnd as (_ & Hdisj & _).
      apply (Hdisj (rank e)); [now apply list_elem_of_fmap_2|].
      rewrite Heq. now left.
Qed.

Lemma imported_of_stored (l : list EthSafeTransaction) :
  Forall keyedBySigner l ->
  omap id ((fun s => Some (asStored (rebuild s))) <$> (toStored <$> l)) =
  asStored <$> l.
Proof.
  induction 1 as [|x l Hx Hl IH]; [reflexivity|].
  rewrite !fmap_cons. cbn [omap list_omap id]. rewrite IH.
  unfold toStored at 1. rewrite (rebuild_stored x _ Hx (reflexivity _)).
  reflexivity.
Qed.

(** X5. An export of an orderly queue, imported where nothing is queued
    under the key (another browser, say), puts the very same queue there,
    provided the signatures of the queued transactions are filed under
    their lower-cased signers; and importing a queue's own export changes
    nothing.  An empty queue exports as the empty string, which imports
    as nothing. *)
Theorem export_then_import_restores_the_queue (p : Provider)
    (sa : string) (c : option string) :
  let queue := queueAt (keyOf sa c) p in
  Forall keyedBySigner queue -> orderly queue ->
  (queue = [] <-> exportTx sa c p = EmptyText)
  /\ (forall (q : Provider) (sa' : string) (c' : option string),
        queueAt (keyOf sa' c') q = [] ->
        queueAt (keyOf sa' c')
          (importTx sa' (parseExported (exportTx sa c p)) c' q) = queue)
  /\ queueAt (keyOf sa c)
       (importTx sa (parseExported (exportTx sa c p)) c p) = queue.
Proof.
  intros queue Hkeyed [Hn Hs].
  assert (Hexp : exportTx sa c p =
                 match queue with [] => EmptyText
                 | _ => TransactionsJson (toStored <$> queue) end).
  { unfold exportTx, queue, queueAt.
    destruct (current p !! keyOf sa c) as [[|x l]|]; reflexivity. }
  assert (Hback : importedTransactions (parseExported (exportTx sa c p)) = queue).
  { rewrite Hexp. destruct queue as [|x l] eqn:Hq; [reflexivity|].
    rewrite <- Hq in *. unfold parseExported, importedTransactions.
    rewrite imported_of_stored by exact Hkeyed.
    now apply asStored_all_numbered. }
  split; [|split].
  - rewrite Hexp. destruct queue; split; intros; congruence.
  - intros q sa' c' Hempty. rewrite queueAt_import, Hback, Hempty.
    destruct queue as [|x l] eqn:Hq; [reflexivity|]. rewrite <- Hq in *.
    rewrite merged_numbered by (assumption || constructor).
    rewrite foldl_upsert_distinct by (simpl; now apply JS.strict_NoDup).
    simpl. now apply JS.sortBy_sorted_id, JS.strict_sorted.
  - rewrite queueAt_import, Hback. fold queue.
    destruct queue as [|x l] eqn:Hq; [reflexivity|]. rewrite <- Hq in *.
    rewrite merged_numbered by assumption.
    apply strictlyByNonce_byNonce_inj; [now apply merged_strict | exact Hs |].
    rewrite <- (byNonce_perm _ _ (NoDup_foldl_upsert _ _ (JS.strict_NoDup _ _ Hs))
                 (symmetry (JS.sortBy_perm rank _))).
    rewrite byNonce_foldl_upsert.
    clear -Hs. apply JS.strict_NoDup in Hs.
    assert (Hgen : forall (l : list EthSafeTransaction) (m : gmap Z EthSafeTransaction),
      (forall t, t ∈ l -> m !! rank t = Some t) ->
      foldl (fun m t => <[rank t := t]> m) m l = m).
    { clear. induction l as [|t l IH]; intros m Hm; simpl; [reflexivity|].
      rewrite insert_id by (apply Hm; now left).
      apply IH. intros t' Ht'. apply Hm. now right. }
    apply Hgen. intros t Ht. now apply byNonce_lookup.
Qed.

Lemma export_then_import_restores_the_queue_witness :
  queueAt (keyOf aSafeAddress (Some "1"))
    (importTx aSafeAddress
       (parseExported
          (exportTx aSafeAddress None
             (run [Save aSafeAddress (emptyTx 7) None;
                   Save aSafeAddress (addSignature aSignature (emptyTx 5)) None])))
       (Some "1") initial) =
  [addSignature aSignature (emptyTx 5); emptyTx 7].
Proof.
  pose proof (export_then_import_restores_the_queue
    (run [Save aSafeAddress (emptyTx 7) None;
          Save aSafeAddress (addSignature aSignature (emptyTx 5)) None])
    aSafeAddress None) as H.
  cbv zeta in H.
  assert (Hq : queueAt (keyOf aSafeAddress None)
            (run [Save aSafeAddress (emptyTx 7) None;
                  Save aSafeAddress (addSignature aSignature (emptyTx 5)) None]) =
          [addSignature aSignature (emptyTx 5); emptyTx 7])
    by (vm_compute; reflexivity).
  rewrite Hq in H.
  assert (Hkeyed : Forall keyedBySigner
            [addSignature aSignature (emptyTx 5); emptyTx 7]).
  { repeat constructor.
    - intros k sig. unfold addSignature, emptyTx, emptyTxWith. simpl.
      rewrite insert_empty. intros Hk.
      apply lookup_singleton_Some in Hk as [<- <-]. reflexivity.
    - intros k sig. simpl. rewrite lookup_empty. discriminate. }
  assert (Horderly : orderly [addSignature aSignature (emptyTx 5); emptyTx 7]).
  { rewrite <- Hq. apply queueAt_wellKept, wellKept_run.
    apply (bool_decide_unpack _). vm_compute. exact I. }
  destruct (H Hkeyed Horderly) as (_ & Himport & _).
  exact (Himport initial aSafeAddress (Some "1") eq_refl).
Defined.

End TxQueue.

(** ** app/provider/SafeMessageProvider.tsx: the pending messages *)

Module SafeMessageProvider.

(** The message that is signed: a string, or EIP-712 typed data (kept as
    its JSON text). *)
Inductive MessageData : Type :=
  | PlainText (text : string)
  | TypedData (json : string).

(** [EthSafeMessage]: the message and the signatures, a [Map] keyed by the
    lower-cased signer. *)
Record EthSafeMessage : Type := mkMessage {
  data : MessageData;
  signatures : gmap string ProtocolKit.SafeSignature;
}.

(** [msg.addSignature(sig)] *)
Definition addSignature (sig : ProtocolKit.SafeSignature) (msg : EthSafeMessage)
    : EthSafeMessage :=
  {| data := data msg;
     signatures := <[JS.toLowerCase (ProtocolKit.signer sig) := sig]> (signatures msg) |}.

(** An entry of the in-memory map, and its stored shape. *)
Record Entry : Type := mkEntry {
  message : EthSafeMessage;
  hash : string;
}.

Record StoredMsg : Type := mkStoredMsg {
  storedHash : string;
  storedData : MessageData;
  storedSignatures : list ProtocolKit.SafeSignature;
}.

(** [currentMsgMapRef.current] and the map kept under ["safe-messages"] in
    local storage. *)
Record Provider : Type := mkProvider {
  current : gmap string (list Entry);
  stored : gmap string (list StoredMsg);
}.

Definition initial : Provider := {| current := ∅; stored := ∅ |}.

(** [currentMsgMapRef.current[key] || []] *)
Definition entriesAt (key : string) (p : Provider) : list Entry :=
  default [] (current p !! key).

(** The entry written for one message by [persistToLocalStorage]; the
    order in which the [Map] yields its values is not part of the model. *)
Definition toStored (e : Entry) : StoredMsg :=
  {| storedHash := hash e;
     storedData := data (message e);
     storedSignatures := (map_to_list (signatures (message e))).*2 |}.

(** [persistToLocalStorage]: the whole in-memory map is written out. *)
Definition persistToLocalStorage (cur : gmap string (list Entry)) : Provider :=
  {| current := cur; stored := (fun entries : list Entry => toStored <$> entries) <$> cur |}.

(** Replace the first entry with the hash, or push a new entry. *)
Definition upsertByHash (msgObj : EthSafeMessage) (messageHash : string)
    (existingMsgs : list Entry) : list Entry :=
  match JS.findIndex (fun entry => String.eqb (hash entry) messageHash) existingMsgs with
  | Some existingIndex =>
      <[existingIndex := {| message := msgObj; hash := messageHash |}]> existingMsgs
  | None => existingMsgs ++ [{| message := msgObj; hash := messageHash |}]
  end.

Definition saveMessage (safeAddress : string) (msgObj : EthSafeMessage)
    (messageHash : string) (chainId : option string) (p : Provider) : Provider :=
  let key := SafeTxProvider.keyOf safeAddress chainId in
  let existingMsgs := entriesAt key p in
  let existingMsgs := upsertByHash msgObj messageHash existingMsgs in
  persistToLocalStorage (<[key := existingMsgs]> (current p)).

(** [messages.find((entry) => entry.hash === messageHash)] *)
Definition getMessage (safeAddress : string) (messageHash : string)
    (chainId : option string) (p : Provider) : option EthSafeMessage :=
  let key := SafeTxProvider.keyOf safeAddress chainId in
  message <$> List.find (fun entry => String.eqb (hash entry) messageHash)
                        (entriesAt key p).

Definition getAllMessages (safeAddress : string) (chainId : option string)
    (p : Provider) : list EthSafeMessage :=
  let key := SafeTxProvider.keyOf safeAddress chainId in
  message <$> entriesAt key p.

Definition removeMessage (safeAddress : string) (messageHash : string)
    (chainId : option string) (p : Provider) : Provider :=
  let key := SafeTxProvider.keyOf safeAddress chainId in
  let existingMsgs := entriesAt key p in
  persistToLocalStorage
    (<[key := filter (fun entry => hash entry <> messageHash) existingMsgs]> (current p)).

(** Hydration: [new EthSafeMessage(parsed.data)], the signatures added one
    by one, and the entry pushed with its hash. *)
Definition rebuild (s : StoredMsg) : Entry :=
  {| message :=
       foldl (fun msgObj sig => addSignature sig msgObj)
             {| data := storedData s; signatures := ∅ |} (storedSignatures s);
     hash := storedHash s |}.

Definition hydrate (p : Provider) : Provider :=
  {| current := (fun msgArray : list StoredMsg => rebuild <$> msgArray) <$> stored p;
     stored := stored p |}.

Inductive Action : Type :=
  | Save (safeAddress : string) (msgObj : EthSafeMessage) (messageHash : string)
         (chainId : option string)
  | Remove (safeAddress : string) (messageHash : string) (chainId : option string)
  | PageLoad.

Definition act (p : Provider) (a : Action) : Provider :=
  match a with
  | Save sa m h c => saveMessage sa m h c p
  | Remove sa h c => removeMessage sa h c p
  | PageLoad => hydrate p
  end.

Definition run (actions : list Action) : Provider := foldl act initial actions.

(** The signatures of a message are filed under the lower-cased signer. *)
Definition keyedBySigner (msg : EthSafeMessage) : Prop :=
  forall k sig, signatures msg !! k = Some sig ->
    k = JS.toLowerCase (ProtocolKit.signer sig).

(** No two entries of any list in memory have the same hash. *)
Definition oneEntryPerHash (p : Provider) : Prop :=
  map_Forall (fun _ entries => NoDup (hash <$> entries)) (current p).

(** Example messages. *)
Definition hello : EthSafeMessage :=
  {| data := PlainText "hello"; signatures := ∅ |}.
Definition helloSigned : EthSafeMessage :=
  addSignature ProtocolKit.aSignature hello.

(** The in-memory lists and the stored lists hold each hash once. *)
Definition tidy (p : Provider) : Prop :=
  oneEntryPerHash p /\
  map_Forall (fun _ entries => NoDup (storedHash <$> entries)) (stored p).

(** *** Properties *)

Lemma upsertByHash_cons (m : EthSafeMessage) (h : string) (x : Entry)
    (l : list Entry) :
  upsertByHash m h (x :: l) =
  if String.eqb (hash x) h then {| message := m; hash := h |} :: l
  else x :: upsertByHash m h l.
Proof.
  unfold upsertByHash. simpl. destruct (String.eqb (hash x) h); [reflexivity|].
  destruct (JS.findIndex _ l); reflexivity.
Qed.

Lemma find_upsertByHash (m : EthSafeMessage) (h h' : string) (l : list Entry) :
  List.find (fun entry => String.eqb (hash entry) h') (upsertByHash m h l) =
  if String.eqb h h' then Some {| message := m; hash := h |}
  else List.find (fun entry => String.eqb (hash entry) h') l.
Proof.
  induction l as [|x l IH].
  - unfold upsertByHash. simpl. destruct (String.eqb h h'); reflexivity.
  - rewrite upsertByHash_cons.
    destruct (String.eqb_spec (hash x) h) as [Hx|Hx]; simpl.
    + rewrite Hx. destruct (String.eqb h h'); reflexivity.
    + rewrite IH. destruct (String.eqb_spec (hash x) h') as [Hx'|Hx'];
        [|reflexivity].
      destruct (String.eqb_spec h h'); [congruence | reflexivity].
Qed.

Lemma find_filter_hash (h h' : string) (l : list Entry) :
  List.find (fun entry => String.eqb (hash entry) h')
            (filter (fun entry => hash entry <> h) l) =
  if String.eqb h h' then None
  else List.find (fun entry => String.eqb (hash entry) h') l.
Proof.
  induction l as [|x l IH]; simpl.
  - now destruct (String.eqb h h').
  - rewrite filter_cons. destruct (decide (hash x <> h)) as [Hx|Hx]; simpl.
    + rewrite IH. destruct (String.eqb_spec (hash x) h') as [Hx'|Hx'];
        [|reflexivity].
      destruct (String.eqb_spec h h'); [congruence | reflexivity].
    + apply dec_stable in Hx. rewrite IH, Hx.
      destruct (String.eqb h h'); reflexivity.
Qed.

Lemma entriesAt_save (sa : string) (m : EthSafeMessage) (h : string)
    (c : option string) (p : Provider) :
  entriesAt (SafeTxProvider.keyOf sa c) (saveMessage sa m h c p) =
  upsertByHash m h (entriesAt (SafeTxProvider.keyOf sa c) p).
Proof. unfold entriesAt at 1. simpl. now rewrite lookup_insert_eq. Qed.

Lemma entriesAt_remove (sa h : string) (c : option string) (p : Provider) :
  entriesAt (SafeTxProvider.keyOf sa c) (removeMessage sa h c p) =
  filter (fun entry => hash entry <> h) (entriesAt (SafeTxProvider.keyOf sa c) p).
Proof. unfold entriesAt at 1. simpl. now rewrite lookup_insert_eq. Qed.

(** X6. A saved message is what [getMessage] returns for its hash, whatever
    was stored under the hash before; after [removeMessage] the hash gives
    [null]; and neither operation changes what any other hash gives. *)
Theorem message_save_get_remove (p : Provider) (sa : string) (c : option string)
    (m : EthSafeMessage) (h : string) :
  getMessage sa h c (saveMessage sa m h c p) = Some m
  /\ getMessage sa h c (removeMessage sa h c p) = None
  /\ (forall h', h' <> h ->
        getMessage sa h' c (saveMessage sa m h c p) = getMessage sa h' c p /\
        getMessage sa h' c (removeMessage sa h c p) = getMessage sa h' c p).
Proof.
  assert (Hsave : forall h', getMessage sa h' c (saveMessage sa m h c p) =
            if String.eqb h h' then Some m else getMessage sa h' c p).
  { intros h'. unfold getMessage. cbv zeta.
    rewrite entriesAt_save, find_upsertByHash.
    destruct (String.eqb h h'); reflexivity. }
  assert (Hremove : forall h', getMessage sa h' c (removeMessage sa h c p) =
            if String.eqb h h' then None else getMessage sa h' c p).
  { intros h'. unfold getMessage. cbv zeta.
    rewrite entriesAt_remove, find_filter_hash.
    destruct (String.eqb h h'); reflexivity. }
  rewrite Hsave, Hremove, String.eqb_refl.
  split; [reflexivity|]. split; [reflexivity|].
  intros h' Hne. rewrite Hsave, Hremove.
  destruct (String.eqb_spec h h'); [congruence | auto].
Qed.

Lemma message_save_get_remove_witness :
  getMessage "0x5afe" "0xaa" (Some "1")
    (saveMessage "0x5afe" helloSigned "0xbb" (Some "1")
       (saveMessage "0x5afe" hello "0xaa" (Some "1") initial)) = Some hello.
Proof.
  destruct (message_save_get_remove
              (saveMessage "0x5afe" hello "0xaa" (Some "1") initial)
              "0x5afe" (Some "1") helloSigned "0xbb") as (_ & _ & Hother).
  destruct (Hother "0xaa" ltac:(discriminate)) as [-> _].
  apply message_save_get_remove.
Defined.

Lemma hashes_upsertByHash (m : EthSafeMessage) (h : string) (l : list Entry) :
  hash <$> upsertByHash m h l =
  if bool_decide (h ∈ hash <$> l) then hash <$> l else (hash <$> l) ++ [h].
Proof.
  induction l as [|x l IH]; [reflexivity|].
  rewrite upsertByHash_cons, fmap_cons.
  destruct (String.eqb_spec (hash x) h) as [Hx|Hx].
  - rewrite bool_decide_eq_true_2 by (rewrite Hx; now left).
    rewrite fmap_cons, Hx. reflexivity.
  - rewrite fmap_cons, IH.
    destruct (decide (h ∈ hash <$> l)) as [Hin|Hout].
    + rewrite !bool_decide_eq_true_2; [reflexivity | now right | exact Hin].
    + rewrite !bool_decide_eq_false_2; [reflexivity | | exact Hout].
      rewrite elem_of_cons. intros [?|?]; [congruence | contradiction].
Qed.

Lemma tidy_persist (cur : gmap string (list Entry)) :
  map_Forall (fun _ entries => NoDup (hash <$> entries)) cur ->
  tidy (persistToLocalStorage cur).
Proof.
  intros Hc. split; [exact Hc|]. simpl.
  intros key l Hl. rewrite lookup_fmap in Hl.
  destruct (cur !! key) as [entries|] eqn:E; [|discriminate].
  injection Hl as <-. rewrite <- list_fmap_compose. exact (Hc key entries E).
Qed.

Lemma tidy_act (p : Provider) (a : Action) : tidy p -> tidy (act p a).
Proof.
  intros [Hc Hs].
  assert (Hat : forall key, NoDup (hash <$> entriesAt key p)).
  { intros key. unfold entriesAt.
    destruct (current p !! key) as [l|] eqn:E; [exact (Hc key l E) | constructor]. }
  destruct a as [sa m h c|sa h c|]; simpl.
  - apply tidy_persist. apply map_Forall_insert_2; [|exact Hc].
    rewrite hashes_upsertByHash.
    destruct (decide (h ∈ hash <$> entriesAt (SafeTxProvider.keyOf sa c) p)).
    + rewrite bool_decide_eq_true_2 by assumption. apply Hat.
    + rewrite bool_decide_eq_false_2 by assumption.
      apply NoDup_app. split; [apply Hat|]. split; [|apply NoDup_singleton].
      intros x Hx Hx'. apply list_elem_of_singleton in Hx'. congruence.
  - apply tidy_persist. apply map_Forall_insert_2; [|exact Hc].
    specialize (Hat (SafeTxProvider.keyOf sa c)).
    induction (entriesAt (SafeTxProvider.keyOf sa c) p) as [|x l IH];
      [constructor|].
    rewrite fmap_cons in Hat. apply NoDup_cons in Hat as [Hx Hl].
    rewrite filter_cons. destruct (decide (hash x <> h)); [|now apply IH].
    rewrite fmap_cons. apply NoDup_cons. split; [|now apply IH].
    intros Hin. apply Hx. apply list_elem_of_fmap in Hin as (y & -> & Hy).
    apply list_elem_of_filter in Hy as [_ Hy]. now apply list_elem_of_fmap_2.
  - split; [|exact Hs]. intros key l Hl. simpl in Hl. rewrite lookup_fmap in Hl.
    destruct (stored p !! key) as [msgs|] eqn:E; [|discriminate].
    injection Hl as <-. rewrite <- list_fmap_compose. exact (Hs key msgs E).
Qed.

Lemma tidy_run (actions : list Action) : tidy (run actions).
Proof.
  unfold run.
  assert (H : forall p, tidy p -> tidy (foldl act p actions)).
  { induction actions as [|a actions IH]; intros p Hp; simpl; [exact Hp|].
    apply IH. now apply tidy_act. }
  apply H. split; apply map_Forall_empty.
Qed.

(** X7. On every state the provider reaches no hash is listed twice for a
    key.  Saving under a hash that is listed keeps the list as long as it
    was, with the hashes in the same places; saving under a new hash adds
    the entry at the end. *)
Theorem one_entry_per_message_hash (actions : list Action) (sa : string)
    (c : option string) (m : EthSafeMessage) (h : string) :
  let key := SafeTxProvider.keyOf sa c in
  let old := entriesAt key (run actions) in
  let new := entriesAt key (saveMessage sa m h c (run actions)) in
  NoDup (hash <$> old) /\ NoDup (hash <$> new)
  /\ (h ∈ hash <$> old -> hash <$> new = hash <$> old)
  /\ (h ∉ hash <$> old -> new = old ++ [{| message := m; hash := h |}]).
Proof.
  intros key old new.
  assert (Hat : forall p, tidy p -> NoDup (hash <$> entriesAt key p)).
  { intros p [Hc _]. unfold entriesAt.
    destruct (current p !! key) as [l|] eqn:E; [exact (Hc key l E) | constructor]. }
  split; [apply Hat, tidy_run|].
  split; [apply (Hat _ (tidy_act _ (Save sa m h c) (tidy_run actions)))|].
  subst new old key. rewrite entriesAt_save. split.
  - intros Hin. rewrite hashes_upsertByHash. now rewrite bool_decide_eq_true_2.
  - intros Hout. unfold upsertByHash.
    destruct (JS.findIndex _ _) as [i|] eqn:Hi; [|reflexivity].
    apply JS.findIndex_Some in Hi as (x & Hx & Heq & _).
    apply String.eqb_eq in Heq. exfalso. apply Hout. rewrite <- Heq.
    apply list_elem_of_fmap_2. eapply list_elem_of_lookup_2; eauto.
Qed.

Lemma one_entry_per_message_hash_witness :
  hash <$> entriesAt (SafeTxProvider.keyOf "0x5afe" None)
             (saveMessage "0x5afe" helloSigned "0xaa" None
                (run [Save "0x5afe" hello "0xaa" None;
                      Save "0x5afe" hello "0xbb" None])) =
  ["0xaa"; "0xbb"].
Proof.
  pose proof (one_entry_per_message_hash
    [Save "0x5afe" hello "0xaa" None; Save "0x5afe" hello "0xbb" None]
    "0x5afe" None helloSigned "0xaa") as H.
  cbv zeta in H. destruct H as (_ & _ & Hsame & _).
  rewrite Hsame; [reflexivity|]. now left.
Defined.

Lemma rebuild_toStored (e : Entry) :
  keyedBySigner (message e) -> rebuild (toStored e) = e.
Proof.
  intros Hkeyed. destruct e as [[d m] h]. unfold rebuild, toStored. simpl.
  f_equal.
  assert (Hfold : forall (sigs : list ProtocolKit.SafeSignature) (msg : EthSafeMessage),
    foldl (fun msgObj sig => addSignature sig msgObj) msg sigs =
    {| data := data msg;
       signatures := foldl (fun m sig => <[JS.toLowerCase (ProtocolKit.signer sig) := sig]> m)
                           (signatures msg) sigs |}).
  { induction sigs as [|s sigs IH]; intros [d' m']; simpl; [reflexivity|].
    now rewrite IH. }
  rewrite Hfold. simpl. f_equal.
  now apply TxQueue.signature_map_rebuilt.
Qed.

(** X8. After a save or a removal local storage holds the whole in-memory
    map, and a page load rebuilds it: on every state the provider reaches
    in which the signatures of the messages are filed under their
    lower-cased signers, hydration gives every key the entries it had. *)
Theorem page_load_restores_every_message (actions : list Action) (key : string) :
  (forall key' e, e ∈ entriesAt key' (run actions) -> keyedBySigner (message e)) ->
  entriesAt key (hydrate (run actions)) = entriesAt key (run actions).
Proof.
  intros Hkeyed.
  assert (Hpersist : forall cur : gmap string (list Entry),
    (forall e, e ∈ default [] (cur !! key) -> keyedBySigner (message e)) ->
    entriesAt key (hydrate (persistToLocalStorage cur)) = default [] (cur !! key)).
  { intros cur Hk. unfold entriesAt, hydrate. simpl. rewrite !lookup_fmap.
    destruct (cur !! key) as [l|]; simpl in *; [|reflexivity].
    rewrite <- list_fmap_compose.
    induction l as [|x l IH]; [reflexivity|].
    rewrite fmap_cons. simpl. rewrite rebuild_toStored by (apply Hk; now left).
    f_equal. apply IH. intros e He. apply Hk. now right. }
  destruct actions as [|a actions _] using rev_ind; [reflexivity|].
  unfold run in *. rewrite foldl_snoc in *.
  set (p := foldl act initial actions) in *.
  destruct a as [sa m h c|sa h c|]; simpl in *.
  - apply Hpersist. apply Hkeyed.
  - apply Hpersist. apply Hkeyed.
  - reflexivity.
Qed.

Lemma page_load_restores_every_message_witness :
  entriesAt (SafeTxProvider.keyOf "0x5afe" None)
    (hydrate (run [Save "0x5afe" helloSigned "0xaa" None])) =
  [{| message := helloSigned; hash := "0xaa" |}].
Proof.
  rewrite (page_load_restores_every_message
             [Save "0x5afe" helloSigned "0xaa" None]); [reflexivity|].
  intros key' e He k sig.
  destruct (decide (key' = SafeTxProvider.keyOf "0x5afe" None)) as [->|Hne].
  - apply list_elem_of_singleton in He as ->. simpl.
    rewrite insert_empty. intros Hk.
    apply lookup_singleton_Some in Hk as [<- <-]. reflexivity.
  - unfold entriesAt, run in He. simpl in He.
    rewrite lookup_insert_ne in He
      by (intros Heq; apply Hne; rewrite <- Heq; reflexivity).
    rewrite lookup_empty in He. apply elem_of_nil in He. contradiction.
Defined.

End SafeMessageProvider.

(** ** The [useSafe] hook: the single-call functions and the batch as a whole *)

Module OwnerEncoding.

Import UseSafe.

(** [createAddOwnerTransaction] and [createChangeThresholdTransaction] up
    to the transaction list they build. *)
Definition addOwnerTransactions (viem : Viem) (safeAddress : string)
    (newOwner : string) (newThreshold : Z) : Completion (list MetaTransaction) :=
  data ← encodeFunctionData viem (addOwnerWithThreshold newOwner newThreshold);
  mret [callTx safeAddress data].

Definition changeThresholdTransactions (viem : Viem) (safeAddress : string)
    (newThreshold : Z) : Completion (list MetaTransaction) :=
  data ← encodeFunctionData viem (changeThreshold newThreshold);
  mret [callTx safeAddress data].

Section WithKit.

Variable viem : Viem.
Variable EthSafeTransaction : Type.
Variable buildSafeTransaction : list MetaTransaction -> option EthSafeTransaction.
Variable getSafeTransactionHash : EthSafeTransaction -> string.

Definition createAddOwnerTransaction (safeAddress : string)
    (safeInfo : option SafeInfo) (newOwner : string) (newThreshold : Z) : Run :=
  match safeInfo with
  | None => {| built := []; completion := Normal None |}
  | Some _ =>
      buildAndHash EthSafeTransaction buildSafeTransaction getSafeTransactionHash
        (addOwnerTransactions viem safeAddress newOwner newThreshold)
  end.

Definition createChangeThresholdTransaction (safeAddress : string)
    (safeInfo : option SafeInfo) (newThreshold : Z) : Run :=
  match safeInfo with
  | None => {| built := []; completion := Normal None |}
  | Some _ =>
      buildAndHash EthSafeTransaction buildSafeTransaction getSafeTransactionHash
        (changeThresholdTransactions viem safeAddress newThreshold)
  end.

End WithKit.

(** The [removals] and [additions] of a change set. *)
Definition removalsOf (changes : list OwnerChange) : list OwnerChange :=
  filter (fun c => type c = remove) changes.
Definition additionsOf (changes : list OwnerChange) : list OwnerChange :=
  filter (fun c => type c = add) changes.

(** A call is the removal of [r] under threshold [t], with some predecessor. *)
Definition removes (t : Z) (r : OwnerChange) (call : SafeCall) : Prop :=
  exists prev, call = removeOwner prev (address r) t.

(** *** Properties *)

Lemma removal_loop_shape (viem : Viem) (sa : string) (thr : Z) (rs : list OwnerChange) :
  forall txs0 l0 txs l,
  JS.forOf (removalStep viem sa thr) rs (txs0, l0) = Normal (txs, l) ->
  (length l + length rs = length l0)%nat /\
  exists calls, txs = txs0 ++ (callTx sa <$> calls) /\
    Forall2 (removes thr) rs calls.
Proof.
  induction rs as [|r rs IH]; intros txs0 l0 txs l; simpl.
  - intros [= <- <-]. split; [lia|]. exists []. simpl.
    rewrite app_nil_r. split; [reflexivity | constructor].
  - destruct (JS.findIndex (sameAddress (address r)) l0) as [i|] eqn:Hi;
      simpl; [|discriminate].
    case_encode.
    intros Hloop. apply IH in Hloop as (Hlen & calls & -> & Hcalls).
    apply JS.findIndex_Some in Hi as (o & Ho & _).
    unfold JS.filterIndexNe in Hlen. rewrite length_delete in Hlen by eauto.
    apply lookup_lt_Some in Ho. split; [lia|].
    exists (removeOwner (prevOwnerAt l0 i) (address r) thr :: calls).
    split; [now rewrite <- app_assoc|].
    constructor; [now eexists | exact Hcalls].
Qed.

Lemma batchBody_unfold (viem : Viem) (sa : string) (info : SafeInfo) (changes : list OwnerChange) :
  batchBody viem sa info changes =
  match removalsOf changes, additionsOf changes with
  | [removal], [addition] => swapStep viem sa removal addition ([], owners info)
  | _, _ =>
      st ← JS.forOf (removalStep viem sa (threshold info)) (removalsOf changes)
             ([], owners info);
      JS.forOf (additionStep viem sa (threshold info)) (additionsOf changes) st
  end.
Proof. reflexivity. Qed.

Lemma batchBody_owners (viem : Viem) (sa : string) (info : SafeInfo)
    (changes : list OwnerChange) (txs : list MetaTransaction) (l : list string) :
  batchBody viem sa info changes = Normal (txs, l) ->
  l = simulatedOwners (owners info) (address <$> removalsOf changes)
      ++ (address <$> additionsOf changes)
  /\ (length l + length (removalsOf changes) =
      length (owners info) + length (additionsOf changes))%nat.
Proof.
  rewrite batchBody_unfold.
  assert (Hloops : forall removals additions,
    (st ← JS.forOf (removalStep viem sa (threshold info)) removals ([], owners info);
     JS.forOf (additionStep viem sa (threshold info)) additions st) = Normal (txs, l) ->
    l = simulatedOwners (owners info) (address <$> removals) ++ (address <$> additions)
    /\ (length l + length removals = length (owners info) + length additions)%nat).
  { intros removals additions Hl.
    destruct (JS.forOf (removalStep viem sa (threshold info)) removals ([], owners info))
      as [[txs1 l1]|err] eqn:Hr; simpl in Hl; [|discriminate].
    apply addition_loop_ok in Hl as [_ ->].
    pose proof (removal_loop_shape _ _ _ _ _ _ _ _ Hr) as [Hlen _].
    apply removal_loop_ok in Hr as [-> _].
    split; [reflexivity|]. rewrite length_app, length_fmap. lia. }
  destruct (removalsOf changes) as [|r [|r' rs]];
    destruct (additionsOf changes) as [|a [|a' ads]]; try apply Hloops.
  unfold swapStep.
  destruct (JS.findIndex (sameAddress (address r)) (owners info)) as [i|] eqn:Hi;
    [|discriminate].
  cbv zeta. case_encode.
  intros [= <- <-]. simpl.
  rewrite <- (filterIndexNe_deleteFirst _ _ _ Hi).
  split; [reflexivity|].
  apply JS.findIndex_Some in Hi as (o & Ho & _).
  unfold JS.filterIndexNe. rewrite length_app, length_delete by eauto.
  apply lookup_lt_Some in Ho. simpl. lia.
Qed.

(** A completed batch body has one transaction per change. *)
Lemma batchBody_length (viem : Viem) (sa : string) (info : SafeInfo)
    (changes : list OwnerChange) (txs : list MetaTransaction) (l : list string) :
  batchBody viem sa info changes = Normal (txs, l) ->
  (1 <= length txs)%nat \/ (removalsOf changes = [] /\ additionsOf changes = []).
Proof.
  rewrite batchBody_unfold.
  assert (Hloops : forall removals additions,
    (st ← JS.forOf (removalStep viem sa (threshold info)) removals ([], owners info);
     JS.forOf (additionStep viem sa (threshold info)) additions st) = Normal (txs, l) ->
    (1 <= length txs)%nat \/ (removals = [] /\ additions = [])).
  { intros removals additions Hl.
    destruct (JS.forOf (removalStep viem sa (threshold info)) removals ([], owners info))
      as [[txs1 l1]|err] eqn:Hr; simpl in Hl; [|discriminate].
    apply addition_loop_ok in Hl as [-> _].
    apply removal_loop_shape in Hr as (_ & calls & -> & Hcalls).
    apply Forall2_length in Hcalls.
    rewrite !length_app, !length_fmap. simpl.
    destruct removals, additions; simpl in *; auto; left; lia. }
  destruct (removalsOf changes) as [|r [|r' rs]];
    destruct (additionsOf changes) as [|a [|a' ads]]; try apply Hloops.
  unfold swapStep.
  destruct (JS.findIndex (sameAddress (address r)) (owners info)); [|discriminate].
  cbv zeta. case_encode.
  intros [= <- <-]. left. simpl. lia.
Qed.

Lemma no_removals_no_additions (changes : list OwnerChange) :
  removalsOf changes = [] -> additionsOf changes = [] -> changes = [].
Proof.
  destruct changes as [|c changes]; [reflexivity|].
  unfold removalsOf, additionsOf. rewrite !filter_cons.
  destruct c as [[] a]; simpl; intros H1 H2; discriminate.
Qed.

(** X9. When the batch is encoded, the local owners list it ends with is
    the current owners with the removed addresses deleted one after the
    other, followed by the added addresses; its length is the current
    number of owners minus the removals plus the additions. *)
Theorem batch_leaves_the_final_owners (viem : Viem) (sa : string) (info : SafeInfo)
    (changes : list OwnerChange) (txs : list MetaTransaction) (l : list string) :
  batchBody viem sa info changes = Normal (txs, l) ->
  l = simulatedOwners (owners info) (address <$> removalsOf changes)
      ++ (address <$> additionsOf changes)
  /\ (length l + length (removalsOf changes) =
      length (owners info) + length (additionsOf changes))%nat.
Proof. apply batchBody_owners. Qed.

Lemma batch_leaves_the_final_owners_witness :
  [ownerB; ownerC; ownerD] =
    simulatedOwners (owners abcInfo)
      (address <$> removalsOf [mkChange add ownerD; mkChange remove ownerA])
    ++ (address <$> additionsOf [mkChange add ownerD; mkChange remove ownerA])
  /\ (length [ownerB; ownerC; ownerD]
      + length (removalsOf [mkChange add ownerD; mkChange remove ownerA]) =
      length (owners abcInfo)
      + length (additionsOf [mkChange add ownerD; mkChange remove ownerA]))%nat.
Proof.
  apply (batch_leaves_the_final_owners eip55 aSafe abcInfo
           [mkChange add ownerD; mkChange remove ownerA]
           [callTx aSafe (swapOwner SENTINEL ownerA ownerD)]).
  reflexivity.
Defined.

(** X10. Outside the swap case the batch lists one [removeOwner] call per
    removal, in the order of the removals, then one
    [addOwnerWithThreshold] call per addition, in the order of the
    additions, then [changeThreshold] if the threshold changes: removals
    come before additions however the changes were interleaved. *)
Theorem batch_lists_removals_then_additions (viem : Viem) (sa : string) (info : SafeInfo)
    (changes : list OwnerChange) (newThreshold : Z) (txs : list MetaTransaction) :
  ~ (length (removalsOf changes) = 1%nat /\ length (additionsOf changes) = 1%nat) ->
  batchedTransactions viem sa info changes newThreshold = Normal txs ->
  exists rcalls,
    Forall2 (removes (threshold info)) (removalsOf changes) rcalls /\
    data <$> txs =
      rcalls
      ++ ((fun a => addOwnerWithThreshold (address a) (threshold info))
            <$> additionsOf changes)
      ++ (if decide (newThreshold <> threshold info)
          then [changeThreshold newThreshold] else []).
Proof.
  intros Hnoswap. unfold batchedTransactions. rewrite batchBody_unfold.
  assert (Hbody :
    match removalsOf changes, additionsOf changes with
    | [removal], [addition] => swapStep viem sa removal addition ([], owners info)
    | _, _ =>
        st ← JS.forOf (removalStep viem sa (threshold info)) (removalsOf changes)
               ([], owners info);
        JS.forOf (additionStep viem sa (threshold info)) (additionsOf changes) st
    end =
    (st ← JS.forOf (removalStep viem sa (threshold info)) (removalsOf changes)
            ([], owners info);
     JS.forOf (additionStep viem sa (threshold info)) (additionsOf changes) st)).
  { destruct (removalsOf changes) as [|r [|r' rs]]; try reflexivity.
    destruct (additionsOf changes) as [|a [|a' ads]]; try reflexivity.
    exfalso. apply Hnoswap. split; reflexivity. }
  rewrite Hbody. clear Hbody.
  destruct (JS.forOf (removalStep viem sa (threshold info)) (removalsOf changes)
              ([], owners info)) as [[txs1 l1]|err] eqn:Hr; simpl; [|discriminate].
  destruct (JS.forOf (additionStep viem sa (threshold info)) (additionsOf changes)
              (txs1, l1)) as [[txs2 l2]|err] eqn:Ha; simpl; [|discriminate].
  apply addition_loop_ok in Ha as [-> _].
  apply removal_loop_shape in Hr as (_ & calls & -> & Hcalls).
  assert (Hdata : forall cs : list SafeCall, data <$> (callTx sa <$> cs) = cs).
  { intros cs. rewrite <- list_fmap_compose.
    induction cs as [|x cs IH]; [reflexivity|]. rewrite fmap_cons, IH. reflexivity. }
  destruct (decide (newThreshold <> threshold info)); [case_encode|];
    intros Htxs; exists calls; (split; [exact Hcalls|]);
    injection Htxs as <-; simpl;
    rewrite ?fmap_app, Hdata, <- !list_fmap_compose;
    rewrite ?app_nil_r, <- ?app_assoc; reflexivity.
Qed.

Lemma batch_lists_removals_then_additions_witness :
  exists rcalls,
    Forall2 (removes 2)
      (removalsOf [mkChange add ownerD; mkChange remove ownerC;
                   mkChange remove ownerA]) rcalls /\
    [removeOwner ownerB ownerC 2; removeOwner SENTINEL ownerA 2;
     addOwnerWithThreshold ownerD 2] =
    rcalls
    ++ ((fun a => addOwnerWithThreshold (address a) 2)
          <$> additionsOf [mkChange add ownerD; mkChange remove ownerC;
                           mkChange remove ownerA])
    ++ [].
Proof.
  apply (batch_lists_removals_then_additions eip55 aSafe abcInfo
           [mkChange add ownerD; mkChange remove ownerC; mkChange remove ownerA] 2
           [callTx aSafe (removeOwner ownerB ownerC 2);
            callTx aSafe (removeOwner SENTINEL ownerA 2);
            callTx aSafe (addOwnerWithThreshold ownerD 2)]).
  - simpl. intros [H _]. discriminate H.
  - reflexivity.
Defined.

(** X11. A batch of one change that keeps the threshold builds the same
    call as the single-change function called with the current threshold:
    one removal gives the call of [createRemoveOwnerTransaction], one
    addition that of [createAddOwnerTransaction]; and a batch without
    owner changes and with a new threshold gives the call of
    [createChangeThresholdTransaction]. *)
Theorem single_change_batches_agree (viem : Viem) (sa : string) (info : SafeInfo)
    (owner : string) (newThreshold : Z) :
  callsOf (batchedTransactions viem sa info [mkChange remove owner] (threshold info)) =
    callsOf (removeOwnerTransactions viem sa info owner (threshold info))
  /\ batchedTransactions viem sa info [mkChange add owner] (threshold info) =
     addOwnerTransactions viem sa owner (threshold info)
  /\ (newThreshold <> threshold info ->
     batchedTransactions viem sa info [] newThreshold =
     changeThresholdTransactions viem sa newThreshold).
Proof.
  split; [|split].
  - unfold batchedTransactions, removeOwnerTransactions. rewrite batchBody_unfold.
    change (removalsOf [mkChange remove owner]) with [mkChange remove owner].
    change (additionsOf [mkChange remove owner]) with (@nil OwnerChange).
    simpl.
    destruct (JS.findIndex (sameAddress owner) (owners info)); simpl;
      [|reflexivity].
    destruct (decide (threshold info <> threshold info)); [congruence|].
    destruct (encodeFunctionData viem _); reflexivity.
  - unfold batchedTransactions, addOwnerTransactions. rewrite batchBody_unfold.
    change (removalsOf [mkChange add owner]) with (@nil OwnerChange).
    change (additionsOf [mkChange add owner]) with [mkChange add owner].
    simpl.
    destruct (decide (threshold info <> threshold info)); [congruence|].
    destruct (encodeFunctionData viem _); reflexivity.
  - intros Hne. unfold batchedTransactions, changeThresholdTransactions.
    rewrite batchBody_unfold.
    change (removalsOf []) with (@nil OwnerChange).
    change (additionsOf []) with (@nil OwnerChange).
    simpl. destruct (decide (newThreshold <> threshold info)); [|contradiction].
    destruct (encodeFunctionData viem _); reflexivity.
Qed.

Lemma single_change_batches_agree_witness :
  callsOf (batchedTransactions eip55 aSafe abcInfo [mkChange remove ownerB]
             (threshold abcInfo)) =
    callsOf (removeOwnerTransactions eip55 aSafe abcInfo ownerB (threshold abcInfo))
  /\ batchedTransactions eip55 aSafe abcInfo [mkChange add ownerB] (threshold abcInfo) =
     addOwnerTransactions eip55 aSafe ownerB (threshold abcInfo)
  /\ batchedTransactions eip55 aSafe abcInfo [] 3 =
     changeThresholdTransactions eip55 aSafe 3.
Proof.
  destruct (single_change_batches_agree eip55 aSafe abcInfo ownerB 3)
    as (H1 & H2 & H3).
  split; [exact H1|]. split; [exact H2|]. apply H3. simpl. lia.
Defined.

Lemma empty_batch_nothing (viem : Viem) (sa : string) (info : SafeInfo)
    (changes : list OwnerChange) (newThreshold : Z) :
  batchedTransactions viem sa info changes newThreshold = Normal [] ->
  changes = [] /\ newThreshold = threshold info.
Proof.
  unfold batchedTransactions.
  destruct (batchBody viem sa info changes) as [[txs l]|err] eqn:Hb; simpl;
    [|discriminate].
  destruct (decide (newThreshold <> threshold info)) as [Hne|Heq]; simpl.
  - case_encode. intros [= H]. destruct txs; discriminate H.
  - intros [= ->]. apply batchBody_length in Hb as [Hlen|[Hr Ha]].
    + simpl in Hlen. lia.
    + split; [now apply no_removals_no_additions|].
      destruct (decide (newThreshold = threshold info)); [assumption|].
      contradiction.
Qed.

(** X12. The batch is encoded as an empty list of transactions exactly
    when there is no change at all and the new threshold is the current
    one. *)
Theorem empty_batch_iff_nothing_to_do (viem : Viem) (sa : string) (info : SafeInfo)
    (changes : list OwnerChange) (newThreshold : Z) :
  batchedTransactions viem sa info changes newThreshold = Normal []
  <-> changes = [] /\ newThreshold = threshold info.
Proof.
  split; [apply empty_batch_nothing|].
  intros [-> ->]. unfold batchedTransactions. simpl.
  destruct (decide (threshold info <> threshold info)); [congruence|].
  reflexivity.
Qed.

End OwnerEncoding.

(** ** The owner-management dialog, from opening to submission *)

Module ManageOwners.

Import UseSafe ManageOwnersModal OwnerEncoding.

Section WithViem.

Variable viem : Viem.

(** [handleAddOwnerToQueue] on the text of the address field: the alert
    it raises, if any, and the state it leaves. *)
Definition handleAddOwnerToQueue (newOwnerAddress : string) (m : Modal)
    : option string * Modal :=
  if negb (isAddress viem newOwnerAddress) then (Some "Invalid address", m)
  else
    let normalizedAddress := JS.toLowerCase newOwnerAddress in
    if existsb (fun o => String.eqb (JS.toLowerCase o) normalizedAddress) (owners m)
    then (Some "This address is already an owner", m)
    else if existsb (fun o => String.eqb (JS.toLowerCase o) normalizedAddress)
              (ownersToAdd m)
    then (Some "This address is already queued to be added", m)
    else if setHas normalizedAddress (ownersToRemove m)
    then (Some "This address is queued for removal. Remove it from the removal queue first.",
          m)
    else (None,
          {| owners := owners m; threshold := threshold m;
             ownersToRemove := ownersToRemove m;
             ownersToAdd := ownersToAdd m ++ [newOwnerAddress];
             newThreshold := newThreshold m |}).

Definition handleRemoveFromAddQueue (index : nat) (m : Modal) : Modal :=
  {| owners := owners m; threshold := threshold m;
     ownersToRemove := ownersToRemove m;
     ownersToAdd := JS.filterIndexNe index (ownersToAdd m);
     newThreshold := newThreshold m |}.

(** The threshold field, [setNewThreshold(parseInt(e.target.value) || 1)];
    [parsed] is the result of [parseInt], [None] for [NaN]. *)
Definition thresholdInput (parsed : option Z) (m : Modal) : Modal :=
  let value :=
    match parsed with
    | Some n => if n =? 0 then 1 else n
    | None => 1
    end in
  {| owners := owners m; threshold := threshold m;
     ownersToRemove := ownersToRemove m; ownersToAdd := ownersToAdd m;
     newThreshold := value |}.

(** The state the effect on [open] sets when the dialog opens. *)
Definition opened (owners : list string) (threshold : Z) : Modal :=
  {| owners := owners; threshold := threshold; ownersToRemove := [];
     ownersToAdd := []; newThreshold := threshold |}.

(** What the user can do in the open dialog.  A click toggles the row of
    one of the listed owners; the rows are [owners.map(...)]. *)
Inductive Action : Type :=
  | AddOwnerToQueue (newOwnerAddress : string)
  | ToggleRemoveOwner (row : nat)
  | RemoveFromAddQueue (index : nat)
  | ThresholdInput (parsed : option Z).

Definition act (m : Modal) (a : Action) : Modal :=
  match a with
  | AddOwnerToQueue text => snd (handleAddOwnerToQueue text m)
  | ToggleRemoveOwner row =>
      match owners m !! row with
      | Some owner => handleToggleRemoveOwner owner m
      | None => m
      end
  | RemoveFromAddQueue index => handleRemoveFromAddQueue index m
  | ThresholdInput parsed => thresholdInput parsed m
  end.

(** The dialog opened on the Safe's owners and threshold, after
    [actions]. *)
Definition run (safeInfo : SafeInfo) (actions : list Action) : Modal :=
  foldl act (opened (UseSafe.owners safeInfo) (UseSafe.threshold safeInfo)) actions.

(** The queues are consistent with the owners shown: the removal set holds
    lower-cased current owners, once each; the addition queue holds
    addresses that are no current owner, once each up to letter case. *)
Definition consistent (m : Modal) : Prop :=
  NoDup (ownersToRemove m)
  /\ (forall x, x ∈ ownersToRemove m ->
        exists o, o ∈ owners m /\ x = JS.toLowerCase o)
  /\ NoDup (JS.toLowerCase <$> ownersToAdd m)
  /\ (forall a o, a ∈ ownersToAdd m -> o ∈ owners m ->
        JS.toLowerCase o <> JS.toLowerCase a).

End WithViem.

(** *** Properties *)

Lemma lowerUnit_idemp (c : ascii) : JS.lowerUnit (JS.lowerUnit c) = JS.lowerUnit c.
Proof. destruct c as [[] [] [] [] [] [] [] []]; reflexivity. Qed.

Lemma toLowerCase_idemp (s : string) :
  JS.toLowerCase (JS.toLowerCase s) = JS.toLowerCase s.
Proof.
  induction s as [|c s IH]; simpl; [reflexivity|].
  now rewrite lowerUnit_idemp, IH.
Qed.

Lemma existsb_lower_false (x : string) (l : list string) :
  existsb (fun o => String.eqb (JS.toLowerCase o) x) l = false ->
  forall o, o ∈ l -> JS.toLowerCase o <> x.
Proof.
  induction l as [|y l IH]; simpl; intros H o Ho.
  - apply elem_of_nil in Ho. contradiction.
  - apply orb_false_iff in H as [Hy Hl].
    apply elem_of_cons in Ho as [->|Ho]; [|now apply IH].
    now apply String.eqb_neq.
Qed.

Section Reachable.

Variable viem : Viem.

Lemma props_act (m : Modal) (a : Action) :
  owners (act viem m a) = owners m /\
  threshold (act viem m a) = threshold m.
Proof.
  destruct a as [text|row|index|parsed]; simpl; try (split; reflexivity).
  - unfold handleAddOwnerToQueue.
    repeat match goal with
           | |- context [if ?b then _ else _] => destruct b
           end; split; reflexivity.
  - destruct (owners m !! row); split; reflexivity.
Qed.

Lemma props_run (safeInfo : SafeInfo) (actions : list Action) :
  owners (run viem safeInfo actions) = UseSafe.owners safeInfo /\
  threshold (run viem safeInfo actions) = UseSafe.threshold safeInfo.
Proof.
  unfold run. induction actions as [|a actions IH] using rev_ind.
  - split; reflexivity.
  - rewrite foldl_app. simpl.
    destruct (props_act (foldl (act viem)
               (opened (UseSafe.owners safeInfo) (UseSafe.threshold safeInfo)) actions) a)
      as [Ho Ht].
    rewrite Ho, Ht. exact IH.
Qed.

Lemma consistent_act (m : Modal) (a : Action) :
  consistent m -> consistent (act viem m a).
Proof.
  intros (Hnd & Hrem & Hadd & Hnew).
  destruct a as [text|row|index|parsed]; simpl.
  - unfold handleAddOwnerToQueue.
    destruct (negb (isAddress viem text)); [exact (conj Hnd (conj Hrem (conj Hadd Hnew)))|].
    cbv zeta.
    destruct (existsb _ (owners m)) eqn:Eo; [exact (conj Hnd (conj Hrem (conj Hadd Hnew)))|].
    destruct (existsb _ (ownersToAdd m)) eqn:Ea; [exact (conj Hnd (conj Hrem (conj Hadd Hnew)))|].
    destruct (setHas _ (ownersToRemove m)); [exact (conj Hnd (conj Hrem (conj Hadd Hnew)))|].
    refine (conj _ (conj _ (conj _ _))); simpl; try assumption.
    + rewrite fmap_app. apply NoDup_app. split; [exact Hadd|]. split.
      * intros x Hx Hx'. simpl in Hx'. apply list_elem_of_singleton in Hx'.
        subst x. apply list_elem_of_fmap in Hx as (o & Ho & Hin).
        exact (existsb_lower_false _ _ Ea o Hin (eq_sym Ho)).
      * simpl. apply NoDup_singleton.
    + intros a o Ha Ho. apply elem_of_app in Ha as [Ha|Ha]; [now apply Hnew|].
      apply list_elem_of_singleton in Ha. subst a.
      exact (existsb_lower_false _ _ Eo o Ho).
  - destruct (owners m !! row) as [owner|] eqn:Hrow;
      [|exact (conj Hnd (conj Hrem (conj Hadd Hnew)))].
    unfold handleToggleRemoveOwner. cbv zeta. simpl.
    destruct (setHas (JS.toLowerCase owner) (ownersToRemove m)) eqn:Hhas;
      refine (conj _ (conj _ (conj _ _))); simpl; try assumption.
    + unfold setDelete. now apply NoDup_filter.
    + intros x Hx. unfold setDelete in Hx.
      apply list_elem_of_filter in Hx as [_ Hx]. now apply Hrem.
    + unfold setAdd. rewrite Hhas. apply NoDup_app. split; [exact Hnd|]. split.
      * intros x Hx Hx'. apply list_elem_of_singleton in Hx'. subst x.
        unfold setHas in Hhas. apply bool_decide_eq_false in Hhas. contradiction.
      * apply NoDup_singleton.
    + intros x Hx. unfold setAdd in Hx. rewrite Hhas in Hx.
      apply elem_of_app in Hx as [Hx|Hx]; [now apply Hrem|].
      apply list_elem_of_singleton in Hx. subst x.
      exists owner. split; [|reflexivity]. eapply list_elem_of_lookup_2, Hrow.
  - refine (conj _ (conj _ (conj _ _))); simpl; try assumption.
    + unfold JS.filterIndexNe. rewrite list_fmap_delete.
      eapply sublist_NoDup; [exact Hadd | apply sublist_delete].
    + intros a o Ha Ho. apply Hnew; [|exact Ho].
      eapply elem_of_sublist; [exact Ha | apply sublist_delete].
  - exact (conj Hnd (conj Hrem (conj Hadd Hnew))).
Qed.

Lemma consistent_run (safeInfo : SafeInfo) (actions : list Action) :
  consistent (run viem safeInfo actions).
Proof.
  unfold run. induction actions as [|a actions IH] using rev_ind.
  - refine (conj _ (conj _ (conj _ _))); simpl.
    + apply NoDup_nil_2.
    + intros x H. apply elem_of_nil in H. contradiction.
    + apply NoDup_nil_2.
    + intros a o H. apply elem_of_nil in H. contradiction.
  - rewrite foldl_app. simpl. now apply consistent_act.
Qed.

End Reachable.

Lemma changes_removals (rem adds : list string) :
  removalsOf (((fun addr => {| type := remove; address := addr |}) <$> rem)
              ++ ((fun addr => {| type := add; address := addr |}) <$> adds))
  = (fun addr => {| type := remove; address := addr |}) <$> rem.
Proof.
  unfold removalsOf. rewrite filter_app.
  assert (H1 : forall l : list string,
    filter (fun c => type c = remove)
      ((fun addr => {| type := remove; address := addr |}) <$> l)
    = (fun addr => {| type := remove; address := addr |}) <$> l).
  { induction l as [|x l IH]; [reflexivity|].
    rewrite fmap_cons, filter_cons. simpl. now rewrite IH. }
  assert (H2 : forall l : list string,
    filter (fun c => type c = remove)
      ((fun addr => {| type := add; address := addr |}) <$> l) = []).
  { induction l as [|x l IH]; [reflexivity|].
    rewrite fmap_cons, filter_cons. simpl. exact IH. }
  now rewrite H1, H2, app_nil_r.
Qed.

Lemma changes_additions (rem adds : list string) :
  additionsOf (((fun addr => {| type := remove; address := addr |}) <$> rem)
               ++ ((fun addr => {| type := add; address := addr |}) <$> adds))
  = (fun addr => {| type := add; address := addr |}) <$> adds.
Proof.
  unfold additionsOf. rewrite filter_app.
  assert (H1 : forall l : list string,
    filter (fun c => type c = add)
      ((fun addr => {| type := add; address := addr |}) <$> l)
    = (fun addr => {| type := add; address := addr |}) <$> l).
  { induction l as [|x l IH]; [reflexivity|].
    rewrite fmap_cons, filter_cons. simpl. now rewrite IH. }
  assert (H2 : forall l : list string,
    filter (fun c => type c = add)
      ((fun addr => {| type := remove; address := addr |}) <$> l) = []).
  { induction l as [|x l IH]; [reflexivity|].
    rewrite fmap_cons, filter_cons. simpl. exact IH. }
  now rewrite H1, H2.
Qed.

Lemma address_of_changes (t : ChangeType) (l : list string) :
  address <$> ((fun addr => {| type := t; address := addr |}) <$> l) = l.
Proof.
  induction l as [|x l IH]; [reflexivity|]. rewrite !fmap_cons, IH. reflexivity.
Qed.

(** What [handleCreateTransaction] hands over, when it hands anything
    over. *)
Lemma handleCreateTransaction_batch (m : Modal) (changes : list OwnerChange) (nt : Z) :
  handleCreateTransaction m = BatchUpdate changes nt ->
  changes = ((fun addr => {| type := remove; address := addr |}) <$> ownersToRemove m)
            ++ ((fun addr => {| type := add; address := addr |}) <$> ownersToAdd m)
  /\ nt = newThreshold m
  /\ 1 <= nt <= finalOwnerCount m
  /\ hasChanges m = true.
Proof.
  unfold handleCreateTransaction.
  destruct ((newThreshold m <? 1) || (finalOwnerCount m <? newThreshold m)) eqn:Hthr;
    [discriminate|].
  destruct (hasChanges m) eqn:Hch; simpl; [|discriminate].
  intros [= <- <-]. apply orb_false_iff in Hthr as [H1 H2].
  apply Z.ltb_ge in H1, H2. repeat split; assumption || reflexivity.
Qed.

Lemma simulatedOwners_sublist (removed l : list string) :
  simulatedOwners l removed `sublist_of` l.
Proof.
  revert l. induction removed as [|r removed IH]; intros l; simpl; [reflexivity|].
  etransitivity; [apply IH|].
  induction l as [|o l IHl]; simpl; [reflexivity|].
  destruct (String.eqb (JS.toLowerCase o) (JS.toLowerCase r)).
  - now apply sublist_cons.
  - now apply sublist_skip.
Qed.

Lemma lowered_fixed (s : list string) :
  (forall x, x ∈ s -> exists o, x = JS.toLowerCase o) ->
  JS.toLowerCase <$> s = s.
Proof.
  induction s as [|x s IH]; intros H; [reflexivity|].
  rewrite fmap_cons, IH by (intros y Hy; apply H; now right).
  destruct (H x) as (o & ->); [now left|].
  now rewrite toLowerCase_idemp.
Qed.

(** Lower-casing keeps the shape of an address. *)
Lemma isHexDigit_lower (c : ascii) :
  isHexDigit c = true -> isHexDigit (JS.lowerUnit c) = true.
Proof.
  destruct c as [[] [] [] [] [] [] [] []]; try reflexivity; discriminate.
Qed.

Lemma allHexDigits_lower (s : string) :
  allHexDigits s = true -> allHexDigits (JS.toLowerCase s) = true.
Proof.
  induction s as [|c s IH]; simpl; [reflexivity|].
  intros H. apply andb_true_iff in H as [Hc Hs].
  now rewrite isHexDigit_lower, IH.
Qed.

Lemma length_toLowerCase (s : string) :
  String.length (JS.toLowerCase s) = String.length s.
Proof. induction s as [|c s IH]; simpl; [reflexivity | now rewrite IH]. Qed.

Lemma addressRegex_lower (a : string) :
  addressRegex a = true -> addressRegex (JS.toLowerCase a) = true.
Proof.
  destruct a as [|c0 [|c1 hex]]; try discriminate.
  - destruct c0 as [[] [] [] [] [] [] [] []]; discriminate.
  - destruct c0 as [[] [] [] [] [] [] [] []]; try discriminate.
    destruct c1 as [[] [] [] [] [] [] [] []]; try discriminate.
    intros H. apply andb_true_iff in H as [Hlen Hhex].
    change (addressRegex (JS.toLowerCase (String "0" (String "x" hex))))
      with ((String.length (JS.toLowerCase hex) =? 40)%nat
            && allHexDigits (JS.toLowerCase hex)).
    now rewrite length_toLowerCase, Hlen, allHexDigits_lower.
Qed.

(** An address viem accepts is accepted in lower case as well. *)
Lemma validAddress_lower (viem : Viem) (a : string) :
  validAddress viem a -> validAddress viem (JS.toLowerCase a).
Proof.
  unfold validAddress, isAddress.
  destruct (addressRegex a) eqn:Hre; [|discriminate]. intros _.
  rewrite (addressRegex_lower _ Hre), toLowerCase_idemp, String.eqb_refl.
  reflexivity.
Qed.

Section Submission.

Variable viem : Viem.

(** Every queued addition passed [isAddress]. *)
Lemma additions_valid_run (safeInfo : SafeInfo) (actions : list Action) :
  Forall (validAddress viem) (ownersToAdd (run viem safeInfo actions)).
Proof.
  unfold run. induction actions as [|a actions IH] using rev_ind; [constructor|].
  rewrite foldl_app. simpl.
  set (m := foldl (act viem) _ actions) in *.
  destruct a as [text|row|index|parsed]; simpl.
  - unfold handleAddOwnerToQueue.
    destruct (isAddress viem text) eqn:Hvalid; simpl; [|exact IH].
    repeat match goal with
           | |- context [if ?b then _ else _] => destruct b; [exact IH|]
           end.
    simpl. apply Forall_app. split; [exact IH|]. now constructor.
  - destruct (owners m !! row); [|exact IH]. exact IH.
  - unfold JS.filterIndexNe. now apply Forall_delete.
  - exact IH.
Qed.

(** What the dialog submits: removals that name current owners, each
    once. *)
Lemma submission_lookups (info : SafeInfo) (actions : list Action)
    (changes : list OwnerChange) (nt : Z) :
  handleCreateTransaction (run viem info actions) = BatchUpdate changes nt ->
  NoDup (JS.toLowerCase <$> (address <$> filter (fun c => type c = remove) changes))
  /\ Forall (fun r => isOwnerIn (UseSafe.owners info) (address r))
       (filter (fun c => type c = remove) changes).
Proof.
  intros Hsub. set (m := run viem info actions) in *.
  destruct (props_run viem info actions) as [Ho Ht]. fold m in Ho, Ht.
  destruct (consistent_run viem info actions) as (Hnd & Hrem & Hadd & Hnew).
  fold m in Hnd, Hrem, Hadd, Hnew.
  apply handleCreateTransaction_batch in Hsub as (Hchanges & -> & Hrange & Hch).
  assert (Hrs : removalsOf changes =
    (fun addr => {| type := remove; address := addr |}) <$> ownersToRemove m).
  { rewrite Hchanges. apply changes_removals. }
  assert (Hlow : JS.toLowerCase <$> ownersToRemove m = ownersToRemove m).
  { apply lowered_fixed. intros x Hx. destruct (Hrem x Hx) as (o & _ & ->). eauto. }
  fold (removalsOf changes). rewrite Hrs. split.
  - rewrite address_of_changes, Hlow. exact Hnd.
  - apply Forall_forall.
    intros r Hr. apply list_elem_of_fmap in Hr as (x & -> & Hx). simpl.
    destruct (Hrem x Hx) as (o & Hin & ->). exists o.
    rewrite <- Ho. split; [exact Hin|]. now rewrite toLowerCase_idemp.
Qed.

(** The owners list a submitted batch ends with. *)
Lemma submission_owners (sa : string) (info : SafeInfo) (actions : list Action)
    (changes : list OwnerChange) (nt : Z) (body : list MetaTransaction)
    (l : list string) :
  handleCreateTransaction (run viem info actions) = BatchUpdate changes nt ->
  batchBody viem sa info changes = Normal (body, l) ->
  1 <= nt <= Z.of_nat (length l)
  /\ (NoDup (JS.toLowerCase <$> UseSafe.owners info) ->
      NoDup (JS.toLowerCase <$> l)).
Proof.
  intros Hsub Hb. set (m := run viem info actions) in *.
  destruct (props_run viem info actions) as [Ho Ht]. fold m in Ho, Ht.
  destruct (consistent_run viem info actions) as (Hnd & Hrem & Hadd & Hnew).
  fold m in Hnd, Hrem, Hadd, Hnew.
  apply handleCreateTransaction_batch in Hsub as (Hchanges & -> & Hrange & Hch).
  assert (Hrs : removalsOf changes =
    (fun addr => {| type := remove; address := addr |}) <$> ownersToRemove m).
  { rewrite Hchanges. apply changes_removals. }
  assert (Has : additionsOf changes =
    (fun addr => {| type := add; address := addr |}) <$> ownersToAdd m).
  { rewrite Hchanges. apply changes_additions. }
  destruct (batchBody_owners _ _ _ _ _ _ Hb) as [Hl Hlen].
  rewrite Hrs, Has, !length_fmap in Hlen.
  split.
  - unfold finalOwnerCount, setSize in Hrange. rewrite Ho in Hrange. lia.
  - intros Hown. rewrite Hl, Hrs, Has, !address_of_changes, fmap_app.
    apply NoDup_app. split; [|split].
    + eapply sublist_NoDup; [exact Hown|].
      apply fmap_sublist, simulatedOwners_sublist.
    + intros x Hx Hx'.
      apply list_elem_of_fmap in Hx as (o & -> & Hin).
      apply list_elem_of_fmap in Hx' as (a & Heq & Ha).
      apply (Hnew a o Ha); [|exact Heq].
      rewrite Ho. eapply elem_of_sublist; [exact Hin|].
      apply simulatedOwners_sublist.
    + exact Hadd.
Qed.

(** A submitted batch is not encoded as an empty list. *)
Lemma submission_not_empty (sa : string) (info : SafeInfo) (actions : list Action)
    (changes : list OwnerChange) (nt : Z) (txs : list MetaTransaction) :
  handleCreateTransaction (run viem info actions) = BatchUpdate changes nt ->
  batchedTransactions viem sa info changes nt = Normal txs -> txs <> [].
Proof.
  intros Hsub Htxs. set (m := run viem info actions) in *.
  destruct (props_run viem info actions) as [Ho Ht]. fold m in Ho, Ht.
  apply handleCreateTransaction_batch in Hsub as (Hchanges & -> & Hrange & Hch).
  intros ->. apply empty_batch_nothing in Htxs as [Hnil Hsame].
  unfold hasChanges, setSize in Hch. rewrite Hchanges in Hnil.
  apply app_eq_nil in Hnil as [Hr Ha].
  apply fmap_nil_inv in Hr. apply fmap_nil_inv in Ha.
  rewrite Hr, Ha, Hsame, Ht, Z.eqb_refl in Hch. discriminate Hch.
Qed.

(** The encoder takes what the dialog submits when it takes the Safe's
    owners and thresholds. *)
Lemma submission_encodable (info : SafeInfo) (actions : list Action)
    (changes : list OwnerChange) (nt nt' : Z) :
  handleCreateTransaction (run viem info actions) = BatchUpdate changes nt ->
  Forall (validAddress viem) (UseSafe.owners info) ->
  uint256 (UseSafe.threshold info) -> uint256 nt' ->
  encodable viem info changes nt'.
Proof.
  intros Hsub Hown Hthr Hnt. set (m := run viem info actions) in *.
  destruct (props_run viem info actions) as [Ho Ht]. fold m in Ho, Ht.
  destruct (consistent_run viem info actions) as (Hnd & Hrem & Hadd & Hnew).
  fold m in Hnd, Hrem, Hadd, Hnew.
  pose proof (additions_valid_run info actions) as Hvalid. fold m in Hvalid.
  apply handleCreateTransaction_batch in Hsub as (Hchanges & _ & _ & _).
  split; [exact Hown|]. split; [|split; assumption].
  rewrite Hchanges. apply Forall_app. split; apply Forall_fmap, Forall_forall.
  - intros x Hx. simpl. destruct (Hrem x Hx) as (o & Hin & ->).
    apply validAddress_lower. rewrite Forall_forall in Hown. apply Hown.
    now rewrite <- Ho.
  - intros x Hx. simpl. rewrite Forall_forall in Hvalid. now apply Hvalid.
Qed.

(** X13. Whatever the user did in the open dialog (queueing additions,
    toggling owner rows, dropping queued additions, typing a threshold),
    the batch that [handleCreateTransaction] submits is encoded by the
    hook without an owner-not-found error: the hook returns a list of
    transactions, which is not empty, or stops with an error of the
    encoder; and it returns the list whenever the encoder takes the
    Safe's owners, its threshold and the submitted threshold. *)
Theorem dialog_batch_is_encoded (sa : string) (info : SafeInfo)
    (actions : list Action) (changes : list OwnerChange) (nt : Z) :
  handleCreateTransaction (run viem info actions) = BatchUpdate changes nt ->
  ((exists txs,
      batchedTransactions viem sa info changes nt = Normal txs /\ txs <> [])
   \/ exists e,
      batchedTransactions viem sa info changes nt = Throw e /\ encoderError viem e)
  /\ (Forall (validAddress viem) (UseSafe.owners info) ->
      uint256 (UseSafe.threshold info) -> uint256 nt ->
      exists txs,
        batchedTransactions viem sa info changes nt = Normal txs /\ txs <> []).
Proof.
  intros H. destruct (submission_lookups info actions changes nt H) as [Hnd Hin].
  split.
  - destruct (batchedTransactions_cases viem sa info changes nt Hnd Hin)
      as [[txs Htxs]|Herr]; [left | now right].
    exists txs. split; [exact Htxs|].
    exact (submission_not_empty sa info actions changes nt txs H Htxs).
  - intros Hown Hthr Hnt.
    destruct (batchedTransactions_succeeds viem sa info changes nt Hnd Hin
                (submission_encodable info actions changes nt nt H Hown Hthr Hnt))
      as [txs Htxs].
    exists txs. split; [exact Htxs|].
    exact (submission_not_empty sa info actions changes nt txs H Htxs).
Qed.

(** X14. For the batch the dialog submits, the submitted threshold lies
    between 1 and the number of owners in the list the encoding ends
    with; and if the current owners are pairwise different up to letter
    case, so are the owners in that list.  The encoding of the owner
    changes does reach its end whenever the encoder takes the Safe's
    owners and its threshold. *)
Theorem dialog_batch_final_owners (sa : string) (info : SafeInfo)
    (actions : list Action) (changes : list OwnerChange) (nt : Z) :
  handleCreateTransaction (run viem info actions) = BatchUpdate changes nt ->
  (forall body l,
     batchBody viem sa info changes = Normal (body, l) ->
     1 <= nt <= Z.of_nat (length l)
     /\ (NoDup (JS.toLowerCase <$> UseSafe.owners info) ->
         NoDup (JS.toLowerCase <$> l)))
  /\ (Forall (validAddress viem) (UseSafe.owners info) ->
      uint256 (UseSafe.threshold info) ->
      exists body l,
        batchBody viem sa info changes = Normal (body, l)
        /\ 1 <= nt <= Z.of_nat (length l)
        /\ (NoDup (JS.toLowerCase <$> UseSafe.owners info) ->
            NoDup (JS.toLowerCase <$> l))).
Proof.
  intros H. split.
  - intros body l. exact (submission_owners sa info actions changes nt body l H).
  - intros Hown Hthr.
    destruct (submission_lookups info actions changes nt H) as [Hnd Hin].
    destruct (batchedTransactions_succeeds viem sa info changes
                (UseSafe.threshold info) Hnd Hin
                (submission_encodable info actions changes nt _ H Hown Hthr Hthr))
      as [txs Htxs].
    unfold batchedTransactions in Htxs.
    destruct (batchBody viem sa info changes) as [[body l]|err] eqn:Hb;
      [|discriminate].
    exists body, l. split; [reflexivity|].
    exact (submission_owners sa info actions changes nt body l H Hb).
Qed.

End Submission.

Lemma abcInfo_owners_valid : Forall (validAddress eip55) (UseSafe.owners abcInfo).
Proof. repeat constructor. Qed.

Lemma dialog_batch_is_encoded_witness :
  exists txs,
    batchedTransactions eip55 aSafe abcInfo
      [mkChange remove (JS.toLowerCase ownerA); mkChange add ownerD] 3 = Normal txs
    /\ txs <> [].
Proof.
  apply (proj2 (dialog_batch_is_encoded eip55 aSafe abcInfo
           [ToggleRemoveOwner 0; AddOwnerToQueue ownerD; ThresholdInput (Some 3)]
           _ 3 eq_refl)).
  - exact abcInfo_owners_valid.
  - unfold uint256. simpl. lia.
  - unfold uint256. lia.
Defined.

Lemma dialog_batch_final_owners_witness :
  exists body l,
    batchBody eip55 aSafe abcInfo
      [mkChange remove (JS.toLowerCase ownerC); mkChange remove (JS.toLowerCase ownerA)]
      = Normal (body, l)
    /\ 1 <= 1 <= Z.of_nat (length l)
    /\ (NoDup (JS.toLowerCase <$> UseSafe.owners abcInfo) ->
        NoDup (JS.toLowerCase <$> l)).
Proof.
  apply (proj2 (dialog_batch_final_owners eip55 aSafe abcInfo
           [ToggleRemoveOwner 2; ToggleRemoveOwner 1; ToggleRemoveOwner 0;
            ToggleRemoveOwner 1; ThresholdInput None]
           _ 1 eq_refl)).
  - exact abcInfo_owners_valid.
  - unfold uint256. simpl. lia.
Defined.

End ManageOwners.
(** ** The dashboard's deployment dialog *)

Module DeployDialog.

Import Deploy.

#[global] Instance Status_eq_dec : EqDecision Status.
Proof. solve_decision. Defined.

(** The dashboard's state around the deployment dialog.  [deploySteps] is
    an array of references to step objects, as everywhere. *)
Record Dashboard : Type := mkDashboard {
  modalOpen : bool;
  deploySteps : list nat;
  deployError : option string;
  deployTxHash : TxHash;
}.

(** [!!s.txHash] and [!!deployTxHash] *)
Definition hasHash (h : TxHash) : bool := truthyHash h.

(** [steps.find((s) => s.txHash)] and the assignment guarded by
    [txStep && txStep.txHash]; the hash was reset to [null] before. *)
Definition deployTxHashOf (steps : list SafeDeployStep) : TxHash :=
  match find (fun s => hasHash (txHash s)) steps with
  | Some txStep => if hasHash (txHash txStep) then txHash txStep else None
  | None => None
  end.

(** The branch on [steps.some((s) => s.status === "error")]; the error
    was reset to [null] before. *)
Definition deployErrorOf (steps : list SafeDeployStep) : option string :=
  if existsb (fun s => bool_decide (status s = Error)) steps then
    match find (fun s => bool_decide (status s = Error)) steps with
    | Some errorStep =>
        match error errorStep with
        | Some e =>
            if JS.truthy e then Some ("Deployment error: " +:+ e)
            else Some "Deployment error"
        | None => Some "Deployment error"
        end
    | None => Some "Deployment error"
    end
  else None.

(** The part of [handleDeployUndeployedSafe] that reads the returned
    steps. *)
Definition report (steps : list nat) : M Dashboard := fun w =>
  ({| modalOpen := true; deploySteps := steps;
      deployError := deployErrorOf (contents steps w);
      deployTxHash := deployTxHashOf (contents steps w) |}, w).

(** [handleDeployUndeployedSafe].  The hook's function catches whatever its
    calls throw, so the handler's own [catch] has nothing to catch. *)
Definition handleDeployUndeployedSafe (env : Env) : M Dashboard :=
  fresh ← copySteps templateRefs;
  setDeploySteps fresh;;
  steps ← deployUndeployedSafe env;
  setDeploySteps steps;;
  report steps.

(** [handleCloseModal] *)
Definition handleCloseModal (d : Dashboard) : M Dashboard :=
  fresh ← copySteps templateRefs;
  setDeploySteps fresh;;
  mret {| modalOpen := false; deploySteps := fresh;
          deployError := deployError d; deployTxHash := deployTxHash d |}.


(** The dashboard when the page has loaded: the dialog closed, the
    template's own array shown. *)
Definition loaded : Dashboard :=
  {| modalOpen := false; deploySteps := templateRefs; deployError := None;
     deployTxHash := None |}.

(** What happens to the dialog: an attempt with the answers of the outside
    world, or the dialog being closed. *)
Inductive Action : Type :=
  | Attempt (env : Env)
  | Close.

Definition act (st : Dashboard * World) (a : Action) : Dashboard * World :=
  match a with
  | Attempt env => handleDeployUndeployedSafe env st.2
  | Close => handleCloseModal st.1 st.2
  end.

Definition run (actions : list Action) : Dashboard * World :=
  foldl act (loaded, boot) actions.

(** Every call the attempt makes answers without an exception and with
    what lets the attempt go on. *)
Definition answered (env : Env) : Prop :=
  built env
  /\ (exists h, sendTransaction env = Normal h /\ confirmed env h)
  /\ isSafeDeployed env = Normal true
  /\ migrate env = Normal tt.


(** *** Properties *)

Lemma handler_configured (env : Env) (H : list SafeDeployStep) (rd : list (list nat)) :
  templateIntact {| heap := H; rendered := rd |} ->
  configured env = true ->
  exists steps w',
    handleDeployUndeployedSafe env {| heap := H; rendered := rd |} =
    ({| modalOpen := true; deploySteps := steps;
        deployError := deployErrorOf (finalSteps env);
        deployTxHash := deployTxHashOf (finalSteps env) |}, w')
    /\ contents steps w' = finalSteps env
    /\ templateIntact w'
    /\ last (rendered w') = Some steps.
Proof.
  intros Hint Hcfg. unfold handleDeployUndeployedSafe.
  rewrite bind_run, (copySteps_template _ _ Hint).
  rewrite bind_setDeploySteps, bind_run.
  pose proof (templateIntact_grow H DEFAULT_DEPLOY_STEPS rd
                (rd ++ [[length H + 0; length H + 1; length H + 2; length H + 3]%nat])
                Hint) as Hint'.
  destruct (deploy_exec env _ _ Hint' Hcfg) as [rd' ->].
  rewrite bind_setDeploySteps. unfold report.
  rewrite (contents_fresh _ _ _ (finalSteps_length env)).
  eexists _, _. split; [reflexivity|].
  split; [apply contents_fresh, finalSteps_length|].
  split; [exact (templateIntact_grow _ _ _ _ Hint')|].
  simpl. apply last_snoc.
Qed.

Lemma handler_unconfigured (env : Env) (H : list SafeDeployStep) (rd : list (list nat)) :
  templateIntact {| heap := H; rendered := rd |} ->
  configured env = false ->
  exists steps w',
    handleDeployUndeployedSafe env {| heap := H; rendered := rd |} =
    ({| modalOpen := true; deploySteps := steps;
        deployError :=
          Some "Deployment error: Missing Safe config, wallet connector, signer, or chainId.";
        deployTxHash := None |}, w')
    /\ status <$> contents steps w' = [Error]
    /\ templateIntact w'
    /\ last (rendered w') = Some steps.
Proof.
  intros Hint Hcfg. unfold handleDeployUndeployedSafe.
  rewrite bind_run, (copySteps_template _ _ Hint).
  rewrite bind_setDeploySteps, bind_run, (deploy_unconfigured env _ Hcfg).
  cbn [heap rendered]. rewrite bind_setDeploySteps. unfold report.
  assert (Hc : contents [length (H ++ DEFAULT_DEPLOY_STEPS)]
    {| heap := (H ++ DEFAULT_DEPLOY_STEPS) ++
         [{| step := "txCreated"; status := Error;
             error := Some "Missing Safe config, wallet connector, signer, or chainId.";
             txHash := None |}];
       rendered := (rd ++ [[length H + 0; length H + 1; length H + 2; length H + 3]%nat])
                   ++ [[length (H ++ DEFAULT_DEPLOY_STEPS)]] |} =
    [{| step := "txCreated"; status := Error;
        error := Some "Missing Safe config, wallet connector, signer, or chainId.";
        txHash := None |}]).
  { unfold contents. simpl. rewrite lookup_app_r by lia.
    rewrite Nat.sub_diag. reflexivity. }
  rewrite Hc. eexists _, _. split; [reflexivity|].
  split; [rewrite Hc; reflexivity|].
  split.
  - rewrite <- app_assoc. now apply (templateIntact_grow H _ rd).
  - simpl. apply last_snoc.
Qed.

Lemma templateIntact_run (actions : list Action) : templateIntact (run actions).2.
Proof.
  unfold run. induction actions as [|a actions IH] using rev_ind; [reflexivity|].
  rewrite foldl_snoc.
  destruct (foldl act (loaded, boot) actions) as [d [H rd]]. simpl in IH.
  destruct a as [env|]; simpl.
  - destruct (configured env) eqn:Hcfg.
    + destruct (handler_configured env H rd IH Hcfg) as (? & ? & -> & _ & Hi & _).
      exact Hi.
    + destruct (handler_unconfigured env H rd IH Hcfg) as (? & ? & -> & _ & Hi & _).
      exact Hi.
  - unfold handleCloseModal.
    rewrite bind_run, (copySteps_template _ _ IH). simpl.
    now apply (templateIntact_grow H _ rd).
Qed.

(** Case analysis on the answers of the outside world, in the order in
    which an attempt asks for them; [tac] closes each case. *)
Ltac by_verification env tac :=
  destruct (isSafeDeployed env) as [[|]|?] eqn:?; [|tac..];
  destruct (migrate env) as [[]|?] eqn:?; tac.

Ltac by_answers env tac :=
  unfold finalSteps, verifiedStep;
  destruct (getMinimalEIP1193Provider env) as [[|]|?] eqn:?; [|tac..];
  destruct (initKit env) as [[]|?] eqn:?; [|tac];
  destruct (createSafeDeploymentTransaction env) as [[]|?] eqn:?; [|tac];
  destruct (sendTransaction env) as [[[|? ?]|]|?] eqn:?;
  cbn [truthyHash from_option JS.truthy];
  [ by_verification env tac
  | destruct (waitForTransactionReceipt env) as [[]|?] eqn:?; [|tac];
    by_verification env tac
  | by_verification env tac
  | tac ].


(** Hypotheses on the answers, taken apart and compared with the case at
    hand. *)
Ltac answers_agree :=
  unfold built, hashReturned, confirmed in *;
  repeat match goal with
         | H : _ /\ _ |- _ => destruct H
         | H : exists _, _ |- _ => destruct H
         end;
  repeat match goal with
         | H1 : ?f ?env = _, H2 : ?f ?env = _ |- _ =>
             rewrite H1 in H2; first [discriminate H2 | injection H2 as ?; subst]
         end;
  simplify_eq.






Lemma finalSteps_error_shown (env : Env) (k : nat) (err : Thrown) :
  FailsAt env k err -> JS.truthy (errorMessage err) = true ->
  deployErrorOf (finalSteps env) = Some ("Deployment error: " +:+ errorMessage err).
Proof.
  intros Hf Ht. revert Hf.
  by_answers env
    ltac:(intros Hf; inversion Hf; subst; answers_agree;
          try discriminate;
          try match goal with
              | H : truthyHash _ = true -> _ |- _ =>
                  specialize (H eq_refl); congruence
              end;
          unfold deployErrorOf; simpl; simpl in Ht; rewrite ?Ht; reflexivity).
Qed.

Lemma finalSteps_hash_shown (env : Env) (h : string) :
  deployTxHashOf (finalSteps env) = Some h
  <-> built env /\ sendTransaction env = Normal (Some h) /\ JS.truthy h = true.
Proof.
  unfold built.
  by_answers env
    ltac:(split;
          [ unfold deployTxHashOf; simpl; intros H;
            first [ discriminate H
                  | injection H as <-; repeat split; reflexivity ]
          | intros Hall; answers_agree; try discriminate; reflexivity ]).
Qed.

(** The dashboard and the steps it shows after an attempt in a reachable
    world. *)
Lemma attempt_outcome (actions : list Action) (env : Env) :
  let d := (handleDeployUndeployedSafe env (run actions).2).1 in
  let w' := (handleDeployUndeployedSafe env (run actions).2).2 in
  last (rendered w') = Some (deploySteps d)
  /\ modalOpen d = true
  /\ (configured env = true ->
        contents (deploySteps d) w' = finalSteps env
        /\ deployError d = deployErrorOf (finalSteps env)
        /\ deployTxHash d = deployTxHashOf (finalSteps env))
  /\ (configured env = false ->
        status <$> contents (deploySteps d) w' = [Error]
        /\ deployError d =
           Some "Deployment error: Missing Safe config, wallet connector, signer, or chainId."
        /\ deployTxHash d = None).
Proof.
  intros d w'. subst d w'.
  pose proof (templateIntact_run actions) as Hint.
  destruct (run actions).2 as [H rd].
  destruct (configured env) eqn:Hcfg.
  - destruct (handler_configured env H rd Hint Hcfg) as (steps & w' & -> & Hc & _ & Hl).
    simpl. split; [exact Hl|]. split; [reflexivity|].
    split; [intros _; repeat split; assumption | discriminate].
  - destruct (handler_unconfigured env H rd Hint Hcfg) as (steps & w' & -> & Hc & _ & Hl).
    simpl. split; [exact Hl|]. split; [reflexivity|].
    split; [discriminate | intros _; repeat split; assumption].
Qed.


(** X16. After an attempt that had its configuration: when an exception
    with a non-empty message occurred at some step, the deployment error
    shown is that message after the words [Deployment error: ]; and the
    transaction hash shown is what the wallet answered the broadcast
    with whenever that is a non-empty string, also when a later step
    failed, and there is none otherwise. *)
Theorem dialog_shows_the_error_and_the_hash (actions : list Action) (env : Env) :
  let d := (handleDeployUndeployedSafe env (run actions).2).1 in
  configured env = true ->
  (forall k err, FailsAt env k err -> JS.truthy (errorMessage err) = true ->
     deployError d = Some ("Deployment error: " +:+ errorMessage err))
  /\ (forall h, deployTxHash d = Some h <->
        built env /\ sendTransaction env = Normal (Some h) /\ JS.truthy h = true)
  /\ (deployTxHash d = None <-> ~ (built env /\ hashReturned env)).
Proof.
  intros d Hcfg.
  destruct (attempt_outcome actions env) as (_ & _ & Hyes & _).
  fold d in Hyes. destruct (Hyes Hcfg) as (_ & -> & ->).
  split; [apply finalSteps_error_shown|].
  split; [apply finalSteps_hash_shown|].
  destruct (deployTxHashOf (finalSteps env)) as [h|] eqn:Hh.
  - apply finalSteps_hash_shown in Hh as (Hb & Hs & Ht).
    split; [discriminate|]. intros Hnot. exfalso. apply Hnot.
    split; [exact Hb|]. exists (Some h). split; assumption.
  - split; [|reflexivity]. intros _ (Hb & [[h|] [Hs Ht]]); [|discriminate Ht].
    assert (Hshown : deployTxHashOf (finalSteps env) = Some h)
      by (apply finalSteps_hash_shown; split; [exact Hb|]; split;
          [exact Hs | exact Ht]).
    congruence.
Qed.

Lemma dialog_shows_the_error_and_the_hash_witness :
  deployError (handleDeployUndeployedSafe receiptTimeout
                 (run [Attempt rejectedByWallet; Close]).2).1
    = Some "Deployment error: timeout"
  /\ deployTxHash (handleDeployUndeployedSafe receiptTimeout
                     (run [Attempt rejectedByWallet; Close]).2).1
    = Some aHash
  /\ deployTxHash (handleDeployUndeployedSafe noHashReturned
                     (run [Attempt rejectedByWallet; Close]).2).1
    = None.
Proof.
  pose proof (dialog_shows_the_error_and_the_hash
                [Attempt rejectedByWallet; Close] receiptTimeout) as H.
  cbv zeta in H. destruct (H eq_refl) as (Herr & Hhash & _). split; [|split].
  - apply (Herr 2%nat (NonError "timeout")); [|reflexivity].
    apply (fails_wait _ (Some aHash)); [repeat split|..]; reflexivity.
  - apply Hhash. repeat split; reflexivity.
  - pose proof (dialog_shows_the_error_and_the_hash
                  [Attempt rejectedByWallet; Close] noHashReturned) as H'.
    cbv zeta in H'. destruct (H' eq_refl) as (_ & _ & Hnone).
    apply Hnone. intros (_ & h & Hs & Ht).
    injection Hs as <-. discriminate Ht.
Defined.

End DeployDialog.


(** ** app/components/TokenTransferModal.tsx: the nonce field *)

Module NonceField.

Import ProtocolKit TokenTransferModal SafeTxProvider.

(** The effect that sets the field to the proposed nonce:
    [setCustomNonce(String(nextAvailableNonce))]. *)
Definition defaultNonce (safeInfoNonce : option JS.Number)
    (queuedTransactions : list EthSafeTransaction) : string :=
  JS.numberToString (nextAvailableNonce safeInfoNonce queuedTransactions).

(** The two warnings of the nonce field; the texts show the numbers the
    constructors carry. *)
Inductive NonceWarning : Type :=
  (** "This nonce (nonce) has already been executed on-chain. Current
      on-chain nonce is current." *)
  | AlreadyExecuted (nonce current : JS.Number)
  (** "A transaction with nonce nonce is already queued. Building this
      will overwrite it." *)
  | AlreadyQueued (nonce : JS.Number).

(** The effect that validates the nonce whenever it changes: the value it
    gives [nonceWarning].  [safeInfoNonce] is [None] while [safeInfo] is
    [null]. *)
Definition nonceWarning (customNonce : string) (safeInfoNonce : option JS.Number)
    (queuedTransactions : list EthSafeTransaction) : option NonceWarning :=
  match safeInfoNonce with
  | None => None
  | Some onChain =>
      if negb (JS.truthy customNonce) then None
      else
        let nonce := JS.parseInt customNonce in
        if JS.isNaN nonce then None
        else if JS.lt nonce onChain then Some (AlreadyExecuted nonce onChain)
        else if existsb (fun tx => JS.numberEquals (nonceNumber tx) nonce)
                        queuedTransactions
        then Some (AlreadyQueued nonce)
        else None
  end.

(** The integers that print as their decimal digits and are read back
    exactly: those up to [2^53] in magnitude. *)
Definition plain (z : Z) : Prop := - 2 ^ 53 <= z <= 2 ^ 53.

(** *** Properties *)

Lemma digitValue_pretty (d : N) :
  (d < 10)%N -> JS.digitValue (pretty_N_char d) = Some d.
Proof.
  intros H.
  assert (d = 0 \/ d = 1 \/ d = 2 \/ d = 3 \/ d = 4 \/ d = 5 \/ d = 6 \/ d = 7
          \/ d = 8 \/ d = 9)%N as Hd by lia.
  repeat (destruct Hd as [->|Hd]; [reflexivity|]). subst d. reflexivity.
Qed.

Lemma isWhiteSpace_pretty (d : N) : JS.isWhiteSpace (pretty_N_char d) = false.
Proof. unfold pretty_N_char. repeat case_match; reflexivity. Qed.

Lemma pretty_char_no_sign (d : N) :
  pretty_N_char d <> "-"%char /\ pretty_N_char d <> "+"%char.
Proof. unfold pretty_N_char. repeat case_match; split; discriminate. Qed.

(** Reading back the digits that were written in front of [s]. *)
Lemma readDigits_pretty (x : N) : forall (s : string) (acc : N),
  exists k : N,
    JS.readDigits acc (pretty_N_go x s) = JS.readDigits (acc * 10 ^ k + x) s.
Proof.
  induction (N.lt_wf_0 x) as [x _ IH]. intros s acc.
  destruct (decide (x = 0)%N) as [->|Hx].
  - exists 0%N. rewrite pretty_N_go_0. f_equal. simpl. lia.
  - rewrite pretty_N_go_step by lia.
    destruct (IH (x `div` 10)%N) with
      (s := String (pretty_N_char (x `mod` 10)) s) (acc := acc) as [k Hk].
    { apply N.div_lt; lia. }
    exists (k + 1)%N. rewrite Hk. simpl.
    rewrite digitValue_pretty by (apply N.mod_lt; lia).
    f_equal. rewrite N.pow_add_r, N.pow_1_r.
    pose proof (N.div_mod x 10 ltac:(lia)). lia.
Qed.

Lemma parsedInteger_head (d : N) (rest : string) :
  (d < 10)%N ->
  JS.parsedInteger (String (pretty_N_char d) rest)
    = Some (Z.of_N (JS.readDigits 0 (String (pretty_N_char d) rest)))
  /\ JS.parsedInteger (String "-" (String (pretty_N_char d) rest))
    = Some (- Z.of_N (JS.readDigits 0 (String (pretty_N_char d) rest))).
Proof.
  intros H.
  assert (d = 0 \/ d = 1 \/ d = 2 \/ d = 3 \/ d = 4 \/ d = 5 \/ d = 6 \/ d = 7
          \/ d = 8 \/ d = 9)%N as Hd by lia.
  assert (Hneg : forall z : Z, -1 * z = - z) by (intros; lia).
  assert (Hpos : forall z : Z, 1 * z = z) by (intros; lia).
  repeat (destruct Hd as [->|Hd];
          [unfold JS.parsedInteger; cbv -[Z.mul Z.of_N Z.opp JS.readDigits];
           rewrite Hneg, Hpos; split; reflexivity|]).
  rewrite Hd. unfold JS.parsedInteger; cbv -[Z.mul Z.of_N Z.opp JS.readDigits].
  rewrite Hneg, Hpos. split; reflexivity.
Qed.

Lemma parsedInteger_digits (x : N) :
  (0 < x)%N ->
  JS.parsedInteger (pretty_N_go x "") = Some (Z.of_N x)
  /\ JS.parsedInteger ("-" +:+ pretty_N_go x "") = Some (- Z.of_N x).
Proof.
  intros Hx.
  destruct (JS.pretty_N_go_head x "" Hx) as (d & rest & Hd & Hs).
  destruct (readDigits_pretty x "" 0) as [k Hk].
  simpl in Hk. rewrite N.add_0_l in Hk.
  destruct (parsedInteger_head d rest Hd) as [Hplus Hminus].
  change ("-" +:+ pretty_N_go x "") with (String "-" (pretty_N_go x "")).
  rewrite Hs, Hplus, Hminus, <- Hs, Hk. split; reflexivity.
Qed.

(** [parseInt] reads the decimal digits of an integer as the integer. *)
Lemma parsedInteger_pretty (n : Z) : JS.parsedInteger (pretty n) = Some n.
Proof.
  unfold pretty, pretty_Z. destruct n as [|p|p].
  - reflexivity.
  - unfold pretty, pretty_positive, pretty, pretty_N.
    destruct (decide (N.pos p = 0%N)) as [H|_]; [discriminate H|].
    destruct (parsedInteger_digits (N.pos p)) as [-> _]; [lia|]. reflexivity.
  - unfold pretty, pretty_positive, pretty, pretty_N.
    destruct (decide (N.pos p = 0%N)) as [H|_]; [discriminate H|].
    destruct (parsedInteger_digits (N.pos p)) as [_ ->]; [lia|]. reflexivity.
Qed.

(** A plain integer prints as its decimal digits. *)
Lemma numberToString_plain (n : Z) :
  plain n -> JS.numberToString (JS.integer n) = pretty n.
Proof.
  intros Hn. unfold JS.numberToString, JS.integer. pose proof JS.one_pos.
  rewrite Z.mod_mul, Z.eqb_refl by lia.
  assert ((Z.abs (n * JS.one) <=? 2 ^ 53 * JS.one) = true) as ->.
  { apply Z.leb_le. rewrite Z.abs_mul, (Z.abs_eq JS.one) by lia.
    apply Z.mul_le_mono_nonneg_r; [lia|]. unfold plain in Hn. lia. }
  simpl. now rewrite Z.div_mul by lia.
Qed.

(** [parseInt(String(n), 10)] is [n] for a plain integer [n]. *)
Lemma parseInt_String (n : Z) :
  plain n -> JS.parseInt (JS.numberToString (JS.integer n)) = JS.integer n.
Proof.
  intros Hn. rewrite numberToString_plain by exact Hn.
  unfold JS.parseInt. rewrite parsedInteger_pretty.
  apply JS.ofZ_integer. unfold plain in Hn. lia.
Qed.

Lemma existsb_nonce (n : Z) (queue : list EthSafeTransaction) (nonces : list Z) :
  nonceNumber <$> queue = JS.integer <$> nonces ->
  existsb (fun tx => JS.numberEquals (nonceNumber tx) (JS.integer n)) queue =
  bool_decide (n ∈ nonces).
Proof.
  revert nonces. induction queue as [|tx queue IH]; intros [|x nonces] Hq;
    try discriminate Hq; [reflexivity|].
  rewrite !fmap_cons in Hq. injection Hq as Hx Hq.
  simpl. rewrite (IH nonces Hq), Hx, JS.numberEquals_integer.
  destruct (Z.eqb_spec x n) as [<-|Hne]; simpl.
  - symmetry. apply bool_decide_eq_true_2. now left.
  - apply bool_decide_ext. rewrite elem_of_cons. split; [auto|].
    intros [Heq|H]; [congruence | exact H].
Qed.

(** The warning for a plain integer typed into the field, over a queue
    whose nonces are integers. *)
Lemma nonceWarning_String (nonce onChain : Z) (queue : list EthSafeTransaction)
    (nonces : list Z) :
  plain nonce -> nonceNumber <$> queue = JS.integer <$> nonces ->
  nonceWarning (JS.numberToString (JS.integer nonce)) (Some (JS.integer onChain)) queue =
  if nonce <? onChain
  then Some (AlreadyExecuted (JS.integer nonce) (JS.integer onChain))
  else if bool_decide (nonce ∈ nonces) then Some (AlreadyQueued (JS.integer nonce))
  else None.
Proof.
  intros Hn Hq. unfold nonceWarning.
  rewrite parseInt_String by exact Hn.
  rewrite numberToString_plain, JS.truthy_pretty by exact Hn.
  cbn [negb JS.isNaN JS.integer].
  change (JS.Finite (nonce * JS.one)) with (JS.integer nonce).
  change (JS.Finite (onChain * JS.one)) with (JS.integer onChain).
  now rewrite JS.lt_integer, (existsb_nonce nonce queue nonces Hq).
Qed.

(** X17. Reading back a plain integer written into the nonce field gives
    the integer.  With an on-chain nonce and queued nonces that are safe
    integers, the field's default, the proposed nonce, raises no warning,
    and neither does any greater plain nonce; the nonce just below the
    proposed one does raise a warning.  The proposed nonce is thus the
    least nonce from which on no warning is raised. *)
Theorem proposed_nonce_is_least_without_warning (onChain : Z)
    (queue : list EthSafeTransaction) (nonces : list Z) (m : Z) :
  JS.safe onChain -> Forall JS.safe nonces ->
  nonceNumber <$> queue = JS.integer <$> nonces ->
  plain m ->
  exists proposed : Z,
    nextAvailableNonce (Some (JS.integer onChain)) queue = JS.integer proposed
    /\ plain proposed /\ plain (proposed - 1)
    /\ JS.parseInt (JS.numberToString (JS.integer m)) = JS.integer m
    /\ nonceWarning (defaultNonce (Some (JS.integer onChain)) queue)
         (Some (JS.integer onChain)) queue = None
    /\ nonceWarning (JS.numberToString (JS.integer (proposed - 1)))
         (Some (JS.integer onChain)) queue <> None
    /\ ((forall k, m <= k -> plain k ->
           nonceWarning (JS.numberToString (JS.integer k))
             (Some (JS.integer onChain)) queue = None)
        <-> proposed <= m).
Proof.
  intros Hc Hsafe Hq Hm.
  set (proposed := match nonces with
                   | [] => onChain
                   | x :: rest => Z.max (foldl Z.max x rest + 1) onChain
                   end).
  pose proof (nextAvailableNonce_integers onChain queue nonces Hc Hsafe Hq) as Hnext.
  fold proposed in Hnext.
  assert (Hge : onChain <= proposed /\ forall n, n ∈ nonces -> n < proposed).
  { unfold proposed. destruct nonces as [|x rest].
    - split; [lia|]. intros n Hn. apply elem_of_nil in Hn. contradiction.
    - destruct (foldl_max_greatest x rest) as [_ Hub].
      split; [lia|]. intros n Hn. specialize (Hub n Hn). lia. }
  destruct Hge as [Hge Hgt].
  assert (Hleast : proposed - 1 < onChain \/ proposed - 1 ∈ nonces).
  { unfold proposed. destruct nonces as [|x rest]; [left; lia|].
    destruct (foldl_max_greatest x rest) as [Hin _].
    destruct (Z.max_spec (foldl Z.max x rest + 1) onChain) as [[_ ->]|[_ ->]].
    - left. lia.
    - right. replace (foldl Z.max x rest + 1 - 1) with (foldl Z.max x rest) by lia.
      exact Hin. }
  assert (Hplain : plain proposed /\ plain (proposed - 1)).
  { unfold plain, JS.safe, JS.MAX_SAFE_INTEGER in *.
    assert (proposed <= 2 ^ 53).
    { unfold proposed. destruct nonces as [|x rest]; [lia|].
      destruct (foldl_max_greatest x rest) as [Hin _].
      rewrite Forall_forall in Hsafe. specialize (Hsafe _ Hin). lia. }
    lia. }
  destruct Hplain as [Hp Hp1].
  assert (Hfree : forall k, proposed <= k -> plain k ->
            nonceWarning (JS.numberToString (JS.integer k))
              (Some (JS.integer onChain)) queue = None).
  { intros k Hk Hpk. rewrite (nonceWarning_String k onChain queue nonces Hpk Hq).
    destruct (Z.ltb_spec k onChain); [lia|].
    rewrite bool_decide_eq_false_2; [reflexivity|].
    intros Hin. specialize (Hgt k Hin). lia. }
  assert (Hbelow : nonceWarning (JS.numberToString (JS.integer (proposed - 1)))
                     (Some (JS.integer onChain)) queue <> None).
  { rewrite (nonceWarning_String _ onChain queue nonces Hp1 Hq).
    destruct (Z.ltb_spec (proposed - 1) onChain); [discriminate|].
    destruct Hleast as [Hlt|Hin]; [lia|].
    rewrite bool_decide_eq_true_2 by exact Hin. discriminate. }
  exists proposed.
  split; [exact Hnext|]. split; [exact Hp|]. split; [exact Hp1|].
  split; [now apply parseInt_String|].
  split; [unfold defaultNonce; rewrite Hnext; apply Hfree; [lia | exact Hp]|].
  split; [exact Hbelow|].
  split.
  - intros Hall. destruct (Z.le_gt_cases proposed m) as [Hle|Hlt]; [exact Hle|].
    exfalso. apply Hbelow, Hall; [lia | exact Hp1].
  - intros Hle k Hk Hpk. apply Hfree; [lia | exact Hpk].
Qed.

Lemma proposed_nonce_is_least_without_warning_witness :
  exists proposed : Z,
    nextAvailableNonce (Some (JS.integer 3)) [emptyTx 5; emptyTx 7] =
    JS.integer proposed
    /\ nonceWarning (defaultNonce (Some (JS.integer 3)) [emptyTx 5; emptyTx 7])
         (Some (JS.integer 3)) [emptyTx 5; emptyTx 7] = None
    /\ nonceWarning (JS.numberToString (JS.integer (proposed - 1)))
         (Some (JS.integer 3)) [emptyTx 5; emptyTx 7] <> None.
Proof.
  assert (Hsafe : forall z, -100 <= z <= 100 -> JS.safe z)
    by (unfold JS.safe, JS.MAX_SAFE_INTEGER; intros; lia).
  destruct (proposed_nonce_is_least_without_warning 3 [emptyTx 5; emptyTx 7]
              [5; 7] 0 ltac:(apply Hsafe; lia)
              ltac:(repeat constructor; apply Hsafe; lia) eq_refl
              ltac:(unfold plain; lia))
    as (proposed & Hnext & _ & _ & _ & Hdefault & Hbelow & _).
  exists proposed. auto.
Defined.

(** X18. For a numbered queue and a transaction whose nonce is a plain
    integer not below the on-chain nonce, the field warns of an overwrite
    exactly when saving the transaction replaces a queued one, so that the
    queue keeps its length; without a warning the saved transaction is
    added and the queue grows by one.  Either way the nonce is queued
    afterwards. *)
Theorem overwrite_warning_iff_save_replaces (p : Provider) (sa : string)
    (c : option string) (onChain n : Z) (tx : EthSafeTransaction) :
  let queue := (getAllTransactions sa c p).1 in
  let saved := (getAllTransactions sa c (saveTransaction sa tx c p)).1 in
  let typed := JS.numberToString (JS.integer n) in
  nonceOf tx = JS.Numeric (JS.integer n) -> plain n -> onChain <= n ->
  Forall numbered queue ->
  (nonceWarning typed (Some (JS.integer onChain)) queue
     = Some (AlreadyQueued (JS.integer n))
   <-> length saved = length queue)
  /\ (nonceWarning typed (Some (JS.integer onChain)) queue = None
      <-> length saved = S (length queue))
  /\ nonceOf tx ∈ nonceOf <$> saved.
Proof.
  intros queue saved typed Htx Hn Hge Hq. subst queue saved typed.
  unfold getAllTransactions in *. cbn [fst] in *.
  assert (Hnum : numbered tx) by (now exists (n * JS.one)).
  assert (Hrank : rank tx = n * JS.one) by (unfold rank; now rewrite Htx).
  rewrite queueAt_save, saved_numbered by assumption.
  set (queue := queueAt (keyOf sa c) p) in *.
  assert (Hwarn : nonceWarning (JS.numberToString (JS.integer n))
                    (Some (JS.integer onChain)) queue =
                  if bool_decide (rank tx ∈ rank <$> queue)
                  then Some (AlreadyQueued (JS.integer n)) else None).
  { unfold nonceWarning.
    rewrite parseInt_String by exact Hn.
    rewrite numberToString_plain, JS.truthy_pretty by exact Hn.
    cbn [negb JS.isNaN JS.integer].
    change (JS.Finite (n * JS.one)) with (JS.integer n).
    change (JS.Finite (onChain * JS.one)) with (JS.integer onChain).
    rewrite JS.lt_integer.
    destruct (Z.ltb_spec n onChain); [lia|].
    assert (Hex : existsb (fun tx0 => JS.numberEquals (nonceNumber tx0) (JS.integer n))
                    queue = bool_decide (rank tx ∈ rank <$> queue)).
    { clear -Hq Hrank. induction Hq as [|x l Hx _ IH]; [reflexivity|].
      simpl. rewrite IH, (numbered_nonceNumber x Hx). unfold JS.integer.
      rewrite JS.numberEquals_Finite, <- Hrank.
      destruct (Z.eqb_spec (rank x) (rank tx)) as [Heq|Hne]; simpl.
      - symmetry. apply bool_decide_eq_true_2. rewrite Heq. now left.
      - apply bool_decide_ext. rewrite elem_of_cons. split; [auto|].
        intros [Heq|H]; [congruence | exact H]. }
    now rewrite Hex. }
  rewrite Hwarn.
  assert (Hperm : forall l, length (JS.sortBy rank l) = length l).
  { intros l. apply Permutation_length, JS.sortBy_perm. }
  rewrite Hperm.
  assert (Hlen : length (upsertByNonce tx queue) =
    if bool_decide (rank tx ∈ rank <$> queue) then length queue
    else S (length queue)).
  { clear. induction queue as [|x l IH].
    - rewrite bool_decide_eq_false_2 by (simpl; apply not_elem_of_nil). reflexivity.
    - rewrite upsertByNonce_cons.
      destruct (Z.eqb_spec (rank x) (rank tx)) as [Heq|Hne].
      + rewrite bool_decide_eq_true_2 by (rewrite fmap_cons, Heq; now left).
        reflexivity.
      + cbn [length]. rewrite IH.
        assert (Hiff : rank tx ∈ rank <$> x :: l <-> rank tx ∈ rank <$> l).
        { rewrite fmap_cons, elem_of_cons. split; [|auto].
          intros [Heq|H]; [congruence | exact H]. }
        rewrite (bool_decide_ext _ _ Hiff).
        destruct (bool_decide _); reflexivity. }
  rewrite Hlen.
  split; [|split].
  - destruct (bool_decide (rank tx ∈ rank <$> queue)); split;
      try reflexivity; try discriminate; lia.
  - destruct (bool_decide (rank tx ∈ rank <$> queue)); split;
      try reflexivity; try discriminate; lia.
  - apply list_elem_of_fmap. exists tx. split; [reflexivity|].
    rewrite JS.sortBy_perm.
    clear. induction queue as [|x l IH]; [now left|].
    rewrite upsertByNonce_cons. destruct (rank x =? rank tx); [now left | now right].
Qed.

Lemma overwrite_warning_iff_save_replaces_witness :
  nonceWarning (JS.numberToString (JS.integer 7)) (Some (JS.integer 3))
    [emptyTx 5; emptyTx 7] = Some (AlreadyQueued (JS.integer 7))
  /\ length (getAllTransactions aSafeAddress None
       (saveTransaction aSafeAddress (emptyTx 7) None
          (run [Save aSafeAddress (emptyTx 7) None;
                Save aSafeAddress (emptyTx 5) None]))).1 = 2%nat.
Proof.
  pose proof (overwrite_warning_iff_save_replaces
                (run [Save aSafeAddress (emptyTx 7) None;
                      Save aSafeAddress (emptyTx 5) None])
                aSafeAddress None 3 7 (emptyTx 7)) as H.
  cbv zeta in H.
  destruct H as ([H1 H2] & _ & _);
    [reflexivity | unfold plain; lia | lia
     | apply (bool_decide_unpack _); vm_compute; exact I |].
  assert (Hw : nonceWarning (JS.numberToString (JS.integer 7)) (Some (JS.integer 3))
                 [emptyTx 5; emptyTx 7] = Some (AlreadyQueued (JS.integer 7)))
    by (vm_compute; reflexivity).
  split; [exact Hw|]. apply H1. exact Hw.
Defined.

End NonceField.


(** ** The hash calculator (SignMessageClient) and the message page
    (MessageDetailsClient) *)

Module SignMessage.

Import MessageHashing.

(** What the [catch] of [handleCalculateHashes] shows. *)
Definition caughtMessage (err : Thrown) : string :=
  match err with
  | ErrorObject msg => msg
  | NonError _ => "Failed to calculate hashes"
  end.

(** [c.toOption]: what a [try] whose [catch] sets nothing leaves. *)
Definition completed {A} (c : Completion A) : option A :=
  match c with
  | Normal a => Some a
  | Throw _ => None
  end.

(** Stand-ins for the hash functions when the definitions are run on
    examples: they tag their arguments instead of hashing them. *)
Definition tagDomain (d : Domain) : Completion string :=
  Normal (match chainId d with
          | Some _ => "domain(chain," +:+ verifyingContract d +:+ ")"
          | None => "domain(" +:+ verifyingContract d +:+ ")"
          end).
Definition tagStruct (primaryType : string) (_ : Types) (v : SafeMessageValue)
    : Completion string :=
  Normal (primaryType +:+ "(" +:+ MessageHashing.message v +:+ ")").
Definition tagHash (d : Domain) (_ : Types) (v : SafeMessageValue)
    : Completion string :=
  Normal ("eip712(" +:+ MessageHashing.message v +:+ ")").
Definition tagJsonStruct (primaryType : string) (_ : gmap string string)
    (msg : string) : Completion string :=
  Normal (primaryType +:+ "(" +:+ msg +:+ ")").
Definition tagJsonHash (domain : string) (_ : gmap string string) (msg : string)
    : Completion string :=
  Normal ("eip712(" +:+ domain +:+ "," +:+ msg +:+ ")").

Section WithEthers.

(** The functions of [ethers] on the [SafeMessage] wrapper, as in
    [MessageHashing]. *)
Variable hashDomain : Domain -> Completion string.
Variable hashStruct : string -> Types -> SafeMessageValue -> Completion string.
Variable hash : Domain -> Types -> SafeMessageValue -> Completion string.
Variable toUtf8String : string -> Completion string.
Variable hashMessage : string -> string.

(** JSON values, and the same functions of [ethers] on the domain, the
    types and the message of typed data.  The [types] object is a map
    from type names to their field lists. *)
Variable Json : Type.
Variable hashDomainJson : Json -> Completion string.
Variable hashStructJson : string -> gmap string Json -> Json -> Completion string.
Variable hashJson : Json -> gmap string Json -> Json -> Completion string.

Record TypedData : Type := mkTypedData {
  domain : Json;
  types : gmap string Json;
  primaryType : string;
  message : Json;
}.

(** [calculateTypedDataHash] *)
Definition calculateTypedDataHash (typedData : TypedData)
    : Completion EIP712HashResult :=
  let typesWithoutDomain := delete "EIP712Domain" (types typedData) in
  dh ← hashDomainJson (domain typedData);
  mh ← hashStructJson (primaryType typedData) typesWithoutDomain (message typedData);
  eh ← hashJson (domain typedData) typesWithoutDomain (message typedData);
  mret {| domainHash := dh; messageHash := mh; eip712Hash := eh;
          safeMessage := None |}.

(** A parsed JSON object as [validateTypedData] looks at it: a field is
    [None] when it is missing or holds a falsy value; a field that is
    there has the JSON type it is meant to have. *)
Record ParsedTypedData : Type := mkParsed {
  typesField : option (gmap string Json);
  domainField : option Json;
  messageField : option Json;
  primaryTypeField : option string;
}.

Definition validateTypedData (typedData : ParsedTypedData) : Completion bool :=
  if negb (bool_decide (is_Some (typesField typedData)))
  then Throw (ErrorObject "Invalid EIP-712 format: missing 'types' field")
  else if negb (bool_decide (is_Some (domainField typedData)))
  then Throw (ErrorObject "Invalid EIP-712 format: missing 'domain' field")
  else if negb (bool_decide (is_Some (messageField typedData)))
  then Throw (ErrorObject "Invalid EIP-712 format: missing 'message' field")
  else if negb (from_option JS.truthy false (primaryTypeField typedData))
  then Throw (ErrorObject "Invalid EIP-712 format: missing 'primaryType' field")
  else Normal true.

(** The destructuring [{ domain, types, primaryType, message }] of an
    object that has the four fields. *)
Definition asTypedData (p : ParsedTypedData) : option TypedData :=
  t ← typesField p; d ← domainField p; m ← messageField p;
  pt ← primaryTypeField p;
  Some {| domain := d; types := t; primaryType := pt; message := m |}.

Definition parsedOf (typedData : TypedData) : ParsedTypedData :=
  {| typesField := Some (types typedData); domainField := Some (domain typedData);
     messageField := Some (message typedData);
     primaryTypeField := Some (primaryType typedData) |}.

Inductive MessageType : Type := personal_sign | eip712.

(** The calculator's state. *)
Record Calculator : Type := mkCalculator {
  rawHashes : option EIP712HashResult;
  safeHashes : option EIP712HashResult;
  error : option string;
}.

(** The block under [if (safeAddress && chain?.id && safeInfo)]: the
    wrapped hashes, or [None] when the block is skipped.  [chain] is
    [chain?.id], [safeInfo] the version of the Safe's info when there is
    one. *)
Definition wrappedHashes (safeAddress : string) (chain : option Z)
    (safeInfo : option string) (content : string)
    : Completion (option EIP712HashResult) :=
  match chain, safeInfo with
  | Some id, Some version =>
      if JS.truthy safeAddress && negb (id =? 0) then
        r ← calculateSafeMessageHashes hashDomain hashStruct hash
              safeAddress id content
              (Some (if JS.truthy version then version else "1.4.1"));
        mret (Some r)
      else mret None
  | _, _ => mret None
  end.

(** The EIP-712 branch of [handleCalculateHashes] up to the raw hashes:
    parse, validate, hash.  [eip712Input] is what [JSON.parse] makes of
    the text; after the validation every field is there. *)
Definition parsedTypedDataHash (eip712Input : Completion ParsedTypedData)
    : Completion EIP712HashResult :=
  parsed ← eip712Input;
  _ ← validateTypedData parsed;
  match asTypedData parsed with
  | Some typedData => calculateTypedDataHash typedData
  | None => Throw (NonError "undefined")
  end.

Definition handleCalculateHashes (messageType : MessageType)
    (personalMessage : string) (eip712Input : Completion ParsedTypedData)
    (safeAddress : string) (chain : option Z) (safeInfo : option string)
    : Calculator :=
  match messageType with
  | personal_sign =>
      if negb (JS.truthy (JS.trim personalMessage)) then
        {| rawHashes := None; safeHashes := None;
           error := Some "Please enter a message" |}
      else
        let messageHash :=
          calculatePersonalSignHash toUtf8String hashMessage personalMessage in
        let raw := {| domainHash := ""; messageHash := ""; eip712Hash := messageHash;
                      safeMessage := Some messageHash |} in
        match wrappedHashes safeAddress chain safeInfo messageHash with
        | Normal wrapped =>
            {| rawHashes := Some raw; safeHashes := wrapped; error := None |}
        | Throw err =>
            {| rawHashes := Some raw; safeHashes := None;
               error := Some (caughtMessage err) |}
        end
  | eip712 =>
      match parsedTypedDataHash eip712Input with
      | Throw err =>
          {| rawHashes := None; safeHashes := None;
             error := Some (caughtMessage err) |}
      | Normal raw =>
          match wrappedHashes safeAddress chain safeInfo (eip712Hash raw) with
          | Normal wrapped =>
              {| rawHashes := Some raw; safeHashes := wrapped; error := None |}
          | Throw err =>
              {| rawHashes := Some raw; safeHashes := None;
                 error := Some (caughtMessage err) |}
          end
      end
  end.

(** The data of a stored message as the message page reads it. *)
Inductive MessageData : Type :=
  | StringData (text : string)
  | TypedMessage (typedData : TypedData).

(** The effect of the message page that calculates the EIP-712 hashes:
    what it gives [setEip712Data], [None] when it returns early or
    catches an exception.  [chainId] is the connected chain. *)
Definition messageDetailsHashes (safeAddress : string)
    (safeMessage : option MessageData) (safeInfo : option string) (chainId : Z)
    : option EIP712HashResult :=
  match safeMessage, safeInfo with
  | Some msgData, Some version =>
      if chainId =? 0 then None
      else
        completed (
          safeMessageMessage ←
            match msgData with
            | StringData text => mret (hashMessage text)
            | TypedMessage td => hashJson (domain td) (types td) (message td)
            end;
          let domain := messageDetailsDomain safeAddress chainId version in
          let msg := mkSafeMessageValue safeMessageMessage in
          dh ← hashDomain domain;
          mh ← hashStruct "SafeMessage" safeMessageTypes msg;
          eh ← hash domain safeMessageTypes msg;
          mret {| domainHash := dh; messageHash := mh; eip712Hash := eh;
                  safeMessage := Some safeMessageMessage |})
  | _, _ => None
  end.

(** The text whose EIP-191 hash [calculatePersonalSignHash] takes. *)
Definition decodedMessage (msg : string) : string :=
  if JS.startsWith msg "0x" then
    match toUtf8String msg with
    | Normal decoded => decoded
    | Throw _ => msg
    end
  else msg.

(** *** Properties *)

Lemma wrapped_is_page (safeAddress : string) (chain : Z) (version : string)
    (content : string) :
  JS.truthy safeAddress = true ->
  completed (wrappedHashes safeAddress (Some chain) (Some version) content) =
  if chain =? 0 then Some None
  else Some <$>
    completed (
      let domain := messageDetailsDomain safeAddress chain version in
      let msg := mkSafeMessageValue content in
      dh ← hashDomain domain;
      mh ← hashStruct "SafeMessage" safeMessageTypes msg;
      eh ← hash domain safeMessageTypes msg;
      mret {| domainHash := dh; messageHash := mh; eip712Hash := eh;
              safeMessage := Some content |}).
Proof.
  intros Ha. unfold wrappedHashes. rewrite Ha.
  destruct (chain =? 0); [reflexivity|]. simpl.
  unfold calculateSafeMessageHashes, calculateDomainHash, calculateStructHash,
    calculateEIP712Hash, messageDetailsDomain, safeMessageDomain. simpl.
  destruct (hashDomain _); [|reflexivity]. simpl.
  destruct (hashStruct _ _ _); [|reflexivity]. simpl.
  destruct (hash _ _ _); reflexivity.
Qed.

Lemma safeHashes_personal (m safeAddress : string) (input : Completion ParsedTypedData)
    (chain : option Z) (safeInfo : option string) :
  JS.truthy (JS.trim m) = true ->
  safeHashes (handleCalculateHashes personal_sign m input safeAddress chain safeInfo) =
  default None (completed (wrappedHashes safeAddress chain safeInfo
    (hashMessage (decodedMessage m)))).
Proof.
  intros Hm. unfold handleCalculateHashes. rewrite Hm. cbv zeta.
  change (calculatePersonalSignHash toUtf8String hashMessage m)
    with (hashMessage (decodedMessage m)).
  destruct (wrappedHashes _ _ _ _); reflexivity.
Qed.

Lemma page_string (safeAddress : string) (chain : Z) (version text : string) :
  chain <> 0 ->
  messageDetailsHashes safeAddress (Some (StringData text)) (Some version) chain =
  completed (
    let domain := messageDetailsDomain safeAddress chain version in
    let msg := mkSafeMessageValue (hashMessage text) in
    dh ← hashDomain domain;
    mh ← hashStruct "SafeMessage" safeMessageTypes msg;
    eh ← hash domain safeMessageTypes msg;
    mret {| domainHash := dh; messageHash := mh; eip712Hash := eh;
            safeMessage := Some (hashMessage text) |}).
Proof.
  intros Hc. unfold messageDetailsHashes.
  destruct (Z.eqb_spec chain 0); [contradiction|]. reflexivity.
Qed.

Lemma calculator_page_string (m safeAddress : string)
    (input : Completion ParsedTypedData) (chain : Z) (version : string) :
  JS.truthy (JS.trim m) = true -> JS.truthy safeAddress = true -> chain <> 0 ->
  safeHashes (handleCalculateHashes personal_sign m input safeAddress
                (Some chain) (Some version)) =
  messageDetailsHashes safeAddress (Some (StringData (decodedMessage m)))
    (Some version) chain.
Proof.
  intros Hm Ha Hc. rewrite safeHashes_personal by exact Hm.
  rewrite (wrapped_is_page _ _ _ _ Ha), page_string by exact Hc.
  destruct (Z.eqb_spec chain 0); [contradiction|].
  destruct (completed _); reflexivity.
Qed.

(** X19. For a message that is not blank, a Safe address and a connected
    chain, the SafeMessage hashes the calculator shows for a personal
    message are the ones the message page shows for the stored string
    that the calculator hashed: the message itself when it does not start
    with [0x] or cannot be decoded, the decoded text when it starts with
    [0x] and decodes.  Both show nothing when a hash function throws. *)
Theorem calculator_agrees_with_message_page (m safeAddress : string)
    (input : Completion ParsedTypedData) (chain : Z) (version : string) :
  JS.truthy (JS.trim m) = true -> JS.truthy safeAddress = true -> chain <> 0 ->
  let shown :=
    safeHashes (handleCalculateHashes personal_sign m input safeAddress
                  (Some chain) (Some version)) in
  (JS.startsWith m "0x" = false \/ (exists err, toUtf8String m = Throw err) ->
     shown = messageDetailsHashes safeAddress (Some (StringData m))
               (Some version) chain)
  /\ (forall decoded,
        JS.startsWith m "0x" = true -> toUtf8String m = Normal decoded ->
        shown = messageDetailsHashes safeAddress (Some (StringData decoded))
                  (Some version) chain).
Proof.
  intros Hm Ha Hc shown. subst shown.
  rewrite (calculator_page_string _ _ _ _ _ Hm Ha Hc). unfold decodedMessage.
  split.
  - intros [->|[err ->]]; [reflexivity|]. destruct (JS.startsWith m "0x"); reflexivity.
  - intros decoded -> ->. reflexivity.
Qed.

(** X20. [calculateTypedDataHash] gives the same result whatever the
    [types] object holds under [EIP712Domain].  When the object holds
    nothing there and the domain and the struct can be hashed, the
    SafeMessage hashes the calculator shows for typed data are the ones
    the message page shows for the same typed data. *)
Theorem typed_data_hashes_ignore_the_domain_type (td : TypedData)
    (safeAddress : string) (chain : Z) (version : string) (dh mh : string) :
  JS.truthy (primaryType td) = true ->
  JS.truthy safeAddress = true -> chain <> 0 ->
  hashDomainJson (domain td) = Normal dh ->
  hashStructJson (primaryType td) (delete "EIP712Domain" (types td)) (message td)
    = Normal mh ->
  (forall entry,
     calculateTypedDataHash
       {| domain := domain td; types := <["EIP712Domain" := entry]> (types td);
          primaryType := primaryType td; message := message td |}
     = calculateTypedDataHash td)
  /\ (types td !! "EIP712Domain" = None ->
      forall personalMessage,
        safeHashes (handleCalculateHashes eip712 personalMessage
                      (Normal (parsedOf td)) safeAddress (Some chain) (Some version))
        = messageDetailsHashes safeAddress (Some (TypedMessage td))
            (Some version) chain).
Proof.
  intros Hpt Ha Hc Hdh Hmh. split.
  - intros entry. unfold calculateTypedDataHash. simpl.
    now rewrite delete_insert_eq.
  - intros Hnone personalMessage.
    assert (Hraw : parsedTypedDataHash (Normal (parsedOf td)) =
      (eh ← hashJson (domain td) (types td) (message td);
       mret {| domainHash := dh; messageHash := mh; eip712Hash := eh;
               safeMessage := None |})).
    { unfold parsedTypedDataHash, validateTypedData, parsedOf. simpl.
      rewrite ?bool_decide_eq_true_2 by eauto. simpl. rewrite ?Hpt. simpl.
      unfold calculateTypedDataHash. simpl.
      rewrite Hdh, (delete_id _ _ Hnone) in *. simpl. rewrite Hmh. reflexivity. }
    unfold handleCalculateHashes. rewrite Hraw. clear Hraw.
    unfold messageDetailsHashes. destruct (Z.eqb_spec chain 0); [contradiction|].
    destruct (hashJson (domain td) (types td) (message td)) as [eh|err];
      [|reflexivity].
    cbn [mbind completion_bind mret completion_ret eip712Hash].
    pose proof (wrapped_is_page safeAddress chain version eh Ha) as Hw.
    destruct (Z.eqb_spec chain 0); [contradiction|].
    destruct (wrappedHashes safeAddress (Some chain) (Some version) eh)
      as [w|err]; cbn [completed safeHashes] in Hw |- *.
    + destruct (completed _); simpl in Hw; congruence.
    + destruct (completed _); simpl in Hw; congruence.
Qed.

End WithEthers.

Lemma calculator_agrees_with_message_page_witness :
  safeHashes
    (handleCalculateHashes tagDomain tagStruct tagHash asciiToUtf8String id
       string Normal tagJsonStruct tagJsonHash personal_sign "0x6869"
       (Throw (ErrorObject "Unexpected end of JSON input"))
       UseSafe.aSafe (Some 1) (Some "1.4.1"))
  = messageDetailsHashes tagDomain tagStruct tagHash id string tagJsonHash
      UseSafe.aSafe (Some (StringData string "hi")) (Some "1.4.1") 1.
Proof.
  pose proof (calculator_agrees_with_message_page tagDomain tagStruct tagHash
                asciiToUtf8String id string Normal tagJsonStruct tagJsonHash
                "0x6869" UseSafe.aSafe
                (Throw (ErrorObject "Unexpected end of JSON input"))
                1 "1.4.1" eq_refl eq_refl ltac:(discriminate)) as H.
  cbv zeta in H. destruct H as [_ H]. apply (H "hi"); reflexivity.
Defined.

Lemma typed_data_hashes_ignore_the_domain_type_witness :
  safeHashes
    (handleCalculateHashes tagDomain tagStruct tagHash asciiToUtf8String id
       string Normal tagJsonStruct tagJsonHash eip712 ""
       (Normal (parsedOf string
                  (mkTypedData string "{}" ∅ "Message" "{content}")))
       UseSafe.aSafe (Some 1) (Some "1.4.1"))
  = messageDetailsHashes tagDomain tagStruct tagHash id string tagJsonHash
      UseSafe.aSafe
      (Some (TypedMessage string (mkTypedData string "{}" ∅ "Message" "{content}")))
      (Some "1.4.1") 1.
Proof.
  pose proof (typed_data_hashes_ignore_the_domain_type tagDomain tagStruct tagHash
                asciiToUtf8String id string Normal tagJsonStruct tagJsonHash
                (mkTypedData string "{}" ∅ "Message" "{content}")
                UseSafe.aSafe 1 "1.4.1" "{}" "Message({content})"
                eq_refl eq_refl ltac:(discriminate) eq_refl eq_refl) as [_ H].
  apply H. reflexivity.
Defined.

End SignMessage.

(** ** The dashboard: signatures that arrive by a shared link *)

Module SharedLinks.

Import ProtocolKit.

Inductive Toast : Type :=
  | ToastSuccess (text : string)
  | ToastError (text : string).

(** What [JSON.parse] makes of an [importSig] or [importMsgSig]
    parameter: [parsed.signature], [None] when it is missing, and
    [parsed.txHash] or [parsed.messageHash], empty when it is missing. *)
Record SignatureLink : Type := mkLink {
  linkSignature : option SafeSignature;
  linkHash : string;
}.

(** [urlChainId || (chain?.id ? String(chain.id) : undefined)] *)
Definition linkChainId (urlChainId : option string) (chain : option Z)
    : option string :=
  let connected :=
    match chain with
    | Some id => if id =? 0 then None else Some (JS.integerToString id)
    | None => None
    end in
  match urlChainId with
  | Some c => if JS.truthy c then Some c else connected
  | None => connected
  end.

Section WithKit.

(** [kit.getTransactionHash] and [kit.getSafeMessageHash], taken to
    return a hash for every transaction and message they are given. *)
Variable getTransactionHash : EthSafeTransaction -> string.
Variable getSafeMessageHash : SafeMessageProvider.MessageData -> string.

(** The [importSigParam] branch of [handleSharedLinks].  The transaction
    found in the queue is an object of the in-memory array, so adding the
    signature changes the entry of that array on the spot; local storage
    is written by [saveTransaction] only, which is called without a
    chain id. *)
Definition importSignature (urlChainId : option string) (chain : option Z)
    (parsed : Completion SignatureLink) (safeAddress : string)
    (p : SafeTxProvider.Provider) : SafeTxProvider.Provider * option Toast :=
  match parsed with
  | Throw _ => (p, Some (ToastError "Failed to import signature from shared link"))
  | Normal link =>
      match linkSignature link with
      | Some sig =>
          if JS.truthy (linkHash link) then
            let chainId := linkChainId urlChainId chain in
            let key := SafeTxProvider.keyOf safeAddress chainId in
            let allTransactions := SafeTxProvider.queueAt key p in
            match list_find (fun tx => getTransactionHash tx = linkHash link)
                            allTransactions with
            | Some (i, matchingTx) =>
                let signed := addSignature sig matchingTx in
                let mutated :=
                  {| SafeTxProvider.current :=
                       <[key := <[i := signed]> allTransactions]>
                         (SafeTxProvider.current p);
                     SafeTxProvider.stored := SafeTxProvider.stored p |} in
                (SafeTxProvider.saveTransaction safeAddress signed None mutated,
                 Some (ToastSuccess "Signature added successfully!"))
            | None =>
                (p, Some (ToastError
                   "Transaction not found. Please import the full transaction first."))
            end
          else (p, None)
      | None => (p, None)
      end
  end.

(** The [importMsgSigParam] branch: the same with messages, and with the
    chain id handed on to [saveMessage]. *)
Definition importMessageSignature (urlChainId : option string) (chain : option Z)
    (parsed : Completion SignatureLink) (safeAddress : string)
    (p : SafeMessageProvider.Provider)
    : SafeMessageProvider.Provider * option Toast :=
  match parsed with
  | Throw _ => (p, Some (ToastError "Failed to import signature from shared link"))
  | Normal link =>
      match linkSignature link with
      | Some sig =>
          if JS.truthy (linkHash link) then
            let chainId := linkChainId urlChainId chain in
            let key := SafeTxProvider.keyOf safeAddress chainId in
            let entries := SafeMessageProvider.entriesAt key p in
            match list_find
                    (fun e => getSafeMessageHash
                                (SafeMessageProvider.data (SafeMessageProvider.message e))
                              = linkHash link) entries with
            | Some (i, entry) =>
                let signed :=
                  SafeMessageProvider.addSignature sig
                    (SafeMessageProvider.message entry) in
                let mutated :=
                  {| SafeMessageProvider.current :=
                       <[key := <[i := {| SafeMessageProvider.message := signed;
                                          SafeMessageProvider.hash :=
                                            SafeMessageProvider.hash entry |}]> entries]>
                         (SafeMessageProvider.current p);
                     SafeMessageProvider.stored := SafeMessageProvider.stored p |} in
                (SafeMessageProvider.saveMessage safeAddress signed (linkHash link)
                   chainId mutated,
                 Some (ToastSuccess "Signature added successfully!"))
            | None =>
                (p, Some (ToastError
                   "Message not found. Please import the full message first."))
            end
          else (p, None)
      | None => (p, None)
      end
  end.

End WithKit.

(** Hashes for the worked examples: the nonce in decimal for a
    transaction, the text itself for a message. *)
Definition nonceAsHash (tx : EthSafeTransaction) : string :=
  JS.numberToString (nonceNumber tx).
Definition textAsHash (d : SafeMessageProvider.MessageData) : string :=
  match d with
  | SafeMessageProvider.PlainText text => text
  | SafeMessageProvider.TypedData json => json
  end.

(** *** Properties *)

Lemma linkChainId_truthy (urlChainId : option string) (chain : option Z) (c : string) :
  linkChainId urlChainId chain = Some c -> JS.truthy c = true.
Proof.
  unfold linkChainId.
  assert (Hconn : match chain with
                  | Some id => if id =? 0 then None else Some (JS.integerToString id)
                  | None => None
                  end = Some c -> JS.truthy c = true).
  { destruct chain as [id|]; [|discriminate].
    destruct (id =? 0); [discriminate|]. intros [= <-].
    apply JS.truthy_integerToString. }
  destruct urlChainId as [u|]; [|exact Hconn].
  destruct (JS.truthy u) eqn:Hu; [|exact Hconn]. intros [= <-]. exact Hu.
Qed.

Lemma chain_key_differs (sa c : string) :
  JS.truthy c = true ->
  SafeTxProvider.keyOf sa (Some c) <> SafeTxProvider.keyOf sa None.
Proof.
  intros Hc. rewrite TxQueue.keyOf_chain by exact Hc. simpl. intros Heq.
  apply (f_equal String.length) in Heq.
  rewrite !TxQueue.append_length in Heq. simpl in Heq. lia.
Qed.

Section Imports.

Variable getTransactionHash : EthSafeTransaction -> string.
Variable getSafeMessageHash : SafeMessageProvider.MessageData -> string.

(** X21. A signature link for a transaction that is queued under a chain
    id adds the signature to the queued transaction in memory, but writes
    nothing under the chain's key to local storage: the signed transaction
    is saved, in memory and in storage, under the key without a chain id.
    When storage held the chain's queue before, a page load therefore
    brings the chain's queue back as it was before the link was opened,
    without the signature. *)
Theorem signature_link_is_saved_without_the_chain
    (p : SafeTxProvider.Provider) (sa : string) (urlChainId : option string)
    (chain : option Z) (c h : string) (sig : SafeSignature)
    (i : nat) (tx : EthSafeTransaction) :
  let key := SafeTxProvider.keyOf sa (Some c) in
  let queue := SafeTxProvider.queueAt key p in
  let p' := (importSignature getTransactionHash urlChainId chain
               (Normal {| linkSignature := Some sig; linkHash := h |}) sa p).1 in
  linkChainId urlChainId chain = Some c ->
  JS.truthy h = true ->
  list_find (fun t => getTransactionHash t = h) queue = Some (i, tx) ->
  SafeTxProvider.queueAt key p' = <[i := addSignature sig tx]> queue
  /\ SafeTxProvider.stored p' !! key = SafeTxProvider.stored p !! key
  /\ (TxQueue.storedAt key p = queue ->
      SafeTxProvider.queueAt key (SafeTxProvider.hydrate p') = queue)
  /\ addSignature sig tx ∈ SafeTxProvider.queueAt (SafeTxProvider.keyOf sa None) p'
  /\ TxQueue.storedAt (SafeTxProvider.keyOf sa None) p' =
     SafeTxProvider.asStored <$>
       SafeTxProvider.queueAt (SafeTxProvider.keyOf sa None) p'.
Proof.
  intros key queue p' Hc Hh Hfind.
  pose proof (chain_key_differs sa c (linkChainId_truthy _ _ _ Hc)) as Hne.
  fold key in Hne.
  assert (Hp' : p' =
    SafeTxProvider.saveTransaction sa (addSignature sig tx) None
      {| SafeTxProvider.current :=
           <[key := <[i := addSignature sig tx]> queue]> (SafeTxProvider.current p);
         SafeTxProvider.stored := SafeTxProvider.stored p |}).
  { subst p'. unfold importSignature. cbn [linkSignature linkHash].
    rewrite Hh, Hc. cbv zeta. fold key. fold queue. rewrite Hfind. reflexivity. }
  rewrite Hp'. clear Hp' p'.
  set (mutated := {| SafeTxProvider.current := _; SafeTxProvider.stored := _ |}).
  assert (Hq : SafeTxProvider.queueAt key
                 (SafeTxProvider.saveTransaction sa (addSignature sig tx) None mutated)
               = <[i := addSignature sig tx]> queue).
  { unfold SafeTxProvider.saveTransaction. cbv zeta.
    rewrite TxQueue.queueAt_other_key by (intros Heq; apply Hne; now rewrite Heq).
    subst mutated. simpl. now rewrite lookup_insert_eq. }
  assert (Hs : SafeTxProvider.stored
                 (SafeTxProvider.saveTransaction sa (addSignature sig tx) None mutated)
               !! key = SafeTxProvider.stored p !! key).
  { unfold SafeTxProvider.saveTransaction. cbv zeta. simpl.
    rewrite lookup_insert_ne by (intros Heq; apply Hne; now rewrite Heq).
    reflexivity. }
  split; [exact Hq|]. split; [exact Hs|]. split; [|split].
  - intros Hstored. unfold SafeTxProvider.hydrate, SafeTxProvider.queueAt. simpl.
    unfold TxQueue.storedAt in Hstored. simpl in Hs.
    unfold SafeTxProvider.saveTransaction in Hs |- *. cbv zeta in *. simpl in *.
    rewrite Hs. exact Hstored.
  - rewrite SafeTxProvider.queueAt_save.
    pose proof (JS.sort_perm SafeTxProvider.compareNonces
      (SafeTxProvider.upsertBy SafeTxProvider.sameNonce (addSignature sig tx)
         (SafeTxProvider.queueAt (SafeTxProvider.keyOf sa None) mutated))) as Hperm.
    rewrite Hperm.
    assert (Hin : forall t l,
              t ∈ SafeTxProvider.upsertBy SafeTxProvider.sameNonce t l).
    { intros t l. induction l as [|x l IH]; [now left|].
      rewrite SafeTxProvider.upsertBy_cons.
      destruct (SafeTxProvider.sameNonce x t); [now left | now right]. }
    apply Hin.
  - unfold TxQueue.storedAt, SafeTxProvider.queueAt,
      SafeTxProvider.saveTransaction. cbv zeta. simpl.
    now rewrite !lookup_insert_eq.
Qed.

Lemma upsertByHash_at (m : SafeMessageProvider.EthSafeMessage) (h : string) :
  forall (l : list SafeMessageProvider.Entry) (i : nat) (e : SafeMessageProvider.Entry),
  l !! i = Some e -> SafeMessageProvider.hash e = h ->
  (forall j y, l !! j = Some y -> (j < i)%nat -> SafeMessageProvider.hash y <> h) ->
  SafeMessageProvider.upsertByHash m h l =
  <[i := {| SafeMessageProvider.message := m; SafeMessageProvider.hash := h |}]> l.
Proof.
  induction l as [|x l IH]; intros i e Hi He Hbefore; [discriminate|].
  rewrite SafeMessageProvider.upsertByHash_cons. destruct i as [|i]; simpl in *.
  - injection Hi as ->. rewrite He, String.eqb_refl. reflexivity.
  - destruct (String.eqb_spec (SafeMessageProvider.hash x) h) as [Hx|Hx].
    + exfalso. apply (Hbefore 0%nat x); [reflexivity | lia | exact Hx].
    + f_equal. apply (IH i e Hi He). intros j y Hj Hlt.
      apply (Hbefore (S j) y); [exact Hj | lia].
Qed.

(** X22. A signature link for a message that is listed under the hash
    the kit computes for it adds the signature to the listed message and
    saves it under the key it was found under, chain id included: the
    entry takes the signed message in its place, [getMessage] returns it,
    and local storage is written from the whole in-memory map. *)
Theorem message_signature_link_is_saved_with_the_chain
    (p : SafeMessageProvider.Provider) (sa : string) (urlChainId : option string)
    (chain : option Z) (h : string) (sig : SafeSignature)
    (i : nat) (entry : SafeMessageProvider.Entry) :
  let chainId := linkChainId urlChainId chain in
  let key := SafeTxProvider.keyOf sa chainId in
  let entries := SafeMessageProvider.entriesAt key p in
  let signed := SafeMessageProvider.addSignature sig (SafeMessageProvider.message entry) in
  let p' := (importMessageSignature getSafeMessageHash urlChainId chain
               (Normal {| linkSignature := Some sig; linkHash := h |}) sa p).1 in
  JS.truthy h = true ->
  (forall e, e ∈ entries ->
     SafeMessageProvider.hash e =
     getSafeMessageHash (SafeMessageProvider.data (SafeMessageProvider.message e))) ->
  list_find (fun e => getSafeMessageHash
                        (SafeMessageProvider.data (SafeMessageProvider.message e)) = h)
            entries = Some (i, entry) ->
  SafeMessageProvider.entriesAt key p' =
    <[i := {| SafeMessageProvider.message := signed; SafeMessageProvider.hash := h |}]>
      entries
  /\ SafeMessageProvider.getMessage sa h chainId p' = Some signed
  /\ SafeMessageProvider.stored p' =
     (fun l : list SafeMessageProvider.Entry => SafeMessageProvider.toStored <$> l)
       <$> SafeMessageProvider.current p'.
Proof.
  intros chainId key entries signed p' Hh Hfiled Hfind.
  set (mutated :=
    {| SafeMessageProvider.current :=
         <[key := <[i := {| SafeMessageProvider.message := signed;
                            SafeMessageProvider.hash := SafeMessageProvider.hash entry |}]>
                    entries]> (SafeMessageProvider.current p);
       SafeMessageProvider.stored := SafeMessageProvider.stored p |}).
  assert (Hp' : p' = SafeMessageProvider.saveMessage sa signed h chainId mutated).
  { subst p'. unfold importMessageSignature. cbn [linkSignature linkHash].
    rewrite Hh. cbv zeta. fold chainId. fold key. fold entries.
    rewrite Hfind. reflexivity. }
  rewrite Hp'. clear Hp' p'.
  apply list_find_Some in Hfind as (Hi & Hhash & Hbefore).
  assert (Hentry : SafeMessageProvider.hash entry = h).
  { rewrite Hfiled; [exact Hhash|]. eapply list_elem_of_lookup_2, Hi. }
  assert (Hmut : SafeMessageProvider.entriesAt key mutated =
    <[i := {| SafeMessageProvider.message := signed;
              SafeMessageProvider.hash := h |}]> entries).
  { unfold SafeMessageProvider.entriesAt at 1. subst mutated. simpl.
    rewrite lookup_insert_eq. simpl. now rewrite Hentry. }
  split; [|split].
  - unfold key. rewrite SafeMessageProvider.entriesAt_save. fold key.
    rewrite Hmut.
    rewrite (upsertByHash_at signed h _ i
               {| SafeMessageProvider.message := signed;
                  SafeMessageProvider.hash := h |}).
    + apply list_insert_insert_eq.
    + apply list_lookup_insert_eq. eapply lookup_lt_Some, Hi.
    + reflexivity.
    + intros j y Hj Hlt.
      rewrite list_lookup_insert_ne in Hj by lia.
      rewrite Hfiled by (eapply list_elem_of_lookup_2, Hj).
      exact (Hbefore j y Hj Hlt).
  - unfold SafeMessageProvider.getMessage. cbv zeta.
    rewrite SafeMessageProvider.entriesAt_save,
      SafeMessageProvider.find_upsertByHash, String.eqb_refl.
    reflexivity.
  - reflexivity.
Qed.

End Imports.

Lemma signature_link_is_saved_without_the_chain_witness :
  SafeTxProvider.queueAt (SafeTxProvider.keyOf aSafeAddress (Some "1"))
    (SafeTxProvider.hydrate
       (importSignature nonceAsHash (Some "1") None
          (Normal {| linkSignature := Some aSignature; linkHash := "7" |})
          aSafeAddress
          (SafeTxProvider.run
             [SafeTxProvider.Save aSafeAddress (emptyTx 7) (Some "1")])).1)
    = [emptyTx 7]
  /\ addSignature aSignature (emptyTx 7)
       ∈ SafeTxProvider.queueAt (SafeTxProvider.keyOf aSafeAddress None)
           (importSignature nonceAsHash (Some "1") None
              (Normal {| linkSignature := Some aSignature; linkHash := "7" |})
              aSafeAddress
              (SafeTxProvider.run
                 [SafeTxProvider.Save aSafeAddress (emptyTx 7) (Some "1")])).1.
Proof.
  pose proof (signature_link_is_saved_without_the_chain nonceAsHash
                (SafeTxProvider.run
                   [SafeTxProvider.Save aSafeAddress (emptyTx 7) (Some "1")])
                aSafeAddress (Some "1") None "1" "7" aSignature 0 (emptyTx 7)) as H.
  cbv zeta in H. destruct (H eq_refl eq_refl eq_refl) as (_ & _ & H3 & H4 & _).
  split; [apply H3; reflexivity | exact H4].
Defined.

Lemma message_signature_link_is_saved_with_the_chain_witness :
  SafeMessageProvider.getMessage aSafeAddress "hello" (Some "1")
    (importMessageSignature textAsHash (Some "1") None
       (Normal {| linkSignature := Some aSignature; linkHash := "hello" |})
       aSafeAddress
       (SafeMessageProvider.run
          [SafeMessageProvider.Save aSafeAddress SafeMessageProvider.hello
             "hello" (Some "1")])).1
  = Some SafeMessageProvider.helloSigned.
Proof.
  pose proof (message_signature_link_is_saved_with_the_chain textAsHash
                (SafeMessageProvider.run
                   [SafeMessageProvider.Save aSafeAddress SafeMessageProvider.hello
                      "hello" (Some "1")])
                aSafeAddress (Some "1") None "hello" aSignature 0
                {| SafeMessageProvider.message := SafeMessageProvider.hello;
                   SafeMessageProvider.hash := "hello" |}) as H.
  cbv zeta in H. destruct H as (_ & H2 & _).
  - reflexivity.
  - intros e He. apply list_elem_of_singleton in He. subst e. reflexivity.
  - reflexivity.
  - exact H2.
Defined.

End SharedLinks.

(** ** The transaction page: who may sign, execute and broadcast *)

Module TxDetails.

Import ProtocolKit.

(** [safeTx.signatures?.size || 0] *)
Definition signatureCount (tx : EthSafeTransaction) : Z :=
  Z.of_nat (size (signatures tx)).

(** [safeTx && connectedAddress
      ? (safeTx.signatures?.has(connectedAddress.toLowerCase()) ?? false)
      : false] *)
Definition hasSignedThisTx (safeTx : option EthSafeTransaction)
    (connectedAddress : option string) : bool :=
  match safeTx, connectedAddress with
  | Some tx, Some addr =>
      if JS.truthy addr
      then bool_decide (is_Some (signatures tx !! JS.toLowerCase addr))
      else false
  | _, _ => false
  end.

(** [canExecuteDirectly]; [threshold] is [safeInfo.threshold] when there
    is a [safeInfo]. *)
Definition canExecuteDirectly (safeTx : option EthSafeTransaction)
    (threshold : option Z) (isOwner : bool) (connectedAddress : option string)
    : bool :=
  match safeTx, threshold with
  | Some tx, Some t =>
      if isOwner && negb (hasSignedThisTx safeTx connectedAddress)
      then t - signatureCount tx =? 1
      else false
  | _, _ => false
  end.

(** The [disabled] attribute of the sign button and of the broadcast
    button. *)
Definition signDisabled (safeTx : option EthSafeTransaction) (isOwner signing : bool)
    (connectedAddress : option string) : bool :=
  negb isOwner || signing || hasSignedThisTx safeTx connectedAddress.

Definition broadcastDisabled (safeTx : option EthSafeTransaction)
    (threshold : option Z) (broadcasting : bool) : bool :=
  negb (match safeTx, threshold with
        | Some tx, Some t => t <=? signatureCount tx
        | _, _ => false
        end)
  || broadcasting.

(** *** Properties *)

Lemma signatureCount_addSignature (sig : SafeSignature) (tx : EthSafeTransaction) :
  signatureCount (addSignature sig tx) =
  if bool_decide (is_Some (signatures tx !! JS.toLowerCase (signer sig)))
  then signatureCount tx else signatureCount tx + 1.
Proof.
  unfold signatureCount, addSignature. simpl.
  destruct (signatures tx !! JS.toLowerCase (signer sig)) as [old|] eqn:E.
  - rewrite bool_decide_eq_true_2 by eauto.
    rewrite <- (insert_delete_eq (signatures tx)), map_size_insert_None
      by apply lookup_delete_eq.
    rewrite <- (insert_delete_id (signatures tx) _ _ E) at 2.
    rewrite map_size_insert_None by apply lookup_delete_eq. reflexivity.
  - rewrite bool_decide_eq_false_2 by (intros [? ?]; discriminate).
    rewrite map_size_insert_None by exact E. lia.
Qed.

(** X23. For an owner who has not signed, signing and executing in one go
    is offered exactly when broadcasting is not possible yet and becomes
    possible with the owner's own signature; once that signature is on
    the transaction the owner counts as having signed, the sign button
    is disabled and the offer is gone.  A signature of an address that
    has signed already does not change the count. *)
Theorem execute_is_offered_for_the_last_signature (tx : EthSafeTransaction)
    (threshold : Z) (connectedAddress : string) (sig : SafeSignature) :
  JS.truthy connectedAddress = true ->
  JS.toLowerCase (signer sig) = JS.toLowerCase connectedAddress ->
  let signed := addSignature sig tx in
  (hasSignedThisTx (Some tx) (Some connectedAddress) = false ->
     (canExecuteDirectly (Some tx) (Some threshold) true (Some connectedAddress) = true
      <-> broadcastDisabled (Some tx) (Some threshold) false = true
          /\ broadcastDisabled (Some signed) (Some threshold) false = false))
  /\ (hasSignedThisTx (Some tx) (Some connectedAddress) = true ->
      signatureCount signed = signatureCount tx)
  /\ hasSignedThisTx (Some signed) (Some connectedAddress) = true
  /\ signDisabled (Some signed) true false (Some connectedAddress) = true
  /\ canExecuteDirectly (Some signed) (Some threshold) true (Some connectedAddress)
     = false.
Proof.
  intros Haddr Hsigner signed.
  assert (Hafter : hasSignedThisTx (Some signed) (Some connectedAddress) = true).
  { unfold hasSignedThisTx. rewrite Haddr. apply bool_decide_eq_true_2.
    subst signed. unfold addSignature. simpl.
    rewrite Hsigner, lookup_insert_eq. eauto. }
  pose proof (signatureCount_addSignature sig tx) as Hcount.
  fold signed in Hcount. rewrite Hsigner in Hcount.
  split; [|split; [|split; [exact Hafter|split]]].
  - intros Hnot. unfold canExecuteDirectly. rewrite Hnot. simpl.
    unfold hasSignedThisTx in Hnot. rewrite Haddr in Hnot. rewrite Hnot in Hcount.
    unfold broadcastDisabled. rewrite !orb_false_r, Hcount.
    rewrite negb_true_iff, negb_false_iff, Z.eqb_eq, Z.leb_gt, Z.leb_le. lia.
  - intros Hhas. unfold hasSignedThisTx in Hhas. rewrite Haddr in Hhas.
    now rewrite Hhas in Hcount.
  - unfold signDisabled. rewrite Hafter. reflexivity.
  - unfold canExecuteDirectly. rewrite Hafter. reflexivity.
Qed.

Lemma execute_is_offered_for_the_last_signature_witness :
  canExecuteDirectly (Some (emptyTx 4)) (Some 1) true (Some (signer aSignature)) = true
  /\ broadcastDisabled (Some (addSignature aSignature (emptyTx 4))) (Some 1) false
     = false.
Proof.
  pose proof (execute_is_offered_for_the_last_signature (emptyTx 4) 1
                (signer aSignature) aSignature eq_refl eq_refl) as H.
  cbv zeta in H. destruct H as (H & _).
  assert (Hoffer : canExecuteDirectly (Some (emptyTx 4)) (Some 1) true
                     (Some (signer aSignature)) = true) by reflexivity.
  split; [exact Hoffer|]. apply (H eq_refl). exact Hoffer.
Defined.

End TxDetails.

(** ** The dashboard: the lists of pending transactions and messages *)

Module Dashboard.

Import ProtocolKit.

(** [chain?.id ? String(chain.id) : undefined] *)
Definition connectedChainId (chain : option Z) : option string :=
  match chain with
  | Some id => if id =? 0 then None else Some (JS.integerToString id)
  | None => None
  end.

Section WithKit.

(** [kit.getTransactionHash] and [kit.getSafeMessageHash], taken to
    return a hash for every transaction and message they are given. *)
Variable getTransactionHash : EthSafeTransaction -> string.
Variable getSafeMessageHash : SafeMessageProvider.MessageData -> string.

(** The effects that fetch the lists: what they give [setAllTxs] and
    [setAllMessages]. *)
Definition fetchTxs (safeAddress : string) (chain : option Z)
    (p : SafeTxProvider.Provider) : list (EthSafeTransaction * string) :=
  let chainId := connectedChainId chain in
  let transactions := (SafeTxProvider.getAllTransactions safeAddress chainId p).1 in
  (fun tx => (tx, getTransactionHash tx)) <$> transactions.

Definition fetchMessages (safeAddress : string) (chain : option Z)
    (p : SafeMessageProvider.Provider)
    : list (SafeMessageProvider.EthSafeMessage * string) :=
  let chainId := connectedChainId chain in
  let messages := SafeMessageProvider.getAllMessages safeAddress chainId p in
  (fun msg => (msg, getSafeMessageHash (SafeMessageProvider.data msg))) <$> messages.

(** [handleDeleteTransaction] and [handleDeleteMessage] on the list shown
    and the provider; [confirmed] is the answer to the confirmation. *)
Definition handleDeleteTransaction (confirmed : bool) (txHash : string)
    (nonce : JS.Number)
    (safeAddress : string) (chain : option Z)
    (allTxs : list (EthSafeTransaction * string)) (p : SafeTxProvider.Provider)
    : list (EthSafeTransaction * string) * SafeTxProvider.Provider :=
  if confirmed then
    let chainId := connectedChainId chain in
    let p' := SafeTxProvider.removeTransaction safeAddress (Some txHash) (Some nonce)
                chainId p in
    let updatedTxs := filter (fun row => row.2 <> txHash) allTxs in
    (updatedTxs, p')
  else (allTxs, p).

Definition handleDeleteMessage (confirmed : bool) (messageHash : string)
    (safeAddress : string) (chain : option Z)
    (allMessages : list (SafeMessageProvider.EthSafeMessage * string))
    (p : SafeMessageProvider.Provider)
    : list (SafeMessageProvider.EthSafeMessage * string) * SafeMessageProvider.Provider :=
  if confirmed then
    let chainId := connectedChainId chain in
    let p' := SafeMessageProvider.removeMessage safeAddress messageHash chainId p in
    let updatedMessages := filter (fun row => row.2 <> messageHash) allMessages in
    (updatedMessages, p')
  else (allMessages, p).

End WithKit.

(** *** Properties *)

Lemma filter_fmap_rows {A} (f : A -> string) (h : string) (P : A -> Prop)
    `{!forall x, Decision (P x)} (l : list A) :
  (forall x, x ∈ l -> (f x <> h <-> P x)) ->
  filter (fun row : A * string => row.2 <> h) ((fun x => (x, f x)) <$> l) =
  (fun x => (x, f x)) <$> filter P l.
Proof.
  induction l as [|x l IH]; intros Hrows; [reflexivity|].
  rewrite fmap_cons, !filter_cons. simpl.
  assert (Hl : forall y, y ∈ l -> (f y <> h <-> P y))
    by (intros; apply Hrows; now right).
  destruct (decide (f x <> h)) as [Hx|Hx], (decide (P x)) as [Hp|Hp].
  - rewrite fmap_cons, IH by exact Hl. reflexivity.
  - exfalso. apply Hp, Hrows; [now left | exact Hx].
  - exfalso. apply Hx, Hrows; [now left | exact Hp].
  - apply IH, Hl.
Qed.

Section Lists.

Variable getTransactionHash : EthSafeTransaction -> string.
Variable getSafeMessageHash : SafeMessageProvider.MessageData -> string.

(** X24. Deleting a row of the dashboard leaves the list shown equal to
    what a new fetch from the provider gives: for transactions, when the
    queue of the key is orderly and no other queued transaction has the
    hash of the deleted one; for messages, when the listed entries are
    filed under the hash the kit computes for them.  Declining the
    confirmation changes nothing. *)
Theorem deleting_a_row_keeps_the_list_in_step :
  (forall (p : SafeTxProvider.Provider) (sa : string) (chain : option Z)
          (tx : EthSafeTransaction),
     let rows := fetchTxs getTransactionHash sa chain p in
     SafeTxProvider.orderly
       (SafeTxProvider.queueAt (SafeTxProvider.keyOf sa (connectedChainId chain)) p) ->
     (tx, getTransactionHash tx) ∈ rows ->
     (forall t, (t, getTransactionHash t) ∈ rows ->
        getTransactionHash t = getTransactionHash tx -> t = tx) ->
     let after := handleDeleteTransaction true (getTransactionHash tx) (nonceNumber tx)
                    sa chain rows p in
     after.1 = fetchTxs getTransactionHash sa chain after.2
     /\ handleDeleteTransaction false (getTransactionHash tx) (nonceNumber tx)
          sa chain rows p = (rows, p))
  /\ (forall (p : SafeMessageProvider.Provider) (sa : string) (chain : option Z)
             (h : string),
     let rows := fetchMessages getSafeMessageHash sa chain p in
     (forall e,
        e ∈ SafeMessageProvider.entriesAt
              (SafeTxProvider.keyOf sa (connectedChainId chain)) p ->
        SafeMessageProvider.hash e =
        getSafeMessageHash (SafeMessageProvider.data (SafeMessageProvider.message e))) ->
     let after := handleDeleteMessage true h sa chain rows p in
     after.1 = fetchMessages getSafeMessageHash sa chain after.2).
Proof.
  split.
  - intros p sa chain tx rows [Hn Hstrict] Hrow Hinj after.
    split; [|reflexivity].
    subst after rows. unfold handleDeleteTransaction, fetchTxs in *.
    cbn [fst snd SafeTxProvider.getAllTransactions] in *.
    set (key := SafeTxProvider.keyOf sa (connectedChainId chain)) in *.
    assert (Hq : SafeTxProvider.queueAt key
                   (SafeTxProvider.removeTransaction sa
                      (Some (getTransactionHash tx)) (Some (nonceNumber tx))
                      (connectedChainId chain) p)
                 = filter (fun t => JS.numberEquals (nonceNumber t) (nonceNumber tx)
                                    = false)
                     (SafeTxProvider.queueAt key p)).
    { unfold SafeTxProvider.removeTransaction. fold key.
      rewrite andb_false_r.
      unfold SafeTxProvider.queueAt at 1. simpl. now rewrite lookup_insert_eq. }
    rewrite Hq. apply filter_fmap_rows. intros t Ht.
    apply JS.strict_NoDup in Hstrict.
    apply list_elem_of_fmap in Hrow as (tx' & Heq & Htx). injection Heq as <- _.
    rewrite Forall_forall in Hn.
    rewrite (SafeTxProvider.numbered_nonceNumber t (Hn t Ht)),
      (SafeTxProvider.numbered_nonceNumber tx (Hn tx Htx)),
      JS.numberEquals_Finite.
    split.
    + intros Hh. apply Z.eqb_neq. intros Hr. apply Hh.
      assert (t = tx) as ->; [|reflexivity].
      apply list_elem_of_lookup in Ht as [i Hi], Htx as [j Hj].
      assert (i = j) as ->.
      { apply (NoDup_lookup _ i j (SafeTxProvider.rank t) Hstrict);
          rewrite list_lookup_fmap; [rewrite Hi | rewrite Hj]; simpl; congruence. }
      congruence.
    + intros Hr Hh. apply Z.eqb_neq in Hr. apply Hr. f_equal. apply Hinj; [|exact Hh].
      apply list_elem_of_fmap. exists t. split; [reflexivity | exact Ht].
  - intros p sa chain h rows Hfiled after.
    subst after rows. unfold handleDeleteMessage, fetchMessages,
      SafeMessageProvider.getAllMessages. cbn [fst snd].
    rewrite SafeMessageProvider.entriesAt_remove.
    set (entries := SafeMessageProvider.entriesAt _ p) in *.
    rewrite <- !list_fmap_compose.
    clearbody entries. induction entries as [|e entries IH]; [reflexivity|].
    assert (He : SafeMessageProvider.hash e =
      getSafeMessageHash (SafeMessageProvider.data (SafeMessageProvider.message e)))
      by (apply Hfiled; now left).
    rewrite fmap_cons, !filter_cons. simpl. rewrite <- He.
    destruct (decide (SafeMessageProvider.hash e <> h)).
    + rewrite fmap_cons. simpl. f_equal; [now rewrite He|].
      apply IH. intros; apply Hfiled; now right.
    + apply IH. intros; apply Hfiled; now right.
Qed.

End Lists.

Lemma deleting_a_row_keeps_the_list_in_step_witness :
  (handleDeleteTransaction true (SharedLinks.nonceAsHash (emptyTx 5))
     (nonceNumber (emptyTx 5)) aSafeAddress (Some 1)
     (fetchTxs SharedLinks.nonceAsHash aSafeAddress (Some 1)
        (SafeTxProvider.run
           [SafeTxProvider.Save aSafeAddress (emptyTx 7) (Some "1");
            SafeTxProvider.Save aSafeAddress (emptyTx 5) (Some "1")]))
     (SafeTxProvider.run
        [SafeTxProvider.Save aSafeAddress (emptyTx 7) (Some "1");
         SafeTxProvider.Save aSafeAddress (emptyTx 5) (Some "1")])).1
  = [(emptyTx 7, "7")].
Proof.
  destruct (deleting_a_row_keeps_the_list_in_step SharedLinks.nonceAsHash
              SharedLinks.textAsHash) as [H _].
  pose proof (H (SafeTxProvider.run
                   [SafeTxProvider.Save aSafeAddress (emptyTx 7) (Some "1");
                    SafeTxProvider.Save aSafeAddress (emptyTx 5) (Some "1")])
                aSafeAddress (Some 1) (emptyTx 5)) as H'.
  cbv zeta in H'.
  assert (Hrows : fetchTxs SharedLinks.nonceAsHash aSafeAddress (Some 1)
            (SafeTxProvider.run
               [SafeTxProvider.Save aSafeAddress (emptyTx 7) (Some "1");
                SafeTxProvider.Save aSafeAddress (emptyTx 5) (Some "1")]) =
          [(emptyTx 5, "5"); (emptyTx 7, "7")]) by (vm_compute; reflexivity).
  destruct H' as [H' _].
  - assert (Hkey : SafeTxProvider.keyOf aSafeAddress (connectedChainId (Some 1)) =
                   SafeTxProvider.keyOf aSafeAddress (Some "1"))
      by (vm_compute; reflexivity).
    rewrite Hkey. apply SafeTxProvider.queueAt_wellKept, SafeTxProvider.wellKept_run.
    apply (bool_decide_unpack _). vm_compute. exact I.
  - rewrite Hrows.
    assert (Hh : SharedLinks.nonceAsHash (emptyTx 5) = "5") by (vm_compute; reflexivity).
    rewrite Hh. now left.
  - intros t Ht. rewrite Hrows in Ht.
    assert (Hh : SharedLinks.nonceAsHash (emptyTx 5) = "5") by (vm_compute; reflexivity).
    rewrite Hh.
    apply elem_of_cons in Ht as [Ht|Ht]; [now injection Ht|].
    apply list_elem_of_singleton in Ht. injection Ht as -> Hseven.
    intros Heq. rewrite Heq in Hseven. discriminate Hseven.
  - etransitivity; [exact H'|]. vm_compute. reflexivity.
Defined.

End Dashboard.

(** ** The message page: signing and answering the dApp *)

Module MessagePage.

Import ProtocolKit.

(** [s.includes(sub)] *)
Fixpoint includes (s sub : string) : bool :=
  if JS.startsWith s sub then true
  else match s with
       | EmptyString => false
       | String _ s' => includes s' sub
       end.

(** A WalletConnect request kept in session storage, and an answer given
    to [approveRequest]: the request and the [result] sent. *)
Record WcRequest : Type := mkRequest {
  topic : string;
  id : Z;
}.

Record Approval : Type := mkApproval {
  request : WcRequest;
  result : string;
}.

(** The page: its message, the message provider, the session storage,
    and what it has done so far: the answers given to the dApp, the
    toasts shown, whether it navigated back to the Safe. *)
Record Page : Type := mkPage {
  safeMessage : option SafeMessageProvider.EthSafeMessage;
  provider : SafeMessageProvider.Provider;
  session : gmap string string;
  approvals : list Approval;
  toasts : list SharedLinks.Toast;
  navigated : bool;
}.

(** A page for the worked examples: the message [hello], nothing saved
    yet, and a request of a dApp waiting in session storage. *)
Definition helloPage : Page :=
  {| safeMessage := Some SafeMessageProvider.hello;
     provider := SafeMessageProvider.initial;
     session := {[ "wc-message-0xabc" := "{topic,id}" ]};
     approvals := []; toasts := []; navigated := false |}.

Definition signerList (msg : SafeMessageProvider.EthSafeMessage) : string :=
  String.concat "," (map_to_list (SafeMessageProvider.signatures msg)).*1.

Definition aRequest (wcRequest : string) : Completion WcRequest :=
  Normal {| topic := wcRequest; id := 1 |}.

Section WithPage.

(** The props and hooks of the page: the Safe's address, the hash in the
    route, the connected chain, [safeInfo?.threshold], whether there is a
    kit; [signedMessage.encodedSignatures()] and
    [const { topic, id } = JSON.parse(wcRequest)]. *)
Variable safeAddress : string.
Variable messageHash : string.
Variable chainId : Z.
Variable safeInfoThreshold : option Z.
Variable kit : bool.
Variable encodedSignatures : SafeMessageProvider.EthSafeMessage -> string.
Variable parseRequest : string -> Completion WcRequest.

(** [`wc-message-${messageHash}`] *)
Definition requestKey : string := "wc-message-" +:+ messageHash.

(** [chainId?.toString()] *)
Definition chainKey : option string := Some (JS.integerToString chainId).

(** [safeInfo?.threshold || 1] *)
Definition threshold : Z :=
  match safeInfoThreshold with
  | Some t => if t =? 0 then 1 else t
  | None => 1
  end.

Definition signatureCount (msg : SafeMessageProvider.EthSafeMessage) : Z :=
  Z.of_nat (size (SafeMessageProvider.signatures msg)).

Definition toast (t : SharedLinks.Toast) (pg : Page) : Page :=
  {| safeMessage := safeMessage pg; provider := provider pg; session := session pg;
     approvals := approvals pg; toasts := toasts pg ++ [t];
     navigated := navigated pg |}.

Definition removeRequest (pg : Page) : Page :=
  {| safeMessage := safeMessage pg; provider := provider pg;
     session := delete requestKey (session pg);
     approvals := approvals pg; toasts := toasts pg; navigated := navigated pg |}.

(** The [catch] around the answer to the dApp; [manual] tells the one of
    [handleSendToWalletConnect] from the one of [handleSign]. *)
Definition respondFailure (manual : bool) (err : Thrown) (pg : Page) : Page :=
  let errorMsg := errorMessage err in
  if includes errorMsg "No matching key"
     || includes errorMsg "recently deleted"
     || includes errorMsg "Missing or invalid"
  then
    removeRequest
      (toast (SharedLinks.ToastError
                (if manual
                 then "WalletConnect request expired. Please initiate signing from the dApp again."
                 else "WalletConnect request expired. Message saved - you can manually respond if needed."))
             pg)
  else
    toast (SharedLinks.ToastError
             (if manual then "Failed to send signature to dApp"
              else "Signed but failed to respond to dApp")) pg.

(** From [approveRequest] on: the answer is given, and when the call
    returns the request and the message are removed.  [approveAnswer] is
    how the call completes. *)
Definition approve (manual : bool) (msg : SafeMessageProvider.EthSafeMessage)
    (req : WcRequest) (approveAnswer : Completion unit) (pg : Page) : Page :=
  let answered :=
    {| safeMessage := safeMessage pg; provider := provider pg; session := session pg;
       approvals := approvals pg ++ [{| request := req; result := encodedSignatures msg |}];
       toasts := toasts pg; navigated := navigated pg |} in
  match approveAnswer with
  | Throw err => respondFailure manual err answered
  | Normal _ =>
      {| safeMessage := safeMessage answered;
         provider := SafeMessageProvider.removeMessage safeAddress messageHash chainKey
                       (provider answered);
         session := delete requestKey (session answered);
         approvals := approvals answered;
         toasts := toasts answered
                   ++ [SharedLinks.ToastSuccess "Message signed and sent to dApp!"];
         navigated := true |}
  end.

(** [handleSign]; [signAnswer] is how [kit.signMessage] completes. *)
Definition handleSign (signAnswer : Completion SafeMessageProvider.EthSafeMessage)
    (approveAnswer : Completion unit) (pg : Page) : Page :=
  match safeMessage pg with
  | None => pg
  | Some _ =>
      if negb kit then pg
      else
        match signAnswer with
        | Throw err =>
            toast (SharedLinks.ToastError ("Failed to sign: " +:+ errorMessage err)) pg
        | Normal signedMessage =>
            let saved :=
              toast (SharedLinks.ToastSuccess "Signature added!")
                {| safeMessage := Some signedMessage;
                   provider := SafeMessageProvider.saveMessage safeAddress signedMessage
                                 messageHash chainKey (provider pg);
                   session := session pg; approvals := approvals pg;
                   toasts := toasts pg; navigated := navigated pg |} in
            if threshold <=? signatureCount signedMessage then
              match session pg !! requestKey with
              | Some wcRequest =>
                  if JS.truthy wcRequest then
                    match parseRequest wcRequest with
                    | Throw err => respondFailure false err saved
                    | Normal req => approve false signedMessage req approveAnswer saved
                    end
                  else toast (SharedLinks.ToastSuccess "Message fully signed!") saved
              | None => toast (SharedLinks.ToastSuccess "Message fully signed!") saved
              end
            else saved
        end
  end.

(** [handleSendToWalletConnect] *)
Definition handleSendToWalletConnect (approveAnswer : Completion unit) (pg : Page)
    : Page :=
  match safeMessage pg with
  | None => pg
  | Some msg =>
      if negb kit then pg
      else
        match session pg !! requestKey with
        | Some wcRequest =>
            if JS.truthy wcRequest then
              match parseRequest wcRequest with
              | Throw err => respondFailure true err pg
              | Normal req =>
                  if signatureCount msg =? 0
                  then toast (SharedLinks.ToastError "No signatures available") pg
                  else approve true msg req approveAnswer pg
              end
            else toast (SharedLinks.ToastError
                          "No WalletConnect request found for this message") pg
        | None => toast (SharedLinks.ToastError
                           "No WalletConnect request found for this message") pg
        end
  end.

(** [isThresholdMet && hasWCRequest], under which the button that calls
    [handleSendToWalletConnect] is rendered. *)
Definition sendButtonShown (pg : Page) : bool :=
  match safeMessage pg with
  | Some msg =>
      (threshold <=? signatureCount msg)
      && bool_decide (is_Some (session pg !! requestKey))
  | None => false
  end.

(** What the user can do on the page: sign, or press the send button
    when it is there. *)
Inductive Action : Type :=
  | Sign (signAnswer : Completion SafeMessageProvider.EthSafeMessage)
         (approveAnswer : Completion unit)
  | Send (approveAnswer : Completion unit).

Definition act (pg : Page) (a : Action) : Page :=
  match a with
  | Sign signAnswer approveAnswer => handleSign signAnswer approveAnswer pg
  | Send approveAnswer =>
      if sendButtonShown pg then handleSendToWalletConnect approveAnswer pg else pg
  end.

(** What an answer to the dApp must come with: the signatures of a
    message that has as many signatures as the threshold asks for. *)
Definition atThreshold (a : Approval) : Prop :=
  exists msg, result a = encodedSignatures msg /\ threshold <= signatureCount msg.

(** *** Properties *)

Lemma respondFailure_keeps (manual : bool) (err : Thrown) (pg : Page) :
  provider (respondFailure manual err pg) = provider pg /\
  approvals (respondFailure manual err pg) = approvals pg /\
  safeMessage (respondFailure manual err pg) = safeMessage pg.
Proof.
  unfold respondFailure. cbv zeta.
  destruct (_ || _); repeat split; reflexivity.
Qed.

Lemma approve_answers (manual : bool) (msg : SafeMessageProvider.EthSafeMessage)
    (req : WcRequest) (approveAnswer : Completion unit) (pg : Page) :
  approvals (approve manual msg req approveAnswer pg) =
    approvals pg ++ [{| request := req; result := encodedSignatures msg |}]
  /\ (forall err, approveAnswer = Throw err ->
        provider (approve manual msg req approveAnswer pg) = provider pg).
Proof.
  unfold approve. cbv zeta. destruct approveAnswer as [[]|err].
  - split; [reflexivity|]. intros err [=].
  - destruct (respondFailure_keeps manual err
      {| safeMessage := safeMessage pg; provider := provider pg; session := session pg;
         approvals := approvals pg ++ [{| request := req; result := encodedSignatures msg |}];
         toasts := toasts pg; navigated := navigated pg |}) as (Hp & Ha & _).
    split; [exact Ha|]. intros _ _. exact Hp.
Qed.

Lemma act_approvals (pg : Page) (a : Action) :
  approvals (act pg a) = approvals pg
  \/ exists ap, approvals (act pg a) = approvals pg ++ [ap] /\ atThreshold ap.
Proof.
  destruct a as [signAnswer approveAnswer|approveAnswer]; simpl.
  - unfold handleSign.
    destruct (safeMessage pg) as [m0|]; [|now left].
    destruct (negb kit); [now left|].
    destruct signAnswer as [signed|err]; [|now left].
    cbv zeta.
    destruct (Z.leb_spec threshold (signatureCount signed)) as [Hthr|_]; [|now left].
    destruct (session pg !! requestKey) as [wc|]; [|now left].
    destruct (JS.truthy wc); [|now left].
    destruct (parseRequest wc) as [req|err].
    + right. eexists.
      split; [rewrite (proj1 (approve_answers _ _ _ _ _)); reflexivity|].
      exists signed. split; [reflexivity | exact Hthr].
    + left. match goal with
            | |- context [respondFailure ?m ?e ?q] =>
                destruct (respondFailure_keeps m e q) as (_ & -> & _)
            end. reflexivity.
  - unfold sendButtonShown, handleSendToWalletConnect.
    destruct (safeMessage pg) as [msg|]; [|now left].
    destruct (Z.leb_spec threshold (signatureCount msg)) as [Hthr|_]; [|now left].
    simpl. destruct (bool_decide _); [|now left].
    destruct (negb kit); [now left|].
    destruct (session pg !! requestKey) as [wc|]; [|now left].
    destruct (JS.truthy wc); [|now left].
    destruct (parseRequest wc) as [req|err].
    + destruct (signatureCount msg =? 0); [now left|].
      right. eexists.
      split; [rewrite (proj1 (approve_answers _ _ _ _ _)); reflexivity|].
      exists msg. split; [reflexivity | exact Hthr].
    + left. match goal with
            | |- context [respondFailure ?m ?e ?q] =>
                destruct (respondFailure_keeps m e q) as (_ & -> & _)
            end. reflexivity.
Qed.

(** X25. On the message page the dApp is answered only with the
    signatures of a message that has reached the threshold, whether the
    answer is given right after signing or by the send button; and the
    message stays in the provider unless the answer went through: when
    signing fails nothing is saved, when the answer fails after signing
    the signed message is what [getMessage] returns, and a failed send
    leaves the provider as it was. *)
Theorem dapp_is_answered_at_threshold_only (actions : list Action) (pg : Page) :
  Forall atThreshold (approvals pg) ->
  Forall atThreshold (approvals (foldl act pg actions))
  /\ (forall err approveAnswer,
        provider (act pg (Sign (Throw err) approveAnswer)) = provider pg)
  /\ (forall signed err,
        safeMessage pg <> None -> kit = true ->
        SafeMessageProvider.getMessage safeAddress messageHash chainKey
          (provider (act pg (Sign (Normal signed) (Throw err)))) = Some signed)
  /\ (forall err, provider (act pg (Send (Throw err))) = provider pg).
Proof.
  intros Hpg. split; [|split; [|split]].
  - revert pg Hpg. induction actions as [|a actions IH]; intros pg Hpg; [exact Hpg|].
    simpl. apply IH.
    destruct (act_approvals pg a) as [->|(ap & -> & Hap)]; [exact Hpg|].
    apply Forall_app. split; [exact Hpg|]. now constructor.
  - intros err approveAnswer. simpl. unfold handleSign.
    destruct (safeMessage pg); [|reflexivity].
    destruct (negb kit); reflexivity.
  - intros signed err Hmsg Hkit. simpl. unfold handleSign.
    destruct (safeMessage pg) as [m0|]; [|contradiction].
    rewrite Hkit. cbv zeta. simpl negb. cbv iota.
    assert (Hsaved :
      SafeMessageProvider.getMessage safeAddress messageHash chainKey
        (SafeMessageProvider.saveMessage safeAddress signed messageHash chainKey
           (provider pg)) = Some signed).
    { unfold SafeMessageProvider.getMessage. cbv zeta.
      rewrite SafeMessageProvider.entriesAt_save,
        SafeMessageProvider.find_upsertByHash, String.eqb_refl. reflexivity. }
    destruct (threshold <=? signatureCount signed); [|exact Hsaved].
    destruct (session pg !! requestKey) as [wc|]; [|exact Hsaved].
    destruct (JS.truthy wc); [|exact Hsaved].
    destruct (parseRequest wc) as [req|err'].
    + match goal with
      | |- context [approve false signed req (Throw err) ?saved] =>
          destruct (approve_answers false signed req (Throw err) saved) as [_ Hp];
          rewrite (Hp err eq_refl)
      end. exact Hsaved.
    + match goal with
      | |- context [respondFailure false err' ?saved] =>
          destruct (respondFailure_keeps false err' saved) as (-> & _ & _)
      end. exact Hsaved.
  - intros err. simpl. destruct (sendButtonShown pg); [|reflexivity].
    unfold handleSendToWalletConnect.
    destruct (safeMessage pg) as [msg|]; [|reflexivity].
    destruct (negb kit); [reflexivity|].
    destruct (session pg !! requestKey) as [wc|]; [|reflexivity].
    destruct (JS.truthy wc); [|reflexivity].
    destruct (parseRequest wc) as [req|err'].
    + destruct (signatureCount msg =? 0); [reflexivity|].
      destruct (approve_answers true msg req (Throw err) pg) as [_ Hp].
      apply (Hp err eq_refl).
    + match goal with
      | |- context [respondFailure ?m ?e ?q] =>
          destruct (respondFailure_keeps m e q) as (-> & _ & _)
      end. reflexivity.
Qed.

End WithPage.

Lemma dapp_is_answered_at_threshold_only_witness :
  Forall (atThreshold (Some 1) signerList)
    (approvals
       (foldl (act aSafeAddress "0xabc" 1 (Some 1) true signerList aRequest)
          helloPage
          [Sign (Normal SafeMessageProvider.helloSigned) (Normal tt)]))
  /\ length
       (approvals
          (foldl (act aSafeAddress "0xabc" 1 (Some 1) true signerList aRequest)
             helloPage
             [Sign (Normal SafeMessageProvider.helloSigned) (Normal tt)])) = 1%nat.
Proof.
  split; [|reflexivity].
  apply (dapp_is_answered_at_threshold_only aSafeAddress "0xabc" 1 (Some 1) true
           signerList aRequest
           [Sign (Normal SafeMessageProvider.helloSigned) (Normal tt)] helloPage).
  constructor.
Defined.

End MessagePage.
